(** * PostGraph Cypher front-end and VLE engine: a shallow embedding

    The development follows the layout of the sources it embeds:

    - [cypher_gram.y]: the semantic actions of the expression grammar
      (boolean connectives, comparison chaining) and of the
      variable-length range productions;
    - [cypher_clause.c] and [cypher_transform_entity.c]: the clause
      transformer (MATCH paths and edge uniqueness, WITH/WHERE, SKIP and
      LIMIT, CREATE edges);
    - [age_vle.c]: the depth-first VLE engine and
      [_ag_enforce_edge_uniqueness];
    - [variable_edge.c]: the endpoint predicates on [VariableEdge].

    Part I holds the definitions, Part II the theorems. *)

From stdpp Require Import gmap strings list fin_maps pretty sorting.

Local Open Scope Z_scope.

Set Warnings "-register-all".

(* ===================================================================== *)
(** * Part I: definitions                                                 *)
(* ===================================================================== *)

(** ** Errors

    [ereport(ERROR, ...)] and [elog(ERROR, ...)] abort the current
    transformation or function call.  They are modelled by the [Err]
    constructor of a result type; the payload is the message. *)

Inductive res (A : Type) : Type :=
| Ok (a : A)
| Err (msg : string).
Arguments Ok {A} a.
Arguments Err {A} msg.

Definition res_bind {A B : Type} (r : res A) (k : A -> res B) : res B :=
  match r with
  | Ok a => k a
  | Err m => Err m
  end.

Notation "'do' x <- r ; k" := (res_bind r (fun x => k))
  (at level 20, x name, r at level 100, k at level 200,
   format "'[v' 'do'  x  <-  r ; '/' k ']'").

Notation "'do' ( x , y ) <- r ; k" :=
  (res_bind r (fun p => match p with (x, y) => k end))
  (at level 20, x name, y name, r at level 100, k at level 200,
   format "'[v' 'do'  ( x ,  y )  <-  r ; '/' k ']'").

Notation "'do' ( x , y , z ) <- r ; k" :=
  (res_bind r (fun p => match p with (x, y, z) => k end))
  (at level 20, x name, y name, z name, r at level 100, k at level 200,
   format "'[v' 'do'  ( x ,  y ,  z )  <-  r ; '/' k ']'").

Notation "'do' ( x , y , z , w ) <- r ; k" :=
  (res_bind r (fun p => match p with (x, y, z, w) => k end))
  (at level 20, x name, y name, z name, w name, r at level 100, k at level 200,
   format "'[v' 'do'  ( x ,  y ,  z ,  w )  <-  r ; '/' k ']'").

Definition is_Ok {A : Type} (r : res A) : bool :=
  match r with Ok _ => true | Err _ => false end.

Definition is_Err {A : Type} (r : res A) : bool := negb (is_Ok r).

(** ** Parse nodes (the fragment of PostgreSQL's raw parse tree the
    grammar actions build) *)

Inductive BoolExprType : Set := AND_EXPR | OR_EXPR | NOT_EXPR.

Inductive A_Expr_Kind : Set := AEXPR_OP.

Inductive CoercionForm : Set := COERCE_EXPLICIT_CALL | COERCE_SQL_SYNTAX.

(** The [val] member of an [A_Const]. *)
Inductive Value : Set :=
| T_Integer (ival : Z)
| T_String (str : string)
| T_Null.

Inductive Node : Type :=
| A_Const (val : Value) (location : Z)
| ColumnRef (fields : list string) (location : Z)
| A_Expr (kind : A_Expr_Kind) (name : list string)
         (lexpr rexpr : Node) (location : Z)
| BoolExpr (boolop : BoolExprType) (args : list Node) (location : Z)
| FuncCall (funcname : list string) (args : list Node)
           (funcformat : CoercionForm) (location : Z)
| NullTest (arg : Node) (is_null : bool) (location : Z)
| A_Indices (is_slice : bool) (lidx uidx : option Node)
| Var (varno varattno varlevelsup : Z).

#[global] Instance BoolExprType_eq_dec : EqDecision BoolExprType.
Proof. solve_decision. Defined.

Definition makeBoolExpr (boolop : BoolExprType) (args : list Node)
  (location : Z) : Node := BoolExpr boolop args location.

Definition makeSimpleA_Expr (kind : A_Expr_Kind) (name : string)
  (lexpr rexpr : Node) (location : Z) : Node :=
  A_Expr kind [name] lexpr rexpr location.

Definition makeFuncCall (name : list string) (args : list Node)
  (funcformat : CoercionForm) (location : Z) : Node :=
  FuncCall name args funcformat location.

Definition make_null_const (location : Z) : Node := A_Const T_Null location.
Definition make_int_const (i : Z) (location : Z) : Node :=
  A_Const (T_Integer i) location.
Definition make_string_const (s : string) (location : Z) : Node :=
  A_Const (T_String s) location.

(** ** cypher_gram.y: logical operators

    [make_or_expr] and [make_and_expr] update [bexpr->args] in place with
    [lappend] and hand the same node back.  The left operand is the
    semantic value [$1] of the reduction and is not referenced again, so
    the update is rendered as a new node with the extended list. *)

Definition make_or_expr (lexpr rexpr : Node) (location : Z) : Node :=
  match lexpr with
  | BoolExpr OR_EXPR args loc => BoolExpr OR_EXPR (args ++ [rexpr]) loc
  | _ => makeBoolExpr OR_EXPR [lexpr; rexpr] location
  end.

Definition make_and_expr (lexpr rexpr : Node) (location : Z) : Node :=
  match lexpr with
  | BoolExpr AND_EXPR args loc => BoolExpr AND_EXPR (args ++ [rexpr]) loc
  | _ => makeBoolExpr AND_EXPR [lexpr; rexpr] location
  end.

Definition make_xor_expr (lexpr rexpr : Node) (location : Z) : Node :=
  let aorb := makeBoolExpr OR_EXPR [lexpr; rexpr] location in
  let notaandb := makeBoolExpr AND_EXPR [lexpr; rexpr] location in
  let notaandb := makeBoolExpr NOT_EXPR [notaandb] location in
  makeBoolExpr AND_EXPR [aorb; notaandb] location.

Definition make_not_expr (expr : Node) (location : Z) : Node :=
  makeBoolExpr NOT_EXPR [expr] location.

(** ** cypher_gram.y: comparison chaining *)

(** [is_A_Expr_a_comparison_operation] takes the operator name list of
    the [A_Expr]; the source compares with the six literals below, the
    fourth being ["=>"]. *)
Definition is_A_Expr_a_comparison_operation (name : list string) : res bool :=
  match name with
  | [opr_name] =>
      if String.eqb opr_name "<" then Ok true
      else if String.eqb opr_name ">" then Ok true
      else if String.eqb opr_name "<=" then Ok true
      else if String.eqb opr_name "=>" then Ok true
      else if String.eqb opr_name "=" then Ok true
      else if String.eqb opr_name "<>" then Ok true
      else Ok false
  | _ => Err "qualified comparison operator names are not permitted"
  end.

Definition llast (l : list Node) : option Node := last l.

Definition build_comparison_expression (left_grammar_node right_grammar_node : Node)
  (opr_name : string) (location : Z) : res Node :=
  (* Case 1: the left operand is itself a comparison *)
  do result_expr <-
    match left_grammar_node return res (option Node) with
    | A_Expr _ name _ rexpr _ =>
        do c <- is_A_Expr_a_comparison_operation name;
        if c then
          let lexpr := rexpr in
          let n := makeSimpleA_Expr AEXPR_OP opr_name lexpr right_grammar_node location in
          Ok (Some (make_and_expr left_grammar_node n location))
        else Ok None
    | _ => Ok None
    end;
  (* Case 2: the left operand is an AND whose last operand is a comparison *)
  do result_expr <-
    match left_grammar_node return res (option Node) with
    | BoolExpr AND_EXPR args _ =>
        match llast args return res (option Node) with
        | Some (A_Expr _ name _ rexpr _) =>
            do c <- is_A_Expr_a_comparison_operation name;
            if c then
              let lexpr := rexpr in
              let n := makeSimpleA_Expr AEXPR_OP opr_name lexpr right_grammar_node location in
              Ok (Some (make_and_expr left_grammar_node n location))
            else Ok result_expr
        | _ => Ok result_expr
        end
    | _ => Ok result_expr
    end;
  (* Case 3: a regular comparison *)
  match result_expr with
  | Some e => Ok e
  | None => Ok (makeSimpleA_Expr AEXPR_OP opr_name left_grammar_node right_grammar_node location)
  end.

(** ** cypher_gram.y: the [expr] productions for connectives and
    comparisons

    [expr_syntax] is the derivation tree of the nonterminal [expr]
    restricted to the productions whose actions are embedded above; an
    operand that is not one of these (a literal, a variable, a function
    call, a parenthesised expression's content) is an [E_atom] that
    carries the node the other productions built.  [expr_action] runs
    the semantic actions bottom-up, as the generated parser does at each
    reduction.  The second component of each constructor is the location
    [@2] (or [@1]) of the operator token. *)

Inductive cmp_token : Set := TOK_EQ | TOK_NOT_EQ | TOK_LT | TOK_LT_EQ | TOK_GT | TOK_GT_EQ.

#[global] Instance cmp_token_eq_dec : EqDecision cmp_token.
Proof. solve_decision. Defined.

(** The operator name each comparison production passes to
    [build_comparison_expression]. *)
Definition cmp_opr_name (t : cmp_token) : string :=
  match t with
  | TOK_EQ => "="
  | TOK_NOT_EQ => "<>"
  | TOK_LT => "<"
  | TOK_LT_EQ => "<="
  | TOK_GT => ">"
  | TOK_GT_EQ => ">="
  end.

Inductive expr_syntax : Type :=
| E_atom (n : Node)
| E_or (l : expr_syntax) (loc : Z) (r : expr_syntax)
| E_and (l : expr_syntax) (loc : Z) (r : expr_syntax)
| E_xor (l : expr_syntax) (loc : Z) (r : expr_syntax)
| E_not (loc : Z) (e : expr_syntax)
| E_cmp (l : expr_syntax) (t : cmp_token) (loc : Z) (r : expr_syntax)
| E_paren (e : expr_syntax).

Fixpoint expr_action (e : expr_syntax) : res Node :=
  match e with
  | E_atom n => Ok n
  | E_or l loc r =>
      do a <- expr_action l; do b <- expr_action r; Ok (make_or_expr a b loc)
  | E_and l loc r =>
      do a <- expr_action l; do b <- expr_action r; Ok (make_and_expr a b loc)
  | E_xor l loc r =>
      do a <- expr_action l; do b <- expr_action r; Ok (make_xor_expr a b loc)
  | E_not loc e => do a <- expr_action e; Ok (make_not_expr a loc)
  | E_cmp l t loc r =>
      do a <- expr_action l; do b <- expr_action r;
      build_comparison_expression a b (cmp_opr_name t) loc
  | E_paren e => expr_action e
  end.

(** ** cypher_gram.y: variable-length ranges

    [Iconst] is the value of an integer token.  The derivation trees of
    [cypher_range_opt] and [cypher_varlen_opt] carry the token values and
    their locations. *)

Definition cypher_range_idx (i : Z) (loc : Z) : Node := make_int_const i loc.

Definition cypher_range_idx_opt (s : option (Z * Z)) : option Node :=
  match s with
  | Some (i, loc) => Some (cypher_range_idx i loc)
  | None => None
  end.

Inductive cypher_range_opt_syntax : Set :=
| RANGE_idx (i : Z) (loc : Z)
| RANGE_dot_dot (l : option (Z * Z)) (u : option (Z * Z))
| RANGE_empty.

(** [makeNode(A_Indices)] is zero-initialised. *)
Definition makeNode_A_Indices : Node := A_Indices false None None.

Definition cypher_range_opt (s : cypher_range_opt_syntax) : Node :=
  match s with
  | RANGE_idx i loc =>
      let n := cypher_range_idx i loc in
      A_Indices false (Some n) (Some n)
  | RANGE_dot_dot l u =>
      A_Indices false (cypher_range_idx_opt l) (cypher_range_idx_opt u)
  | RANGE_empty => makeNode_A_Indices
  end.

Inductive cypher_varlen_opt_syntax : Set :=
| VARLEN_star (r : cypher_range_opt_syntax) (loc : Z)
| VARLEN_empty.

(** [((A_Const * ) n)->val.val.ival] *)
Definition A_Const_ival (n : Node) : res Z :=
  match n with
  | A_Const (T_Integer i) _ => Ok i
  | _ => Err "not an integer constant"
  end.

Definition cypher_varlen_opt (s : cypher_varlen_opt_syntax) : res (option Node) :=
  match s with
  | VARLEN_star r loc =>
      match cypher_range_opt r with
      | A_Indices sl lidx uidx =>
          let lidx :=
            match lidx with
            | None => Some (make_int_const 1 loc)
            | Some l => Some l
            end in
          do _ <-
            match uidx, lidx return res unit with
            | Some u, Some l =>
                do li <- A_Const_ival l;
                do ui <- A_Const_ival u;
                if li >? ui then Err "invalid range" else Ok tt
            | _, _ => Ok tt
            end;
          Ok (Some (A_Indices sl lidx uidx))
      | _ => Err "not an A_Indices"
      end
  | VARLEN_empty => Ok None
  end.

(** ** Pattern nodes *)

Inductive cypher_rel_dir : Set :=
| CYPHER_REL_DIR_LEFT
| CYPHER_REL_DIR_NONE
| CYPHER_REL_DIR_RIGHT.

#[global] Instance cypher_rel_dir_eq_dec : EqDecision cypher_rel_dir.
Proof. solve_decision. Defined.

Record cypher_node : Type := mk_cypher_node {
  node_name : option string;
  node_label : option string;
  node_props : option Node;
  node_location : Z
}.

Record cypher_relationship : Type := mk_cypher_relationship {
  rel_name : option string;
  rel_label : option string;
  rel_props : option Node;
  rel_varlen : option Node;
  rel_dir : cypher_rel_dir;
  rel_location : Z
}.

(** The integer the grammar stores for a direction in [make_int_const(cr->dir, ...)]. *)
Definition cypher_rel_dir_int (d : cypher_rel_dir) : Z :=
  match d with
  | CYPHER_REL_DIR_LEFT => -1
  | CYPHER_REL_DIR_NONE => 0
  | CYPHER_REL_DIR_RIGHT => 1
  end.

(** ** cypher_gram.y: unique names and [build_VLE_relation]

    [get_a_unique_number] reads and increments a static counter; the
    counter is threaded explicitly. *)

Definition get_a_unique_number (unique_counter : N) : N * N :=
  (unique_counter, (unique_counter + 1)%N).

Definition UNIQUE_NAME_NULL_PREFIX : string := "_unique_null_prefix".

Definition create_unique_name (prefix_name : option string) (unique_counter : N)
  : string * N :=
  let (unique_number, unique_counter) := get_a_unique_number unique_counter in
  let prefix :=
    match prefix_name with
    | None => UNIQUE_NAME_NULL_PREFIX
    | Some p => if (String.length p =? 0)%nat then UNIQUE_NAME_NULL_PREFIX else p
    end in
  ((prefix ++ "_" ++ pretty unique_number)%string, unique_counter).

Definition CATALOG_SCHEMA : string := "postgraph".

(** The A_Indices view [(A_Indices * ) cr->varlen] used by the grammar
    while [cr->varlen] still is the node built by [cypher_varlen_opt]. *)
Definition varlen_lidx (varlen : option Node) : option Node :=
  match varlen with
  | Some (A_Indices _ l _) => l
  | _ => None
  end.

Definition varlen_uidx (varlen : option Node) : option Node :=
  match varlen with
  | Some (A_Indices _ _ u) => u
  | _ => None
  end.

(** [build_VLE_relation] receives the last node of the path built so far
    ([cnl]), the relationship and the node to its right ([cnr]); it names
    the two nodes when they are anonymous and replaces [cr->varlen] by
    the call [vle(start, end, edge, lidx, uidx, dir)]. *)
Definition build_VLE_relation (cnl : cypher_node) (cr : cypher_relationship)
  (cnr : cypher_node) (left_arg_location cr_location : Z) (unique_counter : N)
  : cypher_node * cypher_relationship * cypher_node * N :=
  let location := rel_location cr in
  let '(cnl, unique_counter) :=
    match node_name cnl with
    | None =>
        let (nm, c) := create_unique_name (Some "_vle_function_start_var") unique_counter in
        (mk_cypher_node (Some nm) (node_label cnl) (node_props cnl) (node_location cnl), c)
    | Some _ => (cnl, unique_counter)
    end in
  let args : list Node := [] in
  let args :=
    match node_name cnl with
    | Some nm => args ++ [ColumnRef [nm; "id"] left_arg_location]
    | None => args ++ [make_null_const (-1)]
    end in
  let '(cnr, unique_counter) :=
    match node_name cnr with
    | None =>
        let (nm, c) := create_unique_name (Some "_vle_function_end_var") unique_counter in
        (mk_cypher_node (Some nm) (node_label cnr) (node_props cnr) (node_location cnr), c)
    | Some _ => (cnr, unique_counter)
    end in
  let args :=
    match node_name cnl with
    | None => args ++ [ColumnRef [default ""%string (node_name cnr); "id"] left_arg_location]
    | Some _ => args ++ [make_null_const (-1)]
    end in
  let eargs : list Node := [] in
  let eargs :=
    match rel_label cr with
    | None => eargs ++ [make_null_const location]
    | Some l => eargs ++ [make_string_const l location]
    end in
  let eargs :=
    match rel_props cr with
    | None => eargs ++ [make_null_const location]
    | Some p => eargs ++ [p]
    end in
  let fname := [CATALOG_SCHEMA; "age_build_vle_match_edge"%string] in
  let node := makeFuncCall fname eargs COERCE_SQL_SYNTAX location in
  let args := args ++ [node] in
  let args :=
    match varlen_lidx (rel_varlen cr) with
    | None => args ++ [make_null_const location]
    | Some l => args ++ [l]
    end in
  let args :=
    match varlen_uidx (rel_varlen cr) with
    | None => args ++ [make_null_const location]
    | Some u => args ++ [u]
    end in
  let args := args ++ [make_int_const (cypher_rel_dir_int (rel_dir cr)) cr_location] in
  let varlen := makeFuncCall ["vle"%string] args COERCE_SQL_SYNTAX cr_location in
  (cnl,
   mk_cypher_relationship (rel_name cr) (rel_label cr) (rel_props cr) (Some varlen)
     (rel_dir cr) (rel_location cr),
   cnr, unique_counter).

(** ** Clause nodes *)

Inductive path_elem : Type :=
| PE_node (n : cypher_node)
| PE_rel (r : cypher_relationship).

Record cypher_path : Type := mk_cypher_path {
  path_elems : list path_elem;
  var_name : option string;
  path_location : Z
}.

Inductive SetOperation : Set := SETOP_NONE | SETOP_UNION | SETOP_INTERSECT | SETOP_EXCEPT.

Record cypher_return : Type := mk_cypher_return {
  ret_distinct : bool;
  ret_items : list Node;
  ret_order_by : list Node;
  ret_skip : option Node;
  ret_limit : option Node;
  ret_all_or_distinct : bool;
  ret_op : SetOperation;
  ret_larg : list Node;
  ret_rarg : list Node
}.

Record cypher_with : Type := mk_cypher_with {
  with_distinct : bool;
  with_items : list Node;
  with_order_by : list Node;
  with_skip : option Node;
  with_limit : option Node;
  with_where : option Node
}.

Record cypher_match : Type := mk_cypher_match {
  match_pattern : list cypher_path;
  match_where : option Node;
  match_optional : bool
}.

Record cypher_create : Type := mk_cypher_create {
  create_pattern : list cypher_path
}.

Inductive clause_node : Type :=
| N_cypher_return (n : cypher_return)
| N_cypher_with (n : cypher_with)
| N_cypher_match (n : cypher_match)
| N_cypher_create (n : cypher_create)
| N_other.

(** A clause of the chain: the node, the clause before it and whether a
    clause follows. *)
Inductive cypher_clause : Type :=
| mk_cypher_clause (self : clause_node) (prev : option cypher_clause) (has_next : bool).

Definition clause_self (c : cypher_clause) : clause_node :=
  match c with mk_cypher_clause s _ _ => s end.
Definition clause_prev (c : cypher_clause) : option cypher_clause :=
  match c with mk_cypher_clause _ p _ => p end.
Definition clause_has_next (c : cypher_clause) : bool :=
  match c with mk_cypher_clause _ _ n => n end.

(** [make_ag_node(cypher_return)]: a zeroed node. *)
Definition make_ag_node_cypher_return : cypher_return :=
  mk_cypher_return false [] [] None None false SETOP_NONE [] [].

(** ** cypher_transform_entity.c *)

Inductive transform_entity_type : Set := ENT_VERTEX | ENT_EDGE | ENT_VLE_EDGE.

#[global] Instance transform_entity_type_eq_dec : EqDecision transform_entity_type.
Proof. solve_decision. Defined.

(** The member [entity] is a union of a node pointer and a relationship
    pointer. *)
Inductive entity_union : Type :=
| entity_node (n : cypher_node)
| entity_rel (r : cypher_relationship).

Record transform_entity : Type := mk_transform_entity {
  ent_type : transform_entity_type;
  ent_entity : entity_union;
  declared_in_current_clause : bool;
  ent_expr : option Node;
  in_join_tree : bool
}.

Definition make_transform_entity (type : transform_entity_type)
  (node : entity_union) (expr : option Node) : transform_entity :=
  mk_transform_entity type node true expr (bool_decide (is_Some expr)).

(** Both members of the union start with the name. *)
Definition get_entity_name (entity : transform_entity) : option string :=
  match ent_entity entity with
  | entity_rel r => rel_name r
  | entity_node n => node_name n
  end.

Definition advance_transform_entities_to_next_clause (entities : list transform_entity)
  : list transform_entity :=
  map (fun e => mk_transform_entity (ent_type e) (ent_entity e) false
                  (ent_expr e) (in_join_tree e)) entities.

(** ** The host parser

    The clause transformer runs inside PostgreSQL's parser.  Its state
    ([ParseState]: range table, join list, namespace, flags, and the
    catalogs it reaches) and the values it builds are opaque here; the
    operations on them are the interface [HostOps].  Operations that can
    raise return a [res]; operations that change the parse state return
    the new state. *)

Inductive ParseExprKind : Set :=
| EXPR_KIND_NONE | EXPR_KIND_OTHER | EXPR_KIND_WHERE | EXPR_KIND_FROM_SUBSELECT
| EXPR_KIND_FROM_FUNCTION | EXPR_KIND_SELECT_TARGET | EXPR_KIND_ORDER_BY
| EXPR_KIND_GROUP_BY | EXPR_KIND_LIMIT | EXPR_KIND_OFFSET.

#[global] Instance ParseExprKind_eq_dec : EqDecision ParseExprKind.
Proof. solve_decision. Defined.

Inductive CmdType : Set := CMD_UNKNOWN | CMD_SELECT.

Record TargetEntry : Type := makeTargetEntry {
  tle_expr : Node;
  resno : Z;
  resname : option string;
  resjunk : bool
}.

Class HostTypes : Type := {
  ParseState : Type;
  RangeTable : Type;
  JoinList : Type;
  SortGroupList : Type;
  ParseNamespaceItem : Type;
  Relation : Type;
  p_rtable : ParseState -> RangeTable;
  p_joinlist : ParseState -> JoinList;
  p_hasSubLinks : ParseState -> bool;
  p_hasTargetSRFs : ParseState -> bool;
  p_hasAggs : ParseState -> bool;
  p_hasWindowFuncs : ParseState -> bool;
  p_expr_kind : ParseState -> ParseExprKind;
  p_lateral_active : ParseState -> bool;
  set_p_expr_kind : ParseState -> ParseExprKind -> ParseState;
  rtable_length : RangeTable -> Z;
  NIL_sort : SortGroupList;
  sort_is_NIL : SortGroupList -> bool
}.

Section HostData.
Context `{HostTypes}.

Record FromExpr : Type := makeFromExpr {
  fromlist : JoinList;
  quals : option Node
}.

Record Query : Type := mk_Query {
  commandType : CmdType;
  targetList : list TargetEntry;
  rtable : option RangeTable;
  jointree : option FromExpr;
  sortClause : SortGroupList;
  groupClause : SortGroupList;
  groupingSets : list Node;
  distinctClause : SortGroupList;
  hasDistinctOn : bool;
  limitOffset : option Node;
  limitCount : option Node;
  hasSubLinks : bool;
  hasTargetSRFs : bool;
  hasAggs : bool;
  hasWindowFuncs : bool
}.

(** The extension of the parse state by the Cypher transformer. *)
Record cypher_parsestate : Type := mk_cypher_parsestate {
  pstate : ParseState;
  graph_name : string;
  graph_oid : Z;
  entities : list transform_entity;
  property_constraint_quals : list Node
}.

Definition set_pstate (cps : cypher_parsestate) (ps : ParseState) : cypher_parsestate :=
  mk_cypher_parsestate ps (graph_name cps) (graph_oid cps) (entities cps)
    (property_constraint_quals cps).

Definition set_entities (cps : cypher_parsestate) (l : list transform_entity)
  : cypher_parsestate :=
  mk_cypher_parsestate (pstate cps) (graph_name cps) (graph_oid cps) l
    (property_constraint_quals cps).

Definition set_property_constraint_quals (cps : cypher_parsestate) (l : list Node)
  : cypher_parsestate :=
  mk_cypher_parsestate (pstate cps) (graph_name cps) (graph_oid cps) (entities cps) l.

End HostData.

Inductive label_kind : Set := LABEL_KIND_VERTEX | LABEL_KIND_EDGE.

#[global] Instance label_kind_eq_dec : EqDecision label_kind.
Proof. solve_decision. Defined.

Inductive target_node_flag : Set :=
| CYPHER_TARGET_NODE_FLAG_INSERT
| CYPHER_TARGET_NODE_IS_VAR
| CYPHER_TARGET_NODE_IN_PATH_VAR.

Record cypher_target_node : Type := mk_cypher_target_node {
  tn_type : label_kind;
  tn_flags : list target_node_flag;
  tn_label_name : option string;
  tn_variable_name : option string;
  tn_tuple_position : Z;
  tn_dir : cypher_rel_dir;
  tn_relid : Z;
  tn_id_expr : option Node;
  tn_prop_attr_num : Z
}.

Record cypher_create_path : Type := mk_cypher_create_path {
  ccp_target_nodes : list cypher_target_node;
  ccp_path_attr_num : Z
}.

Inductive clause_flag : Set :=
| CYPHER_CLAUSE_FLAG_TERMINAL
| CYPHER_CLAUSE_FLAG_PREVIOUS_CLAUSE.

Record cypher_create_target_nodes : Type := mk_cypher_create_target_nodes {
  ctn_paths : list cypher_create_path;
  ctn_flags : list clause_flag;
  ctn_graph_oid : Z
}.

Definition InvalidAttrNumber : Z := 0.
Definition INT8OID : Z := 20.

Class HostOps `{HostTypes} : Type := {
  (* cypher_expr.c and the expression parser *)
  transform_cypher_expr :
    cypher_parsestate -> Node -> ParseExprKind -> res (Node * cypher_parsestate);
  transformExpr : ParseState -> Node -> ParseExprKind -> res (Node * ParseState);
  coerce_to_specific_type : ParseState -> Node -> Z -> string -> res Node;
  coerce_to_boolean : ParseState -> Node -> string -> res Node;
  contain_vars_of_level : Node -> Z -> bool;
  (* the clause dispatcher; kept abstract to cut the recursion among the
     clause transformers *)
  transform_cypher_clause :
    cypher_parsestate -> cypher_clause -> res (Query * cypher_parsestate);
  (* parse states *)
  make_cypher_parsestate : cypher_parsestate -> cypher_parsestate;
  free_cypher_parsestate : cypher_parsestate -> cypher_parsestate -> ParseState;
  addRangeTableEntryForSubquery :
    ParseState -> Query -> option string -> bool -> bool ->
    res (ParseNamespaceItem * ParseState);
  rte_is_last : ParseState -> ParseNamespaceItem -> bool;
  checkNameSpaceConflicts : ParseState -> ParseNamespaceItem -> res unit;
  addNSItemToQuery : ParseState -> ParseNamespaceItem -> bool -> bool -> bool -> ParseState;
  expandNSItemAttrs : ParseState -> ParseNamespaceItem -> list TargetEntry;
  markTargetListOrigins : ParseState -> list TargetEntry -> list TargetEntry;
  assign_query_collations : ParseState -> Query -> res unit;
  parse_check_aggregates : ParseState -> Query -> res unit;
  (* the projection of RETURN *)
  transform_cypher_item_list :
    cypher_parsestate -> list Node -> ParseExprKind ->
    res (list TargetEntry * list Node * cypher_parsestate);
  transform_cypher_order_by :
    cypher_parsestate -> list Node -> list TargetEntry -> ParseExprKind ->
    res (SortGroupList * list TargetEntry * cypher_parsestate);
  transform_group_clause :
    cypher_parsestate -> list Node -> list TargetEntry -> SortGroupList -> ParseExprKind ->
    res (SortGroupList * list Node * list TargetEntry * cypher_parsestate);
  transformDistinctClause :
    ParseState -> list TargetEntry -> SortGroupList ->
    res (SortGroupList * list TargetEntry);
  (* what [((cypher_match * ) n)->where] reads when [n] is not a
     [cypher_match]: it depends on how the node structures are laid out *)
  where_through_match_cast : clause_node -> option Node;
  (* MATCH entities *)
  get_next_default_alias : cypher_parsestate -> string * cypher_parsestate;
  (* what [transform_cypher_node] and [transform_cypher_edge] call;
     [grandparent_cpstate] is
     [(cypher_parsestate * ) pstate->parentParseState->parentParseState] *)
  grandparent_cpstate : cypher_parsestate -> cypher_parsestate;
  colNameToVar : ParseState -> string -> bool -> Z -> res (option Node);
  get_graph_namespace_name : string -> string;
  get_label_relation_name : string -> Z -> string;
  addRangeTableEntry :
    ParseState -> string -> string -> string -> bool -> bool ->
    res (ParseNamespaceItem * ParseState);
  make_edge_expr : cypher_parsestate -> ParseNamespaceItem -> string -> Node;
  make_vertex_expr : cypher_parsestate -> ParseNamespaceItem -> string -> Node;
  create_property_constraints :
    cypher_parsestate -> transform_entity -> Node -> res (Node * cypher_parsestate);
  append_vle_to_from_clause :
    cypher_parsestate -> Node -> option string ->
    res (ParseNamespaceItem * cypher_parsestate);
  scanNSItemForColumn : ParseState -> ParseNamespaceItem -> string -> res Node;
  find_pnsi : cypher_parsestate -> option string -> option ParseNamespaceItem;
  next_resno : ParseState -> Z * ParseState;
  make_path_join_quals : cypher_parsestate -> list transform_entity -> res (list Node);
  transform_match_create_path_variable :
    cypher_parsestate -> cypher_path -> list transform_entity -> res TargetEntry;
  get_accessor_function_name : transform_entity_type -> string -> string;
  (* what [(A_Indices * ) n] reads when [n] is not an [A_Indices] *)
  indices_through_cast : Node -> option Node * option Node;
  (* CREATE *)
  search_label_name_graph_cache : ParseState -> string -> Z -> option label_kind;
  variable_exists : cypher_parsestate -> option string -> bool;
  placeholder_edge : cypher_parsestate -> string -> TargetEntry * cypher_parsestate;
  placeholder_traversal : cypher_parsestate -> string -> TargetEntry * cypher_parsestate;
  label_exists : ParseState -> string -> Z -> bool;
  create_edge_label : ParseState -> string -> string -> res ParseState;
  parserOpenTable : ParseState -> string -> string -> res (Relation * ParseState);
  RelationGetRelid : Relation -> Z;
  addRangeTableEntryForRelation : ParseState -> Relation -> ParseState;
  build_column_default : Relation -> option Node;
  cypher_create_properties :
    cypher_parsestate -> cypher_target_node -> Relation -> option Node ->
    transform_entity_type -> res (Node * cypher_parsestate);
  transform_create_cypher_node :
    cypher_parsestate -> list TargetEntry -> cypher_node ->
    res (cypher_target_node * list TargetEntry * cypher_parsestate);
  handle_prev_clause :
    cypher_parsestate -> list TargetEntry -> cypher_clause -> bool ->
    res (list TargetEntry * cypher_parsestate);
  make_clause_func_expr : string -> cypher_create_target_nodes -> Node;
  makeNullConst : Z -> Node;
  GTYPEOID : Z;
  (* names and macros defined in headers *)
  CREATE_CLAUSE_FUNCTION_NAME : string;
  AGE_DEFAULT_VARNAME_PREFIX : string;
  AG_DEFAULT_LABEL_EDGE : string;
  AG_DEFAULT_LABEL_VERTEX : string;
  IS_DEFAULT_LABEL_EDGE : option string -> bool;
  IS_DEFAULT_LABEL_VERTEX : option string -> bool
}.

Section ClauseTransformer.
Context `{HostOps}.

(** ** cypher_clause.c: SKIP and LIMIT *)

Definition transform_cypher_limit (cpstate : cypher_parsestate) (node : option Node)
  (expr_kind : ParseExprKind) (construct_name : string)
  : res (option Node * cypher_parsestate) :=
  match node with
  | None => Ok (None, cpstate)
  | Some node =>
      do (qual, cpstate) <- transform_cypher_expr cpstate node expr_kind;
      do qual <- coerce_to_specific_type (pstate cpstate) qual INT8OID construct_name;
      (* LIMIT can't refer to any variables of the current query. *)
      if contain_vars_of_level qual 0
      then Err ("argument of " ++ construct_name ++ " must not contain variables")
      else Ok (Some qual, cpstate)
  end.

(** ** cypher_clause.c: a clause as a subquery *)

Definition transform_method : Type :=
  cypher_parsestate -> cypher_clause -> res (Query * cypher_parsestate).

Definition analyze_cypher_clause (transform : transform_method)
  (clause : cypher_clause) (parent_cpstate : cypher_parsestate)
  : res (Query * cypher_parsestate) :=
  let cpstate := make_cypher_parsestate parent_cpstate in
  let cpstate :=
    set_pstate cpstate
      (set_p_expr_kind (pstate cpstate) (p_expr_kind (pstate parent_cpstate))) in
  do (query, cpstate) <- transform cpstate clause;
  let child_entities := advance_transform_entities_to_next_clause (entities cpstate) in
  let cpstate := set_entities cpstate child_entities in
  let parent_cpstate :=
    set_entities parent_cpstate (entities parent_cpstate ++ entities cpstate) in
  let parent_cpstate :=
    set_pstate parent_cpstate (free_cypher_parsestate cpstate parent_cpstate) in
  Ok (query, parent_cpstate).

Definition PREV_CYPHER_CLAUSE_ALIAS : string := "_".

Definition transform_cypher_clause_as_subquery (cpstate : cypher_parsestate)
  (transform : transform_method) (clause : cypher_clause) (alias : option string)
  (add_rte_to_query : bool) : res (ParseNamespaceItem * cypher_parsestate) :=
  let old_expr_kind := p_expr_kind (pstate cpstate) in
  let lateral := p_lateral_active (pstate cpstate) in
  let '(cpstate, lateral) :=
    match old_expr_kind with
    | EXPR_KIND_NONE =>
        (set_pstate cpstate (set_p_expr_kind (pstate cpstate) EXPR_KIND_FROM_SUBSELECT),
         lateral)
    | EXPR_KIND_OTHER =>
        (set_pstate cpstate (set_p_expr_kind (pstate cpstate) EXPR_KIND_FROM_SUBSELECT),
         true)
    | _ => (cpstate, lateral)
    end in
  do (query, cpstate) <- analyze_cypher_clause transform clause cpstate;
  let cpstate := set_pstate cpstate (set_p_expr_kind (pstate cpstate) old_expr_kind) in
  let alias :=
    match alias with
    | None => Some PREV_CYPHER_CLAUSE_ALIAS
    | Some a => Some a
    end in
  do (pnsi, ps) <- addRangeTableEntryForSubquery (pstate cpstate) query alias lateral true;
  let cpstate := set_pstate cpstate ps in
  do _u <-
    (if rtable_length (p_rtable (pstate cpstate)) >? 1 then
       if negb (rte_is_last (pstate cpstate) pnsi)
       then Err "rte must be last entry in p_rtable"
       else checkNameSpaceConflicts (pstate cpstate) pnsi
     else Ok tt);
  let cpstate :=
    if add_rte_to_query
    then set_pstate cpstate (addNSItemToQuery (pstate cpstate) pnsi true false true)
    else cpstate in
  Ok (pnsi, cpstate).

Definition transform_prev_cypher_clause (cpstate : cypher_parsestate)
  (prev_clause : cypher_clause) (add_rte_to_query : bool)
  : res (ParseNamespaceItem * cypher_parsestate) :=
  transform_cypher_clause_as_subquery cpstate transform_cypher_clause prev_clause None
    add_rte_to_query.

(** ** cypher_clause.c: RETURN *)

Definition transform_cypher_return (cpstate : cypher_parsestate) (clause : cypher_clause)
  : res (Query * cypher_parsestate) :=
  match clause_self clause with
  | N_cypher_return self =>
      do cpstate <-
        match clause_prev clause with
        | Some prev =>
            do (_p, cpstate) <- transform_prev_cypher_clause cpstate prev true;
            Ok cpstate
        | None => Ok cpstate
        end;
      do (target_list, group_clause, cpstate) <-
        transform_cypher_item_list cpstate (ret_items self) EXPR_KIND_SELECT_TARGET;
      let target_list := markTargetListOrigins (pstate cpstate) target_list in
      (* ORDER BY *)
      do (sort_clause, target_list, cpstate) <-
        transform_cypher_order_by cpstate (ret_order_by self) target_list
          EXPR_KIND_ORDER_BY;
      (* 'auto' GROUP BY *)
      do (group_clause, grouping_sets, target_list, cpstate) <-
        transform_group_clause cpstate group_clause target_list sort_clause
          EXPR_KIND_GROUP_BY;
      (* DISTINCT *)
      do (distinct_clause, target_list) <-
        (if ret_distinct self
         then transformDistinctClause (pstate cpstate) target_list sort_clause
         else Ok (NIL_sort, target_list));
      (* SKIP and LIMIT *)
      do (limit_offset, cpstate) <-
        transform_cypher_limit cpstate (ret_skip self) EXPR_KIND_OFFSET "SKIP";
      do (limit_count, cpstate) <-
        transform_cypher_limit cpstate (ret_limit self) EXPR_KIND_LIMIT "LIMIT";
      let query :=
        mk_Query CMD_SELECT target_list
          (Some (p_rtable (pstate cpstate)))
          (Some (makeFromExpr (p_joinlist (pstate cpstate)) None))
          sort_clause group_clause grouping_sets distinct_clause false
          limit_offset limit_count false false (p_hasAggs (pstate cpstate)) false in
      do _u <- assign_query_collations (pstate cpstate) query;
      (* this must be done after collations, for reliable comparison of exprs *)
      do _u <-
        (if p_hasAggs (pstate cpstate) || negb (sort_is_NIL (groupClause query))
            || bool_decide (groupingSets query <> [])
         then parse_check_aggregates (pstate cpstate) query
         else Ok tt);
      Ok (query, cpstate)
  | _ => Err "not a cypher_return"
  end.

(** ** cypher_clause.c: WITH and the optional WHERE *)

(** [((cypher_match * ) clause->self)->where] *)
Definition where_of_self (self : clause_node) : option Node :=
  match self with
  | N_cypher_match m => match_where m
  | other => where_through_match_cast other
  end.

Definition transform_cypher_clause_with_where (cpstate : cypher_parsestate)
  (transform : transform_method) (clause : cypher_clause)
  : res (Query * cypher_parsestate) :=
  let where_ := where_of_self (clause_self clause) in
  do (query, cpstate) <-
    match where_ with
    | Some _ =>
        do (pnsi, cpstate) <-
          transform_cypher_clause_as_subquery cpstate transform clause None true;
        let target_list := expandNSItemAttrs (pstate cpstate) pnsi in
        let target_list := markTargetListOrigins (pstate cpstate) target_list in
        let query :=
          mk_Query CMD_SELECT target_list
            (Some (p_rtable (pstate cpstate)))
            (Some (makeFromExpr (p_joinlist (pstate cpstate)) None))
            NIL_sort NIL_sort [] NIL_sort false None None false false false false in
        do _u <- assign_query_collations (pstate cpstate) query;
        Ok (query, cpstate)
    | None => transform cpstate clause
    end;
  let query :=
    mk_Query (commandType query) (targetList query) (rtable query) (jointree query)
      (sortClause query) (groupClause query) (groupingSets query)
      (distinctClause query) (hasDistinctOn query) (limitOffset query)
      (limitCount query)
      (p_hasSubLinks (pstate cpstate)) (p_hasTargetSRFs (pstate cpstate))
      (p_hasAggs (pstate cpstate)) (hasWindowFuncs query) in
  Ok (query, cpstate).

(** [wrapper->next] is left unset by the source. *)
Definition transform_cypher_with (cpstate : cypher_parsestate) (clause : cypher_clause)
  : res (Query * cypher_parsestate) :=
  match clause_self clause with
  | N_cypher_with self =>
      (* WITH clause is basically RETURN clause with optional WHERE subclause *)
      let return_clause :=
        mk_cypher_return (with_distinct self) (with_items self) (with_order_by self)
          (with_skip self) (with_limit self)
          (ret_all_or_distinct make_ag_node_cypher_return)
          (ret_op make_ag_node_cypher_return)
          (ret_larg make_ag_node_cypher_return)
          (ret_rarg make_ag_node_cypher_return) in
      let wrapper :=
        mk_cypher_clause (N_cypher_return return_clause) (clause_prev clause) false in
      transform_cypher_clause_with_where cpstate transform_cypher_return wrapper
  | _ => Err "not a cypher_with"
  end.

(** ** cypher_clause.c: MATCH entities

    The functions below receive [Query *query] or [List **target_list]
    and only append to the target list; the target list is threaded.  The
    nodes and relationships of a path are updated in place (a name is
    given to an anonymous one), so the path is threaded too. *)

Definition INCLUDE_NODE_IN_JOIN_TREE (path : cypher_path) (node : cypher_node) : bool :=
  bool_decide (is_Some (var_name path))
  || bool_decide (is_Some (node_name node))
  || bool_decide (is_Some (node_props node)).

Definition list_nth_node (path : cypher_path) (i : nat) : res cypher_node :=
  match path_elems path !! i with
  | Some (PE_node n) => Ok n
  | Some (PE_rel _) => Err "path element is a relationship"
  | None => Err "list_nth: index out of range"
  end.

Definition list_nth_rel (path : cypher_path) (i : nat) : res cypher_relationship :=
  match path_elems path !! i with
  | Some (PE_rel r) => Ok r
  | Some (PE_node _) => Err "path element is a node"
  | None => Err "list_nth: index out of range"
  end.

Definition set_path_elem (path : cypher_path) (i : nat) (e : path_elem) : cypher_path :=
  mk_cypher_path (<[i := e]> (path_elems path)) (var_name path) (path_location path).

Definition set_node_name (node : cypher_node) (name : string) : cypher_node :=
  mk_cypher_node (Some name) (node_label node) (node_props node) (node_location node).

Definition set_rel_name (rel : cypher_relationship) (name : string) : cypher_relationship :=
  mk_cypher_relationship (Some name) (rel_label rel) (rel_props rel) (rel_varlen rel)
    (rel_dir rel) (rel_location rel).

Definition set_node_label (node : cypher_node) (label : string) : cypher_node :=
  mk_cypher_node (node_name node) (Some label) (node_props node) (node_location node).

Definition set_rel_label (rel : cypher_relationship) (label : string)
  : cypher_relationship :=
  mk_cypher_relationship (rel_name rel) (Some label) (rel_props rel) (rel_varlen rel)
    (rel_dir rel) (rel_location rel).

(** [find_variable] (cypher_transform_entity.c): the first entity of the
    parse state that has the name. *)
Fixpoint find_variable_loop (entities : list transform_entity) (name : string)
  : option transform_entity :=
  match entities with
  | [] => None
  | entity :: rest =>
      match get_entity_name entity with
      | Some entity_name =>
          if String.eqb name entity_name then Some entity
          else find_variable_loop rest name
      | None => find_variable_loop rest name
      end
  end.

Definition find_variable (cpstate : cypher_parsestate) (name : string)
  : option transform_entity :=
  find_variable_loop (entities cpstate) name.

(** [findTarget]: the first entry that is not junk and has the name; the
    name of an entry that is not junk is compared without a test for
    NULL. *)
Fixpoint findTarget_loop (targetList : list TargetEntry) (name : string)
  : res (option TargetEntry) :=
  match targetList with
  | [] => Ok None
  | te :: rest =>
      if resjunk te then findTarget_loop rest name
      else
        match resname te with
        | None => Err "findTarget: strcmp on a NULL resname"
        | Some n =>
            if String.eqb n name then Ok (Some te) else findTarget_loop rest name
        end
  end.

Definition findTarget (targetList : list TargetEntry) (name : option string)
  : res (option TargetEntry) :=
  match name with
  | None => Ok None
  | Some name => findTarget_loop targetList name
  end.

(** [transform_cypher_edge] and [transform_cypher_node] write to the
    relationship and to the node they are given: a missing label becomes
    the default label, and a missing name becomes a generated alias when
    a range table entry is made.  The entity the caller builds next holds
    the same pointer, so the updated relationship (node) is a result.

    The expression is returned early, without a range table entry, when
    the name is already known: in a WHERE transformation as a variable of
    the enclosing clause, otherwise as a column or as an entry of the
    target list. *)
Definition transform_cypher_edge (cpstate : cypher_parsestate)
  (rel : cypher_relationship) (target_list : list TargetEntry)
  : res (option Node * cypher_relationship * list TargetEntry * cypher_parsestate) :=
  do label <-
    match rel_label rel with
    | None => Ok AG_DEFAULT_LABEL_EDGE
    | Some label =>
        match search_label_name_graph_cache (pstate cpstate) label (graph_oid cpstate) with
        | None => Err ("label " ++ label ++ " does not exists")
        | Some kind =>
            if negb (bool_decide (kind = LABEL_KIND_EDGE))
            then Err ("label " ++ label ++ " is for vertices, not edges")
            else Ok label
        end
    end;
  let rel := set_rel_label rel label in
  do known <-
    match rel_name rel return res (option (option Node)) with
    | Some name =>
        if bool_decide (p_expr_kind (pstate cpstate) = EXPR_KIND_WHERE) then
          match find_variable (grandparent_cpstate cpstate) name with
          | Some entity => Ok (Some (ent_expr entity))
          | None => Err ("variable `" ++ name ++ "` does not exist")
          end
        else
          do te <- findTarget target_list (Some name);
          do expr <- colNameToVar (pstate cpstate) name false (rel_location rel);
          match expr, te with
          | Some expr, _ => Ok (Some (Some expr))
          | None, Some te =>
              match find_variable cpstate name with
              | Some entity =>
                  if negb (bool_decide (ent_type entity = ENT_EDGE))
                     || negb (IS_DEFAULT_LABEL_EDGE (rel_label rel))
                     || bool_decide (is_Some (rel_props rel))
                  then Err ("variable " ++ name ++ " already exists")
                  else Ok (Some (Some (tle_expr te)))
              | None => Ok (Some (Some (tle_expr te)))
              end
          | None, None => Ok None
          end
    | None => Ok None
    end;
  match known with
  | Some expr => Ok (expr, rel, target_list, cpstate)
  | None =>
      let '(name, cpstate) :=
        match rel_name rel with
        | None => get_next_default_alias cpstate
        | Some name => (name, cpstate)
        end in
      let rel := set_rel_name rel name in
      let schema_name := get_graph_namespace_name (graph_name cpstate) in
      let rel_name_ := get_label_relation_name label (graph_oid cpstate) in
      (* [makeRangeVar] sets [inh] *)
      do (pnsi, ps) <-
        addRangeTableEntry (pstate cpstate) schema_name rel_name_ name true true;
      (* relation is visible (r.a in expression works) but attributes in
         the relation are not visible (a in expression doesn't work) *)
      let ps := addNSItemToQuery ps pnsi true true false in
      let (resno, ps) := next_resno ps in
      let cpstate := set_pstate cpstate ps in
      let expr := make_edge_expr cpstate pnsi label in
      let te := makeTargetEntry expr resno (Some name) false in
      Ok (Some expr, rel, target_list ++ [te], cpstate)
  end.

Definition transform_cypher_node (cpstate : cypher_parsestate) (node : cypher_node)
  (target_list : list TargetEntry) (output_node : bool)
  : res (option Node * cypher_node * list TargetEntry * cypher_parsestate) :=
  do label <-
    match node_label node with
    | None => Ok AG_DEFAULT_LABEL_VERTEX
    | Some label =>
        match search_label_name_graph_cache (pstate cpstate) label (graph_oid cpstate) with
        | None => Err ("label " ++ label ++ " does not exists")
        | Some kind =>
            if negb (bool_decide (kind = LABEL_KIND_VERTEX))
            then Err ("label " ++ label ++ " is for edges, not vertices")
            else Ok label
        end
    end;
  let node := set_node_label node label in
  if negb output_node then Ok (None, node, target_list, cpstate)
  else
    do known <-
      match node_name node return res (option (option Node)) with
      | Some name =>
          if bool_decide (p_expr_kind (pstate cpstate) = EXPR_KIND_WHERE) then
            match find_variable (grandparent_cpstate cpstate) name with
            | Some entity => Ok (Some (ent_expr entity))
            | None => Err ("variable `" ++ name ++ "` does not exist")
            end
          else
            do te <- findTarget target_list (Some name);
            do expr <- colNameToVar (pstate cpstate) name false (node_location node);
            match expr, te with
            | Some expr, _ => Ok (Some (Some expr))
            | None, Some te =>
                match find_variable cpstate name with
                | Some entity =>
                    if negb (bool_decide (ent_type entity = ENT_VERTEX))
                       || negb (IS_DEFAULT_LABEL_VERTEX (node_label node))
                       || bool_decide (is_Some (node_props node))
                    then Err ("variable " ++ name ++ " already exists")
                    else Ok (Some (Some (tle_expr te)))
                | None => Ok (Some (Some (tle_expr te)))
                end
            | None, None => Ok None
            end
      | None => Ok None
      end;
    match known with
    | Some expr => Ok (expr, node, target_list, cpstate)
    | None =>
        let '(name, cpstate) :=
          match node_name node with
          | None => get_next_default_alias cpstate
          | Some name => (name, cpstate)
          end in
        let node := set_node_name node name in
        let schema_name := get_graph_namespace_name (graph_name cpstate) in
        let rel_name_ := get_label_relation_name label (graph_oid cpstate) in
        do (pnsi, ps) <-
          addRangeTableEntry (pstate cpstate) schema_name rel_name_ name true true;
        let ps := addNSItemToQuery ps pnsi true true true in
        let (resno, ps) := next_resno ps in
        let cpstate := set_pstate cpstate ps in
        let expr := make_vertex_expr cpstate pnsi label in
        (* make target entry and add it *)
        let te := makeTargetEntry expr resno (Some name) false in
        Ok (Some expr, node, target_list ++ [te], cpstate)
    end.

Definition handle_vertex (cpstate : cypher_parsestate) (target_list : list TargetEntry)
  (path : cypher_path) (i : nat)
  : res (transform_entity * cypher_path * list TargetEntry * cypher_parsestate) :=
  do node <- list_nth_node path i;
  do (node, cpstate) <-
    (if bool_decide (node_name node = None)
        && negb (INCLUDE_NODE_IN_JOIN_TREE path node)
        && bool_decide (i + 1 < length (path_elems path))%nat
     then
       do rel <- list_nth_rel path (i + 1);
       match rel_varlen rel with
       | Some _ =>
           let (alias, cpstate) := get_next_default_alias cpstate in
           Ok (set_node_name node alias, cpstate)
       | None => Ok (node, cpstate)
       end
     else Ok (node, cpstate));
  (* transform vertex *)
  do (expr, node, target_list, cpstate) <-
    transform_cypher_node cpstate node target_list (INCLUDE_NODE_IN_JOIN_TREE path node);
  let path := set_path_elem path i (PE_node node) in
  let entity := make_transform_entity ENT_VERTEX (entity_node node) expr in
  (* transform properties if they exist *)
  do cpstate <-
    match node_props node with
    | Some props =>
        do (n, cpstate) <- create_property_constraints cpstate entity props;
        Ok (set_property_constraint_quals cpstate
              (property_constraint_quals cpstate ++ [n]))
    | None => Ok cpstate
    end;
  Ok (entity, path, target_list, cpstate).

Definition handle_edge (cpstate : cypher_parsestate) (target_list : list TargetEntry)
  (path : cypher_path) (i : nat) (prev_entity : transform_entity)
  : res (transform_entity * cypher_path * list TargetEntry * cypher_parsestate) :=
  do rel <- list_nth_rel path i;
  do (path, cpstate) <-
    (if bool_decide (length (path_elems path) = 3%nat)
        && bool_decide (rel_dir rel = CYPHER_REL_DIR_NONE)
        && negb (in_join_tree prev_entity)
     then
       do node <- list_nth_node path 2;
       if negb (INCLUDE_NODE_IN_JOIN_TREE path node) then
         let (alias, cpstate) := get_next_default_alias cpstate in
         Ok (set_path_elem path 2 (PE_node (set_node_name node alias)), cpstate)
       else Ok (path, cpstate)
     else Ok (path, cpstate));
  do (expr, rel, target_list, cpstate) <- transform_cypher_edge cpstate rel target_list;
  let path := set_path_elem path i (PE_rel rel) in
  let entity := make_transform_entity ENT_EDGE (entity_rel rel) expr in
  do cpstate <-
    match rel_props rel with
    | Some props =>
        do (n, cpstate) <- create_property_constraints cpstate entity props;
        Ok (set_property_constraint_quals cpstate
              (property_constraint_quals cpstate ++ [n]))
    | None => Ok cpstate
    end;
  Ok (entity, path, target_list, cpstate).

Definition make_vle_make_edge_func_call (rel : cypher_relationship) : Node :=
  let args : list Node := [] in
  let args :=
    match rel_label rel with
    | None => args ++ [make_null_const (-1)]
    | Some l => args ++ [make_string_const l (-1)]
    end in
  let args :=
    match rel_props rel with
    | None => args ++ [make_null_const (-1)]
    | Some p => args ++ [p]
    end in
  let fname := ["postgraph"%string; "age_build_vle_match_edge"%string] in
  makeFuncCall fname args COERCE_SQL_SYNTAX (-1).

(** [(A_Indices * ) rel->varlen] *)
Definition varlen_as_A_Indices (varlen : option Node) : option (option Node * option Node) :=
  match varlen with
  | None => None
  | Some (A_Indices _ l u) => Some (l, u)
  | Some other => Some (indices_through_cast other)
  end.

Definition make_vle_func_call (cpstate : cypher_parsestate) (prev_node : cypher_node)
  (rel : cypher_relationship) (next_node : cypher_node) : Node :=
  let ai := varlen_as_A_Indices (rel_varlen rel) in
  let args : list Node := [] in
  (* start node *)
  let args :=
    match node_name prev_node with
    | Some nm => args ++ [ColumnRef [nm] (-1)]
    | None => args ++ [make_null_const (-1)]
    end in
  (* end node *)
  let args := args ++ [ColumnRef [default ""%string (node_name next_node)] (-1)] in
  (* edge constraints *)
  let args := args ++ [make_vle_make_edge_func_call rel] in
  (* lower bound *)
  let args :=
    match ai with
    | Some (Some l, _) => args ++ [l]
    | _ => args ++ [make_null_const (-1)]
    end in
  (* upper bound *)
  let args :=
    match ai with
    | Some (_, Some u) => args ++ [u]
    | _ => args ++ [make_null_const (-1)]
    end in
  (* direction *)
  let args := args ++ [make_int_const (cypher_rel_dir_int (rel_dir rel)) (-1)] in
  makeFuncCall ["vle"%string] args COERCE_SQL_SYNTAX (-1).

Definition transform_VLE_edge_entity (cpstate : cypher_parsestate)
  (target_list : list TargetEntry) (path : cypher_path) (i : nat) (func : Node)
  : res (transform_entity * cypher_path * list TargetEntry * cypher_parsestate) :=
  do rel <- list_nth_rel path i;
  do _u <-
    match func with
    | FuncCall [_] _ _ _ => Ok tt
    | _ => Err "only AGE functions are supported here"
    end;
  let '(rel, cpstate) :=
    match rel_name rel with
    | None =>
        let (alias, cpstate) := get_next_default_alias cpstate in
        (set_rel_name rel alias, cpstate)
    | Some _ => (rel, cpstate)
    end in
  let path := set_path_elem path i (PE_rel rel) in
  (* Add the RangeFunction to the FROM clause *)
  do (pnsi, cpstate) <- append_vle_to_from_clause cpstate func (rel_name rel);
  (* Get the var node for the VLE functions column name. *)
  do var <- scanNSItemForColumn (pstate cpstate) pnsi "edges";
  let (rn, ps) := next_resno (pstate cpstate) in
  let cpstate := set_pstate cpstate ps in
  let te := makeTargetEntry var rn (rel_name rel) false in
  let target_list := target_list ++ [te] in
  let vle_entity := make_transform_entity ENT_VLE_EDGE (entity_rel rel) (Some var) in
  Ok (vle_entity, path, target_list, cpstate).

(** [insert_vle_entity] truncates and appends in place; the callers'
    list is the updated one. *)
Definition insert_vle_entity (entities : list transform_entity)
  (next_entity vle_entity : transform_entity) : list transform_entity :=
  let entities := take (length entities - 1) entities in
  let entities := entities ++ [vle_entity] in
  entities ++ [next_entity].

(** The loop of [transform_match_entities] from index [i] on; [fuel]
    bounds the number of iterations by the length of the path. *)
Fixpoint transform_match_entities_loop (fuel : nat) (i : nat)
  (cpstate : cypher_parsestate) (target_list : list TargetEntry) (path : cypher_path)
  (ents : list transform_entity) (prev_node_entity : option transform_entity)
  : res (list transform_entity * cypher_path * list TargetEntry * cypher_parsestate) :=
  if bool_decide (length (path_elems path) <= i)%nat
  then Ok (ents, path, target_list, cpstate)
  else
    match fuel with
    | O => Err "transform_match_entities: out of fuel"
    | S fuel =>
        if (i mod 2 =? 0)%nat then
          do (entity, path, target_list, cpstate) <-
            handle_vertex cpstate target_list path i;
          let cpstate := set_entities cpstate (entities cpstate ++ [entity]) in
          let ents := ents ++ [entity] in
          transform_match_entities_loop fuel (i + 1) cpstate target_list path ents
            (Some entity)
        else
          do rel <- list_nth_rel path i;
          match rel_varlen rel with
          | None =>
              do prev <-
                match prev_node_entity with
                | Some p => Ok p
                | None => Err "no previous node"
                end;
              do (entity, path, target_list, cpstate) <-
                handle_edge cpstate target_list path i prev;
              let cpstate := set_entities cpstate (entities cpstate ++ [entity]) in
              let ents := ents ++ [entity] in
              transform_match_entities_loop fuel (i + 1) cpstate target_list path
                ents prev_node_entity
          | Some _ =>
              do node <- list_nth_node path (i + 1);
              let '(path, cpstate) :=
                if negb (INCLUDE_NODE_IN_JOIN_TREE path node) then
                  let (alias, cpstate) := get_next_default_alias cpstate in
                  (set_path_elem path (i + 1) (PE_node (set_node_name node alias)),
                   cpstate)
                else (path, cpstate) in
              do (next_entity, path, target_list, cpstate) <-
                handle_vertex cpstate target_list path (i + 1);
              let cpstate := set_entities cpstate (entities cpstate ++ [next_entity]) in
              let ents := ents ++ [next_entity] in
              do prev_node <-
                match prev_node_entity with
                | Some (mk_transform_entity _ (entity_node n) _ _ _) => Ok n
                | _ => Err "no previous node"
                end;
              do node <- list_nth_node path (i + 1);
              do rel <- list_nth_rel path i;
              let fnode := make_vle_func_call cpstate prev_node rel node in
              do (vle_entity, path, target_list, cpstate) <-
                transform_VLE_edge_entity cpstate target_list path i fnode;
              let cpstate :=
                set_entities cpstate
                  (insert_vle_entity (entities cpstate) next_entity vle_entity) in
              let ents := insert_vle_entity ents next_entity vle_entity in
              transform_match_entities_loop fuel (i + 1 + 1) cpstate target_list path
                ents (Some next_entity)
          end
    end.

Definition transform_match_entities (cpstate : cypher_parsestate)
  (target_list : list TargetEntry) (path : cypher_path)
  : res (list transform_entity * cypher_path * list TargetEntry * cypher_parsestate) :=
  transform_match_entities_loop (length (path_elems path)) 0 cpstate target_list path
    [] None.

(** ** cypher_clause.c: join quals and edge uniqueness *)

Definition AG_EDGE_COLNAME_ID : string := "id".

Definition make_qual (cpstate : cypher_parsestate) (entity : transform_entity)
  (col_name : string) : res Node :=
  match ent_expr entity with
  | Some (Var a b c) =>
      let function_name := get_accessor_function_name (ent_type entity) col_name in
      let qualified_name := [CATALOG_SCHEMA; function_name] in
      Ok (makeFuncCall qualified_name [Var a b c] COERCE_EXPLICIT_CALL (-1))
  | Some _ =>
      do entity_name <-
        match ent_type entity with
        | ENT_EDGE => Ok (get_entity_name entity)
        | ENT_VERTEX => Ok (get_entity_name entity)
        | ENT_VLE_EDGE => Err "unknown entity type"
        end;
      Ok (ColumnRef [default ""%string entity_name; col_name] 0)
  | None => Err "make_qual: entity without expression"
  end.

Definition enforce_edge_uniqueness_name : list string :=
  [CATALOG_SCHEMA; "_ag_enforce_edge_uniqueness"%string].

(** The body of the [foreach] of [prevent_duplicate_edges]. *)
Fixpoint prevent_duplicate_edges_loop (cpstate : cypher_parsestate)
  (entities : list transform_entity) (edges : list Node) : res (list Node) :=
  match entities with
  | [] => Ok edges
  | entity :: rest =>
      match ent_type entity with
      | ENT_EDGE =>
          do edge <- make_qual cpstate entity AG_EDGE_COLNAME_ID;
          prevent_duplicate_edges_loop cpstate rest (edges ++ [edge])
      | ENT_VLE_EDGE =>
          match find_pnsi cpstate (get_entity_name entity) with
          | Some pnsi =>
              do node <- scanNSItemForColumn (pstate cpstate) pnsi "edges";
              prevent_duplicate_edges_loop cpstate rest (edges ++ [node])
          | None => Err "prevent_duplicate_edges: no namespace item"
          end
      | ENT_VERTEX => prevent_duplicate_edges_loop cpstate rest edges
      end
  end.

Definition prevent_duplicate_edges (cpstate : cypher_parsestate)
  (entities : list transform_entity) : res Node :=
  do edges <- prevent_duplicate_edges_loop cpstate entities [];
  Ok (makeFuncCall enforce_edge_uniqueness_name edges COERCE_SQL_SYNTAX (-1)).

Definition transform_match_path (cpstate : cypher_parsestate)
  (target_list : list TargetEntry) (path : cypher_path)
  : res (list Node * list TargetEntry * cypher_parsestate) :=
  let qual : list Node := [] in
  (* transform the entities in the path *)
  do (ents, path, target_list, cpstate) <-
    transform_match_entities cpstate target_list path;
  (* create the path variable, if needed. *)
  do target_list <-
    match var_name path with
    | Some _ =>
        do path_te <- transform_match_create_path_variable cpstate path ents;
        Ok (target_list ++ [path_te])
    | None => Ok target_list
    end;
  (* construct the quals for the join tree *)
  do join_quals <- make_path_join_quals cpstate ents;
  let qual := qual ++ join_quals in
  (* construct the qual to prevent duplicate edges *)
  do qual <-
    (if (3 <? length ents)%nat then
       do duplicate_edge_qual <- prevent_duplicate_edges cpstate ents;
       Ok (qual ++ [duplicate_edge_qual])
     else Ok qual);
  Ok (qual, target_list, cpstate).

(** The [foreach] of [transform_match_pattern]. *)
Fixpoint transform_match_pattern_paths (cpstate : cypher_parsestate)
  (target_list : list TargetEntry) (pattern : list cypher_path) (quals_ : list Node)
  : res (list Node * list TargetEntry * cypher_parsestate) :=
  match pattern with
  | [] => Ok (quals_, target_list, cpstate)
  | path :: rest =>
      do (qual, target_list, cpstate) <- transform_match_path cpstate target_list path;
      transform_match_pattern_paths cpstate target_list rest (quals_ ++ qual)
  end.

(** [transform_match_pattern] sets [query->rtable] and [query->jointree];
    the result is the target list, the range table and the join tree. *)
Definition transform_match_pattern (cpstate : cypher_parsestate)
  (target_list : list TargetEntry) (pattern : list cypher_path) (where_ : option Node)
  : res (list TargetEntry * RangeTable * FromExpr * cypher_parsestate) :=
  do (quals_, target_list, cpstate) <-
    transform_match_pattern_paths cpstate target_list pattern [];
  do (expr, cpstate) <-
    match quals_ with
    | [] => Ok (None, cpstate)
    | _ =>
        let q := makeBoolExpr AND_EXPR quals_ (-1) in
        do (e, ps) <- transformExpr (pstate cpstate) q EXPR_KIND_WHERE;
        Ok (Some e, set_pstate cpstate ps)
    end;
  let expr :=
    match property_constraint_quals cpstate with
    | [] => expr
    | pq =>
        let prop_qual := makeBoolExpr AND_EXPR pq (-1) in
        match expr with
        | None => Some prop_qual
        | Some e => Some (makeBoolExpr AND_EXPR [e; prop_qual] (-1))
        end
    end in
  (* transform the where clause quals and add to the quals *)
  do (expr, cpstate) <-
    match where_ with
    | Some w =>
        do (where_qual, cpstate) <- transform_cypher_expr cpstate w EXPR_KIND_WHERE;
        match expr with
        | None => Ok (Some where_qual, cpstate)
        | Some e =>
            do where_qual <- coerce_to_boolean (pstate cpstate) where_qual "WHERE";
            Ok (Some (makeBoolExpr AND_EXPR [e; where_qual] (-1)), cpstate)
        end
    | None => Ok (expr, cpstate)
    end;
  do expr <-
    match expr with
    | Some e => do e <- coerce_to_boolean (pstate cpstate) e "WHERE"; Ok (Some e)
    | None => Ok None
    end;
  Ok (target_list, p_rtable (pstate cpstate),
      makeFromExpr (p_joinlist (pstate cpstate)) expr, cpstate).

(** ** cypher_clause.c: CREATE *)

Definition transform_create_cypher_edge (cpstate : cypher_parsestate)
  (target_list : list TargetEntry) (edge : cypher_relationship)
  : res (cypher_target_node * list TargetEntry * cypher_parsestate) :=
  do _u <-
    match rel_label edge with
    | Some label =>
        match search_label_name_graph_cache (pstate cpstate) label (graph_oid cpstate) with
        | Some kind =>
            if negb (bool_decide (kind = LABEL_KIND_EDGE))
            then Err ("label " ++ label ++ " is for vertices, not edges")
            else Ok tt
        | None => Ok tt
        end
    | None => Ok tt
    end;
  let rel_type := LABEL_KIND_EDGE in
  let rel_flags := [CYPHER_TARGET_NODE_FLAG_INSERT] in
  let rel_label_name := rel_label edge in
  do (var, target_list, cpstate, rel_flags) <-
    match rel_name edge with
    | Some name =>
        (* Variables can be declared in a CREATE clause, but not used if
           it already exists. *)
        if variable_exists cpstate (Some name)
        then Err ("variable " ++ name ++ " already exists")
        else
          let (te, cpstate) := placeholder_edge cpstate name in
          Ok ((Some name, resno te), target_list ++ [te], cpstate,
              rel_flags ++ [CYPHER_TARGET_NODE_IS_VAR])
    | None => Ok ((None, 0), target_list, cpstate, rel_flags)
    end;
  let (rel_variable_name, rel_tuple_position) := var in
  do _u <-
    (if bool_decide (rel_dir edge = CYPHER_REL_DIR_NONE)
     then Err "only directed relationships are allowed in CREATE"
     else Ok tt);
  let rel_dir_ := rel_dir edge in
  do label <-
    match rel_label edge with
    | None => Err "relationships must be specify a label in CREATE."
    | Some l => Ok l
    end;
  (* create the label entry if it does not exist *)
  do ps <-
    (if negb (label_exists (pstate cpstate) label (graph_oid cpstate))
     then create_edge_label (pstate cpstate) (graph_name cpstate) label
     else Ok (pstate cpstate));
  let cpstate := set_pstate cpstate ps in
  (* lock the relation of the label *)
  do (label_relation, ps) <- parserOpenTable (pstate cpstate) (graph_name cpstate) label;
  let cpstate := set_pstate cpstate ps in
  let rel_relid := RelationGetRelid label_relation in
  let cpstate :=
    set_pstate cpstate (addRangeTableEntryForRelation (pstate cpstate) label_relation) in
  let rel_id_expr := build_column_default label_relation in
  let (alias, cpstate) := get_next_default_alias cpstate in
  let (rn, ps) := next_resno (pstate cpstate) in
  let cpstate := set_pstate cpstate ps in
  let rel :=
    mk_cypher_target_node rel_type rel_flags rel_label_name rel_variable_name
      rel_tuple_position rel_dir_ rel_relid rel_id_expr 0 in
  do (props, cpstate) <-
    cypher_create_properties cpstate rel label_relation (rel_props edge) ENT_EDGE;
  let rel :=
    mk_cypher_target_node rel_type rel_flags rel_label_name rel_variable_name
      rel_tuple_position rel_dir_ rel_relid rel_id_expr (rn - 1) in
  let te := makeTargetEntry props rn (Some alias) false in
  Ok (rel, target_list ++ [te], cpstate).

Definition add_target_node_flag (rel : cypher_target_node) (f : target_node_flag)
  : cypher_target_node :=
  mk_cypher_target_node (tn_type rel) (tn_flags rel ++ [f]) (tn_label_name rel)
    (tn_variable_name rel) (tn_tuple_position rel) (tn_dir rel) (tn_relid rel)
    (tn_id_expr rel) (tn_prop_attr_num rel).

(** The [foreach] of [transform_cypher_create_path]. *)
Fixpoint transform_cypher_create_path_loop (cpstate : cypher_parsestate)
  (target_list : list TargetEntry) (in_path : bool) (elems : list path_elem)
  (transformed_path : list cypher_target_node)
  : res (list cypher_target_node * list TargetEntry * cypher_parsestate) :=
  match elems with
  | [] => Ok (transformed_path, target_list, cpstate)
  | PE_node node :: rest =>
      do (rel, target_list, cpstate) <-
        transform_create_cypher_node cpstate target_list node;
      let rel := if in_path then add_target_node_flag rel CYPHER_TARGET_NODE_IN_PATH_VAR
                 else rel in
      let transformed_path := transformed_path ++ [rel] in
      let entity := make_transform_entity ENT_VERTEX (entity_node node) None in
      let cpstate := set_entities cpstate (entities cpstate ++ [entity]) in
      transform_cypher_create_path_loop cpstate target_list in_path rest transformed_path
  | PE_rel edge :: rest =>
      do (rel, target_list, cpstate) <-
        transform_create_cypher_edge cpstate target_list edge;
      let rel := if in_path then add_target_node_flag rel CYPHER_TARGET_NODE_IN_PATH_VAR
                 else rel in
      let transformed_path := transformed_path ++ [rel] in
      let entity := make_transform_entity ENT_EDGE (entity_rel edge) None in
      let cpstate := set_entities cpstate (entities cpstate ++ [entity]) in
      transform_cypher_create_path_loop cpstate target_list in_path rest transformed_path
  end.

Definition transform_cypher_create_path (cpstate : cypher_parsestate)
  (target_list : list TargetEntry) (path : cypher_path)
  : res (cypher_create_path * list TargetEntry * cypher_parsestate) :=
  let in_path := bool_decide (is_Some (var_name path)) in
  do (transformed_path, target_list, cpstate) <-
    transform_cypher_create_path_loop cpstate target_list in_path (path_elems path) [];
  match var_name path with
  | Some name =>
      if bool_decide (length transformed_path < 1)%nat
      then Err "paths require at least 1 vertex"
      else
        let (te, cpstate) := placeholder_traversal cpstate name in
        Ok (mk_cypher_create_path transformed_path (resno te),
            target_list ++ [te], cpstate)
  | None =>
      Ok (mk_cypher_create_path transformed_path InvalidAttrNumber, target_list, cpstate)
  end.

Fixpoint transform_cypher_create_pattern (cpstate : cypher_parsestate)
  (target_list : list TargetEntry) (pattern : list cypher_path)
  : res (list cypher_create_path * list TargetEntry * cypher_parsestate) :=
  match pattern with
  | [] => Ok ([], target_list, cpstate)
  | path :: rest =>
      do (transformed_path, target_list, cpstate) <-
        transform_cypher_create_path cpstate target_list path;
      do (transformed_pattern, target_list, cpstate) <-
        transform_cypher_create_pattern cpstate target_list rest;
      Ok (transformed_path :: transformed_pattern, target_list, cpstate)
  end.

Definition AGE_VARNAME_CREATE_NULL_VALUE : string :=
  AGE_DEFAULT_VARNAME_PREFIX ++ "create_null_value".
Definition AGE_VARNAME_CREATE_CLAUSE : string :=
  AGE_DEFAULT_VARNAME_PREFIX ++ "create_clause".

Definition transform_cypher_create (cpstate : cypher_parsestate) (clause : cypher_clause)
  : res (Query * cypher_parsestate) :=
  match clause_self clause with
  | N_cypher_create self =>
      let flags : list clause_flag := [] in
      let null_const := makeNullConst GTYPEOID in
      let (rn, ps) := next_resno (pstate cpstate) in
      let cpstate := set_pstate cpstate ps in
      let tle := makeTargetEntry null_const rn (Some AGE_VARNAME_CREATE_NULL_VALUE) false in
      let target_list := [tle] in
      do (target_list, cpstate, flags) <-
        match clause_prev clause with
        | Some prev =>
            do (target_list, cpstate) <- handle_prev_clause cpstate target_list prev true;
            Ok (target_list, cpstate, flags ++ [CYPHER_CLAUSE_FLAG_PREVIOUS_CLAUSE])
        | None => Ok (target_list, cpstate, flags)
        end;
      do (transformed_pattern, target_list, cpstate) <-
        transform_cypher_create_pattern cpstate target_list (create_pattern self);
      let flags :=
        if negb (clause_has_next clause) then flags ++ [CYPHER_CLAUSE_FLAG_TERMINAL]
        else flags in
      let target_nodes :=
        mk_cypher_create_target_nodes transformed_pattern flags (graph_oid cpstate) in
      let func_expr := make_clause_func_expr CREATE_CLAUSE_FUNCTION_NAME target_nodes in
      (* Create the target entry *)
      let (rn, ps) := next_resno (pstate cpstate) in
      let cpstate := set_pstate cpstate ps in
      let tle := makeTargetEntry func_expr rn (Some AGE_VARNAME_CREATE_CLAUSE) false in
      let target_list := target_list ++ [tle] in
      Ok (mk_Query CMD_SELECT target_list
            (Some (p_rtable (pstate cpstate)))
            (Some (makeFromExpr (p_joinlist (pstate cpstate)) None))
            NIL_sort NIL_sort [] NIL_sort false None None false false false false,
          cpstate)
  | _ => Err "not a cypher_create"
  end.

End ClauseTransformer.

(** ** Specification vocabulary for the clause transformer *)

Section ClauseSpec.
Context `{HostOps}.

(** A SKIP or LIMIT expression refers to a variable of the current query
    when, in whatever parse state it is transformed, the expression obtained
    after the coercion to [INT8OID] holds a variable of level 0. *)
Definition refers_to_variable (node : Node) (kind : ParseExprKind) (name : string) : Prop :=
  forall cps : cypher_parsestate,
    match transform_cypher_expr cps node kind with
    | Ok (q, cps') =>
        match coerce_to_specific_type (pstate cps') q INT8OID name with
        | Ok q' => contain_vars_of_level q' 0 = true
        | Err _ => True
        end
    | Err _ => True
    end.

Definition var_free (q : option Node) : Prop :=
  match q with
  | Some q => contain_vars_of_level q 0 = false
  | None => True
  end.

(** The WHERE qualification of an emitted query. *)
Definition query_quals (q : Query) : option Node :=
  match jointree q with
  | Some f => quals f
  | None => None
  end.

Definition return_clause (self : cypher_return) (prev : option cypher_clause)
  (has_next : bool) : cypher_clause :=
  mk_cypher_clause (N_cypher_return self) prev has_next.

Definition with_clause (self : cypher_with) (prev : option cypher_clause)
  (has_next : bool) : cypher_clause :=
  mk_cypher_clause (N_cypher_with self) prev has_next.

Definition create_clause (self : cypher_create) (prev : option cypher_clause)
  (has_next : bool) : cypher_clause :=
  mk_cypher_clause (N_cypher_create self) prev has_next.

(** A pattern holds an undirected relationship. *)
Definition has_undirected_relationship (pattern : list cypher_path) : Prop :=
  exists path edge,
    path ∈ pattern /\ PE_rel edge ∈ path_elems path /\ rel_dir edge = CYPHER_REL_DIR_NONE.

(** The entities a uniqueness predicate ranges over, and the argument it
    gets for each of them. *)
Definition is_edge_entity (e : transform_entity) : bool :=
  match ent_type e with
  | ENT_VERTEX => false
  | ENT_EDGE | ENT_VLE_EDGE => true
  end.

Definition edge_argument (cps : cypher_parsestate) (e : transform_entity) (n : Node)
  : Prop :=
  match ent_type e with
  | ENT_EDGE => make_qual cps e AG_EDGE_COLNAME_ID = Ok n
  | ENT_VLE_EDGE =>
      exists pnsi, find_pnsi cps (get_entity_name e) = Some pnsi /\
                   scanNSItemForColumn (pstate cps) pnsi "edges" = Ok n
  | ENT_VERTEX => False
  end.

Definition uniqueness_predicate (args : list Node) : Node :=
  makeFuncCall enforce_edge_uniqueness_name args COERCE_SQL_SYNTAX (-1).

Definition is_uniqueness_predicate (n : Node) : bool :=
  match n with
  | FuncCall name _ _ _ => bool_decide (name = enforce_edge_uniqueness_name)
  | _ => false
  end.

(** What one path contributes to the quals of its MATCH clause: the join
    quals of its entities, followed, when it has more than three entities,
    by one uniqueness predicate over its own edge entities. *)
Definition path_quals (path : cypher_path) (qual : list Node) : Prop :=
  exists cps tl ents path' tl' cps' join_quals,
    transform_match_entities cps tl path = Ok (ents, path', tl', cps') /\
    length ents = length (path_elems path) /\
    make_path_join_quals cps' ents = Ok join_quals /\
    if (3 <? length (path_elems path))%nat then
      exists args,
        Forall2 (edge_argument cps') (List.filter is_edge_entity ents) args /\
        qual = join_quals ++ [uniqueness_predicate args]
    else qual = join_quals.

Definition is_relationship (e : path_elem) : bool :=
  match e with
  | PE_rel _ => true
  | PE_node _ => false
  end.

(** The number of relationships of a pattern. *)
Definition pattern_edges (pattern : list cypher_path) : nat :=
  length (List.filter is_relationship (concat (map path_elems pattern))).

Definition set_with_where (self : cypher_with) (w : option Node) : cypher_with :=
  mk_cypher_with (with_distinct self) (with_items self) (with_order_by self)
    (with_skip self) (with_limit self) w.

End ClauseSpec.

(** ** The range of a variable-length relationship

    The relationship the grammar leaves for [-[ * range ]-] between the
    nodes [cnl] and [cnr]: the action of [cypher_varlen_opt], the
    relationship body with this [varlen], then, in [simple_path],
    [build_VLE_relation]. *)
Definition pattern_relationship (range : cypher_range_opt_syntax) (loc : Z)
  (cnl : cypher_node) (cr : cypher_relationship) (cnr : cypher_node)
  (left_arg_location cr_location : Z) (unique_counter : N)
  : res cypher_relationship :=
  do varlen <- cypher_varlen_opt (VARLEN_star range loc);
  let cr := mk_cypher_relationship (rel_name cr) (rel_label cr) (rel_props cr)
              varlen (rel_dir cr) (rel_location cr) in
  let '(_, cr, _, _) :=
    build_VLE_relation cnl cr cnr left_arg_location cr_location unique_counter in
  Ok cr.

Definition is_integer_const (n : Node) : bool :=
  match n with
  | A_Const (T_Integer _) _ => true
  | _ => false
  end.

Section RangeSpec.
Context `{HostOps}.

(** What [(A_Indices * ) n] shows of a call node [n].  [A_Indices] and
    [FuncCall] are declared in the parser headers of the host: after its
    tag an [A_Indices] holds a flag and the two bounds, a [FuncCall] its
    name list, its argument list and further lists and flags.  Which
    fields of the call the view takes for the bounds depends on the
    layout; none of them is an integer constant. *)
Definition call_view_shows_no_constant : Prop :=
  forall (name : list string) (args : list Node) (form : CoercionForm) (loc : Z)
         (n : Node),
    (indices_through_cast (FuncCall name args form loc)).1 = Some n \/
    (indices_through_cast (FuncCall name args form loc)).2 = Some n ->
    is_integer_const n = false.

End RangeSpec.

(** The bounds the range syntax stands for: the lower bound, 1 when it
    is omitted, and the upper bound, [None] (no bound) when it is
    omitted; [ *n ] is [n..n], a bare [ * ] is [1..]. *)
Definition range_lower (range : cypher_range_opt_syntax) : Z :=
  match range with
  | RANGE_idx n _ => n
  | RANGE_dot_dot (Some (lo, _)) _ => lo
  | RANGE_dot_dot None _ => 1
  | RANGE_empty => 1
  end.

Definition range_upper (range : cypher_range_opt_syntax) : option Z :=
  match range with
  | RANGE_idx n _ => Some n
  | RANGE_dot_dot _ (Some (hi, _)) => Some hi
  | RANGE_dot_dot _ None => None
  | RANGE_empty => None
  end.

(** ** Shape of boolean trees *)

Definition is_bool_node (op : BoolExprType) (n : Node) : bool :=
  match n with
  | BoolExpr op' _ _ => bool_decide (op' = op)
  | _ => false
  end.

(** [has_same_op_child n]: [n] is an AND with an AND among its operands or
    an OR with an OR among its operands. *)
Definition has_same_op_child (n : Node) : bool :=
  match n with
  | BoolExpr AND_EXPR args _ => existsb (is_bool_node AND_EXPR) args
  | BoolExpr OR_EXPR args _ => existsb (is_bool_node OR_EXPR) args
  | _ => false
  end.

(** A left-associated chain [e1 AND e2 AND ... AND en] (resp. OR) as the
    grammar reduces it: each reduction has the chain so far on its left
    and one operand on its right.  The pairs are the operator location
    and the right operand. *)
Definition and_chain (e1 : Node) (rest : list (Z * Node)) : Node :=
  fold_left (fun acc p => make_and_expr acc (snd p) (fst p)) rest e1.

Definition or_chain (e1 : Node) (rest : list (Z * Node)) : Node :=
  fold_left (fun acc p => make_or_expr acc (snd p) (fst p)) rest e1.

(** ** age_vle.c: the graph index and the local VLE context

    The global graph context ([graph_context], built elsewhere) is a pair
    of hash tables from ids to vertex and edge entries.  A vertex entry
    lists the ids of its incoming, outgoing and self-loop edges; an edge
    entry carries the id of its edge, which is also the key it is stored
    under.  The
    property values are [gtype] containers; their encoding and the
    containment test belong to the value library and are an interface
    here. *)

Abbreviation graphid := Z (only parsing).

Class GtypeOps (gtype : Type) : Type := {
  AGT_ROOT_COUNT : gtype -> Z;
  GTYPE_CONTAINER_SIZE : gtype -> Z;
  gtype_deep_contains : gtype -> gtype -> bool
}.

Record vertex_entry : Type := mk_vertex_entry {
  vertex_entry_id : graphid;
  edges_in : list graphid;
  edges_out : list graphid;
  edges_self : list graphid
}.

Record edge_entry (gtype : Type) : Type := mk_edge_entry {
  edge_entry_id : graphid;
  edge_label_name : string;
  start_vertex_id : graphid;
  end_vertex_id : graphid;
  edge_properties : gtype
}.
Arguments mk_edge_entry {gtype}.
Arguments edge_entry_id {gtype}.
Arguments edge_label_name {gtype}.
Arguments start_vertex_id {gtype}.
Arguments end_vertex_id {gtype}.
Arguments edge_properties {gtype}.

Record graph_context (gtype : Type) : Type := mk_graph_context {
  vertex_hashtable : gmap Z vertex_entry;
  edge_hashtable : gmap Z (edge_entry gtype)
}.
Arguments mk_graph_context {gtype}.
Arguments vertex_hashtable {gtype}.
Arguments edge_hashtable {gtype}.

(** The three queues are used as stacks: the head of the list is the
    top.  [edge_state_hashtable] maps an edge id to its [visited] flag. *)
Record path_finding_context (gtype : Type) : Type := mk_path_finding_context {
  ggctx : graph_context gtype;
  vsid : graphid;
  veid : graphid;
  label_name : option string;
  properties : option gtype;
  lidx : Z;
  uidx : Z;
  uidx_infinite : bool;
  edge_direction : cypher_rel_dir;
  edge_state_hashtable : gmap Z bool;
  dfs_vertex_queue : list graphid;
  dfs_edge_queue : list graphid;
  dfs_path_queue : list graphid
}.
Arguments mk_path_finding_context {gtype}.
Arguments ggctx {gtype}.
Arguments vsid {gtype}.
Arguments veid {gtype}.
Arguments label_name {gtype}.
Arguments properties {gtype}.
Arguments lidx {gtype}.
Arguments uidx {gtype}.
Arguments uidx_infinite {gtype}.
Arguments edge_direction {gtype}.
Arguments edge_state_hashtable {gtype}.
Arguments dfs_vertex_queue {gtype}.
Arguments dfs_edge_queue {gtype}.
Arguments dfs_path_queue {gtype}.

Section VLE.
Context {gtype : Type} `{GtypeOps gtype}.

Abbreviation ctx := (path_finding_context gtype).

Definition set_edge_state_hashtable (c : ctx) (h : gmap Z bool) : ctx :=
  mk_path_finding_context (ggctx c) (vsid c) (veid c) (label_name c) (properties c)
    (lidx c) (uidx c) (uidx_infinite c) (edge_direction c)
    h (dfs_vertex_queue c) (dfs_edge_queue c) (dfs_path_queue c).

Definition set_dfs_vertex_queue (c : ctx) (q : list graphid) : ctx :=
  mk_path_finding_context (ggctx c) (vsid c) (veid c) (label_name c) (properties c)
    (lidx c) (uidx c) (uidx_infinite c) (edge_direction c)
    (edge_state_hashtable c) q (dfs_edge_queue c) (dfs_path_queue c).

Definition set_dfs_edge_queue (c : ctx) (q : list graphid) : ctx :=
  mk_path_finding_context (ggctx c) (vsid c) (veid c) (label_name c) (properties c)
    (lidx c) (uidx c) (uidx_infinite c) (edge_direction c)
    (edge_state_hashtable c) (dfs_vertex_queue c) q (dfs_path_queue c).

Definition set_dfs_path_queue (c : ctx) (q : list graphid) : ctx :=
  mk_path_finding_context (ggctx c) (vsid c) (veid c) (label_name c) (properties c)
    (lidx c) (uidx c) (uidx_infinite c) (edge_direction c)
    (edge_state_hashtable c) (dfs_vertex_queue c) (dfs_edge_queue c) q.

(** A missing entry is a [NULL] pointer that the callers dereference. *)
Definition get_vertex_entry (g : graph_context gtype) (id : graphid)
  : option vertex_entry := vertex_hashtable g !! id.

Definition get_edge_entry (g : graph_context gtype) (id : graphid)
  : option (edge_entry gtype) := edge_hashtable g !! id.

Definition check_edge_constraints (path_ctx : ctx) (ee : edge_entry gtype) : bool :=
  let label := edge_label_name ee in
  if match label_name path_ctx with
     | Some l => negb (String.eqb l label)
     | None => false
     end
  then false
  else
    match properties path_ctx with
    | None => true
    | Some props =>
        if AGT_ROOT_COUNT props >? GTYPE_CONTAINER_SIZE (edge_properties ee)
        then false
        else gtype_deep_contains (edge_properties ee) props
    end.

Definition do_vsid_and_veid_exist (path_ctx : ctx) : bool :=
  bool_decide (is_Some (get_vertex_entry (ggctx path_ctx) (vsid path_ctx)))
  && bool_decide (is_Some (get_vertex_entry (ggctx path_ctx) (veid path_ctx))).

(** [get_edge_state]: [hash_search] with [HASH_ENTER]; a new entry
    starts unvisited.  The result is the flag and the table. *)
Definition get_edge_state (path_ctx : ctx) (edge_id : graphid) : bool * ctx :=
  match edge_state_hashtable path_ctx !! edge_id with
  | Some visited => (visited, path_ctx)
  | None =>
      (false,
       set_edge_state_hashtable path_ctx
         (<[edge_id := false]> (edge_state_hashtable path_ctx)))
  end.

(** [ese->visited = b] on the entry of [edge_id]. *)
Definition set_visited (path_ctx : ctx) (edge_id : graphid) (b : bool) : ctx :=
  set_edge_state_hashtable path_ctx
    (<[edge_id := b]> (edge_state_hashtable path_ctx)).

Definition get_next_vertex (path_ctx : ctx) (ee : edge_entry gtype) : res graphid :=
  match edge_direction path_ctx with
  | CYPHER_REL_DIR_RIGHT => Ok (end_vertex_id ee)
  | CYPHER_REL_DIR_LEFT => Ok (start_vertex_id ee)
  | CYPHER_REL_DIR_NONE =>
      match dfs_vertex_queue path_ctx with
      | parent_vertex_id :: _ =>
          if start_vertex_id ee =? parent_vertex_id then Ok (end_vertex_id ee)
          else if end_vertex_id ee =? parent_vertex_id then Ok (start_vertex_id ee)
          else Err "get_next_vertex: no parent match"
      | [] => Err "peek on an empty vertex stack"
      end
  end.

(** The loop of [add_edges] walks the outgoing list, then the incoming
    list, then the self-loop list; [add_edges_loop] is its body over
    that sequence of edge ids. *)
Fixpoint add_edges_loop (path_ctx : ctx) (ve : vertex_entry)
  (edges : list graphid) : res ctx :=
  match edges with
  | [] => Ok path_ctx
  | edge_id :: rest =>
      match get_edge_entry (ggctx path_ctx) edge_id with
      | None => Err "add_edges: no edge entry"
      | Some ee =>
          let (visited, path_ctx) := get_edge_state path_ctx edge_id in
          let path_ctx :=
            if negb visited && check_edge_constraints path_ctx ee then
              let path_ctx :=
                if decide (edge_direction path_ctx = CYPHER_REL_DIR_NONE)
                then set_dfs_vertex_queue path_ctx
                       (vertex_entry_id ve :: dfs_vertex_queue path_ctx)
                else path_ctx in
              set_dfs_edge_queue path_ctx (edge_id :: dfs_edge_queue path_ctx)
            else path_ctx in
          add_edges_loop path_ctx ve rest
      end
  end.

Definition add_edges (path_ctx : ctx) (vertex_id : graphid) : res ctx :=
  match get_vertex_entry (ggctx path_ctx) vertex_id with
  | None => Err "add_edges: no vertex entry"
  | Some ve =>
      let edge_out :=
        if decide (edge_direction path_ctx = CYPHER_REL_DIR_LEFT) then []
        else edges_out ve in
      let edge_in :=
        if decide (edge_direction path_ctx = CYPHER_REL_DIR_RIGHT) then []
        else edges_in ve in
      let edge_self := edges_self ve in
      add_edges_loop path_ctx ve (edge_out ++ edge_in ++ edge_self)
  end.

Definition load_initial_dfs_queues (path_ctx : ctx) : res ctx :=
  if negb (do_vsid_and_veid_exist path_ctx) then Ok path_ctx
  else add_edges path_ctx (vsid path_ctx).

(** [build_vle_context]: the arguments are the graph, the ids of the
    start and end vertices, the two range bounds (NULL is [None]), the
    direction, and the label and property constraints. *)
Definition build_vle_context (g : graph_context gtype) (start_id end_id : graphid)
  (arg3 arg4 : option Z) (dir : cypher_rel_dir)
  (arg6 : option string) (arg7 : option gtype) : res ctx :=
  let lidx := match arg3 with None => 1 | Some l => l end in
  let '(uidx_infinite, uidx) :=
    match arg4 with None => (true, -1) | Some u => (false, u) end in
  load_initial_dfs_queues
    (mk_path_finding_context g start_id end_id arg6 arg7 lidx uidx uidx_infinite
       dir ∅ [] [] []).

Definition queue_size (q : list graphid) : Z := Z.of_nat (length q).

(** [dfs_find_a_path_between]: one unit of [fuel] per iteration of the
    [while] loop; [None] means the fuel ran out.  The result is the
    returned flag and the context as the call leaves it. *)
Fixpoint dfs_find_a_path_between (fuel : nat) (path_ctx : ctx)
  : option (res (bool * ctx)) :=
  match fuel with
  | O => None
  | S fuel =>
      match dfs_edge_queue path_ctx with
      | [] => Some (Ok (false, path_ctx))
      | edge_id :: edge_rest =>
          let (visited, path_ctx) := get_edge_state path_ctx edge_id in
          if visited then
            match dfs_path_queue path_ctx with
            | [] => Some (Err "peek on an empty path stack")
            | path_edge_id :: path_rest =>
                let path_ctx :=
                  if edge_id =? path_edge_id
                  then set_visited (set_dfs_path_queue path_ctx path_rest) edge_id false
                  else path_ctx in
                let path_ctx := set_dfs_edge_queue path_ctx edge_rest in
                if decide (edge_direction path_ctx = CYPHER_REL_DIR_NONE) then
                  match dfs_vertex_queue path_ctx with
                  | [] => Some (Err "pop on an empty vertex stack")
                  | _ :: vertex_rest =>
                      dfs_find_a_path_between fuel
                        (set_dfs_vertex_queue path_ctx vertex_rest)
                  end
                else dfs_find_a_path_between fuel path_ctx
            end
          else
            let path_ctx := set_visited path_ctx edge_id true in
            let path_ctx :=
              set_dfs_path_queue path_ctx (edge_id :: dfs_path_queue path_ctx) in
            match get_edge_entry (ggctx path_ctx) edge_id with
            | None => Some (Err "dfs_find_a_path_between: no edge entry")
            | Some ee =>
                match get_next_vertex path_ctx ee with
                | Err m => Some (Err m)
                | Ok next_vertex_id =>
                    let size := queue_size (dfs_path_queue path_ctx) in
                    let found :=
                      (next_vertex_id =? veid path_ctx)
                      && (size >=? lidx path_ctx)
                      && (uidx_infinite path_ctx || (size <=? uidx path_ctx)) in
                    if (next_vertex_id =? veid path_ctx)
                       && negb (uidx_infinite path_ctx)
                       && (size >? uidx path_ctx)
                    then dfs_find_a_path_between fuel path_ctx
                    else
                      match
                        (if uidx_infinite path_ctx || (size <? uidx path_ctx)
                         then add_edges path_ctx next_vertex_id
                         else Ok path_ctx)
                      with
                      | Err m => Some (Err m)
                      | Ok path_ctx =>
                          if found then Some (Ok (true, path_ctx))
                          else dfs_find_a_path_between fuel path_ctx
                      end
                end
            end
      end
  end.

(** [build_path_container]: the array is [vsid, e1, v1, ..., en, vn].
    The edges are copied from the path stack back to front, so they
    appear in the order they were taken; the second loop fills each
    vertex from the one before it and the edge between them. *)
Fixpoint fill_interior_vertices (g : graph_context gtype) (vid : graphid)
  (edges : list graphid) : res (list graphid) :=
  match edges with
  | [] => Ok []
  | e :: rest =>
      match get_edge_entry g e with
      | None => Err "build_path_container: no edge entry"
      | Some ee =>
          let vid := if vid =? start_vertex_id ee
                     then end_vertex_id ee else start_vertex_id ee in
          do r <- fill_interior_vertices g vid rest;
          Ok (e :: vid :: r)
      end
  end.

Definition build_path_container (path_ctx : ctx) : res (list graphid) :=
  let queue := dfs_path_queue path_ctx in
  let vid := vsid path_ctx in
  do r <- fill_interior_vertices (ggctx path_ctx) vid (rev queue);
  Ok (vid :: r).

(** [gtype_vle]: one call of the set-returning function after the
    first-call initialisation.  [Some (Ok (Some p, c))] returns the
    path container [p] and keeps [c] for the next call;
    [Some (Ok (None, c))] is [SRF_RETURN_DONE]. *)
Definition gtype_vle (fuel : nat) (path_ctx : ctx)
  : option (res (option (list graphid) * ctx)) :=
  match dfs_find_a_path_between fuel path_ctx with
  | None => None
  | Some (Err m) => Some (Err m)
  | Some (Ok (true, c)) =>
      match build_path_container c with
      | Ok vpc => Some (Ok (Some vpc, c))
      | Err m => Some (Err m)
      end
  | Some (Ok (false, c)) => Some (Ok (None, c))
  end.

(** The successive calls of one invocation: the list of the path
    containers returned until the function reports that it is done. *)
Fixpoint gtype_vle_all (calls fuel : nat) (path_ctx : ctx)
  : option (res (list (list graphid))) :=
  match calls with
  | O => None
  | S calls =>
      match gtype_vle fuel path_ctx with
      | None => None
      | Some (Err m) => Some (Err m)
      | Some (Ok (None, _)) => Some (Ok [])
      | Some (Ok (Some vpc, c)) =>
          match gtype_vle_all calls fuel c with
          | Some (Ok l) => Some (Ok (vpc :: l))
          | r => r
          end
      end
  end.

End VLE.

(** ** Edge, vertex and VariableEdge values

    An [edge] and a [vertex] are variable-length values whose payload is
    the array [children].  The sources read them in two ways: a single
    entry converted to a 64-bit integer, [(int64) e->children[i]], and the
    64-bit integer stored at the start of the array,
    [*((int64 * )(&e->children[0]))], which is the id.  The entry types are
    declared in headers of the value library; the two reads are the
    interface. *)

Class ValueLayout (edge vertex : Type) : Type := {
  edge_child : edge -> nat -> Z;
  vertex_child : vertex -> nat -> Z;
  edge_graphid : edge -> graphid
}.

(** A [VariableEdge] holds [children[0]] values: an edge, then vertex and
    edge in turn, ending with an edge ([build_variable_edge] refuses any
    other sequence and [create_variable_edge] builds no other); it may be
    empty. *)
Definition VariableEdge (edge vertex : Type) : Type :=
  option (edge * list (vertex * edge)).

Inductive ve_child (edge vertex : Type) : Type :=
| VE_edge (e : edge)
| VE_vertex (v : vertex).
Arguments VE_edge {edge vertex} e.
Arguments VE_vertex {edge vertex} v.

Section VariableEdge.
Context {edge vertex : Type} `{ValueLayout edge vertex}.

(** The values in the order they are stored. *)
Definition ve_children (ve : VariableEdge edge vertex) : list (ve_child edge vertex) :=
  match ve with
  | None => []
  | Some (e0, rest) =>
      VE_edge e0 :: flat_map (fun p => [VE_vertex (fst p); VE_edge (snd p)]) rest
  end.

(** The edges of a [VariableEdge], in order. *)
Definition ve_edges (ve : VariableEdge edge vertex) : list edge :=
  match ve with
  | None => []
  | Some (e0, rest) => e0 :: map snd rest
  end.

(** [(edge * ) ptr] on the value [ptr] points at. *)
Definition as_edge (c : option (ve_child edge vertex)) : res edge :=
  match c with
  | Some (VE_edge e) => Ok e
  | Some (VE_vertex _) => Err "value is a vertex"
  | None => Err "read past the last value"
  end.

(** [&ve->children[1]]: the first value. *)
Definition first_edge (ve : VariableEdge edge vertex) : res edge :=
  as_edge (ve_children ve !! 0%nat).

(** The value the loop
    [for (i = 0; i < ve->children[0] - 1; i++, ptr = ptr + VARSIZE(ptr));]
    stops at. *)
Definition last_edge (ve : VariableEdge edge vertex) : res edge :=
  match length (ve_children ve) with
  | O => Err "read past the last value"
  | S n => as_edge (ve_children ve !! n)
  end.

(** *** variable_edge.c: comparison operators *)

Definition gid_is_first_startid (id : graphid) (ve : VariableEdge edge vertex)
  : res bool :=
  do e <- first_edge ve;
  Ok (edge_child e 2 =? id).

(** The three functions below return before they look at the edge. *)
Definition vertex_is_first_start_vertex (v : vertex) (ve : VariableEdge edge vertex)
  : res bool :=
  Ok true.

Definition gid_is_first_endid (id : graphid) (ve : VariableEdge edge vertex)
  : res bool :=
  Ok true.

Definition vertex_is_first_end_vertex (v : vertex) (ve : VariableEdge edge vertex)
  : res bool :=
  Ok true.

Definition gid_is_last_startid (id : graphid) (ve : VariableEdge edge vertex)
  : res bool :=
  do e <- last_edge ve;
  Ok (edge_child e 2 =? id).

Definition vertex_is_last_start_vertex (v : vertex) (ve : VariableEdge edge vertex)
  : res bool :=
  do e <- last_edge ve;
  Ok (edge_child e 2 =? vertex_child v 0).

Definition gid_is_last_endid (id : graphid) (ve : VariableEdge edge vertex)
  : res bool :=
  do e <- last_edge ve;
  Ok (edge_child e 4 =? id).

Definition vertex_is_last_end_vertex (v : vertex) (ve : VariableEdge edge vertex)
  : res bool :=
  do e <- last_edge ve;
  Ok (edge_child e 4 =? vertex_child v 0).

(** The width of an entry.  vertex.h declares the entries of a vertex as
    [uint32] ([typedef uint32 ventry]); the header of the edge is not
    among the sources, and [_ag_enforce_edge_uniqueness] reads the id of
    an edge as the 64-bit integer at [&e->children[0]], not as
    [children[0]].  With such entries [(int64) e->children[i]] is a
    32-bit unsigned number. *)
Definition uint32_entries : Prop :=
  (forall (e : edge) (i : nat), 0 <= edge_child e i < 2 ^ 32) /\
  (forall (v : vertex) (i : nat), 0 <= vertex_child v i < 2 ^ 32).

(** *** age_vle.c: [_ag_enforce_edge_uniqueness]

    One variadic argument: [nulls[i]] set, or a value whose type is
    [GRAPHIDOID], [VARIABLEEDGEOID] or something else. *)
Inductive variadic_arg : Type :=
| ARG_NULL
| ARG_GRAPHID (edge_id : graphid)
| ARG_VARIABLE_EDGE (ve : VariableEdge edge vertex)
| ARG_OTHER.

(** The inner loop over the values of a [VariableEdge]: odd positions
    are skipped, the id of the edge at an even position is entered in the
    table.  [Ok None] is the early [PG_RETURN_BOOL(false)]. *)
Fixpoint enforce_variable_edge_loop (i : nat) (children : list (ve_child edge vertex))
  (exists_hash : gset Z) : res (option (gset Z)) :=
  match children with
  | [] => Ok (Some exists_hash)
  | c :: rest =>
      if (i mod 2 =? 1)%nat then enforce_variable_edge_loop (S i) rest exists_hash
      else
        do e <- as_edge (Some c);
        let id := edge_graphid e in
        if decide (id ∈ exists_hash) then Ok None
        else enforce_variable_edge_loop (S i) rest ({[id]} ∪ exists_hash)
  end.

Fixpoint enforce_edge_uniqueness_loop (i : nat) (args : list variadic_arg)
  (exists_hash : gset Z) : res bool :=
  match args with
  | [] => Ok true
  | a :: rest =>
      match a with
      | ARG_NULL =>
          Err ("_ag_enforce_edge_uniqueness argument " ++ pretty i
               ++ " must not be NULL")
      | ARG_GRAPHID edge_id =>
          if decide (edge_id ∈ exists_hash) then Ok false
          else enforce_edge_uniqueness_loop (S i) rest ({[edge_id]} ∪ exists_hash)
      | ARG_VARIABLE_EDGE ve =>
          do r <- enforce_variable_edge_loop 0 (ve_children ve) exists_hash;
          match r with
          | None => Ok false
          | Some exists_hash => enforce_edge_uniqueness_loop (S i) rest exists_hash
          end
      | ARG_OTHER => enforce_edge_uniqueness_loop (S i) rest exists_hash
      end
  end.

Definition _ag_enforce_edge_uniqueness (args : list variadic_arg) : res bool :=
  enforce_edge_uniqueness_loop 0 args ∅.

(** The ids an argument stands for: itself for a graphid, the ids of its
    edges for a [VariableEdge]. *)
Definition arg_edge_ids (a : variadic_arg) : list graphid :=
  match a with
  | ARG_GRAPHID edge_id => [edge_id]
  | ARG_VARIABLE_EDGE ve => map edge_graphid (ve_edges ve)
  | _ => []
  end.

Definition collected_edge_ids (args : list variadic_arg) : list graphid :=
  flat_map arg_edge_ids args.

(** Entering ids one by one in the table, stopping at the first one
    already there. *)
Fixpoint ids_insert (ids : list graphid) (h : gset Z) : option (gset Z) :=
  match ids with
  | [] => Some h
  | id :: rest =>
      if decide (id ∈ h) then None else ids_insert rest ({[id]} ∪ h)
  end.

End VariableEdge.

Arguments variadic_arg : clear implicits.

(** ** Specification vocabulary for the VLE engine *)

Section VLE_spec.
Context {gtype : Type}.

(** The adjacency lists of a well-formed index agree with the edge
    table: an edge listed as outgoing from [v] starts at [v], one listed
    as incoming ends at [v], a self loop does both, and every vertex
    entry is stored under its own id. *)
Definition edge_satisfies (g : graph_context gtype)
  (P : edge_entry gtype -> bool) (e : graphid) : bool :=
  match edge_hashtable g !! e with
  | Some ee => P ee
  | None => false
  end.

Definition vertex_entry_wf (g : graph_context gtype) (v : graphid)
  (ve : vertex_entry) : bool :=
  (vertex_entry_id ve =? v)
  && forallb (edge_satisfies g (fun ee => start_vertex_id ee =? v)) (edges_out ve)
  && forallb (edge_satisfies g (fun ee => end_vertex_id ee =? v)) (edges_in ve)
  && forallb (edge_satisfies g (fun ee => (start_vertex_id ee =? v)
                                          && (end_vertex_id ee =? v)))
       (edges_self ve).

Definition graph_wf (g : graph_context gtype) : bool :=
  forallb (fun kv => vertex_entry_wf g (fst kv) (snd kv))
    (map_to_list (vertex_hashtable g)).

(** [src_ok dir v ee]: the traversal may leave [v] through [ee]. *)
Definition src_ok (dir : cypher_rel_dir) (v : graphid) (ee : edge_entry gtype) : Prop :=
  match dir with
  | CYPHER_REL_DIR_RIGHT => start_vertex_id ee = v
  | CYPHER_REL_DIR_LEFT => end_vertex_id ee = v
  | CYPHER_REL_DIR_NONE => start_vertex_id ee = v \/ end_vertex_id ee = v
  end.

(** The vertex reached from [v] through [ee]. *)
Definition next_of (dir : cypher_rel_dir) (v : graphid) (ee : edge_entry gtype) : graphid :=
  match dir with
  | CYPHER_REL_DIR_RIGHT => end_vertex_id ee
  | CYPHER_REL_DIR_LEFT => start_vertex_id ee
  | CYPHER_REL_DIR_NONE =>
      if start_vertex_id ee =? v then end_vertex_id ee else start_vertex_id ee
  end.

(** [walk g dir s es t]: following the edges [es] in order, each in the
    direction [dir] allows, leads from [s] to [t]. *)
Inductive walk (g : graph_context gtype) (dir : cypher_rel_dir)
  : graphid -> list graphid -> graphid -> Prop :=
| walk_nil s : walk g dir s [] s
| walk_cons s e ee es t :
    edge_hashtable g !! e = Some ee ->
    src_ok dir s ee ->
    walk g dir (next_of dir s ee) es t ->
    walk g dir s (e :: es) t.

(** A path container is [v0, e1, v1, ..., en, vn]. *)
Fixpoint container_edges (vpc : list graphid) : list graphid :=
  match vpc with
  | _ :: e :: rest => e :: container_edges rest
  | _ => []
  end.

(** The stacks of a context in the middle of a traversal.  With the
    path [p] (top first) ending at vertex [v], the edge stack holds, from
    the top: the edges out of [v] still to be tried, the last edge of
    [p], the edges still to be tried at the vertex before, and so on down
    to the start vertex.  When the direction is none the vertex stack
    holds, entry for entry, the vertex each stacked edge was pushed
    from. *)
Definition child_ok (g : graph_context gtype) (dir : cypher_rel_dir)
  (v : graphid) (p : list graphid) (c : graphid) : Prop :=
  (c ∉ p) /\ exists ee, edge_hashtable g !! c = Some ee /\ src_ok dir v ee.

Definition vq (dir : cypher_rel_dir) (v : graphid) (C : list graphid) : list graphid :=
  match dir with
  | CYPHER_REL_DIR_NONE => replicate (length C) v
  | _ => []
  end.

Inductive stk (g : graph_context gtype) (dir : cypher_rel_dir) (s : graphid)
  : list graphid -> graphid -> list graphid -> list graphid -> Prop :=
| stk_nil C :
    Forall (child_ok g dir s []) C ->
    stk g dir s [] s C (vq dir s C)
| stk_cons p v e Q VQ ee C :
    stk g dir s p v (e :: Q) VQ ->
    e ∉ p ->
    edge_hashtable g !! e = Some ee ->
    src_ok dir v ee ->
    Forall (child_ok g dir (next_of dir v ee) (e :: p)) C ->
    stk g dir s (e :: p) (next_of dir v ee) (C ++ e :: Q)
      (vq dir (next_of dir v ee) C ++ VQ).

(** The invariant of a context between two iterations of the search
    loop. *)
Record vle_inv (g : graph_context gtype) (dir : cypher_rel_dir) (s : graphid)
  (v : graphid) (c : path_finding_context gtype) : Prop := mk_vle_inv {
  inv_ggctx : ggctx c = g;
  inv_dir : edge_direction c = dir;
  inv_vsid : vsid c = s;
  inv_stk : stk g dir s (dfs_path_queue c) v (dfs_edge_queue c) (dfs_vertex_queue c);
  inv_visited : forall e,
    edge_state_hashtable c !! e = Some true <-> e ∈ dfs_path_queue c
}.

(** The fields a traversal never writes. *)
Definition same_params (c c' : path_finding_context gtype) : Prop :=
  ggctx c' = ggctx c /\ vsid c' = vsid c /\ veid c' = veid c /\
  label_name c' = label_name c /\ properties c' = properties c /\
  lidx c' = lidx c /\ uidx c' = uidx c /\ uidx_infinite c' = uidx_infinite c /\
  edge_direction c' = edge_direction c.

(** A measure that every iteration of the search loop decreases.  An
    edge of the edge stack that is on the path weighs 1: it is only popped.
    An edge still to be tried with [j] edges of the graph off the path
    weighs [pending_weight D j], which pays for its own two iterations and
    for the edges, at most [D], that its expansion stacks. *)
Definition degree (ve : vertex_entry) : nat :=
  length (edges_out ve ++ edges_in ve ++ edges_self ve).

Definition max_degree (g : graph_context gtype) : nat :=
  max_list (map (fun kv => degree (snd kv)) (map_to_list (vertex_hashtable g))).

Fixpoint pending_weight (D : nat) (j : nat) : nat :=
  match j with
  | O => 0
  | S j => 2 + D * pending_weight D j
  end.

Fixpoint stack_weight (D N : nat) (p Q : list graphid) : nat :=
  match Q with
  | [] => 0
  | e :: Q' =>
      match p with
      | e' :: p' =>
          if e =? e' then S (stack_weight D N p' Q')
          else (pending_weight D (N - length p) + stack_weight D N p Q')%nat
      | [] => (pending_weight D (N - 0) + stack_weight D N [] Q')%nat
      end
  end.

Definition dfs_measure (c : path_finding_context gtype) : nat :=
  stack_weight (max_degree (ggctx c)) (size (edge_hashtable (ggctx c)))
    (dfs_path_queue c) (dfs_edge_queue c).

(** What a call that reports a path guarantees about the context it
    leaves: the path stack ends at the end vertex and its size is within
    the bounds. *)
Definition found_ok (c : path_finding_context gtype) (v' : graphid)
  (c' : path_finding_context gtype) : Prop :=
  v' = veid c /\
  lidx c <= queue_size (dfs_path_queue c') /\
  (uidx_infinite c = true \/ queue_size (dfs_path_queue c') <= uidx c).

End VLE_spec.

(** The contexts a sequence of calls of [gtype_vle] goes through, from
    the context the first call builds. *)
Inductive vle_reachable {gtype : Type} `{GtypeOps gtype}
  (c0 : path_finding_context gtype) : path_finding_context gtype -> Prop :=
| vle_reach_first : vle_reachable c0 c0
| vle_reach_next c fuel vpc c' :
    vle_reachable c0 c ->
    gtype_vle fuel c = Some (Ok (Some vpc, c')) ->
    vle_reachable c0 c'.

(** ** Example data

    The fixture graph of the regression test: [b -> u1 -> u2 -> u3 -> e]
    with the self loops, alternate and bypass edges. *)
#[local] Instance unit_gtype_ops : GtypeOps unit :=
  {| AGT_ROOT_COUNT := fun _ => 0; GTYPE_CONTAINER_SIZE := fun _ => 0;
     gtype_deep_contains := fun _ _ => true |}.

Definition fixture_edges : list (Z * edge_entry unit) :=
  [ (101, mk_edge_entry 101 "edge" 1 2 tt); (102, mk_edge_entry 102 "edge" 2 3 tt);
    (103, mk_edge_entry 103 "edge" 3 4 tt); (104, mk_edge_entry 104 "edge" 4 5 tt);
    (105, mk_edge_entry 105 "self_loop" 2 2 tt);
    (106, mk_edge_entry 106 "self_loop" 5 5 tt);
    (107, mk_edge_entry 107 "alternate_edge" 1 2 tt);
    (108, mk_edge_entry 108 "alternate_edge" 3 4 tt);
    (109, mk_edge_entry 109 "alternate_edge" 4 5 tt);
    (110, mk_edge_entry 110 "bypass_edge" 3 5 tt);
    (111, mk_edge_entry 111 "alternate_edge" 5 4 tt);
    (112, mk_edge_entry 112 "alternate_edge" 4 3 tt);
    (113, mk_edge_entry 113 "bypass_edge" 3 1 tt) ].

Definition fixture_vertices : list (Z * vertex_entry) :=
  [ (1, mk_vertex_entry 1 [113] [101; 107] []);
    (2, mk_vertex_entry 2 [101; 107] [102] [105]);
    (3, mk_vertex_entry 3 [102; 112] [103; 108; 110; 113] []);
    (4, mk_vertex_entry 4 [103; 108; 111] [104; 109; 112] []);
    (5, mk_vertex_entry 5 [104; 109; 110] [111] [106]) ].

Definition fixture_graph : graph_context unit :=
  mk_graph_context (list_to_map fixture_vertices) (list_to_map fixture_edges).

(** A graph with parallel edges: [201] and [202] both lead from 1 to 2
    and agree in label and properties; [203] leads from 2 to 3. *)
Definition parallel_edges : list (Z * edge_entry unit) :=
  [ (201, mk_edge_entry 201 "edge" 1 2 tt); (202, mk_edge_entry 202 "edge" 1 2 tt);
    (203, mk_edge_entry 203 "edge" 2 3 tt) ].

Definition parallel_vertices : list (Z * vertex_entry) :=
  [ (1, mk_vertex_entry 1 [] [201; 202] []);
    (2, mk_vertex_entry 2 [201; 202] [203] []);
    (3, mk_vertex_entry 3 [203] [] []) ].

Definition parallel_graph : graph_context unit :=
  mk_graph_context (list_to_map parallel_vertices) (list_to_map parallel_edges).

(** A layout for examples: 64-bit ids stored as two 32-bit entries, low
    half first, the entries of an edge being its id, its start id and its
    end id (the vertex header declares 32-bit entries; the edge header is
    taken to do the same). *)
Record edge_value : Set := mk_edge_value {
  ev_id : graphid;
  ev_start_id : graphid;
  ev_end_id : graphid
}.

Record vertex_value : Set := mk_vertex_value { vv_id : graphid }.

Definition low32 (x : Z) : Z := Z.land x (Z.ones 32).
Definition high32 (x : Z) : Z := Z.land (Z.shiftr x 32) (Z.ones 32).

#[local] Instance example_layout : ValueLayout edge_value vertex_value :=
  {| edge_child := fun e i =>
       match i with
       | 0%nat => low32 (ev_id e)
       | 1%nat => high32 (ev_id e)
       | 2%nat => low32 (ev_start_id e)
       | 3%nat => high32 (ev_start_id e)
       | 4%nat => low32 (ev_end_id e)
       | 5%nat => high32 (ev_end_id e)
       | _ => 0
       end;
     vertex_child := fun v i =>
       match i with
       | 0%nat => low32 (vv_id v)
       | 1%nat => high32 (vv_id v)
       | _ => 0
       end;
     edge_graphid := ev_id |}.

(** The first path of the regression test
    [MATCH p=(u:begin)-[*3..3]->(v:end) RETURN relationships(p)], with the
    ids of its expected output. *)
Definition regression_first_edge : edge_value :=
  mk_edge_value 2251799813685249 844424930131969 1407374883553281.

Definition regression_rest : list (vertex_value * edge_value) :=
  [(mk_vertex_value 1407374883553281,
    mk_edge_value 1125899906842627 1407374883553281 1407374883553282);
   (mk_vertex_value 1407374883553282,
    mk_edge_value 2533274790395905 1407374883553282 1688849860263937)].

Definition regression_path : VariableEdge edge_value vertex_value :=
  Some (regression_first_edge, regression_rest).

(** A small host for examples.  The parse state counts result numbers
    and generated aliases and lists the aliases in the FROM clause.  In
    an expression a column reference resolves to a variable of the
    current query; no name is known as a column to [colNameToVar], so a
    node or relationship that is to be output gets a range table entry,
    named by its alias, and a reference to this entry as its expression.
    No label is known to the catalog, and every other operation succeeds
    without effect.  The join quals are left empty. *)
Record example_pstate : Type := mk_example_pstate {
  ex_next_resno : Z;
  ex_alias_num : N;
  ex_expr_kind : ParseExprKind;
  ex_from : list string
}.

#[local] Instance example_host_types : HostTypes := {|
  ParseState := example_pstate;
  RangeTable := list string;
  JoinList := list string;
  SortGroupList := list Node;
  ParseNamespaceItem := string;
  Relation := string;
  p_rtable := ex_from;
  p_joinlist := ex_from;
  p_hasSubLinks := fun _ => false;
  p_hasTargetSRFs := fun _ => false;
  p_hasAggs := fun _ => false;
  p_hasWindowFuncs := fun _ => false;
  p_expr_kind := ex_expr_kind;
  p_lateral_active := fun _ => false;
  set_p_expr_kind := fun ps k =>
    mk_example_pstate (ex_next_resno ps) (ex_alias_num ps) k (ex_from ps);
  rtable_length := fun l => Z.of_nat (length l);
  NIL_sort := [];
  sort_is_NIL := fun l => bool_decide (l = [])
|}.

Fixpoint example_contain_vars (n : Node) (level : Z) : bool :=
  match n with
  | Var _ _ l => l =? level
  | A_Expr _ _ l r _ => example_contain_vars l level || example_contain_vars r level
  | BoolExpr _ args _ => existsb (fun a => example_contain_vars a level) args
  | FuncCall _ args _ _ => existsb (fun a => example_contain_vars a level) args
  | NullTest a _ _ => example_contain_vars a level
  | _ => false
  end.

Fixpoint example_resolve (n : Node) : Node :=
  match n with
  | ColumnRef _ _ => Var 1 1 0
  | A_Expr k nm l r loc => A_Expr k nm (example_resolve l) (example_resolve r) loc
  | BoolExpr op args loc => BoolExpr op (map example_resolve args) loc
  | FuncCall nm args f loc => FuncCall nm (map example_resolve args) f loc
  | NullTest a b loc => NullTest (example_resolve a) b loc
  | other => other
  end.

Definition example_alias (cps : cypher_parsestate) : string * cypher_parsestate :=
  let ps := pstate cps in
  (("_age_default_alias_" ++ pretty (ex_alias_num ps))%string,
   set_pstate cps
     (mk_example_pstate (ex_next_resno ps) (ex_alias_num ps + 1)%N (ex_expr_kind ps)
        (ex_from ps))).

Definition example_add_from (ps : example_pstate) (alias : string) : example_pstate :=
  mk_example_pstate (ex_next_resno ps) (ex_alias_num ps) (ex_expr_kind ps)
    (ex_from ps ++ [alias]).

Definition example_host_ops_with
  (dispatch : cypher_parsestate -> cypher_clause -> res (Query * cypher_parsestate))
  : HostOps := {|
  transform_cypher_expr := fun cps n _ => Ok (example_resolve n, cps);
  transformExpr := fun ps n _ => Ok (n, ps);
  coerce_to_specific_type := fun _ n _ _ => Ok n;
  coerce_to_boolean := fun _ n _ => Ok n;
  contain_vars_of_level := example_contain_vars;
  transform_cypher_clause := dispatch;
  make_cypher_parsestate := fun cps =>
    mk_cypher_parsestate (pstate cps) (graph_name cps) (graph_oid cps) [] [];
  free_cypher_parsestate := fun _ parent => pstate parent;
  addRangeTableEntryForSubquery := fun ps _ alias _ _ =>
    Ok (default "" alias, example_add_from ps (default "" alias));
  rte_is_last := fun _ _ => true;
  checkNameSpaceConflicts := fun _ _ => Ok tt;
  addNSItemToQuery := fun ps _ _ _ _ => ps;
  expandNSItemAttrs := fun _ _ => [];
  markTargetListOrigins := fun _ tl => tl;
  assign_query_collations := fun _ _ => Ok tt;
  parse_check_aggregates := fun _ _ => Ok tt;
  transform_cypher_item_list := fun cps items _ =>
    Ok (imap (fun i n => makeTargetEntry (example_resolve n) (Z.of_nat i + 1) None false)
          items, [], cps);
  transform_cypher_order_by := fun cps _ tl _ => Ok ([], tl, cps);
  transform_group_clause := fun cps _ tl _ _ => Ok ([], [], tl, cps);
  transformDistinctClause := fun _ tl _ => Ok ([], tl);
  where_through_match_cast := fun _ => None;
  get_next_default_alias := example_alias;
  grandparent_cpstate := fun cps => cps;
  colNameToVar := fun _ _ _ _ => Ok None;
  get_graph_namespace_name := fun g => g;
  get_label_relation_name := fun label _ => label;
  addRangeTableEntry := fun ps _ _ alias _ _ => Ok (alias, example_add_from ps alias);
  make_edge_expr := fun _ pnsi _ => ColumnRef [pnsi] 0;
  make_vertex_expr := fun _ pnsi _ => ColumnRef [pnsi] 0;
  create_property_constraints := fun cps ent props =>
    Ok (A_Expr AEXPR_OP ["@>"]
          (ColumnRef [default "" (get_entity_name ent); "properties"] 0) props (-1), cps);
  append_vle_to_from_clause := fun cps _ alias =>
    Ok (default "" alias, set_pstate cps (example_add_from (pstate cps) (default "" alias)));
  scanNSItemForColumn := fun _ pnsi col => Ok (ColumnRef [pnsi; col] (-1));
  find_pnsi := fun cps name =>
    match name with
    | Some n => if bool_decide (n ∈ ex_from (pstate cps)) then Some n else None
    | None => None
    end;
  next_resno := fun ps =>
    (ex_next_resno ps,
     mk_example_pstate (ex_next_resno ps + 1) (ex_alias_num ps) (ex_expr_kind ps)
       (ex_from ps));
  make_path_join_quals := fun _ _ => Ok [];
  transform_match_create_path_variable := fun _ path _ =>
    Ok (makeTargetEntry (FuncCall ["build_traversal"] [] COERCE_EXPLICIT_CALL (-1)) 0
          (var_name path) false);
  get_accessor_function_name := fun _ col => ("age_" ++ col)%string;
  indices_through_cast := fun _ => (None, None);
  search_label_name_graph_cache := fun _ _ _ => None;
  variable_exists := fun _ _ => false;
  placeholder_edge := fun cps name =>
    (makeTargetEntry (A_Const T_Null (-1)) 0 (Some name) false, cps);
  placeholder_traversal := fun cps name =>
    (makeTargetEntry (A_Const T_Null (-1)) 0 (Some name) false, cps);
  label_exists := fun _ _ _ => false;
  create_edge_label := fun ps _ _ => Ok ps;
  parserOpenTable := fun ps _ label => Ok (label, ps);
  RelationGetRelid := fun _ => 0;
  addRangeTableEntryForRelation := fun ps r => example_add_from ps r;
  build_column_default := fun _ => None;
  cypher_create_properties := fun cps _ _ props _ =>
    Ok (default (A_Const T_Null (-1)) props, cps);
  transform_create_cypher_node := fun cps tl node =>
    Ok (mk_cypher_target_node LABEL_KIND_VERTEX [CYPHER_TARGET_NODE_FLAG_INSERT]
          (node_label node) (node_name node) 0 CYPHER_REL_DIR_NONE 0 None 0, tl, cps);
  handle_prev_clause := fun cps tl _ _ => Ok (tl, cps);
  make_clause_func_expr := fun name _ => FuncCall [name] [] COERCE_EXPLICIT_CALL (-1);
  makeNullConst := fun _ => A_Const T_Null (-1);
  GTYPEOID := 0;
  CREATE_CLAUSE_FUNCTION_NAME := "_cypher_create_clause";
  AGE_DEFAULT_VARNAME_PREFIX := "_age_default_";
  AG_DEFAULT_LABEL_EDGE := "_ag_label_edge";
  AG_DEFAULT_LABEL_VERTEX := "_ag_label_vertex";
  IS_DEFAULT_LABEL_EDGE := fun l => bool_decide (l = Some "_ag_label_edge"%string);
  IS_DEFAULT_LABEL_VERTEX := fun l => bool_decide (l = Some "_ag_label_vertex"%string)
|}.

#[local] Instance example_host_ops : HostOps :=
  example_host_ops_with (fun _ _ => Err "no dispatcher in the example host").

(** The same host with a dispatcher over the clause transformers embedded
    here; the clause before the dispatched one is transformed by the host
    without dispatcher, which is enough for a chain of two clauses. *)
Definition example_dispatching_ops : HostOps :=
  example_host_ops_with
    (fun cps clause =>
       match clause_self clause with
       | N_cypher_return _ => transform_cypher_return cps clause
       | N_cypher_with _ => transform_cypher_with cps clause
       | N_cypher_create _ => transform_cypher_create cps clause
       | _ => Err "unexpected Node for cypher_clause"
       end).

Definition example_cpstate : cypher_parsestate :=
  mk_cypher_parsestate (mk_example_pstate 1 0 EXPR_KIND_NONE []) "g" 1 [] [].

(** [CREATE ()-[:X]-()] *)
Definition example_undirected_create : cypher_create :=
  mk_cypher_create
    [mk_cypher_path
       [PE_node (mk_cypher_node None None None 7);
        PE_rel (mk_cypher_relationship None (Some "X") None None CYPHER_REL_DIR_NONE 9);
        PE_node (mk_cypher_node None None None 15)]
       None 7].

(** [RETURN 1] *)
Definition example_return_1 : cypher_return :=
  mk_cypher_return false [make_int_const 1 25] [] None None false SETOP_NONE [] [].

Definition example_node (name : string) : path_elem :=
  PE_node (mk_cypher_node (Some name) None None 0).

Definition example_rel (name : string) : path_elem :=
  PE_rel (mk_cypher_relationship (Some name) None None None CYPHER_REL_DIR_RIGHT 0).

(** [(a)-[e1]->(b)-[e2]->(c)] *)
Definition example_path_two_edges (a e1 b e2 c : string) : cypher_path :=
  mk_cypher_path
    [example_node a; example_rel e1; example_node b; example_rel e2; example_node c]
    None 0.

(** [(a)-[e]->(b)] *)
Definition example_path_one_edge (a e b : string) : cypher_path :=
  mk_cypher_path [example_node a; example_rel e; example_node b] None 0.

(** ** variable_edge.c: [build_variable_edge]; age_vle.c: [create_variable_edge]

    Both functions fill a buffer with a count and then the values, one
    after the other.  [variable_edge_buffer] is this buffer. *)

Record variable_edge_buffer (edge vertex : Type) : Type := mk_variable_edge_buffer {
  veb_count : Z;
  veb_children : list (ve_child edge vertex)
}.
Arguments mk_variable_edge_buffer {edge vertex}.
Arguments veb_count {edge vertex}.
Arguments veb_children {edge vertex}.

(** One variadic argument of [build_variable_edge]: its type is
    [EDGEOID], [VERTEXOID] or something else; the function does not look
    at [nulls], so a NULL edge or vertex ([None]) is a null pointer that
    it dereferences. *)
Inductive build_arg (edge vertex : Type) : Type :=
| BA_EDGE (e : option edge)
| BA_VERTEX (v : option vertex)
| BA_OTHER.
Arguments BA_EDGE {edge vertex} e.
Arguments BA_VERTEX {edge vertex} v.
Arguments BA_OTHER {edge vertex}.

Section BuildVariableEdge.
Context {edge vertex : Type}.

Fixpoint build_variable_edge_loop (i nargs : nat) (args : list (build_arg edge vertex))
  (buffer : list (ve_child edge vertex)) : res (list (ve_child edge vertex)) :=
  match args with
  | [] => Ok buffer
  | a :: rest =>
      if (i mod 2 =? 1)%nat then
        match a with
        | BA_VERTEX v =>
            if (i + 1 =? nargs)%nat then Err "VariableEdges must end with an edge"
            else
              match v with
              | Some v => build_variable_edge_loop (S i) nargs rest (buffer ++ [VE_vertex v])
              | None => Err "build_variable_edge: NULL vertex"
              end
        | _ => Err ("arguement " ++ pretty i ++ " build_traversal() must be a vertex")
        end
      else
        match a with
        | BA_EDGE e =>
            match e with
            | Some e => build_variable_edge_loop (S i) nargs rest (buffer ++ [VE_edge e])
            | None => Err "build_variable_edge: NULL edge"
            end
        | _ => Err ("arguement " ++ pretty i ++ " build_traversal() must be an edge")
        end
  end.

Definition build_variable_edge (args : list (build_arg edge vertex))
  : res (variable_edge_buffer edge vertex) :=
  let nargs := length args in
  do children <- build_variable_edge_loop 0 nargs args [];
  Ok (mk_variable_edge_buffer (Z.of_nat nargs) children).

(** The argument a stored value comes from. *)
Definition arg_of_child (c : ve_child edge vertex) : build_arg edge vertex :=
  match c with
  | VE_edge e => BA_EDGE (Some e)
  | VE_vertex v => BA_VERTEX (Some v)
  end.

End BuildVariableEdge.

(** The functions of the graph index and of edge.c and vertex.c that
    [create_variable_edge] calls.  It reads the id of an edge entry with
    [get_vertex_entry_id], the accessor of vertex entries; the two entry
    structures are declared with the graph index, and what the accessor
    returns on an edge entry is left to the interface. *)
Class EntityBuilder (gtype edge vertex : Type) : Type := {
  create_vertex : graphid -> Z -> gtype -> vertex;
  create_edge : graphid -> graphid -> graphid -> Z -> gtype -> edge;
  get_vertex_entry_properties : vertex_entry -> gtype;
  get_vertex_entry_id_of_edge_entry : edge_entry gtype -> graphid
}.

Section CreateVariableEdge.
Context {gtype edge vertex : Type} `{EntityBuilder gtype edge vertex}.

Definition vertex_of_entry (graph_oid : Z) (ve : vertex_entry) : vertex :=
  create_vertex (vertex_entry_id ve) graph_oid (get_vertex_entry_properties ve).

Definition edge_of_entry (graph_oid : Z) (ee : edge_entry gtype) : edge :=
  create_edge (get_vertex_entry_id_of_edge_entry ee) (start_vertex_id ee)
    (end_vertex_id ee) graph_oid (edge_properties ee).

(** The loop of [create_variable_edge] from [index] on; [rest] is the
    part of the graphid array from [index] on and [size] the size of the
    array. *)
Fixpoint create_variable_edge_loop (g : graph_context gtype) (graph_oid : Z)
  (index size : nat) (rest : list graphid) (buffer : list (ve_child edge vertex))
  : res (list (ve_child edge vertex)) :=
  match rest with
  | [] => Ok buffer
  | vid :: rest1 =>
      do buffer <-
        (if negb (index =? 0)%nat && negb (index + 1 =? size)%nat then
           match vertex_hashtable g !! vid with
           | Some ve => Ok (buffer ++ [VE_vertex (vertex_of_entry graph_oid ve)])
           | None => Err "create_variable_edge: no vertex entry"
           end
         else Ok buffer);
      if (index + 1 =? size)%nat then Ok buffer
      else
        match rest1 with
        | [] => Err "create_variable_edge: read past the array"
        | eid :: rest2 =>
            match edge_hashtable g !! eid with
            | Some ee =>
                create_variable_edge_loop g graph_oid (index + 2) size rest2
                  (buffer ++ [VE_edge (edge_of_entry graph_oid ee)])
            | None => Err "create_variable_edge: no edge entry"
            end
        end
  end.

Definition create_variable_edge (g : graph_context gtype) (graph_oid : Z)
  (vpc : list graphid) : res (variable_edge_buffer edge vertex) :=
  let graphid_array_size := length vpc in
  let size := Z.of_nat graphid_array_size - 2 in
  do children <- create_variable_edge_loop g graph_oid 0 graphid_array_size vpc [];
  Ok (mk_variable_edge_buffer size children).

(** The value built for an edge id, and for a vertex id. *)
Definition edge_built (g : graph_context gtype) (graph_oid : Z) (eid : graphid)
  (e : edge) : Prop :=
  exists ee, edge_hashtable g !! eid = Some ee /\ e = edge_of_entry graph_oid ee.

Definition vertex_built (g : graph_context gtype) (graph_oid : Z) (vid : graphid)
  (v : vertex) : Prop :=
  exists ve, vertex_hashtable g !! vid = Some ve /\ v = vertex_of_entry graph_oid ve.

End CreateVariableEdge.

(** The values of a [VariableEdge] after its first edge. *)
Definition pairs_children {edge vertex : Type} (pairs : list (vertex * edge))
  : list (ve_child edge vertex) :=
  flat_map (fun p => [VE_vertex (fst p); VE_edge (snd p)]) pairs.

(** The vertices of a [VariableEdge], in order. *)
Definition ve_vertices {edge vertex : Type} (ve : VariableEdge edge vertex) : list vertex :=
  match ve with
  | None => []
  | Some (_, rest) => map fst rest
  end.

(** The vertices of a path container but the first and the last. *)
Fixpoint container_vertices (vpc : list graphid) : list graphid :=
  match vpc with
  | v :: _ :: rest => v :: container_vertices rest
  | [v] => [v]
  | [] => []
  end.

Definition container_interior_vertices (vpc : list graphid) : list graphid :=
  match container_vertices vpc with
  | _ :: rest => removelast rest
  | [] => []
  end.

(** Every edge of the edge table starts and ends at a vertex of the
    vertex table. *)
Definition has_vertex {gtype : Type} (g : graph_context gtype) (v : graphid) : bool :=
  match vertex_hashtable g !! v with
  | Some _ => true
  | None => false
  end.

Definition graph_closed {gtype : Type} (g : graph_context gtype) : bool :=
  forallb (fun kv => has_vertex g (start_vertex_id (snd kv))
                     && has_vertex g (end_vertex_id (snd kv)))
    (map_to_list (edge_hashtable g)).

(** Entities for examples: a value keeps the ids it is built from, and
    the id read from an edge entry is the id of the entry. *)
#[local] Instance example_entity_builder : EntityBuilder unit edge_value vertex_value :=
  {| create_vertex := fun id _ _ => mk_vertex_value id;
     create_edge := fun id startid endid _ _ => mk_edge_value id startid endid;
     get_vertex_entry_properties := fun _ => tt;
     get_vertex_entry_id_of_edge_entry := edge_entry_id |}.

(** ** Further vocabulary for the VLE engine *)

Section VLE_more_spec.
Context {gtype : Type} `{GtypeOps gtype}.

(** An edge id that the traversal of [c] may follow: it has an entry in
    the edge table and the entry passes [check_edge_constraints]. *)
Definition edge_admitted (c : path_finding_context gtype) (e : graphid) : Prop :=
  exists ee, edge_hashtable (ggctx c) !! e = Some ee /\
             check_edge_constraints c ee = true.

(** The context [c] has the parameters of [c0], and the stacked edges and
    the edges of the path are all admitted. *)
Definition stacks_admitted (c0 c : path_finding_context gtype) : Prop :=
  same_params c0 c /\
  Forall (edge_admitted c0) (dfs_edge_queue c) /\
  Forall (edge_admitted c0) (dfs_path_queue c).

(** The edges [add_edges] looks at when it expands the vertex of [ve]. *)
Definition expansion (dir : cypher_rel_dir) (ve : vertex_entry) : list graphid :=
  (if decide (dir = CYPHER_REL_DIR_LEFT) then [] else edges_out ve)
  ++ (if decide (dir = CYPHER_REL_DIR_RIGHT) then [] else edges_in ve)
  ++ edges_self ve.

(** Every edge of the edge table is listed at the vertex it starts at,
    as outgoing or as a self loop, and at the vertex it ends at, as
    incoming or as a self loop. *)
Definition listed_at (g : graph_context gtype) (v id : graphid)
  (l : vertex_entry -> list graphid) : bool :=
  match vertex_hashtable g !! v with
  | Some ve => bool_decide (id ∈ l ve ++ edges_self ve)
  | None => false
  end.

Definition graph_adjacent (g : graph_context gtype) : bool :=
  forallb (fun kv => listed_at g (start_vertex_id (snd kv)) (fst kv) edges_out
                     && listed_at g (end_vertex_id (snd kv)) (fst kv) edges_in)
    (map_to_list (edge_hashtable g)).

(** [pending es p Q]: with the path [p] (last edge first) and the edge
    stack [Q], the path of edges [es] is still to come: it goes on from a
    beginning of the path through an edge that is stacked to be tried
    there.  The edges stacked for the end of [p] are those above the last
    edge of [p]. *)
Inductive pending (es : list graphid) : list graphid -> list graphid -> Prop :=
| pending_here p Q1 c Q2 rest :
    Forall (fun x => x ∉ p) Q1 ->
    c ∉ p ->
    es = rev p ++ c :: rest ->
    pending es p (Q1 ++ c :: Q2)
| pending_below e p C Q :
    Forall (fun x => x ∉ e :: p) C ->
    pending es p Q ->
    pending es (e :: p) (C ++ e :: Q).

End VLE_more_spec.

(** ** Further vocabulary for MATCH paths *)

(** The type of the entity that stands for an element of a pattern. *)
Definition expected_entity_type (e : path_elem) : transform_entity_type :=
  match e with
  | PE_node _ => ENT_VERTEX
  | PE_rel r =>
      match rel_varlen r with
      | Some _ => ENT_VLE_EDGE
      | None => ENT_EDGE
      end
  end.

Definition path_types (path : cypher_path) : list transform_entity_type :=
  map expected_entity_type (path_elems path).

(** ** variable_edge.c: [variable_edge_out]

    [append_edge_to_string] and [append_vertex_to_string] belong to the
    value library; each appends the text of its value to the string. *)

Section VariableEdgeOut.
Context {edge vertex : Type}.
Variable edge_text : edge -> string.
Variable vertex_text : vertex -> string.

Definition appendStringInfoString (str s : string) : string := str +:+ s.
Definition append_edge_to_string (str : string) (e : edge) : string := str +:+ edge_text e.
Definition append_vertex_to_string (str : string) (v : vertex) : string :=
  str +:+ vertex_text v.

(** [(vertex * ) ptr] on the value [ptr] points at. *)
Definition as_vertex (c : ve_child edge vertex) : res vertex :=
  match c with
  | VE_vertex v => Ok v
  | VE_edge _ => Err "value is an edge"
  end.

Fixpoint variable_edge_out_loop (i : nat) (children : list (ve_child edge vertex))
  (str : string) : res string :=
  match children with
  | [] => Ok str
  | c :: rest =>
      if (i mod 2 =? 1)%nat then
        do v <- as_vertex c;
        let str := appendStringInfoString str ", " in
        let str := append_vertex_to_string str v in
        let str := appendStringInfoString str ", " in
        variable_edge_out_loop (S i) rest str
      else
        do e <- as_edge (Some c);
        variable_edge_out_loop (S i) rest (append_edge_to_string str e)
  end.

Definition variable_edge_out (v : VariableEdge edge vertex) : res string :=
  let str := appendStringInfoString "" "[" in
  do str <- variable_edge_out_loop 0 (ve_children v) str;
  Ok (appendStringInfoString str "]").

Definition child_text (c : ve_child edge vertex) : string :=
  match c with
  | VE_edge e => edge_text e
  | VE_vertex v => vertex_text v
  end.

End VariableEdgeOut.

(** ** gtype_util.c

    The header of the value library is not among the sources.  What the
    functions below take from it is a parameter: the value of an
    enumerator where the code tests it, and the two macros that read an
    entry of a container. *)

Inductive gtype_value_type : Set :=
| AGTV_NULL | AGTV_STRING | AGTV_NUMERIC | AGTV_INTEGER | AGTV_FLOAT | AGTV_BOOL
| AGTV_TIMESTAMP | AGTV_TIMESTAMPTZ | AGTV_DATE | AGTV_TIME | AGTV_TIMETZ
| AGTV_INTERVAL | AGTV_VERTEX | AGTV_EDGE | AGTV_PATH
| AGTV_ARRAY | AGTV_OBJECT | AGTV_BINARY.

#[local] Instance gtype_value_type_eq_dec : EqDecision gtype_value_type.
Proof. solve_decision. Defined.

Section SortPriority.
(** The integer value of an enumerator. *)
Variable enum_value : gtype_value_type -> Z.

(** [get_type_sort_priority].  The eighth test is written
    [type == AGTV_TIME || AGTV_TIMETZ]: its second operand is the
    enumerator itself, which is true when its value is not 0. *)
Definition get_type_sort_priority (type : gtype_value_type) : Z :=
  if bool_decide (type = AGTV_OBJECT) then 0
  else if bool_decide (type = AGTV_ARRAY) then 1
  else if bool_decide (type = AGTV_STRING) then 2
  else if bool_decide (type = AGTV_BOOL) then 3
  else if bool_decide (type = AGTV_NUMERIC) || bool_decide (type = AGTV_INTEGER)
          || bool_decide (type = AGTV_FLOAT) then 4
  else if bool_decide (type = AGTV_TIMESTAMP) || bool_decide (type = AGTV_TIMESTAMPTZ) then 5
  else if bool_decide (type = AGTV_DATE) then 6
  else if bool_decide (type = AGTV_TIME) || negb (enum_value AGTV_TIMETZ =? 0) then 7
  else if bool_decide (type = AGTV_INTERVAL) then 8
  else if bool_decide (type = AGTV_NULL) then 9
  else -1.

(** The type-defined order of [compare_gtype_containers_orderability]:
    [(get_type_sort_priority(va.type) < get_type_sort_priority(vb.type)) ? -1 : 1]. *)
Definition type_defined_order (va_type vb_type : gtype_value_type) : Z :=
  if get_type_sort_priority va_type <? get_type_sort_priority vb_type then -1 else 1.

End SortPriority.

(** The enumerators numbered in the order they are listed above, from 0. *)
Definition example_enum_value (type : gtype_value_type) : Z :=
  match type with
  | AGTV_NULL => 0 | AGTV_STRING => 1 | AGTV_NUMERIC => 2 | AGTV_INTEGER => 3
  | AGTV_FLOAT => 4 | AGTV_BOOL => 5 | AGTV_TIMESTAMP => 6 | AGTV_TIMESTAMPTZ => 7
  | AGTV_DATE => 8 | AGTV_TIME => 9 | AGTV_TIMETZ => 10 | AGTV_INTERVAL => 11
  | AGTV_VERTEX => 12 | AGTV_EDGE => 13 | AGTV_PATH => 14
  | AGTV_ARRAY => 15 | AGTV_OBJECT => 16 | AGTV_BINARY => 17
  end.

(** *** [get_gtype_offset] and [get_gtype_length]

    [children] is the entry array of a container, read without bounds as
    the code does; an entry is a [uint32]. *)
Definition uint32 (x : Z) : Z := x mod 2 ^ 32.

Class AgtentryMacros : Type := {
  AGTE_OFFLENFLD : Z -> Z;
  AGTE_HAS_OFF : Z -> bool
}.

Section ContainerEntries.
Context `{AgtentryMacros}.

(** The loop [for (i = index - 1; i >= 0; i--)], [n] being [i + 1]. *)
Fixpoint get_gtype_offset_loop (children : Z -> Z) (n : nat) (offset : Z) : Z :=
  match n with
  | O => offset
  | S i =>
      let offset := uint32 (offset + AGTE_OFFLENFLD (children (Z.of_nat i))) in
      if AGTE_HAS_OFF (children (Z.of_nat i)) then offset
      else get_gtype_offset_loop children i offset
  end.

Definition get_gtype_offset (children : Z -> Z) (index : Z) : Z :=
  get_gtype_offset_loop children (Z.to_nat index) 0.

Definition get_gtype_length (children : Z -> Z) (index : Z) : Z :=
  if AGTE_HAS_OFF (children index) then
    let off := get_gtype_offset children index in
    uint32 (AGTE_OFFLENFLD (children index) - off)
  else uint32 (AGTE_OFFLENFLD (children index)).

End ContainerEntries.

(** Entries for examples: the length or offset in the low 28 bits, the
    offset flag in the top bit. *)
#[local] Instance example_agtentry_macros : AgtentryMacros :=
  {| AGTE_OFFLENFLD := fun e => Z.land e (Z.ones 28);
     AGTE_HAS_OFF := fun e => Z.testbit e 31 |}.

Definition example_children (l : list Z) (i : Z) : Z := nth (Z.to_nat i) l 0.

(** *** The pairs of an object: [length_compare_gtype_string_value],
    [length_compare_gtype_pair] and [uniqueify_gtype_object]

    A string value is its bytes, as [unsigned char] values; its length
    field is the number of bytes. *)

(** [memcmp] over the first [n] bytes: the sign of the difference of the
    first two bytes that differ. *)
Fixpoint memcmp (a b : list Z) (n : nat) : Z :=
  match n, a, b with
  | S n, x :: a, y :: b =>
      if x =? y then memcmp a b n else if x <? y then -1 else 1
  | _, _, _ => 0
  end.

Definition length_compare_gtype_string_value (va vb : list Z) : Z :=
  if (length va =? length vb)%nat then memcmp va vb (length va)
  else if (length vb <? length va)%nat then 1 else -1.

Record gtype_pair (V : Type) : Type := mk_gtype_pair {
  pair_key : list Z;
  pair_value : V;
  pair_order : Z
}.
Arguments mk_gtype_pair {V}.
Arguments pair_key {V}.
Arguments pair_value {V}.
Arguments pair_order {V}.

(** [binequal] is [None] for a null pointer, else the bool it points at. *)
Definition length_compare_gtype_pair {V : Type} (pa pb : gtype_pair V)
  (binequal : option bool) : Z * option bool :=
  let res := length_compare_gtype_string_value (pair_key pa) (pair_key pb) in
  let binequal :=
    if (res =? 0) && bool_decide (is_Some binequal) then Some true else binequal in
  let res :=
    if res =? 0 then (if pair_order pb <? pair_order pa then -1 else 1) else res in
  (res, binequal).

(** The loop of [uniqueify_gtype_object]; [ptr] and [res] are indices
    into the array and [n] the number of elements from [ptr] on. *)
Fixpoint uniqueify_loop {V : Type} (n : nat) (pairs : list (gtype_pair V))
  (ptr res : nat) : list (gtype_pair V) * nat :=
  match n with
  | O => (pairs, res)
  | S n =>
      match pairs !! ptr, pairs !! res with
      | Some p, Some r =>
          if negb (length_compare_gtype_string_value (pair_key p) (pair_key r) =? 0)
          then
            let res := S res in
            let pairs := if negb (ptr =? res)%nat then <[res := p]> pairs else pairs in
            uniqueify_loop n pairs (S ptr) res
          else uniqueify_loop n pairs (S ptr) res
      | _, _ => (pairs, res)
      end
  end.

Section Uniqueify.
Context {V : Type}.

(** [qsort_arg] of the host, with the comparator and the value its last
    argument points at. *)
Variable qsort_arg :
  (gtype_pair V -> gtype_pair V -> option bool -> Z * option bool) ->
  list (gtype_pair V) -> option bool -> list (gtype_pair V) * option bool.

(** The pairs of the object after [uniqueify_gtype_object]; the list has
    [num_pairs] elements. *)
Definition uniqueify_gtype_object (pairs : list (gtype_pair V)) : list (gtype_pair V) :=
  let has_non_uniq := Some false in
  let '(pairs, has_non_uniq) :=
    if (1 <? length pairs)%nat
    then qsort_arg length_compare_gtype_pair pairs has_non_uniq
    else (pairs, has_non_uniq) in
  if bool_decide (has_non_uniq = Some true) then
    let '(pairs, res) := uniqueify_loop (length pairs - 1) pairs 1 0 in
    take (res + 1) pairs
  else pairs.

End Uniqueify.

(** The order the comparator sorts by: the key first; of two pairs with
    the same key the one pushed later comes first. *)
Definition pair_before {V : Type} (p q : gtype_pair V) : Prop :=
  length_compare_gtype_string_value (pair_key p) (pair_key q) < 0 \/
  (pair_key p = pair_key q /\ pair_order q < pair_order p).

(** Whether two neighbours of a list of pairs have the same key. *)
Fixpoint neighbours_with_equal_keys {V : Type} (l : list (gtype_pair V)) : bool :=
  match l with
  | a :: (b :: _) as l' =>
      (length_compare_gtype_string_value (pair_key a) (pair_key b) =? 0)
      || neighbours_with_equal_keys l'
  | _ => false
  end.

(** The pairs with the keys of a sorted list taken once: the first pair of
    each run of equal keys.  [dedup_from r l] follows the pair [r] kept
    last. *)
Fixpoint dedup_from {V : Type} (r : gtype_pair V) (l : list (gtype_pair V))
  : list (gtype_pair V) :=
  match l with
  | [] => []
  | p :: l =>
      if negb (length_compare_gtype_string_value (pair_key p) (pair_key r) =? 0)
      then p :: dedup_from p l
      else dedup_from r l
  end.

Definition dedup_keys {V : Type} (l : list (gtype_pair V)) : list (gtype_pair V) :=
  match l with
  | [] => []
  | r :: l => r :: dedup_from r l
  end.

(** A sort for examples: insertion from the back, the comparator called
    with the value of the last argument threaded through. *)
Fixpoint example_insert {A S : Type} (cmp : A -> A -> S -> Z * S)
  (x : A) (l : list A) (st : S) : list A * S :=
  match l with
  | [] => ([x], st)
  | y :: l' =>
      let '(r, st) := cmp x y st in
      if r <=? 0 then (x :: y :: l', st)
      else let '(l'', st) := example_insert cmp x l' st in (y :: l'', st)
  end.

Fixpoint example_qsort_arg {A S : Type} (cmp : A -> A -> S -> Z * S)
  (l : list A) (st : S) : list A * S :=
  match l with
  | [] => ([], st)
  | x :: l' =>
      let '(sorted, st) := example_qsort_arg cmp l' st in
      example_insert cmp x sorted st
  end.

(** *** [find_gtype_value_from_container]

    A container is its header, its entry array and the bytes that follow
    the entries.  The macros that read the header, the flags of the caller
    and [AGTE_ADVANCE_OFFSET] come from the header of the library;
    [fill_gtype_value] and [equals_gtype_scalar_value] build and compare
    values of the library and are kept as an interface. *)

Definition int32 (x : Z) : Z :=
  let y := x mod 2 ^ 32 in if y <? 2 ^ 31 then y else y - 2 ^ 32.

Module GtypeContainer.

Record gtype_container : Type := mk_gtype_container {
  agtc_header : Z;
  agtc_children : Z -> Z;
  (* the byte at [(char * )(children + n) + k] *)
  agtc_bytes : Z -> Z -> Z
}.

Class ContainerMacros (V : Type) : Type := {
  GTYPE_CONTAINER_SIZE : gtype_container -> Z;
  GTYPE_CONTAINER_IS_ARRAY : gtype_container -> bool;
  GTYPE_CONTAINER_IS_OBJECT : gtype_container -> bool;
  AGT_FARRAY : Z;
  AGT_FOBJECT : Z;
  AGTE_ADVANCE_OFFSET : Z -> Z -> Z;
  (* [fill_gtype_value container index base_addr offset], the base
     address given by the number of entries before it *)
  fill_gtype_value : gtype_container -> Z -> Z -> Z -> V;
  equals_gtype_scalar_value : V -> V -> res bool;
  value_type : V -> gtype_value_type;
  (* the bytes of [val.string] *)
  string_val : V -> list Z
}.

Section FindValue.
Context {V : Type} `{ContainerMacros V} `{AgtentryMacros}.

(** The string of [len] bytes at [base_addr + off]; [len] is taken as a
    length, which it is below [2 ^ 31]. *)
Definition string_at (container : gtype_container) (n off len : Z) : list Z :=
  map (fun k => agtc_bytes container n (off + Z.of_nat k)) (seq 0 (Z.to_nat len)).

(** The loop over the elements of an array; [n] elements are left. *)
Fixpoint find_in_array_loop (n : nat) (container : gtype_container) (count : Z)
  (key : V) (i : Z) (offset : Z) : res (option V) :=
  match n with
  | O => Ok None
  | S n =>
      let result := fill_gtype_value container i count offset in
      do found <-
        (if bool_decide (value_type key = value_type result)
         then equals_gtype_scalar_value key result
         else Ok false);
      if found then Ok (Some result)
      else
        find_in_array_loop n container count key (i + 1)
          (AGTE_ADVANCE_OFFSET offset (agtc_children container i))
  end.

(** The binary search over the keys of an object; [None] when [fuel]
    iterations did not end it. *)
Fixpoint find_in_object_loop (fuel : nat) (container : gtype_container) (count : Z)
  (key : V) (stop_low stop_high : Z) : option (option V) :=
  match fuel with
  | O => None
  | S fuel =>
      if stop_low <? stop_high then
        let stop_middle := uint32 (stop_low + uint32 (stop_high - stop_low) / 2) in
        let children := agtc_children container in
        let candidate :=
          string_at container (count * 2)
            (get_gtype_offset children (int32 stop_middle))
            (get_gtype_length children (int32 stop_middle)) in
        let difference := length_compare_gtype_string_value candidate (string_val key) in
        if difference =? 0 then
          let index := int32 (stop_middle + count) in
          Some (Some (fill_gtype_value container index (count * 2)
                        (get_gtype_offset children index)))
        else if difference <? 0
        then find_in_object_loop fuel container count key (uint32 (stop_middle + 1)) stop_high
        else find_in_object_loop fuel container count key stop_low stop_middle
      else Some None
  end.

Definition find_gtype_value_from_container (container : gtype_container)
  (flags : Z) (key : V) : option (res (option V)) :=
  let count := GTYPE_CONTAINER_SIZE container in
  if count <=? 0 then Some (Ok None)
  else if negb (Z.land flags AGT_FARRAY =? 0) && GTYPE_CONTAINER_IS_ARRAY container then
    Some (find_in_array_loop (Z.to_nat count) container count key 0 0)
  else if negb (Z.land flags AGT_FOBJECT =? 0) && GTYPE_CONTAINER_IS_OBJECT container then
    option_map Ok
      (find_in_object_loop (S (Z.to_nat count)) container count key 0 (uint32 count))
  else Some (Ok None).

(** The key of pair [i] of an object. *)
Definition object_key (container : gtype_container) (i : Z) : list Z :=
  let count := GTYPE_CONTAINER_SIZE container in
  string_at container (count * 2)
    (get_gtype_offset (agtc_children container) i)
    (get_gtype_length (agtc_children container) i).

End FindValue.

(** An object for examples: the keys [a] and [bb] with their values; a
    value is filled in as the index and the offset it is read at. *)
Definition example_object : gtype_container :=
  mk_gtype_container (Z.lor (2 ^ 29) 2)
    (example_children [1; 2; 4; 4])
    (fun n k => if n =? 4 then nth (Z.to_nat k) [97; 98; 98; 0; 0; 0; 1; 0; 0; 0; 2] 0 else 0).

#[global] Instance example_container_macros : ContainerMacros (Z * Z) :=
  {| GTYPE_CONTAINER_SIZE := fun c => Z.land (agtc_header c) (Z.ones 28);
     GTYPE_CONTAINER_IS_ARRAY := fun c => Z.testbit (agtc_header c) 30;
     GTYPE_CONTAINER_IS_OBJECT := fun c => Z.testbit (agtc_header c) 29;
     AGT_FARRAY := 64;
     AGT_FOBJECT := 32;
     AGTE_ADVANCE_OFFSET := fun offset e =>
       if Z.testbit e 31 then Z.land e (Z.ones 28) else offset + Z.land e (Z.ones 28);
     fill_gtype_value := fun _ index _ offset => (index, offset);
     equals_gtype_scalar_value := fun a b => Ok (bool_decide (a = b));
     value_type := fun _ => AGTV_STRING;
     string_val := fun v => if fst v =? 0 then [97] else if fst v =? 1 then [98; 98] else [99] |}.

End GtypeContainer.

(** *** [push_gtype_value_scalar] and its workers

    A value in memory: a scalar with its type and its bytes, an array
    with its [raw_scalar] and [num_elems] fields and its elements, or an
    object with its pairs ([num_pairs] is their number). *)

Inductive gtype_value : Type :=
| GV_scalar (type : gtype_value_type) (val : list Z)
| GV_array (raw_scalar : bool) (num_elems : Z) (elems : list gtype_value)
| GV_object (pairs : list (gtype_pair gtype_value)).

Inductive gtype_iterator_token : Set :=
| WAGT_DONE | WAGT_KEY | WAGT_VALUE | WAGT_ELEM
| WAGT_BEGIN_ARRAY | WAGT_END_ARRAY | WAGT_BEGIN_OBJECT | WAGT_END_OBJECT.

(** A parse state without its [next] pointer: the container being
    built ([cont_val], by its fields), the key and the order that
    [append_key] wrote into [pairs[num_pairs]], if it did, and the number
    of elements or pairs allocated.  The states are stacked in a list, the
    current one first. *)
Record gtype_parse_state : Type := mk_gtype_parse_state {
  cont_val_type : gtype_value_type;
  cont_val_raw_scalar : bool;
  cont_val_elems : list gtype_value;
  cont_val_pairs : list (gtype_pair gtype_value);
  next_pair_key : option (list Z * Z);
  ps_size : Z
}.

Definition cont_val (st : gtype_parse_state) : gtype_value :=
  match cont_val_type st with
  | AGTV_ARRAY =>
      GV_array (cont_val_raw_scalar st) (Z.of_nat (length (cont_val_elems st)))
        (cont_val_elems st)
  | _ => GV_object (cont_val_pairs st)
  end.

Section PushValue.
(** The limits of the header. *)
Variable GTYPE_MAX_ELEMS : Z.
Variable GTYPE_MAX_PAIRS : Z.
Variable qsort_arg :
  (gtype_pair gtype_value -> gtype_pair gtype_value -> option bool -> Z * option bool) ->
  list (gtype_pair gtype_value) -> option bool ->
  list (gtype_pair gtype_value) * option bool.

Definition append_key (pstate : gtype_parse_state) (string : option gtype_value)
  : res gtype_parse_state :=
  if negb (bool_decide (cont_val_type pstate = AGTV_OBJECT))
  then Err "append_key: the container is not an object"
  else
    match string with
    | Some (GV_scalar _ key) =>
        let num_pairs := Z.of_nat (length (cont_val_pairs pstate)) in
        if GTYPE_MAX_PAIRS <=? num_pairs
        then Err ("number of gtype object pairs exceeds the maximum allowed ("
                  ++ pretty GTYPE_MAX_PAIRS ++ ")")
        else
          let size := if ps_size pstate <=? num_pairs then ps_size pstate * 2
                      else ps_size pstate in
          Ok (mk_gtype_parse_state (cont_val_type pstate) (cont_val_raw_scalar pstate)
                (cont_val_elems pstate) (cont_val_pairs pstate)
                (Some (key, num_pairs)) size)
    | _ => Err "append_key: the key is not a string"
    end.

Definition append_value (pstate : gtype_parse_state) (scalar_val : option gtype_value)
  : res gtype_parse_state :=
  if negb (bool_decide (cont_val_type pstate = AGTV_OBJECT))
  then Err "append_value: the container is not an object"
  else
    match scalar_val, next_pair_key pstate with
    | Some v, Some (key, order) =>
        Ok (mk_gtype_parse_state (cont_val_type pstate) (cont_val_raw_scalar pstate)
              (cont_val_elems pstate)
              (cont_val_pairs pstate ++ [mk_gtype_pair key v order])
              None (ps_size pstate))
    | Some _, None => Err "append_value: the pair has no key"
    | None, _ => Err "append_value: no value"
    end.

Definition append_element (pstate : gtype_parse_state) (scalar_val : option gtype_value)
  : res gtype_parse_state :=
  if negb (bool_decide (cont_val_type pstate = AGTV_ARRAY))
  then Err "append_element: the container is not an array"
  else
    match scalar_val with
    | Some v =>
        let num_elems := Z.of_nat (length (cont_val_elems pstate)) in
        if GTYPE_MAX_ELEMS <=? num_elems
        then Err ("number of gtype array elements exceeds the maximum allowed ("
                  ++ pretty GTYPE_MAX_ELEMS ++ ")")
        else
          let size := if ps_size pstate <=? num_elems then ps_size pstate * 2
                      else ps_size pstate in
          Ok (mk_gtype_parse_state (cont_val_type pstate) (cont_val_raw_scalar pstate)
                (cont_val_elems pstate ++ [v]) (cont_val_pairs pstate)
                (next_pair_key pstate) size)
    | None => Err "append_element: no value"
    end.

(** The steps common to [WAGT_END_ARRAY] and [WAGT_END_OBJECT]: pop the
    state and push its container as a value of the parent. *)
Definition pop_to_parent (st : gtype_parse_state) (next : list gtype_parse_state)
  : res (list gtype_parse_state * option gtype_value) :=
  let result := cont_val st in
  match next with
  | [] => Ok ([], Some result)
  | parent :: rest =>
      match cont_val_type parent with
      | AGTV_ARRAY =>
          do parent <- append_element parent (Some result);
          Ok (parent :: rest, Some result)
      | AGTV_OBJECT =>
          do parent <- append_value parent (Some result);
          Ok (parent :: rest, Some result)
      | _ => Err "invalid gtype container type"
      end
  end.

(** [push_gtype_value_scalar]: the new stack and the value returned.
    For a [WAGT_BEGIN_] token the value returned is the container just
    opened. *)
Definition push_gtype_value_scalar (pstate : list gtype_parse_state)
  (seq : gtype_iterator_token) (scalar_val : option gtype_value)
  : res (list gtype_parse_state * option gtype_value) :=
  match seq with
  | WAGT_BEGIN_ARRAY =>
      do hdr <-
        match scalar_val with
        | None => Ok None
        | Some (GV_array raw_scalar num_elems _) => Ok (Some (raw_scalar, num_elems))
        | Some _ => Err "push_gtype_value_scalar: not an array"
        end;
      let raw_scalar := match hdr with Some (raw_scalar, _) => raw_scalar | None => false end in
      let size :=
        match hdr with
        | Some (_, num_elems) => if 0 <? num_elems then num_elems else 4
        | None => 4
        end in
      let ns := mk_gtype_parse_state AGTV_ARRAY raw_scalar [] [] None size in
      Ok (ns :: pstate, Some (cont_val ns))
  | WAGT_BEGIN_OBJECT =>
      let ns := mk_gtype_parse_state AGTV_OBJECT false [] [] None 4 in
      Ok (ns :: pstate, Some (cont_val ns))
  | WAGT_KEY =>
      match pstate with
      | st :: next => do st <- append_key st scalar_val; Ok (st :: next, None)
      | [] => Err "push_gtype_value_scalar: no container"
      end
  | WAGT_VALUE =>
      match pstate with
      | st :: next => do st <- append_value st scalar_val; Ok (st :: next, None)
      | [] => Err "push_gtype_value_scalar: no container"
      end
  | WAGT_ELEM =>
      match pstate with
      | st :: next => do st <- append_element st scalar_val; Ok (st :: next, None)
      | [] => Err "push_gtype_value_scalar: no container"
      end
  | WAGT_END_OBJECT =>
      match pstate with
      | st :: next =>
          let st :=
            mk_gtype_parse_state (cont_val_type st) (cont_val_raw_scalar st)
              (cont_val_elems st) (uniqueify_gtype_object qsort_arg (cont_val_pairs st))
              (next_pair_key st) (ps_size st) in
          pop_to_parent st next
      | [] => Err "push_gtype_value_scalar: no container"
      end
  | WAGT_END_ARRAY =>
      match pstate with
      | st :: next => pop_to_parent st next
      | [] => Err "push_gtype_value_scalar: no container"
      end
  | WAGT_DONE => Err "unrecognized gtype sequential processing token"
  end.

(** The calls of [push_gtype_value_scalar] for a sequence of tokens, one
    after the other; the value is that of the last call. *)
Fixpoint push_tokens (pstate : list gtype_parse_state)
  (last : option gtype_value)
  (toks : list (gtype_iterator_token * option gtype_value))
  : res (list gtype_parse_state * option gtype_value) :=
  match toks with
  | [] => Ok (pstate, last)
  | (seq, v) :: toks =>
      do (pstate, r) <- push_gtype_value_scalar pstate seq v;
      push_tokens pstate r toks
  end.

(** The tokens for a value as one element of an array, or as the value
    of a pair: a scalar is one token, a container the tokens from its
    [WAGT_BEGIN_] to its [WAGT_END_]. *)
Fixpoint value_tokens (scalar_tok : gtype_iterator_token) (v : gtype_value)
  : list (gtype_iterator_token * option gtype_value) :=
  match v with
  | GV_scalar _ _ => [(scalar_tok, Some v)]
  | GV_array _ _ elems =>
      (WAGT_BEGIN_ARRAY, None) :: flat_map (value_tokens WAGT_ELEM) elems
      ++ [(WAGT_END_ARRAY, None)]
  | GV_object pairs =>
      (WAGT_BEGIN_OBJECT, None)
      :: flat_map (fun p => (WAGT_KEY, Some (GV_scalar AGTV_STRING (pair_key p)))
                            :: value_tokens WAGT_VALUE (pair_value p)) pairs
      ++ [(WAGT_END_OBJECT, None)]
  end.

(** The pairs of an object in the order they are pushed, with their
    [order] field. *)
Fixpoint pushed_pairs {A : Type} (f : A -> gtype_value) (order : Z)
  (pairs : list (gtype_pair A)) : list (gtype_pair gtype_value) :=
  match pairs with
  | [] => []
  | p :: pairs =>
      mk_gtype_pair (pair_key p) (f (pair_value p)) order :: pushed_pairs f (order + 1) pairs
  end.

(** The value the tokens build: the arrays with their elements in order,
    the objects made unique. *)
Fixpoint built_value (v : gtype_value) : gtype_value :=
  match v with
  | GV_scalar _ _ => v
  | GV_array _ _ elems =>
      GV_array false (Z.of_nat (length elems)) (map built_value elems)
  | GV_object pairs =>
      GV_object (uniqueify_gtype_object qsort_arg (pushed_pairs built_value 0 pairs))
  end.

(** No array of the value has more than [GTYPE_MAX_ELEMS] elements and
    no object more than [GTYPE_MAX_PAIRS] pairs. *)
Fixpoint within_limits (v : gtype_value) : bool :=
  match v with
  | GV_scalar _ _ => true
  | GV_array _ _ elems =>
      (Z.of_nat (length elems) <=? GTYPE_MAX_ELEMS) && forallb within_limits elems
  | GV_object pairs =>
      (Z.of_nat (length pairs) <=? GTYPE_MAX_PAIRS)
      && forallb (fun p => within_limits (pair_value p)) pairs
  end.

End PushValue.

(** The depth of the containers of a value. *)
Fixpoint value_height (v : gtype_value) : nat :=
  match v with
  | GV_scalar _ _ => 0
  | GV_array _ _ elems => S (max_list (map value_height elems))
  | GV_object pairs => S (max_list (map (fun p => value_height (pair_value p)) pairs))
  end.

Definition is_container (v : gtype_value) : bool :=
  match v with
  | GV_scalar _ _ => false
  | _ => true
  end.

(* ===================================================================== *)
(** * Part II: theorems                                                   *)
(* ===================================================================== *)

Example make_and_expr_chain3 :
  expr_action (E_and (E_and (E_atom (ColumnRef ["a"] 0)) 1 (E_atom (ColumnRef ["b"] 2)))
                     3 (E_atom (ColumnRef ["c"] 4)))
  = Ok (BoolExpr AND_EXPR [ColumnRef ["a"] 0; ColumnRef ["b"] 2; ColumnRef ["c"] 4] 1).
Proof. reflexivity. Qed.

(* ------------------------------------------------------------------ *)
(** ** VLE engine (age_vle.c) *)

Section VLE_proofs.
Context {gtype : Type} `{GtypeOps gtype}.
Implicit Types (g : graph_context gtype) (c : path_finding_context gtype).

Lemma same_params_refl c : same_params c c.
Proof. repeat split. Qed.

Lemma same_params_trans c1 c2 c3 :
  same_params c1 c2 -> same_params c2 c3 -> same_params c1 c3.
Proof.
  unfold same_params. intros (?&?&?&?&?&?&?&?&?) (?&?&?&?&?&?&?&?&?).
  repeat split; congruence.
Qed.

Lemma graph_wf_lookup g v ve :
  graph_wf g = true ->
  vertex_hashtable g !! v = Some ve ->
  vertex_entry_wf g v ve = true.
Proof.
  unfold graph_wf. intros Hwf Hl.
  rewrite forallb_forall in Hwf.
  apply (Hwf (v, ve)). apply list_elem_of_In.
  by apply elem_of_map_to_list.
Qed.

Lemma edge_satisfies_spec g P e :
  edge_satisfies g P e = true ->
  exists ee, edge_hashtable g !! e = Some ee /\ P ee = true.
Proof.
  unfold edge_satisfies. destruct (edge_hashtable g !! e) as [ee|]; [|done].
  intros HP. by exists ee.
Qed.

(** The edges [add_edges] looks at when it expands [v] all leave [v] in
    the direction of the traversal. *)
Lemma wf_expansion_src_ok g dir v ve :
  graph_wf g = true ->
  vertex_hashtable g !! v = Some ve ->
  vertex_entry_id ve = v /\
  Forall (fun e => exists ee, edge_hashtable g !! e = Some ee /\ src_ok dir v ee)
    ((if decide (dir = CYPHER_REL_DIR_LEFT) then [] else edges_out ve) ++
     (if decide (dir = CYPHER_REL_DIR_RIGHT) then [] else edges_in ve) ++
     edges_self ve).
Proof.
  intros Hwf Hl. pose proof (graph_wf_lookup _ _ _ Hwf Hl) as Hv.
  unfold vertex_entry_wf in Hv.
  apply andb_prop in Hv as [Hv Hself]. apply andb_prop in Hv as [Hv Hin].
  apply andb_prop in Hv as [Hid Hout].
  rewrite forallb_forall in Hout, Hin, Hself.
  split; [lia|].
  rewrite !Forall_app. repeat split.
  - case_decide; [constructor|]. apply Forall_forall. intros e He.
    apply list_elem_of_In in He. apply Hout in He.
    apply edge_satisfies_spec in He as (ee & Hee & HP). exists ee. split; [done|].
    destruct dir; simpl; try done; [left|]; lia.
  - case_decide; [constructor|]. apply Forall_forall. intros e He.
    apply list_elem_of_In in He. apply Hin in He.
    apply edge_satisfies_spec in He as (ee & Hee & HP). exists ee. split; [done|].
    destruct dir; simpl; try done; [|right]; lia.
  - apply Forall_forall. intros e He.
    apply list_elem_of_In in He. apply Hself in He.
    apply edge_satisfies_spec in He as (ee & Hee & HP). exists ee. split; [done|].
    apply andb_prop in HP as [? ?].
    destruct dir; simpl; [|left|]; lia.
Qed.

Lemma get_edge_state_spec c e b c' :
  get_edge_state c e = (b, c') ->
  same_params c c' /\
  dfs_edge_queue c' = dfs_edge_queue c /\
  dfs_vertex_queue c' = dfs_vertex_queue c /\
  dfs_path_queue c' = dfs_path_queue c /\
  (forall x, edge_state_hashtable c' !! x = Some true <->
             edge_state_hashtable c !! x = Some true) /\
  (b = true <-> edge_state_hashtable c !! e = Some true).
Proof.
  unfold get_edge_state.
  destruct (edge_state_hashtable c !! e) as [vis|] eqn:Hl; intros [= <- <-].
  - repeat split; try done; rewrite ?Hl; congruence.
  - repeat split; simpl; try done.
    + destruct (decide (x = e)) as [->|Hne].
      * by rewrite lookup_insert_eq.
      * by rewrite lookup_insert_ne.
    + destruct (decide (x = e)) as [->|Hne]; [by rewrite Hl|].
      by rewrite lookup_insert_ne.
Qed.

Lemma vq_nil dir v : vq dir v [] = [].
Proof. by destruct dir. Qed.

Lemma vq_cons dir v e C :
  vq dir v (C ++ [e]) = vq dir v C ++ vq dir v [e].
Proof.
  unfold vq. destruct dir; try done.
  rewrite length_app. simpl. by rewrite replicate_add.
Qed.

Lemma add_edges_loop_spec edges : forall c c' ve,
  add_edges_loop c ve edges = Ok c' ->
  Forall (fun e => exists ee, edge_hashtable (ggctx c) !! e = Some ee /\
                    src_ok (edge_direction c) (vertex_entry_id ve) ee) edges ->
  exists C,
    dfs_edge_queue c' = C ++ dfs_edge_queue c /\
    dfs_vertex_queue c' =
      vq (edge_direction c) (vertex_entry_id ve) C ++ dfs_vertex_queue c /\
    dfs_path_queue c' = dfs_path_queue c /\
    same_params c c' /\
    (forall x, edge_state_hashtable c' !! x = Some true <->
               edge_state_hashtable c !! x = Some true) /\
    Forall (fun e => edge_state_hashtable c !! e <> Some true /\
                     exists ee, edge_hashtable (ggctx c) !! e = Some ee /\
                       src_ok (edge_direction c) (vertex_entry_id ve) ee) C.
Proof.
  induction edges as [|e edges IH]; intros c c' ve Hrun Hall.
  - injection Hrun as <-. exists []. repeat split; try done.
    by destruct (edge_direction c).
  - simpl in Hrun. unfold get_edge_entry in Hrun.
    inversion Hall as [|? ? (ee & Hee & Hsrc) Hall']; subst.
    rewrite Hee in Hrun.
    destruct (get_edge_state c e) as [visited c1] eqn:Hges.
    apply get_edge_state_spec in Hges
      as (Hsp & Heq & Hvq & Hpq & Htbl & Hvis).
    pose proof Hsp as (Hg & _ & _ & _ & _ & _ & _ & _ & Hdir).
    assert (Hall1 : Forall (fun e => exists ee, edge_hashtable (ggctx c1) !! e = Some ee /\
                    src_ok (edge_direction c1) (vertex_entry_id ve) ee) edges).
    { by rewrite Hg, Hdir. }
    destruct (negb visited && check_edge_constraints c1 ee) eqn:Hpush;
      [destruct (decide (edge_direction c1 = CYPHER_REL_DIR_NONE)) as [Hd|Hd]|];
      apply IH in Hrun as (C & HC1 & HC2 & HC3 & HC4 & HC5 & HC6); try done;
      clear IH; simpl in *.
    1,2: assert (Hnv : edge_state_hashtable c !! e <> Some true)
      by (apply andb_prop in Hpush as [Hnv _]; destruct visited; [done|];
          intros Hx; apply Hvis in Hx; done).
    1,2: exists (C ++ [e]).
    3: exists C.
    all: rewrite HC1, HC2, HC3, ?Heq, ?Hvq, ?Hpq, ?vq_cons, <- ?app_assoc.
    all: rewrite <- ?Hdir.
    all: repeat split; try done.
    all: try (eapply same_params_trans; [exact Hsp|];
              refine (same_params_trans _ _ _ _ HC4); by repeat split).
    all: try (by intros Hx; apply Htbl; apply HC5 in Hx).
    all: try (by intros Hx; apply HC5; apply Htbl in Hx).
    all: rewrite ?Forall_app; repeat split.
    all: try (eapply Forall_impl; [exact HC6|]; simpl; intros x [Hx1 Hx2]; split;
              [intros Hy; apply Hx1; by apply Htbl | by rewrite Hg in Hx2]).
    all: try (constructor; [|constructor]; split; [done|]; exists ee; by rewrite Hdir).
    + unfold vq. rewrite Hd. done.
    + unfold vq. destruct (edge_direction c1); done.
Qed.

Lemma add_edges_spec c v c' :
  graph_wf (ggctx c) = true ->
  add_edges c v = Ok c' ->
  exists C,
    dfs_edge_queue c' = C ++ dfs_edge_queue c /\
    dfs_vertex_queue c' = vq (edge_direction c) v C ++ dfs_vertex_queue c /\
    dfs_path_queue c' = dfs_path_queue c /\
    same_params c c' /\
    (forall x, edge_state_hashtable c' !! x = Some true <->
               edge_state_hashtable c !! x = Some true) /\
    Forall (fun e => edge_state_hashtable c !! e <> Some true /\
                     exists ee, edge_hashtable (ggctx c) !! e = Some ee /\
                       src_ok (edge_direction c) v ee) C.
Proof.
  intros Hwf. unfold add_edges, get_vertex_entry.
  destruct (vertex_hashtable (ggctx c) !! v) as [ve|] eqn:Hve; [|done].
  intros Hrun.
  destruct (wf_expansion_src_ok _ (edge_direction c) _ _ Hwf Hve) as [Hid Hall].
  apply add_edges_loop_spec in Hrun; rewrite Hid in *; done.
Qed.

(** *** Shape of the stacks *)

Lemma stk_path_NoDup g dir s p v Q VQ :
  stk g dir s p v Q VQ -> NoDup p.
Proof.
  induction 1; [constructor|]. by constructor.
Qed.

(** The top of the edge stack, when it is not on the path, is an edge
    still to be tried at the current vertex; it can be dropped. *)
Lemma stk_top_unvisited g dir s p v e Q VQ :
  stk g dir s p v (e :: Q) VQ ->
  e ∉ p ->
  (exists ee, edge_hashtable g !! e = Some ee /\ src_ok dir v ee) /\
  (dir = CYPHER_REL_DIR_NONE ->
     exists VQ', VQ = v :: VQ' /\ stk g dir s p v Q VQ') /\
  (dir <> CYPHER_REL_DIR_NONE -> stk g dir s p v Q VQ).
Proof.
  intros Hstk Hnot. inversion Hstk as [C HC|p' v' e' Q' VQ' ee C Hs Hn He Hsrc HC]; subst.
  - inversion HC as [|? ? [_ Hc] HC']; subst. split; [done|]. split.
    + intros ->. exists (vq CYPHER_REL_DIR_NONE v Q). split; [reflexivity|].
      by apply stk_nil.
    + intros Hd. pose proof (stk_nil g dir v Q HC') as Hx.
      unfold vq in *. by destruct dir.
  - destruct C as [|c0 C']; simpl in *; simplify_eq.
    + exfalso. apply Hnot. by left.
    + inversion HC as [|? ? [_ Hc] HC']; subst. split; [done|]. split.
      * intros ->.
        exists (vq CYPHER_REL_DIR_NONE (next_of CYPHER_REL_DIR_NONE v' ee) C' ++ VQ').
        split; [reflexivity|]. by eapply stk_cons.
      * intros Hd.
        pose proof (stk_cons g dir s _ _ _ _ _ _ C' Hs Hn He Hsrc HC') as Hx.
        unfold vq in *. by destruct dir.
Qed.

(** The top of the edge stack, when it is on the path, is the last edge
    of the path. *)
Lemma stk_top_visited g dir s p v e Q VQ :
  stk g dir s p v (e :: Q) VQ ->
  e ∈ p ->
  exists p' v', p = e :: p' /\ (e ∉ p') /\ stk g dir s p' v' (e :: Q) VQ.
Proof.
  intros Hstk Hin. inversion Hstk as [C HC|p' v' e' Q' VQ' ee C Hs Hn He Hsrc HC]; subst.
  - by apply not_elem_of_nil in Hin.
  - destruct C as [|c0 C']; simpl in *; simplify_eq.
    + exists p', v'. split; [done|]. split; [done|].
      unfold vq. by destruct dir.
    + inversion HC as [|? ? [Hc _] HC']; subst. done.
Qed.

Lemma get_next_vertex_spec c ee v VQ :
  src_ok (edge_direction c) v ee ->
  (edge_direction c = CYPHER_REL_DIR_NONE -> dfs_vertex_queue c = v :: VQ) ->
  get_next_vertex c ee = Ok (next_of (edge_direction c) v ee).
Proof.
  unfold get_next_vertex, next_of, src_ok.
  destruct (edge_direction c); try done.
  intros Hsrc Hq. rewrite Hq by done.
  destruct (Z.eqb_spec (start_vertex_id ee) v) as [?|Hne]; [done|].
  destruct (Z.eqb_spec (end_vertex_id ee) v) as [?|Hne']; [done|].
  by destruct Hsrc.
Qed.

(** *** The measure *)

Lemma NoDup_keys_length {A : Type} (m : gmap Z A) (l : list Z) :
  NoDup l -> Forall (fun x => is_Some (m !! x)) l -> (length l <= size m)%nat.
Proof.
  intros Hnd Hall.
  rewrite <- length_map_to_list, <- (length_fmap fst).
  apply submseteq_length, NoDup_submseteq; [exact Hnd|].
  intros x Hx. rewrite Forall_forall in Hall. destruct (Hall x Hx) as [a Ha].
  apply list_elem_of_fmap. exists (x, a). split; [reflexivity|].
  by apply elem_of_map_to_list.
Qed.

Lemma stk_path_entries g dir s p v Q VQ :
  stk g dir s p v Q VQ -> Forall (fun e => is_Some (edge_hashtable g !! e)) p.
Proof.
  induction 1; [constructor|]. constructor; [eauto|assumption].
Qed.

Lemma stk_path_room g dir s p v Q VQ e ee :
  stk g dir s p v Q VQ ->
  e ∉ p ->
  edge_hashtable g !! e = Some ee ->
  (S (length p) <= size (edge_hashtable g))%nat.
Proof.
  intros Hstk Hn He.
  apply (NoDup_keys_length (edge_hashtable g) (e :: p)).
  - constructor; [exact Hn|]. eapply stk_path_NoDup. exact Hstk.
  - constructor; [eauto|]. eapply stk_path_entries. exact Hstk.
Qed.

Lemma stack_weight_pending D N e p C Q :
  Forall (fun x => x ∉ e :: p) C ->
  stack_weight D N (e :: p) (C ++ Q)
  = (length C * pending_weight D (N - S (length p))
     + stack_weight D N (e :: p) Q)%nat.
Proof.
  induction 1 as [|x C Hc HC IH]; [reflexivity|].
  cbn [app stack_weight length]. rewrite IH.
  destruct (Z.eqb_spec x e) as [->|Hne]; [|simpl; lia].
  exfalso. apply Hc. by left.
Qed.

Lemma stack_weight_top_pending D N e p Q :
  e ∉ p ->
  stack_weight D N p (e :: Q)
  = (pending_weight D (N - length p) + stack_weight D N p Q)%nat.
Proof.
  intros Hn. destruct p as [|e' p']; [reflexivity|].
  cbn [stack_weight]. destruct (Z.eqb_spec e e') as [->|Hne]; [|reflexivity].
  exfalso. apply Hn. by left.
Qed.

Lemma stack_weight_top_path D N e p Q :
  stack_weight D N (e :: p) (e :: Q) = S (stack_weight D N p Q).
Proof. cbn [stack_weight]. by rewrite Z.eqb_refl. Qed.

Lemma get_edge_state_queue c e :
  dfs_edge_queue (get_edge_state c e).2 = dfs_edge_queue c.
Proof. unfold get_edge_state. by destruct (edge_state_hashtable c !! e). Qed.

Lemma add_edges_loop_length edges : forall c c' ve,
  add_edges_loop c ve edges = Ok c' ->
  (length (dfs_edge_queue c') <= length edges + length (dfs_edge_queue c))%nat.
Proof.
  induction edges as [|e edges IH]; intros c c' ve Hrun; simpl in Hrun.
  - injection Hrun as <-. simpl. lia.
  - destruct (get_edge_entry (ggctx c) e) as [ee|]; [|done].
    pose proof (get_edge_state_queue c e) as Hq.
    destruct (get_edge_state c e) as [visited c1]. simpl in Hq.
    apply IH in Hrun. revert Hrun.
    destruct (negb visited && check_edge_constraints c1 ee);
      [destruct (decide (edge_direction c1 = CYPHER_REL_DIR_NONE))|];
      simpl; rewrite Hq; lia.
Qed.

Lemma add_edges_length c v c' :
  add_edges c v = Ok c' ->
  (length (dfs_edge_queue c') <= max_degree (ggctx c) + length (dfs_edge_queue c))%nat.
Proof.
  unfold add_edges, get_vertex_entry.
  destruct (vertex_hashtable (ggctx c) !! v) as [ve|] eqn:Hve; [|done].
  intros Hrun. apply add_edges_loop_length in Hrun.
  assert (Hd : (degree ve <= max_degree (ggctx c))%nat).
  { unfold max_degree. apply max_list_elem_of_le.
    apply list_elem_of_fmap. exists (v, ve). split; [reflexivity|].
    by apply elem_of_map_to_list. }
  assert (Hl : (length ((if decide (edge_direction c = CYPHER_REL_DIR_LEFT)
                         then [] else edges_out ve)
                        ++ (if decide (edge_direction c = CYPHER_REL_DIR_RIGHT)
                            then [] else edges_in ve)
                        ++ edges_self ve) <= degree ve)%nat).
  { unfold degree. rewrite !length_app.
    destruct (decide _), (decide _); simpl; lia. }
  lia.
Qed.

(** One iteration of the search loop: either the call returns, and what
    it returns satisfies the invariant, or the loop goes on from a context
    that satisfies the invariant and has a smaller measure. *)
Lemma dfs_find_a_path_between_step c g dir s v fuel R :
  graph_wf g = true ->
  vle_inv g dir s v c ->
  dfs_find_a_path_between (S fuel) c = R ->
  (exists r, R = Some r /\
     forall b c', r = Ok (b, c') ->
       exists v', vle_inv g dir s v' c' /\ same_params c c' /\
                  (b = true -> found_ok c v' c')) \/
  (exists c2 v2, R = dfs_find_a_path_between fuel c2 /\
     vle_inv g dir s v2 c2 /\ same_params c c2 /\
     (dfs_measure c2 < dfs_measure c)%nat).
Proof.
  intros Hwf Hinv Hrun. simpl in Hrun.
  destruct (dfs_edge_queue c) as [|e Q] eqn:HQ.
  { left. exists (Ok (false, c)). split; [done|]. intros b c' [= <- <-].
    exists v. split; [done|]. split; [apply same_params_refl|done]. }
  destruct (get_edge_state c e) as [visited c1] eqn:Hges.
  apply get_edge_state_spec in Hges as (Hsp & Heq & Hvq & Hpq & Htbl & Hvis).
  destruct Hinv as [Hg Hdir Hs Hstk Hvisited].
  pose proof Hsp as (Hg1 & Hs1 & Hve1 & _ & _ & Hl1 & Hu1 & Hi1 & Hdir1).
  rewrite HQ in Hstk.
  destruct visited.
  - (* the edge on top is on the path: back up *)
    assert (Hin : e ∈ dfs_path_queue c) by (apply Hvisited, Hvis; done).
    destruct (stk_top_visited _ _ _ _ _ _ _ _ Hstk Hin) as (p' & v0 & Hp & Hnp & Hstk').
    rewrite Hpq, Hp in Hrun. rewrite Z.eqb_refl in Hrun. simpl in Hrun.
    destruct (stk_top_unvisited _ _ _ _ _ _ _ _ Hstk' Hnp) as (_ & Hnone & Hdirected).
    assert (Hvis' : forall x,
      <[e:=false]> (edge_state_hashtable c1) !! x = Some true <-> x ∈ p').
    { intros x. destruct (decide (x = e)) as [->|Hne].
      - rewrite lookup_insert_eq. split; [done|]. intros Hx. done.
      - rewrite lookup_insert_ne by done. rewrite Htbl, Hvisited, Hp.
        rewrite elem_of_cons. split; [intros [?|?]; done|by right]. }
    right.
    destruct (decide (edge_direction c1 = CYPHER_REL_DIR_NONE)) as [Hd|Hd].
    + rewrite Hdir1, Hdir in Hd. destruct (Hnone Hd) as (VQ' & HVQ & Hstk'').
      rewrite Hvq, HVQ in Hrun.
      match type of Hrun with dfs_find_a_path_between _ ?c2 = _ =>
        assert (Hinv2 : vle_inv g dir s v0 c2)
          by (constructor; simpl; try congruence; done);
        exists c2, v0 end.
      split; [done|]. split; [done|]. split.
      * eapply same_params_trans; [exact Hsp|]. by repeat split.
      * unfold dfs_measure. simpl. rewrite Hg1, HQ, Hp, stack_weight_top_path. lia.
    + rewrite Hdir1, Hdir in Hd. specialize (Hdirected Hd).
      match type of Hrun with dfs_find_a_path_between _ ?c2 = _ =>
        assert (Hinv2 : vle_inv g dir s v0 c2)
          by (constructor; simpl; rewrite ?Hvq; try congruence; done);
        exists c2, v0 end.
      split; [done|]. split; [done|]. split.
      * eapply same_params_trans; [exact Hsp|]. by repeat split.
      * unfold dfs_measure. simpl. rewrite Hg1, HQ, Hp, stack_weight_top_path. lia.
  - (* a new edge: extend the path *)
    assert (Hnin : e ∉ dfs_path_queue c).
    { intros Hin. apply Hvisited, Hvis in Hin. done. }
    destruct (stk_top_unvisited _ _ _ _ _ _ _ _ Hstk Hnin)
      as ((ee & Hee & Hsrc) & Hnone & _).
    pose proof (stk_path_room _ _ _ _ _ _ _ _ _ Hstk Hnin Hee) as Hroom.
    unfold get_edge_entry in Hrun. rewrite Hg1, Hg, Hee in Hrun.
    set (c2 := set_dfs_path_queue (set_visited c1 e true) (e :: dfs_path_queue c1))
      in *.
    set (w := next_of dir v ee).
    assert (Hnext : get_next_vertex c2 ee = Ok w).
    { subst w. rewrite <- Hdir, <- Hdir1.
      destruct (decide (dir = CYPHER_REL_DIR_NONE)) as [Hd|Hd].
      - destruct (Hnone Hd) as (VQ' & HVQ & _).
        apply (get_next_vertex_spec c2 ee v VQ'); simpl.
        + by rewrite Hdir1, Hdir.
        + intros _. by rewrite Hvq.
      - apply (get_next_vertex_spec c2 ee v []); simpl.
        + by rewrite Hdir1, Hdir.
        + rewrite Hdir1, Hdir. done. }
    rewrite Hnext in Hrun.
    assert (Hinv2 : vle_inv g dir s w c2).
    { constructor; simpl; try congruence.
      - rewrite Hpq, Heq, HQ, Hvq.
        pose proof (stk_cons g dir s _ v e Q _ ee [] Hstk Hnin Hee Hsrc
                      (Forall_nil_2 _)) as Hx.
        by rewrite vq_nil in Hx.
      - intros x. rewrite Hpq, elem_of_cons.
        destruct (decide (x = e)) as [->|Hne].
        + rewrite lookup_insert_eq. split; [by left|done].
        + rewrite lookup_insert_ne by done. rewrite Htbl, Hvisited.
          split; [by right|by intros [?|?]]. }
    assert (Hsp2 : same_params c c2).
    { eapply same_params_trans; [exact Hsp|]. by repeat split. }
    assert (Hm : (dfs_measure c =
                  pending_weight (max_degree g)
                    (size (edge_hashtable g) - length (dfs_path_queue c))
                  + stack_weight (max_degree g) (size (edge_hashtable g))
                      (dfs_path_queue c) Q)%nat).
    { unfold dfs_measure. rewrite Hg, HQ. by apply stack_weight_top_pending. }
    assert (Hm2 : (dfs_measure c2 =
                   S (stack_weight (max_degree g) (size (edge_hashtable g))
                        (dfs_path_queue c) Q))%nat).
    { unfold dfs_measure. simpl. rewrite Hg1, Hg, Hpq, Heq, HQ.
      apply stack_weight_top_path. }
    assert (Hpw : (pending_weight (max_degree g)
                     (size (edge_hashtable g) - length (dfs_path_queue c))
                   = 2 + max_degree g
                         * pending_weight (max_degree g)
                             (size (edge_hashtable g) - S (length (dfs_path_queue c))))%nat).
    { replace (size (edge_hashtable g) - length (dfs_path_queue c))%nat
        with (S (size (edge_hashtable g) - S (length (dfs_path_queue c)))) by lia.
      reflexivity. }
    destruct ((w =? veid c1) && negb (uidx_infinite c1)
              && (queue_size (e :: dfs_path_queue c1) >? uidx c1)) eqn:Hover.
    { right. exists c2, w. split; [done|]. split; [done|]. split; [done|]. lia. }
    match type of Hrun with
      match ?X with _ => _ end = _ => destruct X as [c3|m] eqn:Hexp end.
    2:{ left. exists (Err m). split; [done|]. intros b c' [=]. }
    assert (Hc3 : vle_inv g dir s w c3 /\ same_params c2 c3 /\
                  dfs_path_queue c3 = dfs_path_queue c2 /\
                  (dfs_measure c3 < dfs_measure c)%nat).
    { destruct (uidx_infinite c1 || (queue_size (e :: dfs_path_queue c1) <? uidx c1)).
      - destruct Hinv2 as [Hg2 Hdir2 Hs2 Hstk2 Hvisited2].
        pose proof (add_edges_length _ _ _ Hexp) as Hlen.
        apply add_edges_spec in Hexp
          as (C & HC1 & HC2 & HC3 & HC4 & HC5 & HC6); [|by rewrite Hg2].
        pose proof HC4 as (Hg3 & Hs3 & _ & _ & _ & _ & _ & _ & Hdir3).
        assert (HCok : Forall (child_ok g dir w (e :: dfs_path_queue c)) C).
        { eapply Forall_impl; [exact HC6|]. simpl. intros x [Hx1 Hx2].
          split.
          * intros Hx. apply Hx1. apply (Hvisited2 x). simpl. by rewrite Hpq.
          * by rewrite Hg1, Hg, Hdir1, Hdir in Hx2. }
        split; [|split; [done|split; [done|]]].
        + constructor; try congruence.
          * rewrite HC1, HC2, HC3, Hdir2. simpl. rewrite Hpq, Heq, HQ, Hvq.
            by apply (stk_cons g dir s _ v e Q _ ee C).
          * intros x. rewrite HC5, HC3. apply Hvisited2.
        + rewrite HC1, length_app in Hlen.
          unfold dfs_measure at 1. rewrite Hg3, Hg2, HC3, HC1. simpl.
          rewrite Hpq, Heq, HQ.
          rewrite stack_weight_pending, stack_weight_top_path.
          2:{ eapply Forall_impl; [exact HCok|]. by intros x [Hx _]. }
          rewrite Hm, Hpw. rewrite Hg2 in Hlen. nia.
      - injection Hexp as <-. split; [done|]. split; [apply same_params_refl|].
        split; [done|lia]. }
    destruct Hc3 as (Hinv3 & Hsp3 & Hpath3 & Hm3).
    destruct ((w =? veid c1) && (queue_size (e :: dfs_path_queue c1) >=? lidx c1)
              && (uidx_infinite c1
                  || (queue_size (e :: dfs_path_queue c1) <=? uidx c1))) eqn:Hfound.
    + left. exists (Ok (true, c3)). split; [done|]. intros b c' [= <- <-].
      exists w. split; [done|]. split.
      * eapply same_params_trans; [exact Hsp2|exact Hsp3].
      * intros _. apply andb_prop in Hfound as [Hf Hupper].
        apply andb_prop in Hf as [Hend Hlower].
        unfold found_ok. rewrite Hpath3. simpl.
        rewrite <- Hve1, <- Hl1, <- Hu1, <- Hi1. repeat split; [lia|lia|].
        apply orb_prop in Hupper as [?|?]; [by left|right; lia].
    + right. exists c3, w. split; [done|]. split; [done|]. split; [|done].
      eapply same_params_trans; [exact Hsp2|exact Hsp3].
Qed.

Lemma found_ok_same_params c c2 v' c' :
  same_params c c2 -> found_ok c2 v' c' -> found_ok c v' c'.
Proof.
  intros (_ & _ & Hv & _ & _ & Hl & Hu & Hi & _) (? & ? & ?).
  unfold found_ok. rewrite <- Hv, <- Hl, <- Hu, <- Hi. done.
Qed.

Lemma dfs_find_a_path_between_inv fuel : forall c g dir s v b c',
  graph_wf g = true ->
  vle_inv g dir s v c ->
  dfs_find_a_path_between fuel c = Some (Ok (b, c')) ->
  exists v', vle_inv g dir s v' c' /\ same_params c c' /\
             (b = true -> found_ok c v' c').
Proof.
  induction fuel as [|fuel IH]; intros c g dir s v b c' Hwf Hinv Hrun; [done|].
  destruct (dfs_find_a_path_between_step _ _ _ _ _ _ _ Hwf Hinv Hrun)
    as [(r & [= <-] & Hr)|(c2 & v2 & Hc2 & Hinv2 & Hsp2 & _)].
  - by apply Hr.
  - symmetry in Hc2.
    destruct (IH _ _ _ _ _ _ _ Hwf Hinv2 Hc2) as (v' & Hinv' & Hsp' & Hfound).
    exists v'. split; [done|]. split; [by eapply same_params_trans|].
    intros Hb. eapply found_ok_same_params; [exact Hsp2|]. by apply Hfound.
Qed.

(** The search loop returns: the measure of the context bounds the number
    of iterations. *)
Lemma dfs_find_a_path_between_returns fuel : forall c g dir s v,
  graph_wf g = true ->
  vle_inv g dir s v c ->
  (dfs_measure c < fuel)%nat ->
  is_Some (dfs_find_a_path_between fuel c).
Proof.
  induction fuel as [|fuel IH]; intros c g dir s v Hwf Hinv Hm; [lia|].
  destruct (dfs_find_a_path_between_step _ _ _ _ _ fuel _ Hwf Hinv eq_refl)
    as [(r & -> & _)|(c2 & v2 & -> & Hinv2 & _ & Hm2)]; [by eexists|].
  eapply IH; [exact Hwf|exact Hinv2|lia].
Qed.

(** *** From the stacks to the path container *)

Lemma walk_snoc g dir s es v e ee :
  walk g dir s es v ->
  edge_hashtable g !! e = Some ee ->
  src_ok dir v ee ->
  walk g dir s (es ++ [e]) (next_of dir v ee).
Proof.
  induction 1 as [s|s e0 ee0 es t He0 Hs0 Hw IH]; intros He Hsrc; simpl.
  - econstructor; [exact He|exact Hsrc|constructor].
  - econstructor; [exact He0|exact Hs0|]. by apply IH.
Qed.

Lemma stk_walk g dir s p v Q VQ :
  stk g dir s p v Q VQ -> walk g dir s (rev p) v.
Proof.
  induction 1 as [C HC|p v e Q VQ ee C Hs IH Hn He Hsrc HC]; simpl.
  - constructor.
  - by eapply walk_snoc.
Qed.

Lemma next_of_container_step dir v (ee : edge_entry gtype) :
  src_ok dir v ee ->
  (if v =? start_vertex_id ee then end_vertex_id ee else start_vertex_id ee)
  = next_of dir v ee.
Proof.
  unfold src_ok, next_of. destruct dir; intros Hsrc.
  - destruct (Z.eqb_spec v (start_vertex_id ee)); congruence.
  - rewrite (Z.eqb_sym v). done.
  - subst v. by rewrite Z.eqb_refl.
Qed.

Lemma fill_interior_vertices_walk g dir s es t :
  walk g dir s es t ->
  exists r, fill_interior_vertices g s es = Ok r /\
            container_edges (s :: r) = es /\
            last (s :: r) = Some t /\
            length r = (2 * length es)%nat.
Proof.
  induction 1 as [s|s e ee es t He Hsrc Hw (r & Hr & Hce & Hlast & Hlen)]; simpl.
  - by exists [].
  - unfold get_edge_entry. rewrite He.
    rewrite (next_of_container_step _ _ _ Hsrc), Hr. simpl.
    eexists. split; [done|]. repeat split.
    + by rewrite Hce.
    + by rewrite <- Hlast.
    + simpl. lia.
Qed.

(** *** The first call and the calls after it *)

Lemma build_vle_context_inv g s e arg3 arg4 dir lab props c0 :
  graph_wf g = true ->
  build_vle_context g s e arg3 arg4 dir lab props = Ok c0 ->
  vle_inv g dir s s c0 /\
  veid c0 = e /\
  lidx c0 = default 1 arg3 /\
  (uidx_infinite c0 = true <-> arg4 = None) /\
  (forall hi, arg4 = Some hi -> uidx c0 = hi).
Proof.
  intros Hwf. unfold build_vle_context, load_initial_dfs_queues.
  set (lo := match arg3 with Some l => l | None => 1 end).
  assert (Hlo : lo = default 1 arg3) by (by destruct arg3).
  clearbody lo.
  set (ci := match arg4 with
             | Some u => (false, u)
             | None => (true, -1)
             end).
  assert (Hci : (fst ci = true <-> arg4 = None) /\
                (forall hi, arg4 = Some hi -> snd ci = hi)).
  { subst ci. destruct arg4; simpl; split; try done; by intros ? [= ->]. }
  clearbody ci. destruct ci as [inf hi0]. simpl in Hci. destruct Hci as [Hinf Hhi].
  match goal with |- context [negb ?b] => destruct b end; simpl; intros Hrun.
  - apply add_edges_spec in Hrun
      as (C & HC1 & HC2 & HC3 & (?&?&?&?&?&?&?&?&?) & HC5 & HC6); [|done].
    simpl in *. rewrite app_nil_r in HC1, HC2.
    split; [constructor; try done|repeat split; try congruence].
    + rewrite HC1, HC2, HC3. apply stk_nil.
      eapply Forall_impl; [exact HC6|]. simpl. intros x [_ Hx].
      split; [apply not_elem_of_nil|done].
    + intros x. rewrite HC5, HC3, lookup_empty. split; [done|].
      by intros ?%not_elem_of_nil.
    + intros Hx. apply Hinf. congruence.
    + intros Hx. apply Hinf in Hx. congruence.
    + intros hi Hx. rewrite <- (Hhi hi Hx). congruence.
  - injection Hrun as <-. simpl. split; [constructor; simpl; try done|done].
    + pose proof (stk_nil g dir s [] (Forall_nil_2 _)) as Hx.
      by rewrite vq_nil in Hx.
    + intros x. rewrite lookup_empty. split; [done|]. by intros ?%not_elem_of_nil.
Qed.

Lemma vle_reachable_inv g s e arg3 arg4 dir lab props c0 c :
  graph_wf g = true ->
  build_vle_context g s e arg3 arg4 dir lab props = Ok c0 ->
  vle_reachable c0 c ->
  same_params c0 c /\ exists v, vle_inv g dir s v c.
Proof.
  intros Hwf Hctx. induction 1 as [|c fuel vpc c' Hreach [Hsp [v Hinv]] Hcall].
  - split; [apply same_params_refl|]. exists s.
    by apply (build_vle_context_inv _ _ _ _ _ _ _ _ _ Hwf Hctx).
  - unfold gtype_vle in Hcall.
    destruct (dfs_find_a_path_between fuel c) as [[[[] c1]|]|] eqn:Hdfs; try done.
    + destruct (build_path_container c1); [|done]. injection Hcall as <- <-.
      destruct (dfs_find_a_path_between_inv _ _ _ _ _ _ _ _ Hwf Hinv Hdfs)
        as (v' & Hinv' & Hsp' & _).
      split; [by eapply same_params_trans|]. by exists v'.
Qed.

(** More iterations than needed change nothing. *)
Lemma dfs_find_a_path_between_fuel fuel : forall fuel' c r,
  dfs_find_a_path_between fuel c = Some r ->
  (fuel <= fuel')%nat ->
  dfs_find_a_path_between fuel' c = Some r.
Proof.
  induction fuel as [|fuel IH]; intros [|fuel'] c r Hrun Hle; try done; [lia|].
  simpl in *.
  repeat case_match; simplify_eq; try done; apply IH; try done; lia.
Qed.

(** Every call of a sequence of calls returns. *)
Lemma gtype_vle_returns g s e arg3 arg4 dir lab props c0 c fuel :
  graph_wf g = true ->
  build_vle_context g s e arg3 arg4 dir lab props = Ok c0 ->
  vle_reachable c0 c ->
  (dfs_measure c < fuel)%nat ->
  is_Some (gtype_vle fuel c).
Proof.
  intros Hwf Hctx Hreach Hm.
  destruct (vle_reachable_inv _ _ _ _ _ _ _ _ _ _ Hwf Hctx Hreach) as [_ [v Hinv]].
  destruct (dfs_find_a_path_between_returns _ _ _ _ _ _ Hwf Hinv Hm) as [r Hr].
  unfold gtype_vle. rewrite Hr.
  destruct r as [[[] c1]|m]; [destruct (build_path_container c1)| |]; by eexists.
Qed.

End VLE_proofs.

(** C1.  In any sequence of calls of [gtype_vle] on a well-formed graph
    index every call returns (the measure of the context bounds the
    iterations of its search loop), and every path container a call
    returns has a number of edges no smaller than the lower bound and,
    unless the upper bound is omitted, no larger than the upper bound; it
    starts with the start vertex and ends with the end vertex, its edges
    follow one another from the one to the other in the direction of the
    traversal, and no edge id occurs in it twice. *)
Theorem gtype_vle_yields_bounded_simple_paths
  {gtype : Type} `{GtypeOps gtype}
  (g : graph_context gtype) (s e : graphid) (arg3 arg4 : option Z)
  (dir : cypher_rel_dir) (lab : option string) (props : option gtype)
  (c0 c : path_finding_context gtype) :
  graph_wf g = true ->
  build_vle_context g s e arg3 arg4 dir lab props = Ok c0 ->
  vle_reachable c0 c ->
  is_Some (gtype_vle (S (dfs_measure c)) c) /\
  forall (fuel : nat) (vpc : list graphid) (c' : path_finding_context gtype),
    gtype_vle fuel c = Some (Ok (Some vpc, c')) ->
    let n := Z.of_nat (length (container_edges vpc)) in
    default 1 arg3 <= n /\
    match arg4 with Some hi => n <= hi | None => True end /\
    head vpc = Some s /\
    last vpc = Some e /\
    walk g dir s (container_edges vpc) e /\
    NoDup (container_edges vpc).
Proof.
  intros Hwf Hctx Hreach.
  split; [eapply gtype_vle_returns; eauto|].
  intros fuel vpc c' Hcall n.
  destruct (build_vle_context_inv _ _ _ _ _ _ _ _ _ Hwf Hctx)
    as (_ & Hve & Hlo & Hinf & Hhi).
  destruct (vle_reachable_inv _ _ _ _ _ _ _ _ _ _ Hwf Hctx Hreach)
    as [Hsp [v Hinv]].
  unfold gtype_vle in Hcall.
  destruct (dfs_find_a_path_between fuel c) as [[[[] c1]|]|] eqn:Hdfs; try done.
  destruct (build_path_container c1) as [vpc'|] eqn:Hbpc; [|done].
  injection Hcall as -> ->.
  destruct (dfs_find_a_path_between_inv _ _ _ _ _ _ _ _ Hwf Hinv Hdfs)
    as (v' & Hinv' & Hsp' & Hfound).
  destruct (Hfound eq_refl) as (Hv' & Hlower & Hupper).
  destruct Hinv' as [Hg' Hdir' Hs' Hstk' Hvis'].
  pose proof (stk_walk _ _ _ _ _ _ _ Hstk') as Hwalk.
  pose proof (stk_path_NoDup _ _ _ _ _ _ _ Hstk') as Hnd.
  destruct (fill_interior_vertices_walk _ _ _ _ _ Hwalk)
    as (r & Hr & Hce & Hlast & Hlen).
  unfold build_path_container in Hbpc. rewrite Hg', Hs', Hr in Hbpc.
  simpl in Hbpc. injection Hbpc as <-.
  destruct Hsp as (_ & _ & Hve0 & _ & _ & Hl0 & Hu0 & Hi0 & _).
  assert (Hn : n = queue_size (dfs_path_queue c')).
  { subst n. rewrite Hce. unfold queue_size. by rewrite length_rev. }
  rewrite Hn, Hce. repeat split.
  - rewrite <- Hlo, <- Hl0. done.
  - destruct arg4 as [hi|]; [|done].
    rewrite <- (Hhi hi eq_refl), <- Hu0.
    destruct Hupper as [Hx|Hx]; [|done].
    rewrite Hi0 in Hx. apply Hinf in Hx. done.
  - rewrite Hlast. f_equal. congruence.
  - replace e with v'; [done|]. congruence.
  - by apply NoDup_ListNoDup, List.NoDup_rev, NoDup_ListNoDup.
Qed.

Lemma gtype_vle_yields_bounded_simple_paths_witness :
  graph_wf fixture_graph = true /\
  let vpc := [1; 107; 2; 102; 3; 110; 5] in
  let n := Z.of_nat (length (container_edges vpc)) in
  default 1 (Some 3) <= n /\
  n <= 3 /\
  head vpc = Some 1 /\
  last vpc = Some 5 /\
  walk fixture_graph CYPHER_REL_DIR_RIGHT 1 (container_edges vpc) 5 /\
  NoDup (container_edges vpc).
Proof.
  split; [vm_compute; reflexivity|].
  edestruct (gtype_vle_yields_bounded_simple_paths fixture_graph 1 5 (Some 3) (Some 3)
               CYPHER_REL_DIR_RIGHT None None) as [_ Hpath].
  - vm_compute. reflexivity.
  - vm_compute. reflexivity.
  - apply vle_reach_first.
  - eapply (Hpath 100%nat). vm_compute. reflexivity.
Defined.

(* ------------------------------------------------------------------ *)
(** ** Edge uniqueness (age_vle.c) *)

Lemma ids_insert_app a b h :
  ids_insert (a ++ b) h = ids_insert a h ≫= ids_insert b.
Proof.
  revert h. induction a as [|x a IH]; intros h; simpl; [done|].
  by destruct (decide (x ∈ h)).
Qed.

Lemma ids_insert_is_Some ids : forall h,
  is_Some (ids_insert ids h) <-> NoDup ids /\ forall x, x ∈ ids -> x ∉ h.
Proof.
  induction ids as [|id ids IH]; intros h; simpl.
  - split; [intros _; split; [constructor|by intros ? ?%not_elem_of_nil]|by eauto].
  - destruct (decide (id ∈ h)) as [Hin|Hnin].
    + split; [by intros [? [=]]|]. intros [_ Hx]. exfalso.
      apply (Hx id); [by left|done].
    + rewrite IH. rewrite NoDup_cons. split.
      * intros [Hnd Hx]. split; [split; [|done]|].
        -- intros Hid. apply (Hx id Hid).
           apply elem_of_union. left. by apply elem_of_singleton.
        -- intros x [->|Hxin]%elem_of_cons; [done|].
           intros Hh. apply (Hx x Hxin). apply elem_of_union. by right.
      * intros [[Hid Hnd] Hx]. split; [done|]. intros x Hxin.
        assert (Hne : x <> id) by (by intros ->).
        assert (Hxh : x ∉ h) by (apply Hx; by right).
        by intros [?%elem_of_singleton|?]%elem_of_union.
Qed.

Lemma ids_insert_empty ids :
  is_Some (ids_insert ids ∅) <-> NoDup ids.
Proof.
  rewrite ids_insert_is_Some. split; [by intros [? _]|].
  intros Hnd. split; [done|]. intros x _. apply not_elem_of_empty.
Qed.

Section EdgeUniqueness.
Context {edge vertex : Type} `{ValueLayout edge vertex}.

#[local] Arguments Nat.modulo : simpl never.

Lemma enforce_variable_edge_loop_rest (rest : list (vertex * edge)) : forall i h,
  (i mod 2 = 1)%nat ->
  enforce_variable_edge_loop i
    (flat_map (fun p => [VE_vertex (fst p); VE_edge (snd p)]) rest) h
  = Ok (ids_insert (map edge_graphid (map snd rest)) h).
Proof.
  induction rest as [|[v e] rest IH]; intros i h Hi; simpl; [done|].
  assert (Hi' : (S i mod 2 = 0)%nat /\ (S (S i) mod 2 = 1)%nat).
  { pose proof (Nat.div_mod_eq i 2). pose proof (Nat.div_mod_eq (S i) 2).
    pose proof (Nat.div_mod_eq (S (S i)) 2).
    pose proof (Nat.mod_upper_bound (S i) 2).
    pose proof (Nat.mod_upper_bound (S (S i)) 2). lia. }
  destruct Hi' as [Hi' Hi''].
  rewrite Hi. simpl. rewrite Hi'. simpl.
  destruct (decide (edge_graphid e ∈ h)); [done|]. by apply IH.
Qed.

Lemma enforce_variable_edge_loop_spec (ve : VariableEdge edge vertex) h :
  enforce_variable_edge_loop 0 (ve_children ve) h
  = Ok (ids_insert (map edge_graphid (ve_edges ve)) h).
Proof.
  destruct ve as [[e0 rest]|]; simpl; [|done].
  destruct (decide (edge_graphid e0 ∈ h)); [done|].
  by apply enforce_variable_edge_loop_rest.
Qed.

Lemma enforce_edge_uniqueness_loop_no_null (args : list (variadic_arg edge vertex)) :
  forall i h,
  ARG_NULL ∉ args ->
  enforce_edge_uniqueness_loop i args h
  = Ok (bool_decide (is_Some (ids_insert (collected_edge_ids args) h))).
Proof.
  induction args as [|a args IH]; intros i h Hnn; simpl.
  - done.
  - assert (Hnn' : ARG_NULL ∉ args) by (intros Hx; apply Hnn; by right).
    unfold collected_edge_ids. simpl. rewrite ids_insert_app.
    destruct a as [|id|ve|]; simpl.
    + exfalso. apply Hnn. by left.
    + destruct (decide (id ∈ h)); simpl; [done|by apply IH].
    + rewrite enforce_variable_edge_loop_spec. simpl.
      destruct (ids_insert (map edge_graphid (ve_edges ve)) h) as [h'|]; simpl;
        [by apply IH|done].
    + by apply IH.
Qed.

Lemma enforce_edge_uniqueness_loop_null (pre post : list (variadic_arg edge vertex)) :
  forall i h,
  ARG_NULL ∉ pre ->
  enforce_edge_uniqueness_loop i (pre ++ ARG_NULL :: post) h
  = if bool_decide (is_Some (ids_insert (collected_edge_ids pre) h))
    then Err ("_ag_enforce_edge_uniqueness argument " ++ pretty (i + length pre)%nat
              ++ " must not be NULL")
    else Ok false.
Proof.
  induction pre as [|a pre IH]; intros i h Hnn; simpl.
  - by rewrite Nat.add_0_r.
  - assert (Hnn' : ARG_NULL ∉ pre) by (intros Hx; apply Hnn; by right).
    unfold collected_edge_ids. simpl. rewrite ids_insert_app.
    replace (i + S (length pre))%nat with (S i + length pre)%nat by lia.
    destruct a as [|id|ve|]; simpl.
    + exfalso. apply Hnn. by left.
    + destruct (decide (id ∈ h)); simpl; [done|by apply IH].
    + rewrite enforce_variable_edge_loop_spec. simpl.
      destruct (ids_insert (map edge_graphid (ve_edges ve)) h) as [h'|]; simpl;
        [by apply IH|done].
    + by apply IH.
Qed.

End EdgeUniqueness.

(** C4 (amended).  The arguments are examined from left to right.  With
    no NULL among them the function returns false exactly when some edge
    id occurs more than once among the ids collected from them (a graphid
    stands for itself, a VariableEdge for the ids of its edges) and true
    otherwise.  A NULL argument raises the error only when it is reached,
    that is when the ids collected from the arguments before it are
    pairwise distinct; otherwise the function has already returned
    false. *)
Theorem enforce_edge_uniqueness_left_to_right
  {edge vertex : Type} `{ValueLayout edge vertex}
  (pre post : list (variadic_arg edge vertex)) :
  ARG_NULL ∉ pre ->
  _ag_enforce_edge_uniqueness pre
    = Ok (bool_decide (NoDup (collected_edge_ids pre))) /\
  _ag_enforce_edge_uniqueness (pre ++ ARG_NULL :: post)
    = if bool_decide (NoDup (collected_edge_ids pre))
      then Err ("_ag_enforce_edge_uniqueness argument " ++ pretty (length pre)
                ++ " must not be NULL")
      else Ok false.
Proof.
  intros Hnn. unfold _ag_enforce_edge_uniqueness.
  rewrite enforce_edge_uniqueness_loop_no_null by done.
  rewrite enforce_edge_uniqueness_loop_null by done.
  simpl.
  rewrite (bool_decide_ext _ _ (ids_insert_empty (collected_edge_ids pre))).
  done.
Qed.

Lemma enforce_edge_uniqueness_left_to_right_witness :
  let pre : list (variadic_arg edge_value vertex_value) :=
    [ARG_GRAPHID 7;
     ARG_VARIABLE_EDGE (Some (mk_edge_value 8 1 2,
                              [(mk_vertex_value 2, mk_edge_value 9 2 3)]));
     ARG_OTHER] in
  _ag_enforce_edge_uniqueness pre = Ok true /\
  _ag_enforce_edge_uniqueness (pre ++ [ARG_NULL; ARG_GRAPHID 7])
    = Err "_ag_enforce_edge_uniqueness argument 3 must not be NULL".
Proof.
  intros pre.
  refine (enforce_edge_uniqueness_left_to_right pre [ARG_GRAPHID 7] _).
  subst pre. intros Hin. repeat (apply elem_of_cons in Hin as [Hin|Hin]; [done|]).
  by apply not_elem_of_nil in Hin.
Defined.

(** C4, as stated, fails: a NULL argument after a repeated id raises no
    error, the function has returned false before it looks at it. *)
Lemma enforce_edge_uniqueness_null_after_duplicate :
  let args : list (variadic_arg edge_value vertex_value) :=
    [ARG_GRAPHID 1; ARG_GRAPHID 1; ARG_NULL] in
  ARG_NULL ∈ args /\ _ag_enforce_edge_uniqueness args = Ok false.
Proof.
  split; [|reflexivity].
  rewrite !elem_of_cons. tauto.
Qed.

(* ------------------------------------------------------------------ *)
(** ** Endpoint predicates (variable_edge.c) *)

Section VariableEdgeProofs.
Context {edge vertex : Type} `{ValueLayout edge vertex}.

Lemma first_edge_spec (e0 : edge) (rest : list (vertex * edge)) :
  first_edge (Some (e0, rest)) = Ok e0.
Proof. reflexivity. Qed.

Lemma last_default_irrelevant {A : Type} (l : list A) (x d d' : A) :
  List.last (x :: l) d = List.last (x :: l) d'.
Proof.
  revert x. induction l as [|y l IH]; intros x; [done|].
  change (List.last (y :: l) d = List.last (y :: l) d'). apply IH.
Qed.

Lemma last_edge_spec (rest : list (vertex * edge)) : forall e0 : edge,
  last_edge (Some (e0, rest)) = Ok (List.last (map snd rest) e0).
Proof.
  induction rest as [|[v e1] rest IH]; intros e0; [reflexivity|].
  specialize (IH e1). unfold last_edge in *. simpl in *.
  rewrite IH. f_equal.
  destruct (map snd rest) eqn:Hm; [done|]. apply last_default_irrelevant.
Qed.

End VariableEdgeProofs.

Lemma low32_range (x : Z) : 0 <= low32 x < 2 ^ 32.
Proof. unfold low32. rewrite Z.land_ones by lia. apply Z.mod_pos_bound. lia. Qed.

Lemma high32_range (x : Z) : 0 <= high32 x < 2 ^ 32.
Proof. unfold high32. rewrite Z.land_ones by lia. apply Z.mod_pos_bound. lia. Qed.

Lemma example_layout_uint32_entries :
  uint32_entries (edge := edge_value) (vertex := vertex_value).
Proof.
  split.
  - intros e i. simpl.
    do 6 (destruct i as [|i]; [first [apply low32_range | apply high32_range]|]).
    lia.
  - intros v i. simpl.
    do 2 (destruct i as [|i]; [first [apply low32_range | apply high32_range]|]).
    lia.
Qed.

(** C10.  [vertex_is_first_start_vertex], [gid_is_first_endid] and
    [vertex_is_first_end_vertex] return true for every input.  The
    predicates that take an id and do reach their comparison
    ([gid_is_first_startid], [gid_is_last_startid], [gid_is_last_endid])
    compare the id with a single entry of the edge: with 32-bit entries
    they answer false for every id that is not a 32-bit unsigned number,
    whatever the start and end ids of the edges are.  The two vertex
    predicates that reach their comparison read a single entry of the
    vertex: they give the same answer for any two vertices that agree in
    entry 0. *)
Theorem endpoint_predicates_compare_one_entry
  {edge vertex : Type} `{ValueLayout edge vertex}
  (id : graphid) (v : vertex) (ve : VariableEdge edge vertex)
  (e0 : edge) (rest : list (vertex * edge)) :
  uint32_entries (edge := edge) (vertex := vertex) ->
  (vertex_is_first_start_vertex v ve = Ok true /\
   gid_is_first_endid id ve = Ok true /\
   vertex_is_first_end_vertex v ve = Ok true) /\
  (id < 0 \/ 2 ^ 32 <= id ->
   gid_is_first_startid id (Some (e0, rest)) = Ok false /\
   gid_is_last_startid id (Some (e0, rest)) = Ok false /\
   gid_is_last_endid id (Some (e0, rest)) = Ok false) /\
  (forall v' : vertex,
     vertex_child v' 0 = vertex_child v 0 ->
     vertex_is_last_start_vertex v' ve = vertex_is_last_start_vertex v ve /\
     vertex_is_last_end_vertex v' ve = vertex_is_last_end_vertex v ve).
Proof.
  intros [Hedge _]. split; [done|]. split.
  - intros Hid.
    unfold gid_is_first_startid, gid_is_last_startid, gid_is_last_endid.
    rewrite first_edge_spec, last_edge_spec. simpl.
    repeat split; f_equal; apply Z.eqb_neq; intros Heq;
      match goal with
      | Heq : edge_child ?e ?i = id |- _ => pose proof (Hedge e i); lia
      end.
  - intros v' Hv. unfold vertex_is_last_start_vertex, vertex_is_last_end_vertex.
    by rewrite Hv.
Qed.

Lemma endpoint_predicates_compare_one_entry_witness :
  ev_start_id regression_first_edge = 844424930131969 /\
  gid_is_first_startid 844424930131969 regression_path = Ok false /\
  gid_is_last_startid 1407374883553282 regression_path = Ok false /\
  gid_is_last_endid 1688849860263937 regression_path = Ok false /\
  vertex_is_last_end_vertex (mk_vertex_value 844424930131969) regression_path
  = vertex_is_last_end_vertex (mk_vertex_value 1688849860263937) regression_path.
Proof.
  split; [reflexivity|].
  pose proof (endpoint_predicates_compare_one_entry 844424930131969
                (mk_vertex_value 0) regression_path regression_first_edge
                regression_rest example_layout_uint32_entries) as (_ & H1 & _).
  pose proof (endpoint_predicates_compare_one_entry 1407374883553282
                (mk_vertex_value 0) regression_path regression_first_edge
                regression_rest example_layout_uint32_entries) as (_ & H2 & _).
  pose proof (endpoint_predicates_compare_one_entry 1688849860263937
                (mk_vertex_value 1688849860263937) regression_path
                regression_first_edge regression_rest
                example_layout_uint32_entries) as (_ & H3 & H4).
  split; [apply H1; lia|]. split; [apply H2; lia|]. split; [apply H3; lia|].
  apply (H4 (mk_vertex_value 844424930131969)). reflexivity.
Defined.

(** On the path of the regression test, with ids stored low half first:
    no id predicate recognises the start or end id of an edge, while the
    id 1, which is no id of the graph, passes for the start of the first
    edge; the vertex predicates compare the low halves only, so the first
    vertex of the path passes for the end vertex of its last edge. *)
Example endpoint_predicates_on_the_regression_path :
  gid_is_first_startid 844424930131969 regression_path = Ok false /\
  gid_is_first_startid 1 regression_path = Ok true /\
  gid_is_last_endid 1688849860263937 regression_path = Ok false /\
  vertex_is_last_end_vertex (mk_vertex_value 1688849860263937) regression_path
  = Ok true /\
  vertex_is_last_end_vertex (mk_vertex_value 844424930131969) regression_path
  = Ok true /\
  vertex_is_last_start_vertex (mk_vertex_value 1688849860263937) regression_path
  = Ok false /\
  gid_is_first_endid 12345 regression_path = Ok true /\
  vertex_is_first_start_vertex (mk_vertex_value 12345) regression_path = Ok true /\
  vertex_is_first_end_vertex (mk_vertex_value 12345) regression_path = Ok true.
Proof. vm_compute. repeat split. Qed.

(* ------------------------------------------------------------------ *)
(** ** Grammar actions (cypher_gram.y) *)

Lemma is_comparison_name_cases (t : cmp_token) :
  is_A_Expr_a_comparison_operation [cmp_opr_name t]
  = Ok (negb (bool_decide (t = TOK_GT_EQ))).
Proof. by destruct t. Qed.

(** The chaining the grammar performs for the five operators whose name
    the recognizer knows. *)
Lemma build_comparison_expression_chains (t1 : cmp_token) (op : string)
  (X Y R : Node) (l1 loc : Z) :
  t1 <> TOK_GT_EQ ->
  build_comparison_expression (A_Expr AEXPR_OP [cmp_opr_name t1] X Y l1) R op loc
  = Ok (BoolExpr AND_EXPR
          [A_Expr AEXPR_OP [cmp_opr_name t1] X Y l1; A_Expr AEXPR_OP [op] Y R loc] loc).
Proof. by destruct t1. Qed.

Lemma build_comparison_expression_extends (t1 : cmp_token) (op : string)
  (conj : list Node) (X Y R : Node) (l0 l1 loc : Z) :
  t1 <> TOK_GT_EQ ->
  build_comparison_expression
    (BoolExpr AND_EXPR (conj ++ [A_Expr AEXPR_OP [cmp_opr_name t1] X Y l1]) l0) R op loc
  = Ok (BoolExpr AND_EXPR
          ((conj ++ [A_Expr AEXPR_OP [cmp_opr_name t1] X Y l1])
           ++ [A_Expr AEXPR_OP [op] Y R loc]) l0).
Proof.
  intros Ht. unfold build_comparison_expression. simpl.
  unfold llast. rewrite last_snoc. by destruct t1.
Qed.

(** C5.  With [>=] as the first operator the left operand is not
    recognised as a comparison (the recognizer tests the name ["=>"]):
    [X >= Y op R] and [... AND X >= Y op R] are built as the plain
    comparison of the whole left operand with [R], not as a chain. *)
Theorem build_comparison_expression_ge_not_chained (op : string)
  (conj : list Node) (X Y R : Node) (l0 l1 loc : Z) :
  let ge := A_Expr AEXPR_OP [cmp_opr_name TOK_GT_EQ] X Y l1 in
  build_comparison_expression ge R op loc
    = Ok (A_Expr AEXPR_OP [op] ge R loc) /\
  build_comparison_expression (BoolExpr AND_EXPR (conj ++ [ge]) l0) R op loc
    = Ok (A_Expr AEXPR_OP [op] (BoolExpr AND_EXPR (conj ++ [ge]) l0) R loc).
Proof.
  split; [reflexivity|].
  unfold build_comparison_expression. simpl. unfold llast. by rewrite last_snoc.
Qed.

Example comparison_chain_lt_lt :
  expr_action (E_cmp (E_cmp (E_atom (ColumnRef ["a"] 0)) TOK_LT 1 (E_atom (ColumnRef ["b"] 2)))
                     TOK_LT 3 (E_atom (ColumnRef ["c"] 4)))
  = Ok (BoolExpr AND_EXPR
          [A_Expr AEXPR_OP ["<"] (ColumnRef ["a"] 0) (ColumnRef ["b"] 2) 1;
           A_Expr AEXPR_OP ["<"] (ColumnRef ["b"] 2) (ColumnRef ["c"] 4) 3] 3).
Proof. reflexivity. Qed.

Example comparison_chain_ge_lt :
  expr_action (E_cmp (E_cmp (E_atom (ColumnRef ["a"] 0)) TOK_GT_EQ 1 (E_atom (ColumnRef ["b"] 2)))
                     TOK_LT 3 (E_atom (ColumnRef ["c"] 4)))
  = Ok (A_Expr AEXPR_OP ["<"]
          (A_Expr AEXPR_OP [">="] (ColumnRef ["a"] 0) (ColumnRef ["b"] 2) 1)
          (ColumnRef ["c"] 4) 3).
Proof. reflexivity. Qed.

(** *** Boolean flattening *)

Lemma and_chain_flat (rest : list (Z * Node)) : forall (args : list Node) (loc : Z),
  and_chain (BoolExpr AND_EXPR args loc) rest
  = BoolExpr AND_EXPR (args ++ map snd rest) loc.
Proof.
  induction rest as [|[l r] rest IH]; intros args loc; simpl.
  - by rewrite app_nil_r.
  - unfold and_chain in *. simpl. rewrite IH. by rewrite <- app_assoc.
Qed.

Lemma or_chain_flat (rest : list (Z * Node)) : forall (args : list Node) (loc : Z),
  or_chain (BoolExpr OR_EXPR args loc) rest
  = BoolExpr OR_EXPR (args ++ map snd rest) loc.
Proof.
  induction rest as [|[l r] rest IH]; intros args loc; simpl.
  - by rewrite app_nil_r.
  - unfold or_chain in *. simpl. rewrite IH. by rewrite <- app_assoc.
Qed.

Lemma make_and_expr_fresh (e1 r : Node) (loc : Z) :
  is_bool_node AND_EXPR e1 = false ->
  make_and_expr e1 r loc = BoolExpr AND_EXPR [e1; r] loc.
Proof. destruct e1 as [| | |[] ? ?| | | |]; try done. Qed.

Lemma make_or_expr_fresh (e1 r : Node) (loc : Z) :
  is_bool_node OR_EXPR e1 = false ->
  make_or_expr e1 r loc = BoolExpr OR_EXPR [e1; r] loc.
Proof. destruct e1 as [| | |[] ? ?| | | |]; try done. Qed.

Lemma existsb_false_Forall {A : Type} (f : A -> bool) (l : list A) :
  Forall (fun x => f x = false) l -> existsb f l = false.
Proof.
  induction 1 as [|x l Hx Hl IH]; simpl; [done|]. by rewrite Hx, IH.
Qed.

(** C7 (amended).  The connective builders flatten on the left: a chain
    [e1 AND e2 AND ... AND en] (two operands at least) whose operands are
    not themselves AND nodes is one AND node over exactly these operands,
    with no AND node among them; the same holds for OR. *)
Theorem left_chains_are_flat (e1 : Node) (l2 : Z) (e2 : Node) (rest : list (Z * Node)) :
  (Forall (fun e => is_bool_node AND_EXPR e = false) (e1 :: e2 :: map snd rest) ->
   and_chain e1 ((l2, e2) :: rest)
     = BoolExpr AND_EXPR (e1 :: e2 :: map snd rest) l2 /\
   has_same_op_child (and_chain e1 ((l2, e2) :: rest)) = false) /\
  (Forall (fun e => is_bool_node OR_EXPR e = false) (e1 :: e2 :: map snd rest) ->
   or_chain e1 ((l2, e2) :: rest)
     = BoolExpr OR_EXPR (e1 :: e2 :: map snd rest) l2 /\
   has_same_op_child (or_chain e1 ((l2, e2) :: rest)) = false).
Proof.
  split; intros Hall.
  - assert (Heq : and_chain e1 ((l2, e2) :: rest)
                  = BoolExpr AND_EXPR (e1 :: e2 :: map snd rest) l2).
    { unfold and_chain. simpl. rewrite make_and_expr_fresh.
      - apply (and_chain_flat rest [e1; e2] l2).
      - by inversion Hall. }
    split; [done|]. rewrite Heq. unfold has_same_op_child.
    by apply existsb_false_Forall.
  - assert (Heq : or_chain e1 ((l2, e2) :: rest)
                  = BoolExpr OR_EXPR (e1 :: e2 :: map snd rest) l2).
    { unfold or_chain. simpl. rewrite make_or_expr_fresh.
      - apply (or_chain_flat rest [e1; e2] l2).
      - by inversion Hall. }
    split; [done|]. rewrite Heq. unfold has_same_op_child.
    by apply existsb_false_Forall.
Qed.

Lemma left_chains_are_flat_witness :
  let a := ColumnRef ["a"] 0 in
  let b := ColumnRef ["b"] 2 in
  let c := ColumnRef ["c"] 4 in
  (and_chain a [(1, b); (3, c)] = BoolExpr AND_EXPR [a; b; c] 1 /\
   has_same_op_child (and_chain a [(1, b); (3, c)]) = false) /\
  (or_chain a [(1, b); (3, c)] = BoolExpr OR_EXPR [a; b; c] 1 /\
   has_same_op_child (or_chain a [(1, b); (3, c)]) = false).
Proof.
  intros a b c. split.
  - apply (proj1 (left_chains_are_flat a 1 b [(3, c)])). repeat constructor.
  - apply (proj2 (left_chains_are_flat a 1 b [(3, c)])). repeat constructor.
Defined.

(** C7, as stated, fails.  [x AND a < b < c] needs no parentheses: the
    comparisons bind tighter than AND, the chained comparison on the right
    is itself an AND node, and [make_and_expr] only looks at its left
    operand. *)
Lemma and_node_with_and_child :
  let x := ColumnRef ["x"] 0 in
  let a := ColumnRef ["a"] 2 in
  let b := ColumnRef ["b"] 4 in
  let c := ColumnRef ["c"] 6 in
  let parsed := E_and (E_atom x) 1
                  (E_cmp (E_cmp (E_atom a) TOK_LT 3 (E_atom b)) TOK_LT 5 (E_atom c)) in
  exists n, expr_action parsed = Ok n /\ has_same_op_child n = true.
Proof. eexists. split; reflexivity. Qed.

(** The same with OR through the XOR rewriting: [(a OR b) XOR c] puts the
    OR node [a OR b] below a new OR node. *)
Example or_node_with_or_child :
  let a := ColumnRef ["a"] 0 in
  let b := ColumnRef ["b"] 2 in
  let c := ColumnRef ["c"] 4 in
  let parsed := E_xor (E_paren (E_or (E_atom a) 1 (E_atom b))) 3 (E_atom c) in
  expr_action parsed
  = Ok (BoolExpr AND_EXPR
          [BoolExpr OR_EXPR [BoolExpr OR_EXPR [a; b] 1; c] 3;
           BoolExpr NOT_EXPR [BoolExpr AND_EXPR [BoolExpr OR_EXPR [a; b] 1; c] 3] 3] 3).
Proof. reflexivity. Qed.

(** *** Variable-length ranges *)

Section RangeDefaults.
Variables (cnl cnr : cypher_node) (cr : cypher_relationship).
Variables (loc left_arg_location cr_location : Z) (unique_counter : N).

(** The relationship of every range form, and the one case the grammar
    refuses: an upper bound below the lower bound (the lower bound being 1
    when omitted). *)
Lemma pattern_relationship_spec (range : cypher_range_opt_syntax) :
  match
    pattern_relationship range loc cnl cr cnr left_arg_location cr_location
      unique_counter
  with
  | Ok rel =>
      match range_upper range with
      | Some hi => (range_lower range >? hi) = false
      | None => True
      end /\
      exists a0 a1 a2 lb ub d llo,
        rel_varlen rel
        = Some (FuncCall ["vle"%string] [a0; a1; a2; lb; ub; d]
                  COERCE_SQL_SYNTAX cr_location) /\
        lb = make_int_const (range_lower range) llo /\
        match range_upper range with
        | Some hi => exists lhi, ub = make_int_const hi lhi
        | None => ub = make_null_const (rel_location cr)
        end
  | Err msg =>
      msg = "invalid range"%string /\
      exists hi, range_upper range = Some hi /\ (range_lower range >? hi) = true
  end.
Proof.
  unfold pattern_relationship.
  assert (Hnn : forall n, (n >? n) = false)
    by (intros n; rewrite Z.gtb_ltb; apply Z.ltb_irrefl).
  destruct range as [n nl|[[lo ll]|] [[hi hl]|]|]; simpl; rewrite ?Hnn; simpl;
    try (match goal with |- context [?l >? ?h] => destruct (l >? h) eqn:Hgt end;
         simpl; [split; [done|]; by eexists|]);
    unfold build_VLE_relation; simpl;
    destruct (node_name cnl) as [nm_l|] eqn:Hnl; simpl;
    destruct (node_name cnr) as [nm_r|] eqn:Hnr; simpl;
    rewrite ?Hnl; simpl;
    (split; [done|]); eexists _, _, _, _, _, _, _;
    (split; [reflexivity|]); (split; [reflexivity|]);
    first [reflexivity | by eexists].
Qed.

End RangeDefaults.

Section EngineBounds.
Context {gtype : Type} `{GtypeOps gtype}.

Lemma add_edges_loop_same_params (edges : list graphid) :
  forall (c c' : path_finding_context gtype) ve,
  add_edges_loop c ve edges = Ok c' -> same_params c c'.
Proof.
  induction edges as [|e edges IH]; intros c c' ve Hrun; simpl in Hrun.
  - injection Hrun as <-. apply same_params_refl.
  - destruct (get_edge_entry (ggctx c) e) as [ee|]; [|done].
    destruct (get_edge_state c e) as [visited c1] eqn:Hges.
    apply get_edge_state_spec in Hges as (Hsp & _).
    apply IH in Hrun. eapply same_params_trans; [exact Hsp|].
    refine (same_params_trans _ _ _ _ Hrun).
    destruct (negb visited && check_edge_constraints c1 ee); [|apply same_params_refl].
    destruct (decide _); by repeat split.
Qed.

Lemma load_initial_dfs_queues_same_params (c0 c : path_finding_context gtype) :
  load_initial_dfs_queues c0 = Ok c -> same_params c0 c.
Proof.
  unfold load_initial_dfs_queues.
  destruct (negb (do_vsid_and_veid_exist c0)).
  - intros [= <-]. apply same_params_refl.
  - unfold add_edges. destruct (get_vertex_entry _ _); [|done].
    apply add_edges_loop_same_params.
Qed.

Lemma build_vle_context_bounds (g : graph_context gtype) s e a3 a4 dir lab props c :
  build_vle_context g s e a3 a4 dir lab props = Ok c ->
  lidx c = default 1 a3 /\
  match a4 with
  | Some hi => uidx_infinite c = false /\ uidx c = hi
  | None => uidx_infinite c = true
  end.
Proof.
  unfold build_vle_context.
  destruct a3, a4; simpl;
    intros (_ & _ & _ & _ & _ & Hl & Hu & Hi & _)%load_initial_dfs_queues_same_params;
    simpl in *; done.
Qed.

End EngineBounds.

(** In MATCH the transformer builds the [vle] call again.  When the
    grammar has already replaced [rel->varlen] by its own call, the bounds
    of the new call are what the [A_Indices] cast reads in that call. *)
Lemma make_vle_func_call_reads_through_cast `{HostOps}
  (cps : cypher_parsestate) (prev next : cypher_node) (rel : cypher_relationship)
  (name : list string) (args : list Node) (form : CoercionForm) (loc : Z) :
  rel_varlen rel = Some (FuncCall name args form loc) ->
  let through := indices_through_cast (FuncCall name args form loc) in
  exists start_ end_ edge_ dir_,
    make_vle_func_call cps prev rel next
    = FuncCall ["vle"%string]
        [start_; end_; edge_;
         default (make_null_const (-1)) through.1;
         default (make_null_const (-1)) through.2;
         dir_]
        COERCE_SQL_SYNTAX (-1).
Proof.
  intros Hv through. unfold make_vle_func_call, varlen_as_A_Indices. rewrite Hv.
  fold through. destruct through as [[l|] [u|]]; destruct (node_name prev);
    simpl; by eexists _, _, _, _.
Qed.

(** C6.  For a variable-length relationship [-[ * range ]-] the grammar
    stores the bounds in the [vle] call it leaves in [rel->varlen]: the
    lower bound, 1 when it is omitted, and the upper bound, a NULL
    constant when it is omitted ([ *n ] gives [n] twice, a bare [ * ]
    gives 1 and NULL).  The call MATCH emits is not this one: it is
    built again by [make_vle_func_call], which reads the bounds through
    the [A_Indices] view of the grammar's call, and neither of its two
    bound arguments is an integer constant, whatever the range. *)
Theorem make_vle_func_call_loses_the_range `{HostOps}
  (range : cypher_range_opt_syntax) (loc : Z)
  (cnl : cypher_node) (cr : cypher_relationship) (cnr : cypher_node)
  (left_arg_location cr_location : Z) (unique_counter : N)
  (rel : cypher_relationship)
  (cps : cypher_parsestate) (prev next : cypher_node) :
  call_view_shows_no_constant ->
  pattern_relationship range loc cnl cr cnr left_arg_location cr_location
    unique_counter = Ok rel ->
  (exists a0 a1 a2 lb ub d llo,
     rel_varlen rel
     = Some (FuncCall ["vle"%string] [a0; a1; a2; lb; ub; d]
               COERCE_SQL_SYNTAX cr_location) /\
     lb = make_int_const (range_lower range) llo /\
     match range_upper range with
     | Some hi => exists lhi, ub = make_int_const hi lhi
     | None => ub = make_null_const (rel_location cr)
     end) /\
  exists start_ end_ edge_ lb' ub' dir_,
    make_vle_func_call cps prev rel next
    = FuncCall ["vle"%string] [start_; end_; edge_; lb'; ub'; dir_]
        COERCE_SQL_SYNTAX (-1) /\
    is_integer_const lb' = false /\
    is_integer_const ub' = false.
Proof.
  intros Hview Hrel.
  pose proof (pattern_relationship_spec cnl cnr cr loc left_arg_location cr_location
                unique_counter range) as Hspec.
  rewrite Hrel in Hspec. destruct Hspec as [_ Hgram].
  split; [exact Hgram|].
  destruct Hgram as (a0 & a1 & a2 & lb & ub & d & llo & Hv & _).
  destruct (make_vle_func_call_reads_through_cast cps prev next rel _ _ _ _ Hv)
    as (start_ & end_ & edge_ & dir_ & Hcall).
  eexists _, _, _, _, _, _. split; [exact Hcall|].
  set (F := FuncCall ["vle"%string] [a0; a1; a2; lb; ub; d] COERCE_SQL_SYNTAX cr_location).
  split.
  - destruct (indices_through_cast F).1 as [n|] eqn:Hn; [|done].
    simpl. eapply Hview. left. exact Hn.
  - destruct (indices_through_cast F).2 as [n|] eqn:Hn; [|done].
    simpl. eapply Hview. right. exact Hn.
Qed.

Lemma make_vle_func_call_loses_the_range_witness :
  let n := mk_cypher_node (Some "a"%string) None None 0 in
  let r := mk_cypher_relationship None None None None CYPHER_REL_DIR_RIGHT 0 in
  exists rel start_ end_ edge_ lb' ub' dir_,
    pattern_relationship (RANGE_dot_dot (Some (2, 0)) (Some (3, 0))) 0 n r n 0 0 0%N
    = Ok rel /\
    make_vle_func_call example_cpstate n rel n
    = FuncCall ["vle"%string] [start_; end_; edge_; lb'; ub'; dir_]
        COERCE_SQL_SYNTAX (-1) /\
    is_integer_const lb' = false /\
    is_integer_const ub' = false.
Proof.
  intros n r.
  destruct (pattern_relationship (RANGE_dot_dot (Some (2, 0)) (Some (3, 0))) 0 n r n
              0 0 0%N) as [rel|] eqn:Hrel; [|discriminate].
  assert (Hview : call_view_shows_no_constant).
  { intros name args form l m [Hm|Hm]; simpl in Hm; discriminate Hm. }
  destruct (make_vle_func_call_loses_the_range _ _ _ _ _ _ _ _ rel example_cpstate n n
              Hview Hrel)
    as [_ (start_ & end_ & edge_ & lb' & ub' & dir_ & Hcall)].
  by exists rel, start_, end_, edge_, lb', ub', dir_.
Defined.

(** [MATCH (a)-[*2..3]->(b)]: the grammar's call carries 2 and 3, the
    call built for the FROM clause carries two NULL constants when the
    view shows no bounds in the grammar's call. *)
Example match_range_2_3 :
  let a := mk_cypher_node (Some "a"%string) None None 0 in
  let b := mk_cypher_node (Some "b"%string) None None 0 in
  let r := mk_cypher_relationship None None None None CYPHER_REL_DIR_RIGHT 0 in
  match pattern_relationship (RANGE_dot_dot (Some (2, 0)) (Some (3, 0))) 0 a r b
          0 0 0%N with
  | Ok rel =>
      rel_varlen rel
      = Some (FuncCall ["vle"%string]
                [ColumnRef ["a"%string; "id"%string] 0; make_null_const (-1);
                 FuncCall ["postgraph"%string; "age_build_vle_match_edge"%string]
                   [make_null_const 0; make_null_const 0] COERCE_SQL_SYNTAX 0;
                 make_int_const 2 0; make_int_const 3 0; make_int_const 1 0]
                COERCE_SQL_SYNTAX 0) /\
      make_vle_func_call example_cpstate a rel b
      = FuncCall ["vle"%string]
          [ColumnRef ["a"%string] (-1); ColumnRef ["b"%string] (-1);
           FuncCall ["postgraph"%string; "age_build_vle_match_edge"%string]
             [make_null_const (-1); make_null_const (-1)] COERCE_SQL_SYNTAX (-1);
           make_null_const (-1); make_null_const (-1); make_int_const 1 (-1)]
          COERCE_SQL_SYNTAX (-1)
  | Err _ => False
  end.
Proof. vm_compute. split; reflexivity. Qed.

(** The engine takes an absent lower bound as 1 and an absent upper
    bound as no bound. *)
Example build_vle_context_absent_bounds :
  match build_vle_context fixture_graph 1 5 None None CYPHER_REL_DIR_RIGHT
          None None with
  | Ok c => lidx c = 1 /\ uidx_infinite c = true
  | Err _ => False
  end.
Proof. vm_compute. split; reflexivity. Qed.

(** ** SKIP and LIMIT, WITH and WHERE *)

Lemma res_bind_Err {A B : Type} (r : res A) (k : A -> res B) :
  (forall a, r = Ok a -> is_Err (k a) = true) -> is_Err (res_bind r k) = true.
Proof. destruct r as [a|m]; simpl; [intros Hk; apply Hk; reflexivity | reflexivity]. Qed.

Lemma res_bind_Ok {A B : Type} (r : res A) (k : A -> res B) (b : B) :
  res_bind r k = Ok b -> exists a, r = Ok a /\ k a = Ok b.
Proof. destruct r as [a|m]; simpl; [eauto | discriminate]. Qed.

Lemma is_Err_Ok {A : Type} (r : res A) (a : A) : r = Ok a -> is_Err r = true -> False.
Proof. intros ->. discriminate. Qed.

Section LimitProofs.
Context `{HostOps}.

Lemma transform_cypher_limit_Ok cps node kind name q cps' :
  transform_cypher_limit cps node kind name = Ok (q, cps') -> var_free q.
Proof.
  unfold transform_cypher_limit. destruct node as [n|]; [|intros [= <- <-]; exact I].
  intros Hb. apply res_bind_Ok in Hb as ([q0 cps0] & _ & Hb).
  apply res_bind_Ok in Hb as (q1 & _ & Hb).
  destruct (contain_vars_of_level q1 0) eqn:Hv; [discriminate|].
  injection Hb as <- <-. exact Hv.
Qed.

Lemma transform_cypher_limit_Err cps n kind name :
  refers_to_variable n kind name ->
  is_Err (transform_cypher_limit cps (Some n) kind name) = true.
Proof.
  intros Hr. specialize (Hr cps). unfold transform_cypher_limit.
  destruct (transform_cypher_expr cps n kind) as [[q cps']|m]; [simpl|reflexivity].
  destruct (coerce_to_specific_type (pstate cps') q INT8OID name) as [q'|m];
    [simpl|reflexivity].
  rewrite Hr. reflexivity.
Qed.

Lemma transform_cypher_return_limits cps self prev next query cps' :
  transform_cypher_return cps (return_clause self prev next) = Ok (query, cps') ->
  var_free (limitOffset query) /\ var_free (limitCount query) /\ query_quals query = None.
Proof.
  unfold transform_cypher_return, return_clause. simpl. intros Hb.
  apply res_bind_Ok in Hb as (cps1 & _ & Hb).
  apply res_bind_Ok in Hb as ([[tl gc] cps2] & _ & Hb).
  apply res_bind_Ok in Hb as ([[sc tl2] cps3] & _ & Hb).
  apply res_bind_Ok in Hb as ([[[gc2 gs] tl3] cps4] & _ & Hb).
  apply res_bind_Ok in Hb as ([dc tl4] & _ & Hb).
  apply res_bind_Ok in Hb as ([lo cps5] & Hlo & Hb).
  apply res_bind_Ok in Hb as ([lc cps6] & Hlc & Hb).
  apply res_bind_Ok in Hb as (u1 & _ & Hb).
  apply res_bind_Ok in Hb as (u2 & _ & Hb).
  injection Hb as <- <-. simpl.
  split; [eapply transform_cypher_limit_Ok; eassumption|].
  split; [eapply transform_cypher_limit_Ok; eassumption|reflexivity].
Qed.

Lemma transform_cypher_return_Err cps self prev next :
  (exists n, ret_skip self = Some n /\ refers_to_variable n EXPR_KIND_OFFSET "SKIP") \/
  (exists n, ret_limit self = Some n /\ refers_to_variable n EXPR_KIND_LIMIT "LIMIT") ->
  is_Err (transform_cypher_return cps (return_clause self prev next)) = true.
Proof.
  intros Hr. unfold transform_cypher_return, return_clause. simpl.
  apply res_bind_Err; intros cps1 _.
  apply res_bind_Err; intros [[tl gc] cps2] _.
  apply res_bind_Err; intros [[sc tl2] cps3] _.
  apply res_bind_Err; intros [[[gc2 gs] tl3] cps4] _.
  apply res_bind_Err; intros [dc tl4] _.
  destruct Hr as [(n & -> & Hr)|(n & -> & Hr)].
  - pose proof (transform_cypher_limit_Err cps4 n _ _ Hr) as He.
    destruct (transform_cypher_limit cps4 (Some n) EXPR_KIND_OFFSET "SKIP");
      [discriminate|reflexivity].
  - apply res_bind_Err; intros [lo cps5] _.
    pose proof (transform_cypher_limit_Err cps5 n _ _ Hr) as He.
    destruct (transform_cypher_limit cps5 (Some n) EXPR_KIND_LIMIT "LIMIT");
      [discriminate|reflexivity].
Qed.

Lemma transform_cypher_clause_with_where_Err cps transform clause :
  (forall st, is_Err (transform st clause) = true) ->
  is_Err (transform_cypher_clause_with_where cps transform clause) = true.
Proof.
  intros Ht. unfold transform_cypher_clause_with_where.
  apply res_bind_Err. intros [q st] Hq. exfalso.
  destruct (where_of_self (clause_self clause)).
  - apply res_bind_Ok in Hq as ([pnsi st1] & Hs & _).
    unfold transform_cypher_clause_as_subquery in Hs.
    destruct (p_expr_kind (pstate cps)); simpl in Hs;
      apply res_bind_Ok in Hs as ([q2 st2] & Ha & _);
      unfold analyze_cypher_clause in Ha;
      apply res_bind_Ok in Ha as ([q3 st3] & Ha & _);
      exact (is_Err_Ok _ _ Ha (Ht _)).
  - eapply is_Err_Ok; [exact Hq | apply Ht].
Qed.

Lemma transform_cypher_with_Err cps self prev next :
  (exists n, with_skip self = Some n /\ refers_to_variable n EXPR_KIND_OFFSET "SKIP") \/
  (exists n, with_limit self = Some n /\ refers_to_variable n EXPR_KIND_LIMIT "LIMIT") ->
  is_Err (transform_cypher_with cps (with_clause self prev next)) = true.
Proof.
  intros Hr. unfold transform_cypher_with, with_clause. simpl.
  apply transform_cypher_clause_with_where_Err. intros st.
  apply (transform_cypher_return_Err st _ prev false). exact Hr.
Qed.

End LimitProofs.

(** C8.  In a RETURN or a WITH clause, a SKIP or LIMIT expression is
    transformed, coerced to the 8-byte integer type and then refused with
    the error [argument of ... must not contain variables] when it holds a
    variable of the current query; the clause is then not transformed.
    What a transformed RETURN keeps as offset and count is free of such
    variables. *)
Theorem skip_and_limit_reject_variables `{HostOps}
  (cps : cypher_parsestate) (prev : option cypher_clause) (next : bool) :
  (forall n kind name q cps1 q',
     transform_cypher_expr cps n kind = Ok (q, cps1) ->
     coerce_to_specific_type (pstate cps1) q INT8OID name = Ok q' ->
     transform_cypher_limit cps (Some n) kind name
     = if contain_vars_of_level q' 0
       then Err ("argument of " ++ name ++ " must not contain variables")
       else Ok (Some q', cps1)) /\
  (forall self : cypher_return,
     (exists n, ret_skip self = Some n /\ refers_to_variable n EXPR_KIND_OFFSET "SKIP") \/
     (exists n, ret_limit self = Some n /\ refers_to_variable n EXPR_KIND_LIMIT "LIMIT") ->
     is_Err (transform_cypher_return cps (return_clause self prev next)) = true) /\
  (forall self : cypher_with,
     (exists n, with_skip self = Some n /\ refers_to_variable n EXPR_KIND_OFFSET "SKIP") \/
     (exists n, with_limit self = Some n /\ refers_to_variable n EXPR_KIND_LIMIT "LIMIT") ->
     is_Err (transform_cypher_with cps (with_clause self prev next)) = true) /\
  (forall self query cps',
     transform_cypher_return cps (return_clause self prev next) = Ok (query, cps') ->
     var_free (limitOffset query) /\ var_free (limitCount query)).
Proof.
  repeat split.
  - intros n kind name q cps1 q' He Hc. unfold transform_cypher_limit.
    rewrite He. simpl. rewrite Hc. reflexivity.
  - intros self. apply transform_cypher_return_Err.
  - intros self. apply transform_cypher_with_Err.
  - eapply transform_cypher_return_limits; eassumption.
  - eapply transform_cypher_return_limits; eassumption.
Qed.

Lemma skip_and_limit_reject_variables_witness :
  let n := ColumnRef ["n"] 0 in
  let one := make_int_const 1 0 in
  transform_cypher_limit example_cpstate (Some n) EXPR_KIND_LIMIT "LIMIT"
    = Err "argument of LIMIT must not contain variables" /\
  transform_cypher_limit example_cpstate (Some one) EXPR_KIND_LIMIT "LIMIT"
    = Ok (Some one, example_cpstate) /\
  is_Err (transform_cypher_return example_cpstate
            (return_clause
               (mk_cypher_return false [n] [] (Some n) None false SETOP_NONE [] [])
               None false)) = true /\
  is_Err (transform_cypher_with example_cpstate
            (with_clause (mk_cypher_with false [n] [] None (Some n) None) None true))
    = true.
Proof.
  intros n one.
  destruct (skip_and_limit_reject_variables example_cpstate None false)
    as (Hlimit & Hreturn & _).
  destruct (skip_and_limit_reject_variables example_cpstate None true)
    as (_ & _ & Hwith & _).
  split; [|split; [|split]].
  - exact (Hlimit n EXPR_KIND_LIMIT "LIMIT"%string (Var 1 1 0) example_cpstate (Var 1 1 0)
             eq_refl eq_refl).
  - exact (Hlimit one EXPR_KIND_LIMIT "LIMIT"%string one example_cpstate one
             eq_refl eq_refl).
  - apply Hreturn. left. exists n. split; [reflexivity|]. intros st. reflexivity.
  - apply Hwith. right. exists n. split; [reflexivity|]. intros st. reflexivity.
Defined.

Example return_with_constant_limit :
  let n := ColumnRef ["n"] 0 in
  let one := make_int_const 1 0 in
  match transform_cypher_return example_cpstate
          (return_clause
             (mk_cypher_return false [n] [] None (Some one) false SETOP_NONE [] [])
             None false) with
  | Ok (query, _) => limitCount query = Some one /\ limitOffset query = None
  | Err _ => False
  end.
Proof. vm_compute. split; reflexivity. Qed.

Section WithProofs.
Context `{HostOps}.

Lemma transform_cypher_clause_with_where_quals cps transform clause query cps' :
  (forall st q st', transform st clause = Ok (q, st') -> query_quals q = None) ->
  transform_cypher_clause_with_where cps transform clause = Ok (query, cps') ->
  query_quals query = None.
Proof.
  intros Ht. unfold transform_cypher_clause_with_where. intros Hb.
  apply res_bind_Ok in Hb as ([q st] & Hq & Hb).
  injection Hb as <- <-.
  destruct (where_of_self (clause_self clause)).
  - apply res_bind_Ok in Hq as ([pnsi st1] & _ & Hq).
    apply res_bind_Ok in Hq as (u & _ & Hq).
    injection Hq as <- <-. reflexivity.
  - apply Ht in Hq. exact Hq.
Qed.

End WithProofs.

(** C3.  The WHERE expression of a WITH clause is not part of what
    [transform_cypher_with] hands on: the clause is transformed to the
    same query whatever the expression is (in particular to the query of
    the clause without WHERE), and this query has no qualification.  No
    row is excluded. *)
Theorem transform_cypher_with_drops_where `{HostOps}
  (cps : cypher_parsestate) (self : cypher_with) (w : option Node)
  (prev : option cypher_clause) (next : bool) :
  transform_cypher_with cps (with_clause (set_with_where self w) prev next)
  = transform_cypher_with cps (with_clause self prev next) /\
  match transform_cypher_with cps (with_clause self prev next) with
  | Ok (query, _) => query_quals query = None
  | Err _ => True
  end.
Proof.
  split; [reflexivity|].
  destruct (transform_cypher_with cps (with_clause self prev next))
    as [[query cps']|m] eqn:Hw; [|exact I].
  unfold transform_cypher_with, with_clause in Hw. simpl in Hw.
  eapply transform_cypher_clause_with_where_quals; [|exact Hw].
  intros st q st' Hr.
  eapply (transform_cypher_return_limits st _ prev false). exact Hr.
Qed.

Example with_where_false_is_with :
  let n := ColumnRef ["n"] 0 in
  let never := A_Expr AEXPR_OP ["="] (make_int_const 1 0) (make_int_const 2 0) 0 in
  let w := mk_cypher_with false [n] [] None None (Some never) in
  match transform_cypher_with example_cpstate (with_clause w None true) with
  | Ok (query, _) =>
      query_quals query = None /\
      targetList query = [makeTargetEntry (Var 1 1 0) 1 None false]
  | Err _ => False
  end.
Proof. vm_compute. split; reflexivity. Qed.

(** ** CREATE and undirected relationships *)

Section CreateProofs.
Context `{HostOps}.

Lemma transform_cypher_clause_as_subquery_Err cps transform clause alias add_rte :
  (forall st, is_Err (transform st clause) = true) ->
  is_Err (transform_cypher_clause_as_subquery cps transform clause alias add_rte) = true.
Proof.
  intros Ht. unfold transform_cypher_clause_as_subquery.
  destruct (p_expr_kind (pstate cps)); simpl;
    apply res_bind_Err; intros [q st] Ha; exfalso;
    unfold analyze_cypher_clause in Ha;
    apply res_bind_Ok in Ha as ([q3 st3] & Ha & _);
    exact (is_Err_Ok _ _ Ha (Ht _)).
Qed.

Lemma transform_create_cypher_edge_Err cps target_list edge :
  rel_dir edge = CYPHER_REL_DIR_NONE ->
  is_Err (transform_create_cypher_edge cps target_list edge) = true.
Proof.
  intros Hd. unfold transform_create_cypher_edge.
  apply res_bind_Err; intros u _.
  apply res_bind_Err; intros [[[[v p] tl] st] fl] _.
  rewrite bool_decide_eq_true_2 by exact Hd. reflexivity.
Qed.

Lemma transform_create_cypher_edge_message cps target_list edge :
  rel_dir edge = CYPHER_REL_DIR_NONE ->
  rel_label edge = None \/
  (exists l, rel_label edge = Some l /\
             search_label_name_graph_cache (pstate cps) l (graph_oid cps) = None) ->
  variable_exists cps (rel_name edge) = false ->
  transform_create_cypher_edge cps target_list edge
  = Err "only directed relationships are allowed in CREATE".
Proof.
  intros Hd Hl Hv. unfold transform_create_cypher_edge.
  replace (match rel_label edge with
           | Some label =>
               match search_label_name_graph_cache (pstate cps) label (graph_oid cps) with
               | Some kind =>
                   if negb (bool_decide (kind = LABEL_KIND_EDGE))
                   then Err ("label " ++ label ++ " is for vertices, not edges")
                   else Ok tt
               | None => Ok tt
               end
           | None => Ok tt
           end) with (@Ok unit tt).
  2:{ destruct Hl as [->|(l & -> & ->)]; reflexivity. }
  simpl. destruct (rel_name edge) as [name|]; simpl.
  - rewrite Hv. destruct (placeholder_edge cps name) as [te st]. simpl.
    rewrite bool_decide_eq_true_2 by exact Hd. reflexivity.
  - rewrite bool_decide_eq_true_2 by exact Hd. reflexivity.
Qed.

Lemma transform_cypher_create_path_loop_Err elems :
  forall cps target_list in_path acc edge,
    PE_rel edge ∈ elems ->
    rel_dir edge = CYPHER_REL_DIR_NONE ->
    is_Err (transform_cypher_create_path_loop cps target_list in_path elems acc) = true.
Proof.
  induction elems as [|e rest IH]; intros cps tl in_path acc edge Hin Hd.
  - by apply not_elem_of_nil in Hin.
  - apply elem_of_cons in Hin as [<-|Hin]; simpl.
    + apply res_bind_Err. intros a Ha. exfalso.
      exact (is_Err_Ok _ _ Ha (transform_create_cypher_edge_Err _ _ _ Hd)).
    + destruct e as [node|edge']; apply res_bind_Err; intros [[r tl'] st] _;
        eapply IH; eassumption.
Qed.

Lemma transform_cypher_create_pattern_Err pattern :
  forall cps target_list,
    has_undirected_relationship pattern ->
    is_Err (transform_cypher_create_pattern cps target_list pattern) = true.
Proof.
  induction pattern as [|path rest IH]; intros cps tl (p & edge & Hp & He & Hd).
  - by apply not_elem_of_nil in Hp.
  - simpl. apply elem_of_cons in Hp as [->|Hp].
    + apply res_bind_Err. intros a Ha. exfalso.
      unfold transform_cypher_create_path in Ha.
      apply res_bind_Ok in Ha as (b & Hb & _).
      exact (is_Err_Ok _ _ Hb
               (transform_cypher_create_path_loop_Err _ _ _ _ _ _ He Hd)).
    + apply res_bind_Err; intros [[cp tl'] st] _.
      apply res_bind_Err. intros a Ha. exfalso.
      refine (is_Err_Ok _ _ Ha (IH _ _ _)). exists p, edge. auto.
Qed.

Lemma transform_cypher_create_Err cps self prev next :
  has_undirected_relationship (create_pattern self) ->
  is_Err (transform_cypher_create cps (create_clause self prev next)) = true.
Proof.
  intros Hu. unfold transform_cypher_create, create_clause. simpl.
  destruct (next_resno (pstate cps)) as [rn ps].
  apply res_bind_Err; intros [[tl st] fl] _.
  apply res_bind_Err. intros a Ha. exfalso.
  exact (is_Err_Ok _ _ Ha (transform_cypher_create_pattern_Err _ _ _ Hu)).
Qed.

Lemma transform_cypher_return_prev_Err cps self prev next :
  (forall st, is_Err (transform_cypher_clause st prev) = true) ->
  is_Err (transform_cypher_return cps (return_clause self (Some prev) next)) = true.
Proof.
  intros Hp. unfold transform_cypher_return, return_clause. simpl.
  apply res_bind_Err. intros st Hst. exfalso.
  apply res_bind_Ok in Hst as ([pnsi st1] & Hs & _).
  unfold transform_prev_cypher_clause in Hs.
  exact (is_Err_Ok _ _ Hs (transform_cypher_clause_as_subquery_Err _ _ _ _ _ Hp)).
Qed.

End CreateProofs.

(** C9.  A relationship without direction makes
    [transform_create_cypher_edge] raise, so the transformation of a CREATE
    clause whose pattern holds such a relationship raises, and so does the
    transformation of a RETURN that follows this clause, the dispatcher
    handing the CREATE clause to [transform_cypher_create]. *)
Theorem create_rejects_undirected_relationship `{HostOps}
  (cps : cypher_parsestate) (self : cypher_create)
  (prev : option cypher_clause) (next : bool) :
  has_undirected_relationship (create_pattern self) ->
  is_Err (transform_cypher_create cps (create_clause self prev next)) = true /\
  forall ret : cypher_return,
    (forall st,
       transform_cypher_clause st (create_clause self prev next)
       = transform_cypher_create st (create_clause self prev next)) ->
    is_Err (transform_cypher_return cps
              (return_clause ret (Some (create_clause self prev next)) false)) = true.
Proof.
  intros Hu. split.
  - apply transform_cypher_create_Err. exact Hu.
  - intros ret Hd. apply transform_cypher_return_prev_Err.
    intros st. rewrite Hd. apply transform_cypher_create_Err. exact Hu.
Qed.

Lemma create_rejects_undirected_relationship_witness :
  is_Err (transform_cypher_create (H0 := example_dispatching_ops) example_cpstate
            (create_clause example_undirected_create None true)) = true /\
  is_Err (transform_cypher_return (H0 := example_dispatching_ops) example_cpstate
            (return_clause example_return_1
               (Some (create_clause example_undirected_create None true)) false)) = true.
Proof.
  assert (Hu : has_undirected_relationship (create_pattern example_undirected_create)).
  { eexists _, (mk_cypher_relationship None (Some "X") None None CYPHER_REL_DIR_NONE 9).
    split; [apply elem_of_cons; left; reflexivity|].
    split; [|reflexivity].
    simpl. apply elem_of_cons. right. apply elem_of_cons. left. reflexivity. }
  destruct (create_rejects_undirected_relationship (H0 := example_dispatching_ops)
              example_cpstate example_undirected_create None true Hu) as [Hc Hr].
  split; [exact Hc|].
  apply Hr. intros st. reflexivity.
Defined.

Example create_undirected_then_return_1 :
  transform_cypher_create example_cpstate
    (create_clause example_undirected_create None true)
  = Err "only directed relationships are allowed in CREATE" /\
  transform_cypher_return (H0 := example_dispatching_ops) example_cpstate
    (return_clause example_return_1
       (Some (create_clause example_undirected_create None true)) false)
  = Err "only directed relationships are allowed in CREATE".
Proof. split; vm_compute; reflexivity. Qed.

Example create_directed_then_return_1 :
  let directed :=
    mk_cypher_create
      [mk_cypher_path
         [PE_node (mk_cypher_node None None None 7);
          PE_rel (mk_cypher_relationship None (Some "X") None None CYPHER_REL_DIR_RIGHT 9);
          PE_node (mk_cypher_node None None None 16)]
         None 7] in
  is_Ok (transform_cypher_return (H0 := example_dispatching_ops) example_cpstate
           (return_clause example_return_1 (Some (create_clause directed None true)) false))
  = true.
Proof. vm_compute. reflexivity. Qed.

(** ** MATCH: entities of a path and the uniqueness predicate *)

Lemma res_bind_ext {A B : Type} (r : res A) (k k' : A -> res B) :
  (forall a, r = Ok a -> k a = k' a) -> res_bind r k = res_bind r k'.
Proof. destruct r as [a|m]; simpl; [intros Hk; apply Hk; reflexivity | reflexivity]. Qed.

Section MatchProofs.
Context `{HostOps}.

Lemma set_path_elem_length path i e :
  length (path_elems (set_path_elem path i e)) = length (path_elems path).
Proof. unfold set_path_elem. simpl. apply length_insert. Qed.

Lemma handle_vertex_spec cps tl path i e path' tl' cps' :
  handle_vertex cps tl path i = Ok (e, path', tl', cps') ->
  length (path_elems path') = length (path_elems path) /\ ent_type e = ENT_VERTEX.
Proof.
  unfold handle_vertex. intros Hb.
  apply res_bind_Ok in Hb as (node & _ & Hb).
  apply res_bind_Ok in Hb as ([node' st] & _ & Hb).
  apply res_bind_Ok in Hb as ([[[expr node1] tl1] st1] & _ & Hb).
  apply res_bind_Ok in Hb as (st2 & _ & Hb).
  injection Hb as <- <- <- <-.
  split; [apply set_path_elem_length | reflexivity].
Qed.

Lemma handle_edge_spec cps tl path i prev e path' tl' cps' :
  handle_edge cps tl path i prev = Ok (e, path', tl', cps') ->
  length (path_elems path') = length (path_elems path) /\ ent_type e = ENT_EDGE.
Proof.
  unfold handle_edge. intros Hb.
  apply res_bind_Ok in Hb as (rel & _ & Hb).
  apply res_bind_Ok in Hb as ([path1 st] & Hp & Hb).
  apply res_bind_Ok in Hb as ([[[expr rel1] tl1] st1] & _ & Hb).
  apply res_bind_Ok in Hb as (st2 & _ & Hb).
  injection Hb as <- <- <- <-.
  split; [|reflexivity]. rewrite set_path_elem_length.
  destruct (_ && _ && _) in Hp; [|by injection Hp as <- <-].
  apply res_bind_Ok in Hp as (node & _ & Hp).
  destruct (negb _) in Hp; [|by injection Hp as <- <-].
  destruct (get_next_default_alias cps) as [alias st3].
  injection Hp as <- <-. apply set_path_elem_length.
Qed.

Lemma transform_VLE_edge_entity_spec cps tl path i func e path' tl' cps' :
  transform_VLE_edge_entity cps tl path i func = Ok (e, path', tl', cps') ->
  length (path_elems path') = length (path_elems path) /\ ent_type e = ENT_VLE_EDGE.
Proof.
  unfold transform_VLE_edge_entity. intros Hb.
  apply res_bind_Ok in Hb as (rel & _ & Hb).
  apply res_bind_Ok in Hb as (u & _ & Hb).
  destruct (match rel_name rel with
            | Some _ => (rel, cps)
            | None => let (alias, cpstate) := get_next_default_alias cps in
                      (set_rel_name rel alias, cpstate)
            end) as [rel1 st1].
  apply res_bind_Ok in Hb as ([pnsi st2] & _ & Hb).
  apply res_bind_Ok in Hb as (var & _ & Hb).
  destruct (next_resno (pstate st2)) as [rn ps].
  injection Hb as <- <- <- <-.
  split; [apply set_path_elem_length | reflexivity].
Qed.

Lemma insert_vle_entity_length ents next vle :
  length (insert_vle_entity (ents ++ [next]) next vle) = S (S (length ents)).
Proof.
  unfold insert_vle_entity. rewrite !length_app, length_take, length_app. simpl. lia.
Qed.

Lemma list_nth_node_Ok path i node :
  list_nth_node path i = Ok node -> (i < length (path_elems path))%nat.
Proof.
  unfold list_nth_node. destruct (path_elems path !! i) eqn:Hl; [|discriminate].
  intros _. eapply lookup_lt_Some. exact Hl.
Qed.

Lemma transform_match_entities_loop_length fuel :
  forall i cps tl path ents prev r path' tl' cps',
    transform_match_entities_loop fuel i cps tl path ents prev = Ok (r, path', tl', cps') ->
    length ents = i ->
    (i <= length (path_elems path))%nat ->
    length r = length (path_elems path) /\
    length (path_elems path') = length (path_elems path).
Proof.
  induction fuel as [|fuel IH]; intros i cps tl path ents prev r path' tl' cps' Hb Hi Hle;
    cbn [transform_match_entities_loop] in Hb.
  - case_bool_decide; [|discriminate]. injection Hb as <- <- <- <-. lia.
  - case_bool_decide as Hdone; [injection Hb as <- <- <- <-; lia|].
    destruct (i mod 2 =? 0)%nat.
    + apply res_bind_Ok in Hb as ([[[e p1] tl1] st1] & Hv & Hb).
      apply handle_vertex_spec in Hv as [Hl _].
      apply IH in Hb; [rewrite Hl in Hb; exact Hb | rewrite length_app; simpl; lia | lia].
    + apply res_bind_Ok in Hb as (rel & _ & Hb).
      destruct (rel_varlen rel).
      * apply res_bind_Ok in Hb as (node & Hn & Hb).
        apply list_nth_node_Ok in Hn.
        destruct (if negb (INCLUDE_NODE_IN_JOIN_TREE path node)
                  then let (alias, cpstate) := get_next_default_alias cps in
                       (set_path_elem path (i + 1) (PE_node (set_node_name node alias)),
                        cpstate)
                  else (path, cps)) as [p0 st0] eqn:Hp.
        assert (Hl0 : length (path_elems p0) = length (path_elems path)).
        { destruct (negb _) in Hp; [|by injection Hp as <- <-].
          destruct (get_next_default_alias cps) as [alias st].
          injection Hp as <- <-. apply set_path_elem_length. }
        apply res_bind_Ok in Hb as ([[[ne p1] tl1] st1] & Hv & Hb).
        apply handle_vertex_spec in Hv as [Hl1 _].
        apply res_bind_Ok in Hb as (pn & _ & Hb).
        apply res_bind_Ok in Hb as (node2 & _ & Hb).
        apply res_bind_Ok in Hb as (rel2 & _ & Hb).
        apply res_bind_Ok in Hb as ([[[ve p2] tl2] st2] & Hvle & Hb).
        apply transform_VLE_edge_entity_spec in Hvle as [Hl2 _].
        apply IH in Hb;
          [rewrite Hl2, Hl1, Hl0 in Hb; exact Hb
          | rewrite insert_vle_entity_length; lia
          | lia].
      * apply res_bind_Ok in Hb as (pe & _ & Hb).
        apply res_bind_Ok in Hb as ([[[e p1] tl1] st1] & He & Hb).
        apply handle_edge_spec in He as [Hl _].
        apply IH in Hb; [rewrite Hl in Hb; exact Hb | rewrite length_app; simpl; lia | lia].
Qed.

Lemma transform_match_entities_length cps tl path ents path' tl' cps' :
  transform_match_entities cps tl path = Ok (ents, path', tl', cps') ->
  length ents = length (path_elems path).
Proof.
  unfold transform_match_entities. intros Hb.
  apply transform_match_entities_loop_length in Hb; [tauto | reflexivity | lia].
Qed.

(** The bound on the number of iterations is never reached: the loop of
    [transform_match_entities] gives the same result with any bound that
    is at least the number of elements left. *)
Lemma transform_match_entities_loop_fuel fuel :
  forall fuel' i cps tl path ents prev,
    (length (path_elems path) - i <= fuel)%nat ->
    (length (path_elems path) - i <= fuel')%nat ->
    transform_match_entities_loop fuel i cps tl path ents prev
    = transform_match_entities_loop fuel' i cps tl path ents prev.
Proof.
  induction fuel as [|fuel IH]; intros [|fuel'] i cps tl path ents prev Hf Hf';
    cbn [transform_match_entities_loop];
    case_bool_decide as Hdone; try reflexivity; try lia.
  destruct (i mod 2 =? 0)%nat.
  - apply res_bind_ext. intros [[[e p1] tl1] st1] Hv.
    apply handle_vertex_spec in Hv as [Hl _].
    apply IH; lia.
  - apply res_bind_ext. intros rel _.
    destruct (rel_varlen rel).
    + apply res_bind_ext. intros node Hn.
      apply list_nth_node_Ok in Hn.
      destruct (if negb (INCLUDE_NODE_IN_JOIN_TREE path node)
                then let (alias, cpstate) := get_next_default_alias cps in
                     (set_path_elem path (i + 1) (PE_node (set_node_name node alias)),
                      cpstate)
                else (path, cps)) as [p0 st0] eqn:Hp.
      assert (Hl0 : length (path_elems p0) = length (path_elems path)).
      { destruct (negb _) in Hp; [|by injection Hp as <- <-].
        destruct (get_next_default_alias cps) as [alias st].
        injection Hp as <- <-. apply set_path_elem_length. }
      apply res_bind_ext. intros [[[ne p1] tl1] st1] Hv.
      apply handle_vertex_spec in Hv as [Hl1 _].
      apply res_bind_ext. intros pn _.
      apply res_bind_ext. intros node2 _.
      apply res_bind_ext. intros rel2 _.
      apply res_bind_ext. intros [[[ve p2] tl2] st2] Hvle.
      apply transform_VLE_edge_entity_spec in Hvle as [Hl2 _].
      apply IH; lia.
    + apply res_bind_ext. intros pe _.
      apply res_bind_ext. intros [[[e p1] tl1] st1] He.
      apply handle_edge_spec in He as [Hl _].
      apply IH; lia.
Qed.

Lemma prevent_duplicate_edges_loop_spec cps ents :
  forall acc edges,
    prevent_duplicate_edges_loop cps ents acc = Ok edges ->
    exists args,
      edges = acc ++ args /\
      Forall2 (edge_argument cps) (List.filter is_edge_entity ents) args.
Proof.
  induction ents as [|e rest IH]; intros acc edges Hb; simpl in Hb.
  - injection Hb as <-. exists []. rewrite app_nil_r. split; [reflexivity|constructor].
  - cbn [List.filter]. unfold is_edge_entity at 1.
    destruct (ent_type e) eqn:Ht.
    + apply IH in Hb. exact Hb.
    + apply res_bind_Ok in Hb as (edge & He & Hb).
      apply IH in Hb as (args & -> & Hargs).
      exists (edge :: args). rewrite <- app_assoc. split; [reflexivity|].
      constructor; [|exact Hargs]. unfold edge_argument. rewrite Ht. exact He.
    + destruct (find_pnsi cps (get_entity_name e)) as [pnsi|] eqn:Hf; [|discriminate].
      apply res_bind_Ok in Hb as (node & Hn & Hb).
      apply IH in Hb as (args & -> & Hargs).
      exists (node :: args). rewrite <- app_assoc. split; [reflexivity|].
      constructor; [|exact Hargs]. unfold edge_argument. rewrite Ht. eauto.
Qed.

Lemma transform_match_path_spec cps tl path qual tl' cps' :
  transform_match_path cps tl path = Ok (qual, tl', cps') -> path_quals path qual.
Proof.
  unfold transform_match_path. intros Hb.
  apply res_bind_Ok in Hb as ([[[ents p1] tl1] st1] & He & Hb).
  apply res_bind_Ok in Hb as (tl2 & _ & Hb).
  apply res_bind_Ok in Hb as (jq & Hj & Hb).
  apply res_bind_Ok in Hb as (q & Hq & Hb).
  injection Hb as <- <- <-.
  pose proof (transform_match_entities_length _ _ _ _ _ _ _ He) as Hlen.
  exists cps, tl, ents, p1, tl1, st1, jq.
  split; [exact He|]. split; [exact Hlen|]. split; [exact Hj|].
  rewrite <- Hlen. destruct (3 <? length ents)%nat.
  - apply res_bind_Ok in Hq as (d & Hd & Hq). injection Hq as <-.
    unfold prevent_duplicate_edges in Hd.
    apply res_bind_Ok in Hd as (edges & Hl & Hd). injection Hd as <-.
    apply prevent_duplicate_edges_loop_spec in Hl as (args & -> & Hargs).
    exists args. split; [exact Hargs|reflexivity].
  - injection Hq as <-. reflexivity.
Qed.

Lemma transform_match_pattern_paths_spec pattern :
  forall cps tl acc quals_ tl' cps',
    transform_match_pattern_paths cps tl pattern acc = Ok (quals_, tl', cps') ->
    exists per_path,
      quals_ = acc ++ concat per_path /\ Forall2 path_quals pattern per_path.
Proof.
  induction pattern as [|path rest IH]; intros cps tl acc quals_ tl' cps' Hb; simpl in Hb.
  - injection Hb as <- <- <-. exists []. simpl. rewrite app_nil_r.
    split; [reflexivity|constructor].
  - apply res_bind_Ok in Hb as ([[q tl1] st1] & Hp & Hb).
    apply transform_match_path_spec in Hp.
    apply IH in Hb as (pp & -> & Hpp).
    exists (q :: pp). simpl. rewrite <- app_assoc.
    split; [reflexivity|]. constructor; assumption.
Qed.

End MatchProofs.

(** C2 (amended).  The uniqueness predicate is built path by path.  The
    quals of a MATCH pattern are the quals of its paths, one after the
    other; a path has as many entities as elements, and contributes its
    join quals followed, when it has more than three entities (two
    relationships or more), by one [_ag_enforce_edge_uniqueness] call with
    one argument for each edge entity of this path, fixed or VLE, in
    order.  A path with a single relationship contributes no predicate, and
    no predicate ranges over the edges of two paths. *)
Theorem edge_uniqueness_predicate_per_path `{HostOps}
  (cps : cypher_parsestate) (tl : list TargetEntry) (pattern : list cypher_path)
  (quals_ : list Node) (tl' : list TargetEntry) (cps' : cypher_parsestate) :
  transform_match_pattern_paths cps tl pattern [] = Ok (quals_, tl', cps') ->
  exists per_path : list (list Node),
    quals_ = concat per_path /\ Forall2 path_quals pattern per_path.
Proof.
  intros Hb. apply transform_match_pattern_paths_spec in Hb as (pp & -> & Hpp).
  exists pp. split; [reflexivity | exact Hpp].
Qed.

Lemma edge_uniqueness_predicate_per_path_witness :
  exists per_path : list (list Node),
    [uniqueness_predicate [ColumnRef ["e1"; "id"] 0; ColumnRef ["e2"; "id"] 0]]
    = concat per_path /\
    Forall2 path_quals
      [example_path_two_edges "a" "e1" "b" "e2" "c"; example_path_one_edge "d" "e3" "e"]
      per_path.
Proof.
  eapply (edge_uniqueness_predicate_per_path example_cpstate []).
  vm_compute. reflexivity.
Defined.

(** C2, as stated, fails: a MATCH clause with two relationships, one in
    each of two paths, gets no uniqueness predicate. *)
Lemma two_single_edge_paths_get_no_uniqueness_predicate :
  let pattern :=
    [example_path_one_edge "a" "e1" "b"; example_path_one_edge "c" "e2" "d"] in
  pattern_edges pattern = 2%nat /\
  match transform_match_pattern_paths example_cpstate [] pattern [] with
  | Ok (quals_, _, _) => existsb is_uniqueness_predicate quals_ = false
  | Err _ => False
  end /\
  match transform_match_pattern example_cpstate [] pattern None with
  | Ok (_, _, from, _) => quals from = None
  | Err _ => False
  end.
Proof. vm_compute. repeat split. Qed.

Example two_paths_get_two_uniqueness_predicates :
  let pattern :=
    [example_path_two_edges "a" "e1" "b" "e2" "c";
     example_path_two_edges "d" "e3" "e" "e4" "f"] in
  match transform_match_pattern_paths example_cpstate [] pattern [] with
  | Ok (quals_, _, _) =>
      quals_ =
      [uniqueness_predicate [ColumnRef ["e1"; "id"] 0; ColumnRef ["e2"; "id"] 0];
       uniqueness_predicate [ColumnRef ["e3"; "id"] 0; ColumnRef ["e4"; "id"] 0]]
  | Err _ => False
  end.
Proof. vm_compute. reflexivity. Qed.

Example fixed_and_vle_edge_share_a_predicate :
  let vle :=
    PE_rel (mk_cypher_relationship None None None (Some (A_Indices true None None))
              CYPHER_REL_DIR_RIGHT 0) in
  let path :=
    mk_cypher_path [example_node "a"; example_rel "e1"; example_node "b"; vle;
                    example_node "c"] None 0 in
  match transform_match_pattern_paths example_cpstate [] [path] [] with
  | Ok (quals_, _, _) =>
      quals_ =
      [uniqueness_predicate
         [ColumnRef ["e1"; "id"] 0; ColumnRef ["_age_default_alias_0"; "edges"] (-1)]]
  | Err _ => False
  end.
Proof. vm_compute. reflexivity. Qed.

(** [MATCH ()-[]->()-[]->()]: each anonymous relationship is given an
    alias of its own by [transform_cypher_edge], and the predicate names
    the two aliases. *)
Example anonymous_edges_get_distinct_aliases :
  let node := PE_node (mk_cypher_node None None None 0) in
  let rel :=
    PE_rel (mk_cypher_relationship None None None None CYPHER_REL_DIR_RIGHT 0) in
  let path := mk_cypher_path [node; rel; node; rel; node] None 0 in
  match transform_match_pattern_paths example_cpstate [] [path] [] with
  | Ok (quals_, _, _) =>
      quals_ =
      [uniqueness_predicate
         [ColumnRef ["_age_default_alias_0"; "id"] 0;
          ColumnRef ["_age_default_alias_1"; "id"] 0]]
  | Err _ => False
  end.
Proof. vm_compute. reflexivity. Qed.

(* ===================================================================== *)
(** * Part III: further properties of the embedded code                  *)
(* ===================================================================== *)

(** ** age_vle.c: what the engine does at the edges of its input *)

Section VLE_more_proofs.
Context {gtype : Type} `{GtypeOps gtype}.
Implicit Types (g : graph_context gtype) (c : path_finding_context gtype).

Lemma add_edges_loop_path_queue edges : forall c c' ve,
  add_edges_loop c ve edges = Ok c' ->
  dfs_path_queue c' = dfs_path_queue c.
Proof.
  induction edges as [|e edges IH]; intros c c' ve Hrun; simpl in Hrun.
  - by injection Hrun as <-.
  - destruct (get_edge_entry (ggctx c) e) as [ee|]; [|done].
    unfold get_edge_state in Hrun.
    destruct (edge_state_hashtable c !! e) as [visited|];
      apply IH in Hrun; rewrite Hrun; clear;
      repeat (case_match; simpl); done.
Qed.

Lemma add_edges_path_queue c v c' :
  add_edges c v = Ok c' -> dfs_path_queue c' = dfs_path_queue c.
Proof.
  unfold add_edges. destruct (get_vertex_entry (ggctx c) v); [|done].
  apply add_edges_loop_path_queue.
Qed.

Lemma dfs_find_a_path_between_found_nonempty fuel : forall c c',
  dfs_find_a_path_between fuel c = Some (Ok (true, c')) ->
  dfs_path_queue c' <> [].
Proof.
  induction fuel as [|fuel IH]; intros c c' Hrun; [done|].
  simpl in Hrun.
  destruct (dfs_edge_queue c) as [|e Q]; [done|].
  destruct (get_edge_state c e) as [visited c1].
  destruct visited.
  - destruct (dfs_path_queue c1) as [|pe prest]; [done|].
    destruct (decide _); [destruct (dfs_vertex_queue _); [done|]|];
      by eapply IH.
  - destruct (get_edge_entry _ e) as [ee|]; [|done].
    destruct (get_next_vertex _ ee) as [w|]; [|done].
    destruct (_ && _ && _); [by eapply IH|].
    match type of Hrun with
      match ?X with _ => _ end = _ => destruct X as [c3|m] eqn:Hexp; [|done] end.
    destruct (_ && _ && _); [|by eapply IH].
    injection Hrun as <-.
    destruct (_ || _).
    + apply add_edges_path_queue in Hexp. rewrite Hexp. done.
    + by injection Hexp as <-.
Qed.

Lemma fill_interior_vertices_length g edges : forall vid r,
  fill_interior_vertices g vid edges = Ok r ->
  length r = (2 * length edges)%nat /\
  forall v0, container_edges (v0 :: r) = edges.
Proof.
  induction edges as [|e edges IH]; intros vid r Hr; simpl in Hr.
  - by injection Hr as <-.
  - destruct (get_edge_entry g e) as [ee|]; [|done].
    apply res_bind_Ok in Hr as (r' & Hr' & [= <-]).
    destruct (IH _ _ Hr') as [Hlen Hce]. simpl. split; [lia|].
    intros v0. f_equal. apply (Hce vid).
Qed.

Lemma check_edge_constraints_same_params c c' ee :
  same_params c c' -> check_edge_constraints c' ee = check_edge_constraints c ee.
Proof.
  intros (_ & _ & _ & Hl & Hp & _). unfold check_edge_constraints.
  by rewrite Hl, Hp.
Qed.

Lemma add_edges_loop_admitted c0 edges : forall c c' ve,
  add_edges_loop c ve edges = Ok c' ->
  same_params c0 c ->
  Forall (edge_admitted c0) (dfs_edge_queue c) ->
  Forall (edge_admitted c0) (dfs_edge_queue c').
Proof.
  induction edges as [|e edges IH]; intros c c' ve Hrun Hsp Hall; simpl in Hrun.
  - by injection Hrun as <-.
  - destruct (get_edge_entry (ggctx c) e) as [ee|] eqn:Hee; [|done].
    destruct (get_edge_state c e) as [visited c1] eqn:Hges.
    apply get_edge_state_spec in Hges as (Hsp1 & Heq & _).
    pose proof (same_params_trans _ _ _ Hsp Hsp1) as Hsp01.
    destruct (negb visited && check_edge_constraints c1 ee) eqn:Hpush.
    + eapply IH; [exact Hrun| |].
      * eapply same_params_trans; [exact Hsp01|].
        destruct (decide _); by repeat split.
      * assert (Hadm : edge_admitted c0 e).
        { exists ee. destruct Hsp as (Hg & _). unfold get_edge_entry in Hee.
          rewrite <- Hg. split; [exact Hee|].
          apply andb_prop in Hpush as [_ Hc].
          by rewrite (check_edge_constraints_same_params _ _ _ Hsp01) in Hc. }
        destruct (decide _); simpl; rewrite Heq; by constructor.
    + eapply IH; [exact Hrun|exact Hsp01|]. by rewrite Heq.
Qed.

Lemma add_edges_admitted c0 c v c' :
  add_edges c v = Ok c' ->
  stacks_admitted c0 c ->
  stacks_admitted c0 c'.
Proof.
  intros Hrun (Hsp & HQ & HP).
  pose proof (add_edges_path_queue _ _ _ Hrun) as Hpq.
  unfold add_edges in Hrun.
  destruct (get_vertex_entry (ggctx c) v) as [ve|]; [|done].
  split; [|split].
  - eapply same_params_trans; [exact Hsp|].
    eapply add_edges_loop_same_params. exact Hrun.
  - eapply add_edges_loop_admitted; eassumption.
  - by rewrite Hpq.
Qed.

Lemma dfs_find_a_path_between_admitted c0 fuel : forall c b c',
  stacks_admitted c0 c ->
  dfs_find_a_path_between fuel c = Some (Ok (b, c')) ->
  stacks_admitted c0 c'.
Proof.
  induction fuel as [|fuel IH]; intros c b c' Hadm Hrun; [done|].
  simpl in Hrun.
  destruct (dfs_edge_queue c) as [|e Q] eqn:HQ; [by injection Hrun as <- <-|].
  destruct Hadm as (Hsp & HQa & HPa). rewrite HQ in HQa.
  apply Forall_cons in HQa as [He HQa].
  destruct (get_edge_state c e) as [visited c1] eqn:Hges.
  apply get_edge_state_spec in Hges as (Hsp1 & Heq & Hvq & Hpq & _).
  pose proof (same_params_trans _ _ _ Hsp Hsp1) as Hsp01.
  destruct visited.
  - destruct (dfs_path_queue c1) as [|pe prest] eqn:Hp1; [done|].
    rewrite <- Hpq in HPa.
    apply Forall_cons in HPa as [Hpe Hprest].
    destruct (e =? pe);
      (destruct (decide _); [destruct (dfs_vertex_queue _) eqn:Hv; [done|]|]);
      (eapply IH; [|exact Hrun]); (split; [|split]); simpl;
      rewrite ?Hp1; try done; try (by constructor);
      (eapply same_params_trans; [exact Hsp01|]; by repeat split).
  - destruct (get_edge_entry _ e) as [ee|]; [|done].
    destruct (get_next_vertex _ ee) as [w|]; [|done].
    set (c2 := set_dfs_path_queue (set_visited c1 e true) (e :: dfs_path_queue c1))
      in *.
    assert (Hadm2 : stacks_admitted c0 c2).
    { split; [|split]; simpl.
      - eapply same_params_trans; [exact Hsp01|]. by repeat split.
      - rewrite Heq, HQ. by constructor.
      - rewrite Hpq. by constructor. }
    destruct (_ && _ && _); [by eapply IH|].
    match type of Hrun with
      match ?X with _ => _ end = _ => destruct X as [c3|m] eqn:Hexp; [|done] end.
    assert (Hadm3 : stacks_admitted c0 c3).
    { destruct (_ || _).
      - eapply add_edges_admitted; eassumption.
      - by injection Hexp as <-. }
    destruct (_ && _ && _); [by injection Hrun as <- <-|by eapply IH].
Qed.

Lemma build_vle_context_admitted g s e arg3 arg4 dir lab props c0 :
  build_vle_context g s e arg3 arg4 dir lab props = Ok c0 ->
  stacks_admitted c0 c0 /\
  ggctx c0 = g /\ label_name c0 = lab /\ properties c0 = props.
Proof.
  unfold build_vle_context.
  destruct (match arg4 with Some u => (false, u) | None => (true, -1) end)
    as [inf u] eqn:Hu.
  set (c := mk_path_finding_context _ _ _ _ _ _ _ _ _ _ _ _ _).
  intros Hload.
  pose proof (load_initial_dfs_queues_same_params _ _ Hload) as Hsp.
  assert (Hadm : stacks_admitted c c0).
  { unfold load_initial_dfs_queues in Hload.
    destruct (negb _).
    - injection Hload as <-. split; [apply same_params_refl|]. by split.
    - eapply add_edges_admitted; [exact Hload|].
      split; [apply same_params_refl|]. by split. }
  destruct Hsp as (Hg & _ & _ & Hl & Hp & _). simpl in *.
  split; [|done].
  destruct Hadm as (Hsp' & HQ & HP).
  assert (Himp : forall x, edge_admitted c x -> edge_admitted c0 x).
  { intros x (ee & Hee & Hc). exists ee. rewrite Hg. split; [exact Hee|].
    by rewrite (check_edge_constraints_same_params _ _ _ Hsp'). }
  split; [apply same_params_refl|].
  split; (eapply Forall_impl; [eassumption|exact Himp]).
Qed.

Lemma vle_reachable_admitted c0 c :
  stacks_admitted c0 c0 -> vle_reachable c0 c -> stacks_admitted c0 c.
Proof.
  intros H0. induction 1 as [|c fuel vpc c' Hreach IH Hcall]; [done|].
  unfold gtype_vle in Hcall.
  destruct (dfs_find_a_path_between fuel c) as [[[[] c1]|]|] eqn:Hdfs; try done.
  destruct (build_path_container c1); [|done]. injection Hcall as <- <-.
  eapply dfs_find_a_path_between_admitted; eassumption.
Qed.

End VLE_more_proofs.

(** X1.  When the start vertex or the end vertex is not in the graph
    index, the context is built with empty stacks and the first call of
    [gtype_vle] reports that it is done: no path and no error. *)
Theorem gtype_vle_missing_endpoint
  {gtype : Type} `{GtypeOps gtype}
  (g : graph_context gtype) (s e : graphid) (arg3 arg4 : option Z)
  (dir : cypher_rel_dir) (lab : option string) (props : option gtype) :
  vertex_hashtable g !! s = None \/ vertex_hashtable g !! e = None ->
  exists c0,
    build_vle_context g s e arg3 arg4 dir lab props = Ok c0 /\
    dfs_edge_queue c0 = [] /\
    forall fuel, gtype_vle (S fuel) c0 = Some (Ok (None, c0)).
Proof.
  intros Hmiss. unfold build_vle_context.
  destruct (match arg4 with Some u => (false, u) | None => (true, -1) end)
    as [inf u].
  eexists. split.
  - unfold load_initial_dfs_queues, do_vsid_and_veid_exist, get_vertex_entry. simpl.
    destruct Hmiss as [-> | ->].
    + rewrite (bool_decide_eq_false_2 (is_Some None)) by (intros [? ?]; done).
      reflexivity.
    + rewrite (bool_decide_eq_false_2 (is_Some None)) by (intros [? ?]; done).
      rewrite andb_false_r. reflexivity.
  - split; [reflexivity|]. intros fuel. reflexivity.
Qed.

Lemma gtype_vle_missing_endpoint_witness :
  exists c0,
    build_vle_context fixture_graph 1 99 (Some 1) None CYPHER_REL_DIR_RIGHT None None
    = Ok c0 /\
    dfs_edge_queue c0 = [] /\
    forall fuel, gtype_vle (S fuel) c0 = Some (Ok (None, c0)).
Proof.
  apply gtype_vle_missing_endpoint. right. vm_compute. reflexivity.
Defined.

(** X2.  A path container that [gtype_vle] returns holds at least one
    edge, whatever the lower bound is (also 0 or a negative number): it
    has [2 n + 1] elements with [n >= 1].  The path of no edge from a
    vertex to itself is never returned. *)
Theorem gtype_vle_path_has_an_edge
  {gtype : Type} `{GtypeOps gtype}
  (fuel : nat) (c c' : path_finding_context gtype) (vpc : list graphid) :
  gtype_vle fuel c = Some (Ok (Some vpc, c')) ->
  exists n : nat,
    (1 <= n)%nat /\
    length vpc = (2 * n + 1)%nat /\
    length (container_edges vpc) = n.
Proof.
  unfold gtype_vle. intros Hcall.
  destruct (dfs_find_a_path_between fuel c) as [[[[] c1]|]|] eqn:Hdfs; try done.
  destruct (build_path_container c1) as [vpc'|] eqn:Hbpc; [|done].
  injection Hcall as -> ->.
  apply dfs_find_a_path_between_found_nonempty in Hdfs.
  unfold build_path_container in Hbpc.
  apply res_bind_Ok in Hbpc as (r & Hr & [= <-]).
  apply fill_interior_vertices_length in Hr as [Hlen Hce].
  exists (length (dfs_path_queue c')). rewrite Hce, length_rev. simpl.
  rewrite length_rev in Hlen. split; [|lia].
  destruct (dfs_path_queue c'); [done|simpl; lia].
Qed.

Lemma gtype_vle_path_has_an_edge_witness :
  exists n : nat,
    (1 <= n)%nat /\
    length [1; 107; 2] = (2 * n + 1)%nat /\
    length (container_edges [1; 107; 2]) = n.
Proof.
  eapply (gtype_vle_path_has_an_edge 100%nat
            (mk_path_finding_context fixture_graph 1 2 None None 0 1 false
               CYPHER_REL_DIR_RIGHT ∅ [] [107; 101] [])
            _ [1; 107; 2]).
  vm_compute. reflexivity.
Defined.

(** X3.  Every edge of a path that [gtype_vle] returns is in the edge
    table and passes the constraints the context was built with: it has
    the requested label, if one was given, and its properties contain the
    requested properties, if some were given. *)
Theorem gtype_vle_path_edges_pass_constraints
  {gtype : Type} `{GtypeOps gtype}
  (g : graph_context gtype) (s e : graphid) (arg3 arg4 : option Z)
  (dir : cypher_rel_dir) (lab : option string) (props : option gtype)
  (c0 c c' : path_finding_context gtype) (fuel : nat) (vpc : list graphid) :
  build_vle_context g s e arg3 arg4 dir lab props = Ok c0 ->
  vle_reachable c0 c ->
  gtype_vle fuel c = Some (Ok (Some vpc, c')) ->
  Forall
    (fun x =>
       exists ee, edge_hashtable g !! x = Some ee /\
         match lab with
         | Some l => edge_label_name ee = l
         | None => True
         end /\
         match props with
         | Some p =>
             AGT_ROOT_COUNT p <= GTYPE_CONTAINER_SIZE (edge_properties ee) /\
             gtype_deep_contains (edge_properties ee) p = true
         | None => True
         end)
    (container_edges vpc).
Proof.
  intros Hctx Hreach Hcall.
  destruct (build_vle_context_admitted _ _ _ _ _ _ _ _ _ Hctx)
    as (Hadm0 & Hg & Hl & Hp).
  pose proof (vle_reachable_admitted _ _ Hadm0 Hreach) as Hadm.
  unfold gtype_vle in Hcall.
  destruct (dfs_find_a_path_between fuel c) as [[[[] c1]|]|] eqn:Hdfs; try done.
  destruct (build_path_container c1) as [vpc'|] eqn:Hbpc; [|done].
  injection Hcall as -> ->.
  destruct (dfs_find_a_path_between_admitted _ _ _ _ _ Hadm Hdfs) as (_ & _ & HP).
  unfold build_path_container in Hbpc.
  apply res_bind_Ok in Hbpc as (r & Hr & [= <-]).
  apply fill_interior_vertices_length in Hr as [_ Hce]. rewrite Hce.
  apply Forall_rev. eapply Forall_impl; [exact HP|].
  simpl. intros x (ee & Hee & Hc). exists ee. rewrite <- Hg. split; [exact Hee|].
  unfold check_edge_constraints in Hc. rewrite Hl, Hp in Hc.
  split.
  - destruct lab as [l|]; [|done].
    destruct (String.eqb l (edge_label_name ee)) eqn:Heqb; [|done].
    symmetry. by apply String.eqb_eq.
  - destruct props as [p|]; [|done].
    destruct (match lab with Some l => negb (String.eqb l (edge_label_name ee))
              | None => false end); [done|].
    destruct (AGT_ROOT_COUNT p >? GTYPE_CONTAINER_SIZE (edge_properties ee)) eqn:Hgt;
      [done|]. split; [lia|exact Hc].
Qed.

Lemma gtype_vle_path_edges_pass_constraints_witness :
  Forall
    (fun x => exists ee, edge_hashtable fixture_graph !! x = Some ee /\
                edge_label_name ee = "edge"%string /\ True)
    [101; 102; 103].
Proof.
  eapply (gtype_vle_path_edges_pass_constraints fixture_graph 1 4 (Some 3) (Some 3)
            CYPHER_REL_DIR_RIGHT (Some "edge"%string) None _ _ _ 100%nat
            [1; 101; 2; 102; 3; 103; 4]).
  - vm_compute. reflexivity.
  - apply vle_reach_first.
  - vm_compute. reflexivity.
Defined.

(** ** cypher_gram.y: variable-length relationships *)

(** X4.  [ * range ] is refused with [invalid range] exactly when the
    range has an upper bound below its lower bound, the lower bound being
    1 when it is omitted: [ *..0 ] is refused, [ *0..0 ] is not.  Every
    other range is accepted and given its lower bound. *)
Theorem cypher_varlen_opt_invalid_range (range : cypher_range_opt_syntax) (loc : Z) :
  let inverted :=
    match range_upper range with
    | Some hi => range_lower range >? hi
    | None => false
    end in
  if inverted
  then cypher_varlen_opt (VARLEN_star range loc) = Err "invalid range"
  else exists sl l u,
         cypher_varlen_opt (VARLEN_star range loc) = Ok (Some (A_Indices sl (Some l) u)) /\
         A_Const_ival l = Ok (range_lower range) /\
         match u, range_upper range with
         | Some u, Some hi => A_Const_ival u = Ok hi
         | None, None => True
         | _, _ => False
         end.
Proof.
  destruct range as [i iloc|[[lo lloc]|] [[hi hloc]|]|]; simpl;
    try (destruct (_ >? _) eqn:Hgt; simpl; [reflexivity|]);
    by eexists _, _, _.
Qed.

Example cypher_varlen_opt_upper_zero :
  cypher_varlen_opt (VARLEN_star (RANGE_dot_dot None (Some (0, 7))) 5)
  = Err "invalid range" /\
  is_Ok (cypher_varlen_opt (VARLEN_star (RANGE_dot_dot (Some (0, 5)) (Some (0, 8))) 5))
  = true.
Proof. split; reflexivity. Qed.

(** X5.  [build_VLE_relation] gives a name to each of the two nodes that
    has none, and the [vle] call it stores in the relationship refers to
    the left node only: the first argument is the id column of the left
    node and the second is always the NULL constant, whether the right
    node had a name or not (the second test looks at the left node again,
    which has a name by then). *)
Theorem build_VLE_relation_end_vertex_is_null
  (cnl : cypher_node) (cr : cypher_relationship) (cnr : cypher_node)
  (left_arg_location cr_location : Z) (unique_counter : N) :
  exists cnl' cr' cnr' counter' start_name edge_ lo hi,
    build_VLE_relation cnl cr cnr left_arg_location cr_location unique_counter
    = (cnl', cr', cnr', counter') /\
    node_name cnl' = Some start_name /\
    is_Some (node_name cnr') /\
    (is_Some (node_name cnl) -> node_name cnl' = node_name cnl) /\
    (is_Some (node_name cnr) -> node_name cnr' = node_name cnr) /\
    rel_varlen cr'
    = Some (FuncCall ["vle"%string]
              [ColumnRef [start_name; "id"%string] left_arg_location;
               make_null_const (-1); edge_; lo; hi;
               make_int_const (cypher_rel_dir_int (rel_dir cr)) cr_location]
              COERCE_SQL_SYNTAX cr_location).
Proof.
  unfold build_VLE_relation.
  destruct (rel_label cr), (rel_props cr),
    (varlen_lidx (rel_varlen cr)), (varlen_uidx (rel_varlen cr)).
  all: destruct (node_name cnl) as [nl|] eqn:Hl;
    [|destruct (create_unique_name (Some "_vle_function_start_var"%string)
                  unique_counter) as [nm c]; cbn [node_name]].
  all: destruct (node_name cnr) as [nr|] eqn:Hr;
    [|destruct (create_unique_name (Some "_vle_function_end_var"%string) _)
        as [nm2 c2]].
  all: rewrite ?Hl; eexists _, _, _, _, _, _, _, _.
  all: split; [reflexivity|]; cbn [rel_varlen node_name]; rewrite ?Hl, ?Hr.
  all: split; [reflexivity|]; split; [by eexists|].
  all: split; [try done; by intros [? ?]|].
  all: split; [try done; by intros [? ?]|].
  all: reflexivity.
Qed.

Example build_VLE_relation_named_nodes :
  let cr := mk_cypher_relationship None None None
              (Some (A_Indices false (Some (make_int_const 1 4)) None))
              CYPHER_REL_DIR_RIGHT 3 in
  let '(_, cr', _, _) :=
    build_VLE_relation (mk_cypher_node (Some "a") None None 0) cr
      (mk_cypher_node (Some "b") None None 9) 0 3 0 in
  match rel_varlen cr' with
  | Some (FuncCall _ (start_ :: end_ :: _) _ _) =>
      start_ = ColumnRef ["a"; "id"] 0 /\ end_ = make_null_const (-1)
  | _ => False
  end.
Proof. vm_compute. split; reflexivity. Qed.

(** ** cypher_clause.c: what CREATE accepts as a relationship *)

Section CreateEdgeProofs.
Context `{HostOps}.

Lemma transform_create_cypher_edge_Ok cps target_list edge rel target_list' cps' :
  transform_create_cypher_edge cps target_list edge = Ok (rel, target_list', cps') ->
  rel_dir edge <> CYPHER_REL_DIR_NONE /\
  (exists label,
     rel_label edge = Some label /\
     search_label_name_graph_cache (pstate cps) label (graph_oid cps)
     <> Some LABEL_KIND_VERTEX) /\
  (forall name, rel_name edge = Some name -> variable_exists cps (Some name) = false) /\
  tn_type rel = LABEL_KIND_EDGE /\
  tn_dir rel = rel_dir edge /\
  tn_label_name rel = rel_label edge /\
  tn_variable_name rel = rel_name edge /\
  tn_flags rel
  = CYPHER_TARGET_NODE_FLAG_INSERT
    :: match rel_name edge with
       | Some _ => [CYPHER_TARGET_NODE_IS_VAR]
       | None => []
       end /\
  exists props_entry,
    resno props_entry = tn_prop_attr_num rel + 1 /\
    resjunk props_entry = false /\
    target_list'
    = target_list
      ++ match rel_name edge with
         | Some name => [(placeholder_edge cps name).1]
         | None => []
         end
      ++ [props_entry].
Proof.
  unfold transform_create_cypher_edge. intros Hb.
  apply res_bind_Ok in Hb as (u & Hlabel & Hb).
  apply res_bind_Ok in Hb as ([[[[v p] tl1] st1] fl] & Hname & Hb).
  apply res_bind_Ok in Hb as (u2 & Hdir & Hb).
  apply res_bind_Ok in Hb as (label & Hl & Hb).
  apply res_bind_Ok in Hb as (ps & _ & Hb).
  apply res_bind_Ok in Hb as ([lrel ps2] & _ & Hb).
  destruct (get_next_default_alias _) as [alias st3].
  destruct (next_resno _) as [rn ps3].
  apply res_bind_Ok in Hb as ([props st4] & _ & Hb).
  injection Hb as <- <- <-. simpl.
  case_bool_decide as Hd; [done|].
  destruct (rel_label edge) as [l|] eqn:Hlab; [|done].
  injection Hl as ->.
  split; [exact Hd|]. split.
  { exists label. split; [reflexivity|]. intros Hc. rewrite Hc in Hlabel. done. }
  destruct (rel_name edge) as [name|] eqn:Hn.
  - destruct (variable_exists cps (Some name)) eqn:Hv; [done|].
    destruct (placeholder_edge cps name) as [te st] eqn:Hpe.
    injection Hname as <- <- <- <- <-.
    split; [by intros ? [= <-]|]. repeat (split; [reflexivity|]).
    eexists (makeTargetEntry props rn (Some alias) false). simpl.
    split; [lia|]. split; [reflexivity|]. by rewrite <- app_assoc.
  - injection Hname as <- <- <- <- <-.
    split; [done|]. repeat (split; [reflexivity|]).
    eexists (makeTargetEntry props rn (Some alias) false). simpl.
    split; [lia|]. split; reflexivity.
Qed.

Lemma transform_create_cypher_edge_no_label cps target_list edge :
  rel_label edge = None ->
  transform_create_cypher_edge cps target_list edge
  = match rel_name edge with
    | Some name =>
        if variable_exists cps (Some name)
        then Err ("variable " ++ name ++ " already exists")
        else if bool_decide (rel_dir edge = CYPHER_REL_DIR_NONE)
             then Err "only directed relationships are allowed in CREATE"
             else Err "relationships must be specify a label in CREATE."
    | None =>
        if bool_decide (rel_dir edge = CYPHER_REL_DIR_NONE)
        then Err "only directed relationships are allowed in CREATE"
        else Err "relationships must be specify a label in CREATE."
    end.
Proof.
  intros Hl. unfold transform_create_cypher_edge. rewrite Hl. simpl.
  destruct (rel_name edge) as [name|]; simpl.
  - destruct (variable_exists cps (Some name)); [reflexivity|].
    destruct (placeholder_edge cps name) as [te st]. simpl.
    case_bool_decide; reflexivity.
  - case_bool_decide; reflexivity.
Qed.

End CreateEdgeProofs.

(** X6.  A relationship of a CREATE pattern is transformed only when it
    is directed, carries a label that is not the label of vertices, and
    its variable, if it has one, is not defined yet.  The target node then
    is an edge to insert with this label and direction, flagged as a
    variable exactly when the relationship is named, and the target list
    grows by the placeholder of the variable, if any, and by the entry of
    the properties.  Without a label the relationship is always refused:
    for an existing variable, else for a missing direction, else with
    [relationships must be specify a label in CREATE.] *)
Theorem create_relationship_accepted `{HostOps}
  (cps : cypher_parsestate) (target_list : list TargetEntry)
  (edge : cypher_relationship) :
  (forall rel target_list' cps',
     transform_create_cypher_edge cps target_list edge = Ok (rel, target_list', cps') ->
     rel_dir edge <> CYPHER_REL_DIR_NONE /\
     (exists label,
        rel_label edge = Some label /\
        search_label_name_graph_cache (pstate cps) label (graph_oid cps)
        <> Some LABEL_KIND_VERTEX) /\
     (forall name, rel_name edge = Some name -> variable_exists cps (Some name) = false) /\
     tn_type rel = LABEL_KIND_EDGE /\
     tn_dir rel = rel_dir edge /\
     tn_label_name rel = rel_label edge /\
     tn_variable_name rel = rel_name edge /\
     tn_flags rel
     = CYPHER_TARGET_NODE_FLAG_INSERT
       :: match rel_name edge with
       | Some _ => [CYPHER_TARGET_NODE_IS_VAR]
       | None => []
       end /\
     exists props_entry,
       resno props_entry = tn_prop_attr_num rel + 1 /\
       resjunk props_entry = false /\
       target_list'
       = target_list
         ++ match rel_name edge with
            | Some name => [(placeholder_edge cps name).1]
            | None => []
            end
         ++ [props_entry]) /\
  (rel_label edge = None ->
   rel_dir edge <> CYPHER_REL_DIR_NONE ->
   (forall name, rel_name edge = Some name -> variable_exists cps (Some name) = false) ->
   transform_create_cypher_edge cps target_list edge
   = Err "relationships must be specify a label in CREATE.").
Proof.
  split.
  - intros rel tl' cps'. apply transform_create_cypher_edge_Ok.
  - intros Hl Hd Hv. rewrite transform_create_cypher_edge_no_label by exact Hl.
    destruct (rel_name edge) as [name|]; rewrite ?(Hv name eq_refl);
      by rewrite bool_decide_eq_false_2.
Qed.

Lemma create_relationship_accepted_witness :
  let unlabelled := mk_cypher_relationship (Some "e") None None None CYPHER_REL_DIR_LEFT 9 in
  let labelled :=
    mk_cypher_relationship (Some "e") (Some "X") None None CYPHER_REL_DIR_LEFT 9 in
  transform_create_cypher_edge example_cpstate [] unlabelled
  = Err "relationships must be specify a label in CREATE." /\
  exists rel target_list' cps',
    transform_create_cypher_edge example_cpstate [] labelled
    = Ok (rel, target_list', cps') /\
    tn_dir rel = CYPHER_REL_DIR_LEFT /\
    tn_flags rel = [CYPHER_TARGET_NODE_FLAG_INSERT; CYPHER_TARGET_NODE_IS_VAR] /\
    length target_list' = 2%nat.
Proof.
  intros unlabelled labelled. split.
  - apply (create_relationship_accepted example_cpstate [] unlabelled);
      [reflexivity|done|reflexivity].
  - destruct (transform_create_cypher_edge example_cpstate [] labelled)
      as [[[rel tl'] cps']|m] eqn:Hrun; [|vm_compute in Hrun; discriminate].
    exists rel, tl', cps'. split; [reflexivity|].
    destruct (proj1 (create_relationship_accepted example_cpstate [] labelled)
                rel tl' cps' Hrun)
      as (_ & _ & _ & _ & Hdir & _ & _ & Hflags & te & _ & _ & Htl).
    split; [exact Hdir|]. split; [exact Hflags|]. rewrite Htl. reflexivity.
Defined.

(** ** cypher_clause.c: the entities of a MATCH path *)

Section MatchEntityTypes.
Context `{HostOps}.

Lemma list_nth_node_types path i node :
  list_nth_node path i = Ok node -> path_elems path !! i = Some (PE_node node).
Proof.
  unfold list_nth_node. destruct (path_elems path !! i) as [[n|r]|]; [|done..].
  by intros [= ->].
Qed.

Lemma list_nth_rel_types path i rel :
  list_nth_rel path i = Ok rel -> path_elems path !! i = Some (PE_rel rel).
Proof.
  unfold list_nth_rel. destruct (path_elems path !! i) as [[n|r]|]; [done| |done].
  by intros [= ->].
Qed.

Lemma set_path_elem_types path i old new :
  path_elems path !! i = Some old ->
  expected_entity_type new = expected_entity_type old ->
  path_types (set_path_elem path i new) = path_types path.
Proof.
  intros Hl Ht. unfold path_types, set_path_elem. simpl.
  change (map expected_entity_type) with (fmap (M:=list) expected_entity_type).
  rewrite list_fmap_insert, Ht. apply list_insert_id.
  by rewrite list_lookup_fmap, Hl.
Qed.

Lemma path_types_lookup path i e :
  path_elems path !! i = Some e ->
  path_types path !! i = Some (expected_entity_type e).
Proof.
  intros Hl. unfold path_types.
  change (map expected_entity_type) with (fmap (M:=list) expected_entity_type).
  by rewrite list_lookup_fmap, Hl.
Qed.

Lemma transform_cypher_edge_rel cps rel tl expr rel1 tl1 cps1 :
  transform_cypher_edge cps rel tl = Ok (expr, rel1, tl1, cps1) ->
  rel_varlen rel1 = rel_varlen rel /\
  rel_props rel1 = rel_props rel /\
  rel_dir rel1 = rel_dir rel /\
  is_Some (rel_label rel1).
Proof.
  unfold transform_cypher_edge. intros Hb.
  apply res_bind_Ok in Hb as (label & _ & Hb).
  apply res_bind_Ok in Hb as (known & _ & Hb).
  destruct known as [e|].
  - injection Hb as <- <- <- <-. simpl. by eauto.
  - destruct (match rel_name (set_rel_label rel label) with
              | Some name => (name, cps)
              | None => get_next_default_alias cps
              end) as [name st].
    apply res_bind_Ok in Hb as ([pnsi ps] & _ & Hb).
    destruct (next_resno _) as [rn ps1].
    injection Hb as <- <- <- <-. simpl. by eauto.
Qed.

Lemma handle_vertex_types cps tl path i e path' tl' cps' :
  handle_vertex cps tl path i = Ok (e, path', tl', cps') ->
  path_types path' = path_types path /\
  path_types path !! i = Some ENT_VERTEX /\
  ent_type e = ENT_VERTEX.
Proof.
  unfold handle_vertex. intros Hb.
  apply res_bind_Ok in Hb as (node & Hn & Hb).
  apply res_bind_Ok in Hb as ([node' st] & _ & Hb).
  apply res_bind_Ok in Hb as ([[[expr node1] tl1] st1] & _ & Hb).
  apply res_bind_Ok in Hb as (st2 & _ & Hb).
  injection Hb as <- <- <- <-.
  apply list_nth_node_types in Hn.
  split; [by eapply set_path_elem_types|].
  split; [by apply (path_types_lookup _ _ _ Hn)|reflexivity].
Qed.

Lemma handle_edge_types cps tl path i prev e path' tl' cps' :
  handle_edge cps tl path i prev = Ok (e, path', tl', cps') ->
  path_types path' = path_types path /\ ent_type e = ENT_EDGE.
Proof.
  unfold handle_edge. intros Hb.
  apply res_bind_Ok in Hb as (rel & Hrel & Hb).
  apply res_bind_Ok in Hb as ([path1 st] & Hp & Hb).
  apply res_bind_Ok in Hb as ([[[expr rel1] tl1] st1] & He & Hb).
  apply res_bind_Ok in Hb as (st2 & _ & Hb).
  injection Hb as <- <- <- <-.
  split; [|reflexivity].
  apply transform_cypher_edge_rel in He as (Hv & _).
  apply list_nth_rel_types in Hrel.
  assert (Hp1 : path_types path1 = path_types path /\
                path_elems path1 !! i = Some (PE_rel rel)).
  { destruct (_ && _ && _) in Hp; [|by injection Hp as <- <-].
    apply res_bind_Ok in Hp as (node & Hn & Hp).
    destruct (negb _) in Hp; [|by injection Hp as <- <-].
    destruct (get_next_default_alias cps) as [alias st3].
    injection Hp as <- <-. apply list_nth_node_types in Hn.
    split; [by eapply set_path_elem_types|].
    unfold set_path_elem. simpl. rewrite list_lookup_insert_ne; [done|].
    intros <-. rewrite Hn in Hrel. done. }
  destruct Hp1 as [Ht Hl]. rewrite <- Ht.
  eapply set_path_elem_types; [exact Hl|]. simpl. by rewrite Hv.
Qed.

Lemma transform_VLE_edge_entity_types cps tl path i func e path' tl' cps' :
  transform_VLE_edge_entity cps tl path i func = Ok (e, path', tl', cps') ->
  path_types path' = path_types path /\ ent_type e = ENT_VLE_EDGE.
Proof.
  unfold transform_VLE_edge_entity. intros Hb.
  apply res_bind_Ok in Hb as (rel & Hrel & Hb).
  apply res_bind_Ok in Hb as (u & _ & Hb).
  apply list_nth_rel_types in Hrel.
  destruct (match rel_name rel with
            | Some _ => (rel, cps)
            | None => let (alias, cpstate) := get_next_default_alias cps in
                      (set_rel_name rel alias, cpstate)
            end) as [rel1 st1] eqn:Hr1.
  assert (Hv : rel_varlen rel1 = rel_varlen rel).
  { destruct (rel_name rel); [by injection Hr1 as <- <-|].
    destruct (get_next_default_alias cps). by injection Hr1 as <- <-. }
  apply res_bind_Ok in Hb as ([pnsi st2] & _ & Hb).
  apply res_bind_Ok in Hb as (var & _ & Hb).
  destruct (next_resno (pstate st2)) as [rn ps].
  injection Hb as <- <- <- <-.
  split; [|reflexivity].
  eapply set_path_elem_types; [exact Hrel|]. simpl. by rewrite Hv.
Qed.

Lemma transform_match_entities_loop_types fuel :
  forall i cps tl path ents prev r path' tl' cps',
    transform_match_entities_loop fuel i cps tl path ents prev = Ok (r, path', tl', cps') ->
    map ent_type ents = take i (path_types path) ->
    length ents = i ->
    (i <= length (path_elems path))%nat ->
    map ent_type r = path_types path.
Proof.
  induction fuel as [|fuel IH];
    intros i cps tl path ents prev r path' tl' cps' Hb Hty Hi Hle;
    cbn [transform_match_entities_loop] in Hb.
  - case_bool_decide; [|discriminate]. injection Hb as <- <- <- <-.
    rewrite Hty. apply take_ge. unfold path_types. rewrite length_map. lia.
  - case_bool_decide as Hdone.
    { injection Hb as <- <- <- <-.
      rewrite Hty. apply take_ge. unfold path_types. rewrite length_map. lia. }
    destruct (i mod 2 =? 0)%nat.
    + apply res_bind_Ok in Hb as ([[[e p1] tl1] st1] & Hv & Hb).
      pose proof (handle_vertex_spec _ _ _ _ _ _ _ _ Hv) as [Hl _].
      apply handle_vertex_types in Hv as (Hpt & Hti & Hte).
      apply IH in Hb; [by rewrite Hpt in Hb| |rewrite length_app; simpl; lia|lia].
      rewrite Hpt, map_app, Hty. simpl. rewrite Hte.
      replace (i + 1)%nat with (S i) by lia. symmetry. by apply take_S_r.
    + apply res_bind_Ok in Hb as (rel & Hrel & Hb).
      apply list_nth_rel_types in Hrel.
      pose proof (path_types_lookup _ _ _ Hrel) as Hti. simpl in Hti.
      destruct (rel_varlen rel) as [vl|] eqn:Hvl.
      * apply res_bind_Ok in Hb as (node & Hn & Hb).
        pose proof (list_nth_node_Ok _ _ _ Hn) as Hlt.
        apply list_nth_node_types in Hn.
        destruct (if negb (INCLUDE_NODE_IN_JOIN_TREE path node)
                  then let (alias, cpstate) := get_next_default_alias cps in
                       (set_path_elem path (i + 1) (PE_node (set_node_name node alias)),
                        cpstate)
                  else (path, cps)) as [p0 st0] eqn:Hp.
        assert (Hp0 : path_types p0 = path_types path /\
                      length (path_elems p0) = length (path_elems path)).
        { destruct (negb _) in Hp; [|by injection Hp as <- <-].
          destruct (get_next_default_alias cps) as [alias st].
          injection Hp as <- <-.
          split; [by eapply set_path_elem_types|apply set_path_elem_length]. }
        destruct Hp0 as [Hpt0 Hl0].
        apply res_bind_Ok in Hb as ([[[ne p1] tl1] st1] & Hv & Hb).
        pose proof (handle_vertex_spec _ _ _ _ _ _ _ _ Hv) as [Hl1 _].
        apply handle_vertex_types in Hv as (Hpt1 & Hti1 & Hte1).
        apply res_bind_Ok in Hb as (pn & _ & Hb).
        apply res_bind_Ok in Hb as (node2 & _ & Hb).
        apply res_bind_Ok in Hb as (rel2 & _ & Hb).
        apply res_bind_Ok in Hb as ([[[ve p2] tl2] st2] & Hvle & Hb).
        pose proof (transform_VLE_edge_entity_spec _ _ _ _ _ _ _ _ _ Hvle) as [Hl2 _].
        apply transform_VLE_edge_entity_types in Hvle as (Hpt2 & Hte2).
        apply IH in Hb;
          [by rewrite Hpt2, Hpt1, Hpt0 in Hb
          |
          |rewrite insert_vle_entity_length; lia
          |lia].
        rewrite Hpt2, Hpt1, Hpt0. rewrite Hpt0 in Hti1.
        unfold insert_vle_entity.
        rewrite length_app. simpl.
        replace (length ents + 1 - 1)%nat with (length ents) by lia.
        rewrite take_app_length, !map_app, Hty. simpl. rewrite Hte1, Hte2.
        replace (i + 1 + 1)%nat with (S (S i)) by lia.
        replace (i + 1)%nat with (S i) in Hti1 by lia.
        rewrite (take_S_r _ (S i) _ Hti1), (take_S_r _ i _ Hti).
        by rewrite <- app_assoc.
      * apply res_bind_Ok in Hb as (pe & _ & Hb).
        apply res_bind_Ok in Hb as ([[[e p1] tl1] st1] & He & Hb).
        pose proof (handle_edge_spec _ _ _ _ _ _ _ _ _ He) as [Hl _].
        apply handle_edge_types in He as (Hpt & Hte).
        apply IH in Hb; [by rewrite Hpt in Hb| |rewrite length_app; simpl; lia|lia].
        rewrite Hpt, map_app, Hty. simpl. rewrite Hte.
        replace (i + 1)%nat with (S i) by lia. symmetry. by apply take_S_r.
Qed.

Lemma edge_entities_count (ents : list transform_entity) (elems : list path_elem) :
  map ent_type ents = map expected_entity_type elems ->
  length (List.filter is_edge_entity ents) = length (List.filter is_relationship elems).
Proof.
  revert elems. induction ents as [|e ents IH]; intros [|x elems] Hm; try done.
  simpl in Hm. injection Hm as Hx Hm. apply IH in Hm.
  cbn [List.filter]. unfold is_edge_entity at 1. rewrite Hx.
  destruct x as [n|r]; simpl; [exact Hm|].
  destruct (rel_varlen r); simpl; by rewrite Hm.
Qed.

End MatchEntityTypes.

(** X7.  The entities [transform_match_entities] returns for a path stand
    one for one, and in order, for the elements of the pattern: a vertex
    entity for a node, an edge entity for a relationship of fixed length
    and a VLE entity for a variable-length one.  Hence the uniqueness
    predicate of a path of more than three elements has exactly one
    argument for each relationship of the path. *)
Theorem match_entities_follow_the_pattern `{HostOps}
  (cps : cypher_parsestate) (tl : list TargetEntry) (path : cypher_path) :
  (forall ents path' tl' cps',
     transform_match_entities cps tl path = Ok (ents, path', tl', cps') ->
     map ent_type ents = map expected_entity_type (path_elems path)) /\
  (forall quals tl' cps',
     transform_match_path cps tl path = Ok (quals, tl', cps') ->
     (3 < length (path_elems path))%nat ->
     exists join_quals args,
       quals = join_quals ++ [uniqueness_predicate args] /\
       length args = length (List.filter is_relationship (path_elems path))).
Proof.
  assert (Hents : forall st t ents path' tl' cps',
            transform_match_entities st t path = Ok (ents, path', tl', cps') ->
            map ent_type ents = map expected_entity_type (path_elems path)).
  { intros st t ents path' tl' cps' Hb. unfold transform_match_entities in Hb.
    eapply transform_match_entities_loop_types; [exact Hb|reflexivity|reflexivity|lia]. }
  split; [apply Hents|].
  intros quals tl' cps' Hb Hlen.
  apply transform_match_path_spec in Hb
    as (st & t & ents & p1 & tl1 & st1 & jq & He & Hl & _ & Hq).
  apply Nat.ltb_lt in Hlen. rewrite Hlen in Hq.
  destruct Hq as (args & Hargs & ->).
  exists jq, args. split; [reflexivity|].
  apply Forall2_length in Hargs. rewrite <- Hargs.
  apply edge_entities_count. eapply Hents. exact He.
Qed.

Lemma match_entities_follow_the_pattern_witness :
  let path := example_path_two_edges "a" "e1" "b" "e2" "c" in
  exists join_quals args,
    [uniqueness_predicate [ColumnRef ["e1"; "id"] 0; ColumnRef ["e2"; "id"] 0]]
    = join_quals ++ [uniqueness_predicate args] /\
    length args = 2%nat.
Proof.
  intros path.
  eapply (proj2 (match_entities_follow_the_pattern example_cpstate [] path)).
  - vm_compute. reflexivity.
  - vm_compute. lia.
Defined.

(** ** variable_edge.c: what [build_variable_edge] accepts *)

Lemma mod2_S (i : nat) :
  ((i mod 2 = 1)%nat -> (S i mod 2 = 0)%nat) /\ ((i mod 2 = 0)%nat -> (S i mod 2 = 1)%nat).
Proof.
  pose proof (Nat.div_mod_eq i 2) as Hi.
  pose proof (Nat.div_mod_eq (S i) 2) as HS.
  pose proof (Nat.mod_upper_bound i 2) as Hb.
  pose proof (Nat.mod_upper_bound (S i) 2) as HbS.
  lia.
Qed.

Section BuildVariableEdgeProofs.
Context {edge vertex : Type}.
#[local] Arguments Nat.modulo : simpl never.

Lemma build_variable_edge_loop_complete (nargs : nat) (pairs : list (vertex * edge)) :
  forall i buffer,
    (i mod 2 = 1)%nat ->
    nargs = (i + 2 * length pairs)%nat ->
    build_variable_edge_loop i nargs (map arg_of_child (pairs_children pairs)) buffer
    = Ok (buffer ++ pairs_children pairs).
Proof.
  induction pairs as [|[v e] pairs IH]; intros i buffer Hodd Hn.
  - simpl. by rewrite app_nil_r.
  - simpl. rewrite Hodd. simpl.
    destruct (Nat.eqb_spec (i + 1) nargs) as [Heq|_]; [simpl in Hn; lia|].
    rewrite (proj1 (mod2_S i) Hodd). simpl.
    rewrite IH.
    + by rewrite <- !app_assoc.
    + apply (proj2 (mod2_S (S i))), (proj1 (mod2_S i)), Hodd.
    + simpl in Hn. lia.
Qed.

Lemma build_variable_edge_loop_sound (nargs : nat) (n : nat) :
  forall args i buffer c,
    (length args <= n)%nat ->
    (i mod 2 = 1)%nat ->
    nargs = (i + length args)%nat ->
    build_variable_edge_loop i nargs args buffer = Ok c ->
    exists pairs : list (vertex * edge),
      args = map arg_of_child (pairs_children pairs) /\
      c = buffer ++ pairs_children pairs.
Proof.
  induction n as [|n IH]; intros args i buffer c Hlen Hodd Hn Hrun.
  - destruct args; [|simpl in Hlen; lia]. injection Hrun as <-.
    exists []. by rewrite app_nil_r.
  - destruct args as [|a args].
    { injection Hrun as <-. exists []. by rewrite app_nil_r. }
    simpl in Hrun. rewrite Hodd in Hrun. simpl in Hrun.
    destruct a as [e|[v|]|]; try done.
    2:{ by destruct (i + 1 =? nargs)%nat. }
    destruct (Nat.eqb_spec (i + 1) nargs) as [Heq|Hne]; [done|].
    destruct args as [|b args]; [simpl in Hn; lia|].
    simpl in Hrun. rewrite (proj1 (mod2_S i) Hodd) in Hrun. simpl in Hrun.
    destruct b as [[e|]|v'|]; try done.
    apply IH in Hrun as (pairs & -> & ->).
    + exists ((v, e) :: pairs). simpl. by rewrite <- !app_assoc.
    + simpl in Hlen. lia.
    + apply (proj2 (mod2_S (S i))), (proj1 (mod2_S i)), Hodd.
    + simpl in Hn. lia.
Qed.

Lemma ve_children_pairs (e0 : edge) (rest : list (vertex * edge)) :
  ve_children (Some (e0, rest)) = VE_edge e0 :: pairs_children rest.
Proof. reflexivity. Qed.

End BuildVariableEdgeProofs.

(** X8.  [build_variable_edge] accepts exactly the argument lists that are
    the values of a [VariableEdge]: none at all, or an edge followed by
    vertex and edge in turn, ending with an edge, none of them NULL.  It
    then stores these values in order with their number. *)
Theorem build_variable_edge_accepts {edge vertex : Type}
  (args : list (build_arg edge vertex)) (out : variable_edge_buffer edge vertex) :
  build_variable_edge args = Ok out <->
  exists ve : VariableEdge edge vertex,
    args = map arg_of_child (ve_children ve) /\
    out = mk_variable_edge_buffer (Z.of_nat (length args)) (ve_children ve).
Proof.
  unfold build_variable_edge. split.
  - intros Hb. apply res_bind_Ok in Hb as (c & Hrun & [= <-]).
    destruct args as [|a args].
    { injection Hrun as <-. by exists None. }
    simpl in Hrun. destruct a as [[e|]|v|]; try done.
    apply (build_variable_edge_loop_sound _ (length args)) in Hrun
      as (pairs & -> & ->); [|lia|reflexivity|reflexivity].
    exists (Some (e, pairs)). split; reflexivity.
  - intros ([[e0 rest]|] & -> & ->); [|reflexivity].
    rewrite ve_children_pairs. simpl.
    rewrite (build_variable_edge_loop_complete _ rest); [reflexivity|reflexivity|].
    rewrite length_map. unfold pairs_children.
    clear. induction rest as [|p rest IH]; simpl; lia.
Qed.

Example build_variable_edge_vertex_last :
  build_variable_edge
    [BA_EDGE (Some (mk_edge_value 8 1 2)); BA_VERTEX (Some (mk_vertex_value 2))]
  = Err "VariableEdges must end with an edge" /\
  build_variable_edge
    [BA_VERTEX (Some (mk_vertex_value 2)) : build_arg edge_value vertex_value]
  = Err "arguement 0 build_traversal() must be an edge" /\
  build_variable_edge ([] : list (build_arg edge_value vertex_value))
  = Ok (mk_variable_edge_buffer 0 []).
Proof. repeat split; reflexivity. Qed.

(** ** age_vle.c: the [VariableEdge] that [create_variable_edge] builds *)

Lemma container_edges_length_odd (n : nat) :
  forall rest : list graphid,
    (length rest <= n)%nat ->
    Nat.Odd (length rest) ->
    length rest = (2 * length (container_edges rest) + 1)%nat.
Proof.
  induction n as [|n IH]; intros rest Hlen [k Hk].
  - destruct rest; simpl in *; lia.
  - destruct rest as [|v [|e rest]]; simpl in *; [lia|reflexivity|].
    rewrite (IH rest); [lia|lia|]. exists (k - 1)%nat. lia.
Qed.

Section CreateVariableEdgeProofs.
Context {gtype edge vertex : Type} `{EntityBuilder gtype edge vertex}.

Lemma container_vertices_odd_nonempty (rest : list graphid) :
  Nat.Odd (length rest) -> container_vertices rest <> [].
Proof.
  destruct rest as [|v [|e rest]]; simpl; try done.
  intros [k Hk]. lia.
Qed.

Lemma create_variable_edge_loop_spec (g : graph_context gtype) (graph_oid : Z)
  (size : nat) (n : nat) :
  forall rest index buffer c,
    (length rest <= n)%nat ->
    index <> 0%nat ->
    size = (index + length rest)%nat ->
    Nat.Odd (length rest) ->
    create_variable_edge_loop g graph_oid index size rest buffer = Ok c ->
    exists pairs : list (vertex * edge),
      c = buffer ++ pairs_children pairs /\
      Forall2 (edge_built g graph_oid) (container_edges rest) (map snd pairs) /\
      Forall2 (vertex_built g graph_oid) (removelast (container_vertices rest))
        (map fst pairs).
Proof.
  induction n as [|n IH]; intros rest index buffer c Hlen Hidx Hsize Hodd Hrun.
  { destruct rest; [|simpl in Hlen; lia]. destruct Hodd as [k Hk]. simpl in Hk. lia. }
  destruct rest as [|vid rest1].
  { destruct Hodd as [k Hk]. simpl in Hk. lia. }
  simpl in Hrun.
  destruct (Nat.eqb_spec index 0) as [|_]; [done|].
  destruct (Nat.eqb_spec (index + 1) size) as [Hlast|Hnot]; simpl in Hrun.
  - injection Hrun as <-.
    destruct rest1; [|simpl in Hsize; lia].
    exists []. simpl. rewrite app_nil_r. repeat split; constructor.
  - destruct (vertex_hashtable g !! vid) as [ve|] eqn:Hve; [|done].
    simpl in Hrun.
    destruct rest1 as [|eid rest2]; [done|].
    destruct (edge_hashtable g !! eid) as [ee|] eqn:Hee; [|done].
    assert (Hodd2 : Nat.Odd (length rest2)).
    { destruct Hodd as [k Hk]. simpl in Hk. exists (k - 1)%nat. lia. }
    apply IH in Hrun as (pairs & -> & Hedges & Hvertices);
      [|simpl in Hlen; lia|lia|simpl in Hsize; lia|exact Hodd2].
    exists ((vertex_of_entry graph_oid ve, edge_of_entry graph_oid ee) :: pairs).
    split; [simpl; by rewrite <- !app_assoc|].
    split.
    + simpl. constructor; [by exists ee|exact Hedges].
    + pose proof (container_vertices_odd_nonempty rest2 Hodd2) as Hne.
      simpl. destruct (container_vertices rest2) eqn:Hcv; [done|].
      constructor; [by exists ve|exact Hvertices].
Qed.

Lemma create_variable_edge_spec (g : graph_context gtype) (graph_oid : Z)
  (v0 e1 : graphid) (rest : list graphid) (out : variable_edge_buffer edge vertex) :
  Nat.Odd (length rest) ->
  create_variable_edge g graph_oid (v0 :: e1 :: rest) = Ok out ->
  veb_count out = Z.of_nat (length (veb_children out)) /\
  veb_count out = Z.of_nat (length rest) /\
  exists ve : VariableEdge edge vertex,
    veb_children out = ve_children ve /\
    Forall2 (edge_built g graph_oid) (container_edges (v0 :: e1 :: rest)) (ve_edges ve) /\
    Forall2 (vertex_built g graph_oid)
      (container_interior_vertices (v0 :: e1 :: rest)) (ve_vertices ve).
Proof.
  intros Hodd Hrun. unfold create_variable_edge in Hrun.
  apply res_bind_Ok in Hrun as (c & Hloop & [= <-]).
  simpl in Hloop.
  destruct (edge_hashtable g !! e1) as [ee|] eqn:Hee; [|done].
  apply (create_variable_edge_loop_spec _ _ _ (length rest)) in Hloop
    as (pairs & -> & Hedges & Hvertices); [|lia|lia|simpl; lia|exact Hodd].
  assert (Hlen : length (pairs_children pairs) = (2 * length pairs)%nat).
  { clear. induction pairs as [|p pairs IH]; simpl in *; lia. }
  assert (Hrest : length rest = (2 * length pairs + 1)%nat).
  { apply Forall2_length in Hedges. rewrite length_map in Hedges.
    rewrite <- Hedges.
    by apply (container_edges_length_odd (length rest)). }
  cbn [veb_count veb_children app length]. rewrite Hlen.
  split; [lia|]. split; [lia|].
  exists (Some (edge_of_entry graph_oid ee, pairs)).
  split; [reflexivity|]. split.
  - simpl. constructor; [by exists ee|exact Hedges].
  - unfold container_interior_vertices. simpl. exact Hvertices.
Qed.

(** With the vertices of the edges in the vertex table, the loop builds a
    value for every id of a path container filled along a walk. *)
Lemma create_variable_edge_loop_walk (g : graph_context gtype) (graph_oid : Z)
  (dir : cypher_rel_dir) (size : nat) (s : graphid) (es : list graphid) (t : graphid) :
  graph_closed g = true ->
  walk g dir s es t ->
  forall r index buffer,
    fill_interior_vertices g s es = Ok r ->
    (index = 0%nat \/ has_vertex g s = true) ->
    size = (index + 1 + length r)%nat ->
    exists c, create_variable_edge_loop g graph_oid index size (s :: r) buffer = Ok c.
Proof.
  intros Hclosed.
  induction 1 as [s|s e ee es t He Hsrc Hw IH]; intros r index buffer Hfill Hs Hsize.
  - injection Hfill as <-. simpl in *.
    destruct (Nat.eqb_spec (index + 1) size) as [_|Hne]; [|lia].
    rewrite andb_false_r. simpl. by eexists.
  - simpl in Hfill. unfold get_edge_entry in Hfill. rewrite He in Hfill.
    rewrite (next_of_container_step _ _ _ Hsrc) in Hfill.
    apply res_bind_Ok in Hfill as (r' & Hr' & [= <-]).
    simpl in Hsize. simpl.
    destruct (Nat.eqb_spec (index + 1) size) as [Heq|_]; [lia|].
    assert (Hv : exists b, (if negb (index =? 0)%nat && negb false
                            then match vertex_hashtable g !! s with
                                 | Some ve => Ok (buffer ++ [VE_vertex (vertex_of_entry graph_oid ve)])
                                 | None => Err "create_variable_edge: no vertex entry"
                                 end
                            else Ok buffer) = Ok b).
    { destruct (Nat.eqb_spec index 0) as [_|Hne]; simpl; [by eexists|].
      destruct Hs as [?|Hs]; [done|]. unfold has_vertex in Hs.
      destruct (vertex_hashtable g !! s); [by eexists|done]. }
    destruct Hv as [b ->]. simpl. rewrite He.
    apply IH; [exact Hr'| |lia].
    right.
    assert (Hboth : has_vertex g (start_vertex_id ee) = true /\
                    has_vertex g (end_vertex_id ee) = true).
    { unfold graph_closed in Hclosed. rewrite forallb_forall in Hclosed.
      apply andb_true_iff. apply (Hclosed (e, ee)).
      apply list_elem_of_In. by apply elem_of_map_to_list. }
    unfold next_of. destruct dir; try tauto.
    destruct (start_vertex_id ee =? s); tauto.
Qed.

End CreateVariableEdgeProofs.

(** X9.  For a path container of a start vertex, at least one edge and the
    vertices and edges that follow, [create_variable_edge] stores two
    values fewer than the container has ids: the edges of the path and the
    vertices between them, each built from its entry of the graph, as the
    values of a [VariableEdge].  The start and the end vertex of the path
    are not stored. *)
Theorem create_variable_edge_drops_the_endpoints {gtype edge vertex : Type}
  `{EntityBuilder gtype edge vertex}
  (g : graph_context gtype) (graph_oid : Z) (v0 e1 : graphid) (rest : list graphid)
  (out : variable_edge_buffer edge vertex) :
  Nat.Odd (length rest) ->
  create_variable_edge g graph_oid (v0 :: e1 :: rest) = Ok out ->
  veb_count out = Z.of_nat (length (veb_children out)) /\
  veb_count out = Z.of_nat (length rest) /\
  exists ve : VariableEdge edge vertex,
    veb_children out = ve_children ve /\
    Forall2 (edge_built g graph_oid) (container_edges (v0 :: e1 :: rest)) (ve_edges ve) /\
    Forall2 (vertex_built g graph_oid)
      (container_interior_vertices (v0 :: e1 :: rest)) (ve_vertices ve).
Proof. apply create_variable_edge_spec. Qed.

Lemma create_variable_edge_drops_the_endpoints_witness :
  let out : variable_edge_buffer edge_value vertex_value :=
    mk_variable_edge_buffer 3
      [VE_edge (mk_edge_value 101 1 2); VE_vertex (mk_vertex_value 2);
       VE_edge (mk_edge_value 102 2 3)] in
  veb_count out = Z.of_nat (length (veb_children out)) /\
  veb_count out = Z.of_nat (length [2; 102; 3]) /\
  exists ve : VariableEdge edge_value vertex_value,
    veb_children out = ve_children ve /\
    Forall2 (edge_built fixture_graph 1) (container_edges [1; 101; 2; 102; 3])
      (ve_edges ve) /\
    Forall2 (vertex_built fixture_graph 1)
      (container_interior_vertices [1; 101; 2; 102; 3]) (ve_vertices ve).
Proof.
  apply (create_variable_edge_drops_the_endpoints fixture_graph 1 1 101 [2; 102; 3]).
  - exists 1%nat. reflexivity.
  - vm_compute. reflexivity.
Defined.

(** ** age_vle.c: the value [gtype_vle] returns passes the uniqueness check *)

Section VLE_result_proofs.
Context {gtype edge vertex : Type} `{GtypeOps gtype} `{ValueLayout edge vertex}
  `{EntityBuilder gtype edge vertex}.

(** The path container of a call that found a path. *)
Lemma gtype_vle_container (g : graph_context gtype) (s e : graphid)
  (arg3 arg4 : option Z) (dir : cypher_rel_dir) (lab : option string)
  (props : option gtype) (c0 c c' : path_finding_context gtype)
  (fuel : nat) (vpc : list graphid) :
  graph_wf g = true ->
  build_vle_context g s e arg3 arg4 dir lab props = Ok c0 ->
  vle_reachable c0 c ->
  gtype_vle fuel c = Some (Ok (Some vpc, c')) ->
  exists es r t,
    es <> [] /\ walk g dir s es t /\ NoDup es /\
    fill_interior_vertices g s es = Ok r /\
    vpc = s :: r /\ container_edges vpc = es.
Proof.
  intros Hwf Hctx Hreach Hcall.
  destruct (vle_reachable_inv _ _ _ _ _ _ _ _ _ _ Hwf Hctx Hreach)
    as [Hsp [v Hinv]].
  unfold gtype_vle in Hcall.
  destruct (dfs_find_a_path_between fuel c) as [[[[] c1]|]|] eqn:Hdfs; try done.
  destruct (build_path_container c1) as [vpc'|] eqn:Hbpc; [|done].
  injection Hcall as -> ->.
  pose proof (dfs_find_a_path_between_found_nonempty _ _ _ Hdfs) as Hne.
  destruct (dfs_find_a_path_between_inv _ _ _ _ _ _ _ _ Hwf Hinv Hdfs)
    as (v' & Hinv' & Hsp' & Hfound).
  destruct Hinv' as [Hg' Hdir' Hs' Hstk' Hvis'].
  pose proof (stk_walk _ _ _ _ _ _ _ Hstk') as Hwalk.
  pose proof (stk_path_NoDup _ _ _ _ _ _ _ Hstk') as Hnd.
  destruct (fill_interior_vertices_walk _ _ _ _ _ Hwalk)
    as (r & Hr & Hce & Hlast & Hlen).
  unfold build_path_container in Hbpc. rewrite Hg', Hs', Hr in Hbpc.
  simpl in Hbpc. injection Hbpc as <-.
  exists (rev (dfs_path_queue c')), r, v'. repeat split; try done.
  - intros Hx. apply (f_equal (@length _)) in Hx. rewrite length_rev in Hx.
    destruct (dfs_path_queue c'); [done|simpl in Hx; lia].
  - by apply NoDup_ListNoDup, List.NoDup_rev, NoDup_ListNoDup.
Qed.

Lemma edge_built_ids (g : graph_context gtype) (graph_oid : Z)
  (ids : list graphid) (edges : list edge) :
  (forall id ee, edge_hashtable g !! id = Some ee ->
                 edge_graphid (edge_of_entry graph_oid ee) = id) ->
  Forall2 (edge_built g graph_oid) ids edges ->
  map edge_graphid edges = ids.
Proof.
  intros Hid. induction 1 as [|id e ids edges (ee & Hee & ->) _ IH]; simpl; [done|].
  by rewrite (Hid _ _ Hee), IH.
Qed.

Lemma gtype_vle_value_unique (g : graph_context gtype) (graph_oid : Z) (s e : graphid)
  (arg3 arg4 : option Z) (dir : cypher_rel_dir) (lab : option string)
  (props : option gtype) (c0 c c' : path_finding_context gtype)
  (fuel : nat) (vpc : list graphid) :
  graph_wf g = true ->
  graph_closed g = true ->
  (forall id ee, edge_hashtable g !! id = Some ee ->
                 edge_graphid (edge_of_entry graph_oid ee) = id) ->
  build_vle_context g s e arg3 arg4 dir lab props = Ok c0 ->
  vle_reachable c0 c ->
  gtype_vle fuel c = Some (Ok (Some vpc, c')) ->
  exists (out : variable_edge_buffer edge vertex) (ve : VariableEdge edge vertex),
    create_variable_edge g graph_oid vpc = Ok out /\
    veb_children out = ve_children ve /\
    map edge_graphid (ve_edges ve) = container_edges vpc /\
    _ag_enforce_edge_uniqueness [ARG_VARIABLE_EDGE ve] = Ok true.
Proof.
  intros Hwf Hclosed Hid Hctx Hreach Hcall.
  destruct (gtype_vle_container _ _ _ _ _ _ _ _ _ _ _ _ _ Hwf Hctx Hreach Hcall)
    as (es & r & t & Hne & Hwalk & Hnd & Hfill & -> & Hce).
  destruct (create_variable_edge_loop_walk g graph_oid dir (length (s :: r)) s es t
              Hclosed Hwalk r 0%nat [] Hfill (or_introl eq_refl) eq_refl)
    as [children Hloop].
  assert (Hrun : create_variable_edge g graph_oid (s :: r)
                 = Ok (mk_variable_edge_buffer (Z.of_nat (length (s :: r)) - 2) children)).
  { unfold create_variable_edge. by rewrite Hloop. }
  destruct (fill_interior_vertices_walk _ _ _ _ _ Hwalk) as (r' & Hr' & _ & _ & Hlen).
  rewrite Hfill in Hr'. injection Hr' as <-.
  destruct r as [|e1 rest].
  { destruct es; [done|simpl in Hlen; lia]. }
  assert (Hodd : Nat.Odd (length rest)).
  { exists (length es - 1)%nat. simpl in Hlen.
    destruct es; [done|simpl in *; lia]. }
  destruct (create_variable_edge_spec _ _ _ _ _ _ Hodd Hrun)
    as (_ & _ & ve & Hch & Hedges & _).
  eexists _, ve. split; [exact Hrun|]. split; [exact Hch|].
  pose proof (edge_built_ids _ _ _ _ Hid Hedges) as Hids.
  split; [exact Hids|].
  unfold _ag_enforce_edge_uniqueness.
  rewrite enforce_edge_uniqueness_loop_no_null.
  - f_equal. apply bool_decide_eq_true_2, ids_insert_empty.
    unfold collected_edge_ids. simpl. rewrite app_nil_r, Hids, Hce. exact Hnd.
  - intros Hx. apply elem_of_cons in Hx as [Hx|Hx]; [done|].
    by apply not_elem_of_nil in Hx.
Qed.

End VLE_result_proofs.

(** X10.  On a graph index that is well formed and whose edges start and
    end at vertices of the vertex table, with edge values that carry the
    id of the entry they are built from, [create_variable_edge] builds a
    value for every path container that a call of [gtype_vle] finds; the
    value holds the edges of the path in order, and
    [_ag_enforce_edge_uniqueness] on this value alone returns true. *)
Theorem gtype_vle_value_passes_edge_uniqueness
  {gtype edge vertex : Type} `{GtypeOps gtype} `{ValueLayout edge vertex}
  `{EntityBuilder gtype edge vertex}
  (g : graph_context gtype) (graph_oid : Z) (s e : graphid)
  (arg3 arg4 : option Z) (dir : cypher_rel_dir) (lab : option string)
  (props : option gtype) (c0 c c' : path_finding_context gtype)
  (fuel : nat) (vpc : list graphid) :
  graph_wf g = true ->
  graph_closed g = true ->
  (forall id ee, edge_hashtable g !! id = Some ee ->
                 edge_graphid (edge_of_entry graph_oid ee) = id) ->
  build_vle_context g s e arg3 arg4 dir lab props = Ok c0 ->
  vle_reachable c0 c ->
  gtype_vle fuel c = Some (Ok (Some vpc, c')) ->
  exists (out : variable_edge_buffer edge vertex) (ve : VariableEdge edge vertex),
    create_variable_edge g graph_oid vpc = Ok out /\
    veb_children out = ve_children ve /\
    map edge_graphid (ve_edges ve) = container_edges vpc /\
    _ag_enforce_edge_uniqueness [ARG_VARIABLE_EDGE ve] = Ok true.
Proof. apply gtype_vle_value_unique. Qed.

Lemma gtype_vle_value_passes_edge_uniqueness_witness :
  exists (out : variable_edge_buffer edge_value vertex_value)
         (ve : VariableEdge edge_value vertex_value),
    create_variable_edge parallel_graph 1 [1; 202; 2; 203; 3] = Ok out /\
    veb_children out = ve_children ve /\
    map edge_graphid (ve_edges ve) = container_edges [1; 202; 2; 203; 3] /\
    _ag_enforce_edge_uniqueness [ARG_VARIABLE_EDGE ve] = Ok true.
Proof.
  assert (Hc0 : exists c0, build_vle_context parallel_graph 1 3 (Some 2) (Some 2)
                             CYPHER_REL_DIR_RIGHT None None = Ok c0).
  { eexists. vm_compute. reflexivity. }
  destruct Hc0 as [c0 Hc0].
  eapply (gtype_vle_value_passes_edge_uniqueness parallel_graph 1 1 3 (Some 2) (Some 2)
            CYPHER_REL_DIR_RIGHT None None c0 c0 _ 100%nat).
  - vm_compute. reflexivity.
  - vm_compute. reflexivity.
  - intros id ee Hl. apply elem_of_list_to_map_2 in Hl. unfold parallel_edges in Hl.
    repeat (apply elem_of_cons in Hl as [[= -> ->]|Hl]; [vm_compute; reflexivity|]).
    by apply not_elem_of_nil in Hl.
  - exact Hc0.
  - apply vle_reach_first.
  - injection Hc0 as <-. vm_compute. reflexivity.
Defined.

(** The two parallel edges of [parallel_graph] give two paths from 1 to
    3; the values built for them differ in the id of their first edge, so
    the value of one path passes the uniqueness check together with the
    parallel edge of the other path, and fails it together with an edge of
    its own. *)
Example parallel_edges_are_told_apart :
  match build_vle_context parallel_graph 1 3 (Some 2) (Some 2)
          CYPHER_REL_DIR_RIGHT None None with
  | Ok c0 =>
      gtype_vle_all 10 100 c0
      = Some (Ok [[1; 202; 2; 203; 3]; [1; 201; 2; 203; 3]])
  | Err _ => False
  end /\
  match create_variable_edge (edge := edge_value) (vertex := vertex_value)
          parallel_graph 1 [1; 201; 2; 203; 3] with
  | Ok out =>
      veb_children out
      = [VE_edge (mk_edge_value 201 1 2); VE_vertex (mk_vertex_value 2);
         VE_edge (mk_edge_value 203 2 3)]
  | Err _ => False
  end /\
  let ve : VariableEdge edge_value vertex_value :=
    Some (mk_edge_value 201 1 2, [(mk_vertex_value 2, mk_edge_value 203 2 3)]) in
  _ag_enforce_edge_uniqueness [ARG_GRAPHID 202; ARG_VARIABLE_EDGE ve] = Ok true /\
  _ag_enforce_edge_uniqueness [ARG_GRAPHID 201; ARG_VARIABLE_EDGE ve] = Ok false.
Proof. vm_compute. repeat split. Qed.

(** ** gtype_util.c: the sort priority of a type *)

(** X11.  When the enumerator [AGTV_TIMETZ] is not 0, the test
    [type == AGTV_TIME || AGTV_TIMETZ] holds for every type, so
    [get_type_sort_priority] returns 7 for every type that is not an
    object, an array, a string, a boolean, a number, a timestamp or a
    date, and never 8, 9 or -1.  The null and the interval have the
    priority of the time, and the type-defined order puts each of them
    after the other. *)
Theorem get_type_sort_priority_stops_at_time (enum_value : gtype_value_type -> Z) :
  enum_value AGTV_TIMETZ <> 0 ->
  (forall type, 0 <= get_type_sort_priority enum_value type <= 7) /\
  (forall type,
     get_type_sort_priority enum_value type = 7 <->
     type ∉ [AGTV_OBJECT; AGTV_ARRAY; AGTV_STRING; AGTV_BOOL; AGTV_NUMERIC;
             AGTV_INTEGER; AGTV_FLOAT; AGTV_TIMESTAMP; AGTV_TIMESTAMPTZ; AGTV_DATE]) /\
  get_type_sort_priority enum_value AGTV_INTERVAL = 7 /\
  get_type_sort_priority enum_value AGTV_NULL = 7 /\
  type_defined_order enum_value AGTV_NULL AGTV_INTERVAL = 1 /\
  type_defined_order enum_value AGTV_INTERVAL AGTV_NULL = 1.
Proof.
  intros Hne. apply Z.eqb_neq in Hne.
  assert (Hp : forall type,
            get_type_sort_priority enum_value type
            = match type with
              | AGTV_OBJECT => 0 | AGTV_ARRAY => 1 | AGTV_STRING => 2 | AGTV_BOOL => 3
              | AGTV_NUMERIC | AGTV_INTEGER | AGTV_FLOAT => 4
              | AGTV_TIMESTAMP | AGTV_TIMESTAMPTZ => 5
              | AGTV_DATE => 6
              | _ => 7
              end).
  { intros type. unfold get_type_sort_priority. rewrite Hne.
    destruct type; reflexivity. }
  split; [intros type; rewrite Hp; destruct type; lia|].
  split.
  - intros type. rewrite Hp. split.
    + intros H7 Hin. repeat (apply elem_of_cons in Hin as [->|Hin]; [done|]).
      by apply not_elem_of_nil in Hin.
    + intros Hnin.
      destruct type; try reflexivity; exfalso; apply Hnin;
        repeat first [by left|right].
  - unfold type_defined_order. rewrite !Hp. repeat split.
Qed.

Lemma get_type_sort_priority_stops_at_time_witness :
  (forall type, 0 <= get_type_sort_priority example_enum_value type <= 7) /\
  (forall type,
     get_type_sort_priority example_enum_value type = 7 <->
     type ∉ [AGTV_OBJECT; AGTV_ARRAY; AGTV_STRING; AGTV_BOOL; AGTV_NUMERIC;
             AGTV_INTEGER; AGTV_FLOAT; AGTV_TIMESTAMP; AGTV_TIMESTAMPTZ; AGTV_DATE]) /\
  get_type_sort_priority example_enum_value AGTV_INTERVAL = 7 /\
  get_type_sort_priority example_enum_value AGTV_NULL = 7 /\
  type_defined_order example_enum_value AGTV_NULL AGTV_INTERVAL = 1 /\
  type_defined_order example_enum_value AGTV_INTERVAL AGTV_NULL = 1.
Proof.
  apply (get_type_sort_priority_stops_at_time example_enum_value). simpl. lia.
Defined.

(** ** gtype_util.c: offsets and lengths of the entries of a container *)

Section ContainerEntriesProofs.
Context `{AgtentryMacros}.

Lemma uint32_idemp (x : Z) : uint32 (uint32 x) = uint32 x.
Proof. unfold uint32. by rewrite Z.mod_mod. Qed.

Lemma uint32_add_l (x y : Z) : uint32 (uint32 x + y) = uint32 (x + y).
Proof. unfold uint32. by rewrite Zplus_mod_idemp_l. Qed.

Lemma uint32_add_r (x y : Z) : uint32 (x + uint32 y) = uint32 (x + y).
Proof. unfold uint32. by rewrite Zplus_mod_idemp_r. Qed.

Lemma get_gtype_offset_loop_uint32 (children : Z -> Z) (n : nat) : forall offset,
  uint32 offset = offset ->
  uint32 (get_gtype_offset_loop children n offset)
  = get_gtype_offset_loop children n offset.
Proof.
  induction n as [|i IH]; intros offset Hoff; simpl; [done|].
  destruct (AGTE_HAS_OFF (children (Z.of_nat i)));
    [apply uint32_idemp|apply IH, uint32_idemp].
Qed.

Lemma get_gtype_offset_loop_acc (children : Z -> Z) (n : nat) : forall offset,
  uint32 offset = offset ->
  get_gtype_offset_loop children n offset
  = uint32 (offset + get_gtype_offset_loop children n 0).
Proof.
  induction n as [|i IH]; intros offset Hoff; simpl.
  - by rewrite Z.add_0_r.
  - destruct (AGTE_HAS_OFF (children (Z.of_nat i))).
    + by rewrite uint32_add_r.
    + rewrite IH by apply uint32_idemp.
      rewrite (IH (uint32 _)) by apply uint32_idemp.
      set (F := AGTE_OFFLENFLD (children (Z.of_nat i))).
      set (L := get_gtype_offset_loop children i 0).
      rewrite uint32_add_r, uint32_add_l.
      replace (offset + (uint32 (0 + F) + L)) with (uint32 (0 + F) + (offset + L)) by lia.
      rewrite uint32_add_l. f_equal. lia.
Qed.

End ContainerEntriesProofs.

(** X12.  The entries of a container follow one another: the offset of
    entry [i + 1] is the offset of entry [i] plus the length of entry
    [i], in 32-bit arithmetic, whichever of the entries store a length
    and whichever an end offset.  The offset of entry 0, and of a
    negative index, is 0. *)
Theorem get_gtype_offset_next `{AgtentryMacros} (children : Z -> Z) (i : nat) :
  get_gtype_offset children (Z.of_nat i + 1)
  = uint32 (get_gtype_offset children (Z.of_nat i)
            + get_gtype_length children (Z.of_nat i)) /\
  forall index, index <= 0 -> get_gtype_offset children index = 0.
Proof.
  split.
  - unfold get_gtype_length, get_gtype_offset.
    replace (Z.to_nat (Z.of_nat i + 1)) with (S i) by lia.
    rewrite Nat2Z.id. simpl.
    destruct (AGTE_HAS_OFF (children (Z.of_nat i))).
    + rewrite uint32_add_r. f_equal. lia.
    + rewrite get_gtype_offset_loop_acc by apply uint32_idemp.
      rewrite uint32_add_l, uint32_add_r. f_equal. lia.
  - intros index Hle. unfold get_gtype_offset.
    replace (Z.to_nat index) with 0%nat by lia. reflexivity.
Qed.

Example get_gtype_offset_mixed_entries :
  let children := example_children [3; 5; Z.lor (2 ^ 31) 12; 7] in
  map (get_gtype_offset children) [0; 1; 2; 3; 4] = [0; 3; 8; 12; 19] /\
  map (get_gtype_length children) [0; 1; 2; 3] = [3; 5; 4; 7].
Proof. split; vm_compute; reflexivity. Qed.

(** ** gtype_util.c: the pairs of an object after [uniqueify_gtype_object] *)

Lemma memcmp_refl (a : list Z) : forall n, memcmp a a n = 0.
Proof.
  induction a as [|x a IH]; intros [|n]; simpl; try done.
  by rewrite Z.eqb_refl.
Qed.

Lemma memcmp_eq (a : list Z) : forall b n,
  length a = n -> length b = n -> memcmp a b n = 0 -> a = b.
Proof.
  induction a as [|x a IH]; intros [|y b] [|n] Ha Hb Hm; simpl in *; try done.
  destruct (Z.eqb_spec x y) as [->|Hne].
  - f_equal. apply (IH b n); [lia|lia|done].
  - by destruct (x <? y).
Qed.

Lemma memcmp_trans (a : list Z) : forall b c n,
  length a = n -> length b = n -> length c = n ->
  memcmp a b n < 0 -> memcmp b c n < 0 -> memcmp a c n < 0.
Proof.
  induction a as [|x a IH]; intros [|y b] [|z c] [|n] Ha Hb Hc Hab Hbc;
    simpl in *; try done.
  destruct (Z.eqb_spec x y) as [->|Hxy].
  - destruct (Z.eqb_spec y z) as [->|Hyz]; [|done].
    apply (IH b c n); [lia|lia|lia|done|done].
  - destruct (Z.ltb_spec x y) as [Hlt|]; [|done].
    destruct (Z.eqb_spec y z) as [->|Hyz].
    + destruct (Z.eqb_spec x z); [lia|]. destruct (Z.ltb_spec x z); [done|lia].
    + destruct (Z.ltb_spec y z) as [Hlt'|]; [|done].
      destruct (Z.eqb_spec x z); [lia|]. destruct (Z.ltb_spec x z); [done|lia].
Qed.

Lemma memcmp_asym (a : list Z) : forall b n,
  memcmp a b n < 0 -> memcmp b a n < 0 -> False.
Proof.
  induction a as [|x a IH]; intros [|y b] [|n] Hab Hba; simpl in *; try done.
  destruct (Z.eqb_spec x y) as [->|Hxy].
  - rewrite Z.eqb_refl in Hba. by apply (IH b n).
  - destruct (Z.eqb_spec y x); [lia|].
    destruct (Z.ltb_spec x y); [|done]. destruct (Z.ltb_spec y x); [lia|done].
Qed.

Lemma length_compare_gtype_string_value_eq (a b : list Z) :
  length_compare_gtype_string_value a b = 0 <-> a = b.
Proof.
  unfold length_compare_gtype_string_value. split.
  - destruct (Nat.eqb_spec (length a) (length b)) as [Hl|Hl].
    + by apply memcmp_eq.
    + by destruct (length b <? length a)%nat.
  - intros ->. rewrite Nat.eqb_refl. apply memcmp_refl.
Qed.

Lemma length_compare_gtype_string_value_trans (a b c : list Z) :
  length_compare_gtype_string_value a b < 0 ->
  length_compare_gtype_string_value b c < 0 ->
  length_compare_gtype_string_value a c < 0.
Proof.
  unfold length_compare_gtype_string_value.
  destruct (Nat.eqb_spec (length a) (length b)) as [Hab|Hab];
    destruct (Nat.eqb_spec (length b) (length c)) as [Hbc|Hbc];
    destruct (Nat.eqb_spec (length a) (length c)) as [Hac|Hac]; try lia.
  - rewrite <- Hab. by apply memcmp_trans.
  - destruct (Nat.ltb_spec (length c) (length b)); [done|].
    destruct (Nat.ltb_spec (length c) (length a)); [lia|done].
  - destruct (Nat.ltb_spec (length b) (length a)); [done|].
    destruct (Nat.ltb_spec (length c) (length a)); [lia|done].
  - destruct (Nat.ltb_spec (length b) (length a)); [done|].
    destruct (Nat.ltb_spec (length c) (length b)); [done|]. lia.
  - destruct (Nat.ltb_spec (length b) (length a)); [done|].
    destruct (Nat.ltb_spec (length c) (length b)); [done|].
    destruct (Nat.ltb_spec (length c) (length a)); [lia|done].
Qed.

Lemma length_compare_gtype_string_value_asym (a b : list Z) :
  length_compare_gtype_string_value a b < 0 ->
  length_compare_gtype_string_value b a < 0 -> False.
Proof.
  unfold length_compare_gtype_string_value.
  destruct (Nat.eqb_spec (length a) (length b)) as [Hab|Hab];
    destruct (Nat.eqb_spec (length b) (length a)) as [Hba|Hba]; try lia.
  - rewrite Hba. apply memcmp_asym.
  - destruct (Nat.ltb_spec (length b) (length a)); [done|].
    destruct (Nat.ltb_spec (length a) (length b)); [done|]. lia.
Qed.

Section UniqueifyProofs.
Context {V : Type}.
Implicit Types (p q r : gtype_pair V) (l : list (gtype_pair V)).

Lemma length_compare_gtype_pair_before p q binequal :
  (length_compare_gtype_pair p q binequal).1 < 0 <-> pair_before p q.
Proof.
  unfold length_compare_gtype_pair, pair_before. simpl.
  destruct (Z.eqb_spec (length_compare_gtype_string_value (pair_key p) (pair_key q)) 0)
    as [H0|H0].
  - pose proof (proj1 (length_compare_gtype_string_value_eq _ _) H0) as Hk.
    destruct (Z.ltb_spec (pair_order q) (pair_order p)); split; try done;
      first [intros _; by right|intros [?|[_ ?]]; lia].
  - split; [by left|]. intros [?|[Hk _]]; [done|].
    by apply length_compare_gtype_string_value_eq in Hk.
Qed.

Lemma pair_before_trans p q r : pair_before p q -> pair_before q r -> pair_before p r.
Proof.
  intros [Hpq|[Hpq Ho]] [Hqr|[Hqr Ho']].
  - left. by eapply length_compare_gtype_string_value_trans.
  - left. by rewrite <- Hqr.
  - left. by rewrite Hpq.
  - right. split; [congruence|lia].
Qed.

Lemma pair_before_key p q :
  pair_before p q -> pair_key p <> pair_key q ->
  length_compare_gtype_string_value (pair_key p) (pair_key q) < 0.
Proof. by intros [?|[? _]]. Qed.

Lemma pair_before_same_key p q :
  pair_before p q -> pair_key p = pair_key q -> pair_order q < pair_order p.
Proof.
  intros [Hlt|[_ ?]] Hk; [|done].
  rewrite Hk in Hlt.
  pose proof (proj2 (length_compare_gtype_string_value_eq (pair_key q) _) eq_refl). lia.
Qed.

(** Between two pairs with the same key of a sorted list all keys are
    the same. *)
Lemma pair_before_squeeze p q r :
  pair_before p q -> pair_before q r -> pair_key p = pair_key r ->
  pair_key q = pair_key p.
Proof.
  intros Hpq Hqr Hk.
  destruct (decide (pair_key q = pair_key p)) as [|Hne]; [done|exfalso].
  assert (Hlt : length_compare_gtype_string_value (pair_key p) (pair_key q) < 0).
  { apply pair_before_key; [done|congruence]. }
  assert (Hlt' : length_compare_gtype_string_value (pair_key q) (pair_key r) < 0).
  { apply pair_before_key; [done|congruence]. }
  rewrite <- Hk in Hlt'. by eapply length_compare_gtype_string_value_asym.
Qed.

(** *** The loop computes [dedup_from] in place *)

Lemma uniqueify_loop_spec (rest : list (gtype_pair V)) :
  forall kept r mid,
    exists junk,
      uniqueify_loop (length rest) (kept ++ r :: mid ++ rest)
        (length kept + 1 + length mid) (length kept)
      = (kept ++ r :: dedup_from r rest ++ junk,
         (length kept + length (dedup_from r rest))%nat).
Proof.
  induction rest as [|p rest IH]; intros kept r mid; simpl.
  - exists mid. by rewrite app_nil_r, Nat.add_0_r.
  - assert (Hptr : (kept ++ r :: mid ++ p :: rest) !! (length kept + 1 + length mid)%nat
                   = Some p).
    { rewrite lookup_app_r by lia.
      replace (length kept + 1 + length mid - length kept)%nat with (S (length mid)) by lia.
      simpl. rewrite lookup_app_r by lia. by rewrite Nat.sub_diag. }
    assert (Hres : (kept ++ r :: mid ++ p :: rest) !! length kept = Some r).
    { rewrite lookup_app_r by lia. by rewrite Nat.sub_diag. }
    rewrite Hptr, Hres.
    destruct (negb (length_compare_gtype_string_value (pair_key p) (pair_key r) =? 0)).
    + simpl. destruct mid as [|m mid]; simpl.
      * rewrite Nat.add_0_r.
        replace (length kept + 1 =? S (length kept))%nat with true
          by (symmetry; apply Nat.eqb_eq; lia).
        simpl.
        destruct (IH (kept ++ [r]) p []) as [junk Hj].
        rewrite length_app in Hj. simpl in Hj. rewrite <- !app_assoc in Hj. simpl in Hj.
        rewrite Nat.add_0_r in Hj.
        replace (S (length kept + 1)) with (length kept + 1 + 1)%nat by lia.
        replace (S (length kept)) with (length kept + 1)%nat by lia.
        rewrite Hj. exists junk. f_equal. lia.
      * replace (length kept + 1 + S (length mid) =? S (length kept))%nat with false
          by (symmetry; apply Nat.eqb_neq; lia).
        simpl.
        replace (<[S (length kept):=p]> (kept ++ r :: m :: mid ++ p :: rest))
          with (kept ++ r :: p :: mid ++ p :: rest).
        2:{ rewrite insert_app_r_alt by lia.
            replace (S (length kept) - length kept)%nat with 1%nat by lia. done. }
        destruct (IH (kept ++ [r]) p (mid ++ [p])) as [junk Hj].
        rewrite !length_app in Hj. simpl in Hj. rewrite <- !app_assoc in Hj. simpl in Hj.
        replace (S (length kept + 1 + S (length mid)))
          with (length kept + 1 + 1 + (length mid + 1))%nat by lia.
        replace (S (length kept)) with (length kept + 1)%nat by lia.
        rewrite Hj. exists junk. f_equal. lia.
    + simpl.
      destruct (IH kept r (mid ++ [p])) as [junk Hj].
      rewrite length_app in Hj. simpl in Hj. rewrite <- !app_assoc in Hj. simpl in Hj.
      replace (S (length kept + 1 + length mid))
        with (length kept + 1 + (length mid + 1))%nat by lia.
      rewrite Hj. by exists junk.
Qed.

Lemma uniqueify_loop_dedup l :
  (let '(pairs, res) := uniqueify_loop (length l - 1) l 1 0 in take (res + 1) pairs)
  = match l with [] => take 1 [] | _ => dedup_keys l end.
Proof.
  destruct l as [|r rest]; [done|]. simpl. rewrite Nat.sub_0_r.
  destruct (uniqueify_loop_spec rest [] r []) as [junk Hj]. simpl in Hj.
  rewrite Hj. simpl.
  replace (length (dedup_from r rest) + 1)%nat with (S (length (dedup_from r rest))) by lia.
  simpl. f_equal. by rewrite take_app_length.
Qed.

(** *** What [dedup_keys] keeps of a sorted list *)

Lemma dedup_from_covers l : forall r q,
  q ∈ l -> exists p, p ∈ r :: dedup_from r l /\ pair_key p = pair_key q.
Proof.
  induction l as [|p0 l IH]; intros r q Hq; [by apply not_elem_of_nil in Hq|].
  simpl.
  destruct (Z.eqb_spec (length_compare_gtype_string_value (pair_key p0) (pair_key r)) 0)
    as [H0|H0]; simpl.
  - apply length_compare_gtype_string_value_eq in H0.
    apply elem_of_cons in Hq as [->|Hq]; [exists r; split; [by left|done]|].
    by apply IH.
  - apply elem_of_cons in Hq as [->|Hq].
    + exists p0. split; [right; by left|done].
    + destruct (IH p0 q Hq) as (p & Hp & Hk). exists p. split; [by right|done].
Qed.

Lemma dedup_from_spec l : forall r,
  StronglySorted pair_before (r :: l) ->
  forall p, p ∈ dedup_from r l ->
    p ∈ l /\ pair_key p <> pair_key r /\
    forall q, q ∈ r :: l -> pair_key q = pair_key p -> pair_order q <= pair_order p.
Proof.
  induction l as [|p0 l IH]; intros r Hs p Hp; [by apply not_elem_of_nil in Hp|].
  apply StronglySorted_inv in Hs as [Hs Hr].
  pose proof Hs as Hs0. apply StronglySorted_inv in Hs0 as [Hl Hp0].
  apply Forall_cons in Hr as [Hrp0 Hrl].
  rewrite Forall_forall in Hrl, Hp0.
  simpl in Hp.
  destruct (Z.eqb_spec (length_compare_gtype_string_value (pair_key p0) (pair_key r)) 0)
    as [H0|H0]; simpl in Hp.
  - apply length_compare_gtype_string_value_eq in H0.
    assert (Hs' : StronglySorted pair_before (r :: l)).
    { constructor; [done|]. by apply Forall_forall. }
    destruct (IH r Hs' p Hp) as (Hin & Hne & Hmax).
    split; [by right|]. split; [done|].
    intros q Hq Hk. apply elem_of_cons in Hq as [->|Hq]; [apply Hmax; [by left|done]|].
    apply elem_of_cons in Hq as [->|Hq]; [congruence|].
    apply Hmax; [by right|done].
  - assert (Hne0 : pair_key p0 <> pair_key r).
    { intros Hk. apply H0. by apply length_compare_gtype_string_value_eq. }
    apply elem_of_cons in Hp as [->|Hp].
    + split; [by left|]. split; [done|].
      intros q Hq Hk. apply elem_of_cons in Hq as [->|Hq]; [congruence|].
      apply elem_of_cons in Hq as [->|Hq]; [lia|].
      pose proof (pair_before_same_key _ _ (Hp0 q Hq) (eq_sym Hk)). lia.
    + destruct (IH p0 Hs p Hp) as (Hin & Hne & Hmax).
      split; [by right|]. split.
      * intros Hk. apply Hne0.
        apply (pair_before_squeeze r p0 p); [done|by apply Hp0|done].
      * intros q Hq Hk. apply elem_of_cons in Hq as [->|Hq]; [|by apply Hmax].
        exfalso. apply Hne0.
        apply (pair_before_squeeze r p0 p); [done|by apply Hp0|done].
Qed.

Lemma dedup_from_sorted l : forall r,
  StronglySorted pair_before (r :: l) ->
  StronglySorted
    (fun a b => length_compare_gtype_string_value (pair_key a) (pair_key b) < 0)
    (r :: dedup_from r l).
Proof.
  induction l as [|p0 l IH]; intros r Hs; [repeat constructor|].
  pose proof (dedup_from_spec _ _ Hs) as Hspec.
  pose proof Hs as Hs1.
  apply StronglySorted_inv in Hs1 as [Hs0 Hr].
  pose proof Hs0 as Hs2. apply StronglySorted_inv in Hs2 as [Hl Hp0].
  apply Forall_cons in Hr as [Hrp0 Hrl].
  assert (Hs' : StronglySorted pair_before (r :: l)) by (by constructor).
  assert (Hall : Forall (fun b => length_compare_gtype_string_value
                                    (pair_key r) (pair_key b) < 0)
                   (dedup_from r (p0 :: l))).
  { apply Forall_forall. intros p Hp. destruct (Hspec p Hp) as (Hin & Hne & _).
    apply pair_before_key; [|congruence].
    rewrite Forall_forall in Hrl.
    apply elem_of_cons in Hin as [->|Hin]; [done|by apply Hrl]. }
  constructor; [|exact Hall].
  simpl.
  destruct (negb (length_compare_gtype_string_value (pair_key p0) (pair_key r) =? 0)).
  - by apply IH.
  - pose proof (IH r Hs') as Hx. by apply StronglySorted_inv in Hx as [? _].
Qed.

Lemma neighbours_with_equal_keys_false l :
  Sorted pair_before l ->
  neighbours_with_equal_keys l = false ->
  dedup_keys l = l.
Proof.
  destruct l as [|r l]; [done|]. simpl. intros Hs Hn. f_equal.
  revert r Hs Hn. induction l as [|p l IH]; intros r Hs Hn; [done|].
  simpl in Hn. apply orb_false_iff in Hn as [Hk Hn].
  simpl.
  replace (length_compare_gtype_string_value (pair_key p) (pair_key r) =? 0) with false.
  - simpl. f_equal. apply IH; [by apply Sorted_inv in Hs as [? _]|done].
  - symmetry. apply Z.eqb_neq. apply Z.eqb_neq in Hk. intros H0. apply Hk.
    apply length_compare_gtype_string_value_eq in H0.
    by apply length_compare_gtype_string_value_eq.
Qed.

End UniqueifyProofs.

Lemma Sorted_weaken {A : Type} (R1 R2 : A -> A -> Prop) (l : list A) :
  (forall a b, R1 a b -> R2 a b) -> Sorted R1 l -> Sorted R2 l.
Proof.
  intros HR. induction 1 as [|a l Hs IH Hhd]; constructor; [done|].
  destruct Hhd; constructor. by apply HR.
Qed.

Lemma dedup_keys_spec {V : Type} (l : list (gtype_pair V)) :
  Sorted pair_before l ->
  StronglySorted
    (fun a b => length_compare_gtype_string_value (pair_key a) (pair_key b) < 0)
    (dedup_keys l) /\
  (forall p, p ∈ dedup_keys l ->
     p ∈ l /\ forall q, q ∈ l -> pair_key q = pair_key p -> pair_order q <= pair_order p) /\
  (forall q, q ∈ l -> exists p, p ∈ dedup_keys l /\ pair_key p = pair_key q).
Proof.
  intros Hs.
  assert (Hss : StronglySorted pair_before l).
  { apply Sorted_StronglySorted; [|done]. intros p q r. apply pair_before_trans. }
  destruct l as [|r l]; simpl.
  { split; [constructor|]. split; intros ? Hx; by apply not_elem_of_nil in Hx. }
  split; [by apply dedup_from_sorted|]. split.
  - intros p Hp. apply elem_of_cons in Hp as [->|Hp].
    + split; [by left|]. intros q Hq Hk.
      apply elem_of_cons in Hq as [->|Hq]; [lia|].
      apply StronglySorted_inv in Hss as [_ Hr]. rewrite Forall_forall in Hr.
      pose proof (pair_before_same_key _ _ (Hr q Hq) (eq_sym Hk)). lia.
    + destruct (dedup_from_spec _ _ Hss p Hp) as (Hin & _ & Hmax).
      split; [by right|done].
  - intros q Hq. apply elem_of_cons in Hq as [->|Hq].
    + exists r. split; [by left|done].
    + by apply dedup_from_covers.
Qed.

(** X13.  [uniqueify_gtype_object] leaves the pairs of an object sorted
    by key, strictly, in the order of [length_compare_gtype_string_value]
    (shorter keys first, keys of one length by their bytes), so no key
    is left twice.  Every key of the object is kept, and the pair kept
    for a key is the one with the largest [order], that is the one pushed
    last.  This holds when [qsort_arg] returns the pairs sorted by the
    comparator, having compared the neighbours of its result. *)
Theorem uniqueify_gtype_object_keeps_last_pair {V : Type}
  (qsort_arg :
     (gtype_pair V -> gtype_pair V -> option bool -> Z * option bool) ->
     list (gtype_pair V) -> option bool -> list (gtype_pair V) * option bool)
  (pairs : list (gtype_pair V)) :
  ((1 < length pairs)%nat ->
   let sorted := qsort_arg length_compare_gtype_pair pairs (Some false) in
   sorted.1 ≡ₚ pairs /\
   Sorted (fun a b => (length_compare_gtype_pair a b (Some false)).1 < 0) sorted.1 /\
   sorted.2 = Some (neighbours_with_equal_keys sorted.1)) ->
  let out := uniqueify_gtype_object qsort_arg pairs in
  StronglySorted
    (fun a b => length_compare_gtype_string_value (pair_key a) (pair_key b) < 0) out /\
  (forall p, p ∈ out ->
     p ∈ pairs /\
     forall q, q ∈ pairs -> pair_key q = pair_key p -> pair_order q <= pair_order p) /\
  (forall q, q ∈ pairs -> exists p, p ∈ out /\ pair_key p = pair_key q).
Proof.
  intros Hsort out.
  assert (Hout : exists l, l ≡ₚ pairs /\ Sorted pair_before l /\ out = dedup_keys l).
  { subst out. unfold uniqueify_gtype_object.
    destruct (Nat.ltb_spec 1 (length pairs)) as [Hlen|Hlen].
    - destruct (Hsort Hlen) as (Hperm & Hs & Hflag). clear Hsort.
      destruct (qsort_arg length_compare_gtype_pair pairs (Some false)) as [l flag].
      cbn [fst snd] in Hperm, Hs, Hflag. subst flag.
      assert (Hs' : Sorted pair_before l).
      { eapply Sorted_weaken; [|exact Hs]. intros a b.
        apply (length_compare_gtype_pair_before a b (Some false)). }
      exists l. split; [done|]. split; [done|].
      destruct (neighbours_with_equal_keys l) eqn:Hn.
      + rewrite bool_decide_eq_true_2 by done.
        rewrite uniqueify_loop_dedup. destruct l; [|done].
        apply Permutation_length in Hperm. simpl in Hperm. lia.
      + rewrite bool_decide_eq_false_2 by done.
        symmetry. by apply neighbours_with_equal_keys_false.
    - exists pairs. split; [done|].
      rewrite bool_decide_eq_false_2 by done.
      destruct pairs as [|p [|p' pairs]]; [split; [constructor|done]| |simpl in Hlen; lia].
      split; [repeat constructor|done]. }
  destruct Hout as (l & Hperm & Hs & ->).
  destruct (dedup_keys_spec l Hs) as (Hsorted & Hkept & Hcover).
  split; [exact Hsorted|]. split.
  - intros p Hp. destruct (Hkept p Hp) as [Hin Hmax].
    split; [by rewrite <- Hperm|]. intros q Hq. apply Hmax. by rewrite Hperm.
  - intros q Hq. apply Hcover. by rewrite Hperm.
Qed.

Lemma uniqueify_gtype_object_keeps_last_pair_witness :
  let pairs :=
    [mk_gtype_pair [97] 1 0; mk_gtype_pair [98; 98] 2 1; mk_gtype_pair [97] 3 2] in
  let out := uniqueify_gtype_object example_qsort_arg pairs in
  StronglySorted
    (fun a b => length_compare_gtype_string_value (pair_key a) (pair_key b) < 0) out /\
  (forall p, p ∈ out ->
     p ∈ pairs /\
     forall q, q ∈ pairs -> pair_key q = pair_key p -> pair_order q <= pair_order p) /\
  (forall q, q ∈ pairs -> exists p, p ∈ out /\ pair_key p = pair_key q).
Proof.
  apply (uniqueify_gtype_object_keeps_last_pair example_qsort_arg
           [mk_gtype_pair [97] 1 0; mk_gtype_pair [98; 98] 2 1; mk_gtype_pair [97] 3 2]).
  intros _.
  change (example_qsort_arg length_compare_gtype_pair
            [mk_gtype_pair [97] 1 0; mk_gtype_pair [98; 98] 2 1; mk_gtype_pair [97] 3 2]
            (Some false))
    with ([mk_gtype_pair [97] 3 2; mk_gtype_pair [97] 1 0; mk_gtype_pair [98; 98] 2 1],
          Some true).
  cbn [fst snd]. split; [|split].
  - apply (Permutation_cons_append [mk_gtype_pair [97] 1 0; mk_gtype_pair [98; 98] 2 1]).
  - repeat constructor; vm_compute; reflexivity.
  - vm_compute. reflexivity.
Defined.

Example uniqueify_gtype_object_duplicate_key :
  uniqueify_gtype_object example_qsort_arg
    [mk_gtype_pair [97] 1 0; mk_gtype_pair [98; 98] 2 1; mk_gtype_pair [97] 3 2]
  = [mk_gtype_pair [97] 3 2; mk_gtype_pair [98; 98] 2 1].
Proof. vm_compute. reflexivity. Qed.

(** ** variable_edge.c: the text of a [VariableEdge] *)

Lemma string_app_cons (x : Ascii.ascii) (a b : string) :
  (String x a +:+ b = String x (a +:+ b))%string.
Proof. reflexivity. Qed.

Lemma string_app_nil_l (b : string) : ("" +:+ b = b)%string.
Proof. reflexivity. Qed.

Lemma string_app_nil_r (a : string) : (a +:+ "" = a)%string.
Proof. induction a as [|x a IH]; [done|]. by rewrite string_app_cons, IH. Qed.

Lemma string_app_assoc (a b c : string) : ((a +:+ b) +:+ c = a +:+ (b +:+ c))%string.
Proof. induction a as [|x a IH]; [done|]. by rewrite !string_app_cons, IH. Qed.

Section VariableEdgeOutProofs.
Context {edge vertex : Type}.
Variable edge_text : edge -> string.
Variable vertex_text : vertex -> string.
#[local] Arguments Nat.modulo : simpl never.

Lemma variable_edge_out_loop_rest (rest : list (vertex * edge)) : forall i str,
  (i mod 2 = 1)%nat ->
  variable_edge_out_loop edge_text vertex_text i (pairs_children rest) str
  = Ok (str +:+ foldr (fun c acc => ", " +:+ child_text edge_text vertex_text c +:+ acc)
                  "" (pairs_children rest)).
Proof.
  induction rest as [|[v e] rest IH]; intros i str Hi.
  - simpl. by rewrite string_app_nil_r.
  - cbn [pairs_children flat_map app variable_edge_out_loop foldr].
    rewrite Hi. simpl. rewrite (proj1 (mod2_S i) Hi). simpl.
    fold (pairs_children rest).
    rewrite IH by (apply (proj2 (mod2_S (S i))), (proj1 (mod2_S i)), Hi).
    unfold append_edge_to_string, append_vertex_to_string, appendStringInfoString.
    f_equal. by rewrite !string_app_assoc.
Qed.

Lemma concat_separator (x : string) (l : list string) :
  String.concat ", " (x :: l)
  = (x +:+ foldr (fun s acc => ", " +:+ s +:+ acc) "" l)%string.
Proof.
  revert x. induction l as [|y l IH]; intros x.
  - simpl. by rewrite string_app_nil_r.
  - change (String.concat ", " (x :: y :: l))
      with (x +:+ ", " +:+ String.concat ", " (y :: l))%string.
    rewrite IH. cbn [foldr]. reflexivity.
Qed.

End VariableEdgeOutProofs.

(** X14.  [variable_edge_out] writes the values of a [VariableEdge] in
    the order they are stored, separated by a comma and a space and
    enclosed in brackets; for the [VariableEdge] of no value it writes
    [[]]. *)
Theorem variable_edge_out_separates_values {edge vertex : Type}
  (edge_text : edge -> string) (vertex_text : vertex -> string)
  (ve : VariableEdge edge vertex) :
  variable_edge_out edge_text vertex_text ve
  = Ok ("[" +:+ String.concat ", "
                  (map (child_text edge_text vertex_text) (ve_children ve)) +:+ "]").
Proof.
  unfold variable_edge_out, appendStringInfoString.
  destruct ve as [[e0 rest]|]; [|reflexivity].
  rewrite ve_children_pairs.
  cbn [variable_edge_out_loop as_edge res_bind map].
  simpl (0 mod 2 =? 1)%nat. cbn iota.
  rewrite variable_edge_out_loop_rest by reflexivity.
  cbn [res_bind]. f_equal.
  rewrite concat_separator. unfold append_edge_to_string.
  rewrite foldr_fmap. cbn [child_text]. by rewrite !string_app_assoc.
Qed.

Example variable_edge_out_two_edges :
  variable_edge_out (fun e => pretty (ev_id e)) (fun v => pretty (vv_id v))
    (Some (mk_edge_value 101 1 2, [(mk_vertex_value 2, mk_edge_value 102 2 3)]))
  = Ok "[101, 2, 102]".
Proof. vm_compute. reflexivity. Qed.

(** ** gtype_util.c: the search for a key among the pairs of an object *)

Lemma uint32_small (x : Z) : 0 <= x < 2 ^ 32 -> uint32 x = x.
Proof. intros Hx. unfold uint32. by apply Z.mod_small. Qed.

Lemma int32_small (x : Z) : 0 <= x < 2 ^ 31 -> int32 x = x.
Proof.
  intros Hx. unfold int32. rewrite Z.mod_small by lia.
  destruct (Z.ltb_spec x (2 ^ 31)); [done|lia].
Qed.

Section FindValueProofs.
Context {V : Type} `{GtypeContainer.ContainerMacros V} `{AgtentryMacros}.
Implicit Types (c : GtypeContainer.gtype_container) (key : V).

(** The step of the search on a range within the pairs. *)
Lemma find_in_object_loop_step fuel c count key lo hi :
  0 <= lo -> lo < hi -> hi <= count -> count < 2 ^ 30 ->
  GtypeContainer.GTYPE_CONTAINER_SIZE c = count ->
  let m := lo + (hi - lo) / 2 in
  let d := length_compare_gtype_string_value
             (GtypeContainer.object_key c m) (GtypeContainer.string_val key) in
  lo <= m < hi /\
  GtypeContainer.find_in_object_loop (S fuel) c count key lo hi
  = if d =? 0 then
      Some (Some (GtypeContainer.fill_gtype_value c (m + count) (count * 2)
                    (get_gtype_offset (GtypeContainer.agtc_children c) (m + count))))
    else if d <? 0
    then GtypeContainer.find_in_object_loop fuel c count key (m + 1) hi
    else GtypeContainer.find_in_object_loop fuel c count key lo m.
Proof.
  intros Hlo Hlt Hhi Hcount Hsize m d.
  assert (Hm : lo <= m < hi).
  { subst m. pose proof (Z.div_pos (hi - lo) 2).
    assert ((hi - lo) / 2 < hi - lo) by (apply Z.div_lt; lia). lia. }
  split; [exact Hm|].
  cbn [GtypeContainer.find_in_object_loop].
  destruct (Z.ltb_spec lo hi) as [_|]; [|lia].
  rewrite (uint32_small (hi - lo)) by lia.
  fold m. rewrite (uint32_small m) by lia.
  rewrite (int32_small m) by lia.
  rewrite (int32_small (m + count)) by lia.
  rewrite (uint32_small (m + 1)) by lia.
  subst d. unfold GtypeContainer.object_key. rewrite Hsize. reflexivity.
Qed.

(** The search ends within as many iterations as the range has pairs,
    and one more. *)
Lemma find_in_object_loop_returns fuel : forall c count key lo hi,
  0 <= lo -> lo <= hi -> hi <= count -> count < 2 ^ 30 ->
  GtypeContainer.GTYPE_CONTAINER_SIZE c = count ->
  hi - lo < Z.of_nat fuel ->
  is_Some (GtypeContainer.find_in_object_loop fuel c count key lo hi).
Proof.
  induction fuel as [|fuel IH]; intros c count key lo hi Hlo Hle Hhi Hcount Hsize Hfuel;
    [lia|].
  destruct (Z.eq_dec lo hi) as [->|Hne].
  { simpl. rewrite Z.ltb_irrefl. by eexists. }
  destruct (find_in_object_loop_step fuel c count key lo hi) as [Hm ->]; try lia; try done.
  destruct (_ =? 0); [by eexists|].
  destruct (_ <? 0); apply IH; try done; lia.
Qed.

Lemma find_in_object_loop_absent fuel : forall c count key lo hi r,
  0 <= lo -> lo <= hi -> hi <= count -> count < 2 ^ 30 ->
  GtypeContainer.GTYPE_CONTAINER_SIZE c = count ->
  (forall i, 0 <= i < count ->
             GtypeContainer.object_key c i <> GtypeContainer.string_val key) ->
  GtypeContainer.find_in_object_loop fuel c count key lo hi = Some r ->
  r = None.
Proof.
  induction fuel as [|fuel IH]; intros c count key lo hi r Hlo Hle Hhi Hcount Hsize Habs Hrun;
    [done|].
  destruct (Z.eq_dec lo hi) as [->|Hne].
  { simpl in Hrun. rewrite Z.ltb_irrefl in Hrun. by injection Hrun as <-. }
  destruct (find_in_object_loop_step fuel c count key lo hi) as [Hm Hstep];
    try lia; try done.
  rewrite Hstep in Hrun. clear Hstep.
  destruct (Z.eqb_spec
              (length_compare_gtype_string_value
                 (GtypeContainer.object_key c (lo + (hi - lo) / 2))
                 (GtypeContainer.string_val key)) 0) as [Hz|Hz].
  { apply length_compare_gtype_string_value_eq in Hz. exfalso.
    apply (Habs (lo + (hi - lo) / 2)); [lia|done]. }
  destruct (_ <? 0); eapply IH in Hrun; try done; lia.
Qed.

Lemma find_in_object_loop_present fuel : forall c count key lo hi i r,
  0 <= lo -> hi <= count -> count < 2 ^ 30 ->
  GtypeContainer.GTYPE_CONTAINER_SIZE c = count ->
  (forall a b, 0 <= a < b -> b < count ->
     length_compare_gtype_string_value
       (GtypeContainer.object_key c a) (GtypeContainer.object_key c b) < 0) ->
  lo <= i < hi ->
  GtypeContainer.object_key c i = GtypeContainer.string_val key ->
  GtypeContainer.find_in_object_loop fuel c count key lo hi = Some r ->
  r = Some (GtypeContainer.fill_gtype_value c (i + count) (count * 2)
              (get_gtype_offset (GtypeContainer.agtc_children c) (i + count))).
Proof.
  induction fuel as [|fuel IH];
    intros c count key lo hi i r Hlo Hhi Hcount Hsize Hsorted Hi Hkey Hrun; [done|].
  destruct (find_in_object_loop_step fuel c count key lo hi) as [Hm Hstep];
    try lia; try done.
  rewrite Hstep in Hrun. clear Hstep.
  set (m := lo + (hi - lo) / 2) in *.
  rewrite <- Hkey in Hrun.
  assert (Hself : length_compare_gtype_string_value
                    (GtypeContainer.object_key c i) (GtypeContainer.object_key c i) = 0)
    by (by apply length_compare_gtype_string_value_eq).
  destruct (Z.lt_total m i) as [Hlt|[Heq|Hgt]].
  - pose proof (Hsorted m i ltac:(lia) ltac:(lia)) as Hd.
    destruct (Z.eqb_spec (length_compare_gtype_string_value
                            (GtypeContainer.object_key c m)
                            (GtypeContainer.object_key c i)) 0); [lia|].
    destruct (Z.ltb_spec (length_compare_gtype_string_value
                            (GtypeContainer.object_key c m)
                            (GtypeContainer.object_key c i)) 0); [|lia].
    eapply IH in Hrun; try done; lia.
  - rewrite Heq, Hself in Hrun. simpl in Hrun. rewrite ?Heq in Hrun.
    by injection Hrun as <-.
  - pose proof (Hsorted i m ltac:(lia) ltac:(lia)) as Hd.
    destruct (Z.eqb_spec (length_compare_gtype_string_value
                            (GtypeContainer.object_key c m)
                            (GtypeContainer.object_key c i)) 0) as [Hz|Hz].
    { apply length_compare_gtype_string_value_eq in Hz. rewrite Hz in Hd. lia. }
    destruct (Z.ltb_spec (length_compare_gtype_string_value
                            (GtypeContainer.object_key c m)
                            (GtypeContainer.object_key c i)) 0) as [Hd'|_].
    { exfalso. by eapply length_compare_gtype_string_value_asym. }
    eapply IH in Hrun; try done; lia.
Qed.

Lemma find_gtype_value_from_container_object c flags key :
  let count := GtypeContainer.GTYPE_CONTAINER_SIZE c in
  0 < count < 2 ^ 30 ->
  Z.land flags GtypeContainer.AGT_FOBJECT <> 0 ->
  GtypeContainer.GTYPE_CONTAINER_IS_OBJECT c = true ->
  (Z.land flags GtypeContainer.AGT_FARRAY = 0 \/
   GtypeContainer.GTYPE_CONTAINER_IS_ARRAY c = false) ->
  exists r,
    GtypeContainer.find_in_object_loop (S (Z.to_nat count)) c count key 0 count = Some r /\
    GtypeContainer.find_gtype_value_from_container c flags key = Some (Ok r).
Proof.
  intros count Hcount Hobj Hisobj Harr.
  destruct (find_in_object_loop_returns (S (Z.to_nat count)) c count key 0 count)
    as [r Hr]; try lia; try done.
  exists r. split; [exact Hr|].
  unfold GtypeContainer.find_gtype_value_from_container. fold count.
  destruct (Z.leb_spec count 0); [lia|].
  replace (negb (Z.land flags GtypeContainer.AGT_FARRAY =? 0)
           && GtypeContainer.GTYPE_CONTAINER_IS_ARRAY c) with false.
  2:{ symmetry. destruct Harr as [->| ->]; [done|apply andb_false_r]. }
  apply Z.eqb_neq in Hobj. rewrite Hobj, Hisobj. simpl negb. cbn [andb].
  rewrite (uint32_small count) by lia. by rewrite Hr.
Qed.

End FindValueProofs.

(** X15.  Asked for an object, on an object whose keys are stored in
    the strict order of [length_compare_gtype_string_value],
    [find_gtype_value_from_container] returns, and it returns the value
    of the pair whose key is the string looked for: the value is filled
    in from entry [i + count] when pair [i] has the key, and nothing is
    returned when no pair has it. *)
Theorem find_gtype_value_from_container_finds_key
  {V : Type} `{GtypeContainer.ContainerMacros V} `{AgtentryMacros}
  (c : GtypeContainer.gtype_container) (flags : Z) (key : V) :
  let count := GtypeContainer.GTYPE_CONTAINER_SIZE c in
  0 < count < 2 ^ 30 ->
  Z.land flags GtypeContainer.AGT_FOBJECT <> 0 ->
  GtypeContainer.GTYPE_CONTAINER_IS_OBJECT c = true ->
  (Z.land flags GtypeContainer.AGT_FARRAY = 0 \/
   GtypeContainer.GTYPE_CONTAINER_IS_ARRAY c = false) ->
  (forall a b, 0 <= a < b -> b < count ->
     length_compare_gtype_string_value
       (GtypeContainer.object_key c a) (GtypeContainer.object_key c b) < 0) ->
  (forall i, 0 <= i < count ->
     GtypeContainer.object_key c i = GtypeContainer.string_val key ->
     GtypeContainer.find_gtype_value_from_container c flags key
     = Some (Ok (Some (GtypeContainer.fill_gtype_value c (i + count) (count * 2)
                         (get_gtype_offset (GtypeContainer.agtc_children c) (i + count)))))) /\
  ((forall i, 0 <= i < count ->
      GtypeContainer.object_key c i <> GtypeContainer.string_val key) ->
   GtypeContainer.find_gtype_value_from_container c flags key = Some (Ok None)).
Proof.
  intros count Hcount Hobj Hisobj Harr Hsorted.
  destruct (find_gtype_value_from_container_object c flags key Hcount Hobj Hisobj Harr)
    as (r & Hloop & ->).
  split.
  - intros i Hi Hkey. do 2 f_equal.
    eapply (find_in_object_loop_present _ c count key 0 count i); try done; lia.
  - intros Habs. do 2 f_equal.
    eapply (find_in_object_loop_absent _ c count key 0 count); try done; lia.
Qed.

Lemma find_gtype_value_from_container_finds_key_witness :
  let c := GtypeContainer.example_object in
  let key := (1, 0) in
  let count := GtypeContainer.GTYPE_CONTAINER_SIZE c in
  (forall i, 0 <= i < count ->
     GtypeContainer.object_key c i = GtypeContainer.string_val key ->
     GtypeContainer.find_gtype_value_from_container c 32 key
     = Some (Ok (Some (GtypeContainer.fill_gtype_value c (i + count) (count * 2)
                         (get_gtype_offset (GtypeContainer.agtc_children c) (i + count)))))) /\
  ((forall i, 0 <= i < count ->
      GtypeContainer.object_key c i <> GtypeContainer.string_val key) ->
   GtypeContainer.find_gtype_value_from_container c 32 key = Some (Ok None)).
Proof.
  apply (find_gtype_value_from_container_finds_key GtypeContainer.example_object 32 (1, 0)).
  - vm_compute. split; reflexivity.
  - vm_compute. discriminate.
  - reflexivity.
  - left. reflexivity.
  - intros a b Ha Hb.
    change (GtypeContainer.GTYPE_CONTAINER_SIZE GtypeContainer.example_object)
      with 2 in Hb.
    assert (a = 0) as -> by lia. assert (b = 1) as -> by lia.
    vm_compute. reflexivity.
Defined.

Example find_gtype_value_from_container_second_key :
  GtypeContainer.find_gtype_value_from_container GtypeContainer.example_object 32 (1, 0)
  = Some (Ok (Some (3, 7))) /\
  GtypeContainer.find_gtype_value_from_container GtypeContainer.example_object 32 (2, 0)
  = Some (Ok None).
Proof. split; vm_compute; reflexivity. Qed.

(** ** gtype_util.c: what a sequence of pushed tokens builds *)

Section PushValueProofs.
Variable GTYPE_MAX_ELEMS : Z.
Variable GTYPE_MAX_PAIRS : Z.
Variable qsort_arg :
  (gtype_pair gtype_value -> gtype_pair gtype_value -> option bool -> Z * option bool) ->
  list (gtype_pair gtype_value) -> option bool ->
  list (gtype_pair gtype_value) * option bool.

Abbreviation push_tokens := (push_tokens GTYPE_MAX_ELEMS GTYPE_MAX_PAIRS qsort_arg).
Abbreviation pop_to_parent := (pop_to_parent GTYPE_MAX_ELEMS).
Abbreviation built_value := (built_value qsort_arg).
Abbreviation within_limits := (within_limits GTYPE_MAX_ELEMS GTYPE_MAX_PAIRS).

Lemma push_tokens_app toks : forall pstate last more,
  push_tokens pstate last (toks ++ more)
  = do (pstate', r) <- push_tokens pstate last toks; push_tokens pstate' r more.
Proof.
  induction toks as [|[seq v] toks IH]; intros pstate last more; simpl; [done|].
  destruct (push_gtype_value_scalar _ _ _ pstate seq v) as [[pstate' r]|m]; simpl; [|done].
  apply IH.
Qed.

(** What pushing a value into the current container comes to. *)
Abbreviation value_pushed n :=
  (forall v, (value_height v <= n)%nat -> within_limits v = true ->
  is_container v = true ->
  forall tok pstate last more,
  exists top,
    cont_val top = built_value v /\
    push_tokens pstate last (value_tokens tok v ++ more)
    = do (pstate', r) <- pop_to_parent top pstate; push_tokens pstate' r more).

Lemma max_list_le_Forall (l : list nat) (n : nat) :
  (max_list l <= n)%nat -> Forall (fun x => (x <= n)%nat) l.
Proof.
  induction l as [|x l IH]; simpl; intros Hm; constructor; [lia|]. apply IH. lia.
Qed.

Lemma push_elements n (Hn : value_pushed n) : forall elems cur next last more,
  Forall (fun e => (value_height e <= n)%nat) elems ->
  forallb within_limits elems = true ->
  cont_val_type cur = AGTV_ARRAY ->
  Z.of_nat (length (cont_val_elems cur) + length elems) <= GTYPE_MAX_ELEMS ->
  exists cur' last',
    cont_val_type cur' = AGTV_ARRAY /\
    cont_val_raw_scalar cur' = cont_val_raw_scalar cur /\
    cont_val_elems cur' = cont_val_elems cur ++ map built_value elems /\
    push_tokens (cur :: next) last (flat_map (value_tokens WAGT_ELEM) elems ++ more)
    = push_tokens (cur' :: next) last' more.
Proof.
  induction elems as [|e elems IH]; intros cur next last more Hh Hw Hty Hlen.
  { exists cur, last. simpl. by rewrite app_nil_r. }
  apply Forall_cons in Hh as [Hhe Hh].
  simpl in Hw. apply andb_true_iff in Hw as [Hwe Hw].
  simpl in Hlen.
  assert (Happ : exists cur1 r1,
            cont_val_type cur1 = AGTV_ARRAY /\
            cont_val_raw_scalar cur1 = cont_val_raw_scalar cur /\
            cont_val_elems cur1 = cont_val_elems cur ++ [built_value e] /\
            push_tokens (cur :: next) last
              (value_tokens WAGT_ELEM e ++ flat_map (value_tokens WAGT_ELEM) elems ++ more)
            = push_tokens (cur1 :: next) r1
                (flat_map (value_tokens WAGT_ELEM) elems ++ more)).
  { assert (Hput : forall x, exists cur1,
              append_element GTYPE_MAX_ELEMS cur (Some x) = Ok cur1 /\
              cont_val_type cur1 = AGTV_ARRAY /\
              cont_val_raw_scalar cur1 = cont_val_raw_scalar cur /\
              cont_val_elems cur1 = cont_val_elems cur ++ [x]).
    { intros x. unfold append_element. rewrite Hty. simpl.
      destruct (Z.leb_spec GTYPE_MAX_ELEMS (Z.of_nat (length (cont_val_elems cur))));
        [lia|].
      eexists. split; [reflexivity|]. by repeat split. }
    destruct e as [t x|raw k es|ps].
    - destruct (Hput (GV_scalar t x)) as (cur1 & Hc1 & ? & ? & ?).
      exists cur1, None. repeat split; try done.
      simpl. by rewrite Hc1.
    - destruct (Hn (GV_array raw k es) Hhe Hwe eq_refl WAGT_ELEM (cur :: next) last
                  (flat_map (value_tokens WAGT_ELEM) elems ++ more))
        as (top & Htop & ->).
      destruct (Hput (cont_val top)) as (cur1 & Hc1 & ? & ? & Hel).
      exists cur1, (Some (cont_val top)). rewrite Htop in Hel. repeat split; try done.
      unfold pop_to_parent. rewrite Hty, Hc1. reflexivity.
    - destruct (Hn (GV_object ps) Hhe Hwe eq_refl WAGT_ELEM (cur :: next) last
                  (flat_map (value_tokens WAGT_ELEM) elems ++ more))
        as (top & Htop & ->).
      destruct (Hput (cont_val top)) as (cur1 & Hc1 & ? & ? & Hel).
      exists cur1, (Some (cont_val top)). rewrite Htop in Hel. repeat split; try done.
      unfold pop_to_parent. rewrite Hty, Hc1. reflexivity. }
  destruct Happ as (cur1 & r1 & Hty1 & Hraw1 & Hel1 & Hrun1).
  destruct (IH cur1 next r1 more Hh Hw Hty1) as (cur' & last' & Hty' & Hraw' & Hel' & Hrun').
  { rewrite Hel1, length_app. simpl. lia. }
  exists cur', last'. split; [done|]. split; [congruence|]. split.
  - rewrite Hel', Hel1. simpl. by rewrite <- app_assoc.
  - cbn [flat_map]. rewrite <- app_assoc. by rewrite Hrun1.
Qed.

Lemma push_pairs n (Hn : value_pushed n) : forall pairs cur next last more,
  Forall (fun p => (value_height (pair_value p) <= n)%nat) pairs ->
  forallb (fun p => within_limits (pair_value p)) pairs = true ->
  cont_val_type cur = AGTV_OBJECT ->
  Z.of_nat (length (cont_val_pairs cur) + length pairs) <= GTYPE_MAX_PAIRS ->
  exists cur' last',
    cont_val_type cur' = AGTV_OBJECT /\
    cont_val_pairs cur'
    = cont_val_pairs cur
      ++ pushed_pairs built_value (Z.of_nat (length (cont_val_pairs cur))) pairs /\
    push_tokens (cur :: next) last
      (flat_map (fun p => (WAGT_KEY, Some (GV_scalar AGTV_STRING (pair_key p)))
                          :: value_tokens WAGT_VALUE (pair_value p)) pairs ++ more)
    = push_tokens (cur' :: next) last' more.
Proof.
  induction pairs as [|p pairs IH]; intros cur next last more Hh Hw Hty Hlen.
  { exists cur, last. simpl. by rewrite app_nil_r. }
  apply Forall_cons in Hh as [Hhe Hh].
  simpl in Hw. apply andb_true_iff in Hw as [Hwe Hw].
  simpl in Hlen.
  set (num_pairs := Z.of_nat (length (cont_val_pairs cur))).
  assert (Hkey : exists cur0,
            append_key GTYPE_MAX_PAIRS cur (Some (GV_scalar AGTV_STRING (pair_key p)))
            = Ok cur0 /\
            cont_val_type cur0 = AGTV_OBJECT /\
            cont_val_pairs cur0 = cont_val_pairs cur /\
            next_pair_key cur0 = Some (pair_key p, num_pairs)).
  { unfold append_key. rewrite Hty. simpl. fold num_pairs.
    destruct (Z.leb_spec GTYPE_MAX_PAIRS num_pairs); [lia|].
    eexists. split; [reflexivity|]. by repeat split. }
  destruct Hkey as (cur0 & Hk & Hty0 & Hp0 & Hslot).
  assert (Hput : forall x, exists cur1,
            append_value cur0 (Some x) = Ok cur1 /\
            cont_val_type cur1 = AGTV_OBJECT /\
            cont_val_pairs cur1
            = cont_val_pairs cur ++ [mk_gtype_pair (pair_key p) x num_pairs]).
  { intros x. unfold append_value. rewrite Hty0, Hslot. simpl.
    eexists. split; [reflexivity|]. split; [done|]. simpl. by rewrite Hp0. }
  assert (Happ : exists cur1 r1,
            cont_val_type cur1 = AGTV_OBJECT /\
            cont_val_pairs cur1
            = cont_val_pairs cur
              ++ [mk_gtype_pair (pair_key p) (built_value (pair_value p)) num_pairs] /\
            push_tokens (cur0 :: next) None
              (value_tokens WAGT_VALUE (pair_value p)
               ++ flat_map (fun p => (WAGT_KEY, Some (GV_scalar AGTV_STRING (pair_key p)))
                                     :: value_tokens WAGT_VALUE (pair_value p)) pairs
               ++ more)
            = push_tokens (cur1 :: next) r1
                (flat_map (fun p => (WAGT_KEY, Some (GV_scalar AGTV_STRING (pair_key p)))
                                    :: value_tokens WAGT_VALUE (pair_value p)) pairs
                 ++ more)).
  { destruct (pair_value p) as [t x|raw k es|ps] eqn:Hv.
    - destruct (Hput (GV_scalar t x)) as (cur1 & Hc1 & ? & ?).
      exists cur1, None. repeat split; try done.
      simpl. by rewrite Hc1.
    - destruct (Hn (GV_array raw k es) Hhe Hwe eq_refl WAGT_VALUE (cur0 :: next) None
                  (flat_map (fun p => (WAGT_KEY, Some (GV_scalar AGTV_STRING (pair_key p)))
                                      :: value_tokens WAGT_VALUE (pair_value p)) pairs
                   ++ more))
        as (top & Htop & ->).
      destruct (Hput (cont_val top)) as (cur1 & Hc1 & ? & Hel).
      exists cur1, (Some (cont_val top)). rewrite Htop in Hel. repeat split; try done.
      unfold pop_to_parent. rewrite Hty0, Hc1. reflexivity.
    - destruct (Hn (GV_object ps) Hhe Hwe eq_refl WAGT_VALUE (cur0 :: next) None
                  (flat_map (fun p => (WAGT_KEY, Some (GV_scalar AGTV_STRING (pair_key p)))
                                      :: value_tokens WAGT_VALUE (pair_value p)) pairs
                   ++ more))
        as (top & Htop & ->).
      destruct (Hput (cont_val top)) as (cur1 & Hc1 & ? & Hel).
      exists cur1, (Some (cont_val top)). rewrite Htop in Hel. repeat split; try done.
      unfold pop_to_parent. rewrite Hty0, Hc1. reflexivity. }
  destruct Happ as (cur1 & r1 & Hty1 & Hel1 & Hrun1).
  destruct (IH cur1 next r1 more Hh Hw Hty1) as (cur' & last' & Hty' & Hel' & Hrun').
  { rewrite Hel1, length_app. simpl. lia. }
  exists cur', last'. split; [done|]. split.
  - rewrite Hel', Hel1, length_app. simpl. rewrite <- app_assoc. simpl.
    do 3 f_equal. subst num_pairs. lia.
  - cbn [flat_map app push_tokens]. cbn [push_gtype_value_scalar].
    rewrite Hk. cbn [res_bind]. rewrite <- app_assoc. by rewrite Hrun1.
Qed.

Lemma value_pushed_all n : value_pushed n.
Proof.
  induction n as [|n IH]; intros v Hh Hw Hc tok pstate last more.
  { destruct v; simpl in *; try done; lia. }
  destruct v as [t x|raw k elems|pairs]; [done| |].
  - simpl in Hh, Hw. apply andb_true_iff in Hw as [Hlen Hw]. apply Z.leb_le in Hlen.
    assert (Hhs : Forall (fun e => (value_height e <= n)%nat) elems).
    { apply le_S_n, max_list_le_Forall in Hh. by apply Forall_fmap in Hh. }
    set (ns := mk_gtype_parse_state AGTV_ARRAY false [] [] None 4).
    destruct (push_elements n IH elems ns pstate (Some (cont_val ns))
                ((WAGT_END_ARRAY, None) :: more) Hhs Hw eq_refl)
      as (cur' & last' & Hty' & Hraw' & Hel' & Hrun'); [simpl; lia|].
    exists cur'. split.
    + unfold cont_val. rewrite Hty', Hraw', Hel'. simpl. by rewrite length_map.
    + cbn [value_tokens app push_tokens push_gtype_value_scalar res_bind].
      fold ns. rewrite <- app_assoc. cbn [app]. rewrite Hrun'. reflexivity.
  - simpl in Hh, Hw. apply andb_true_iff in Hw as [Hlen Hw]. apply Z.leb_le in Hlen.
    assert (Hhs : Forall (fun p => (value_height (pair_value p) <= n)%nat) pairs).
    { apply le_S_n, max_list_le_Forall in Hh. by apply Forall_fmap in Hh. }
    set (ns := mk_gtype_parse_state AGTV_OBJECT false [] [] None 4).
    destruct (push_pairs n IH pairs ns pstate (Some (cont_val ns))
                ((WAGT_END_OBJECT, None) :: more) Hhs Hw eq_refl)
      as (cur' & last' & Hty' & Hel' & Hrun'); [simpl; lia|].
    eexists (mk_gtype_parse_state (cont_val_type cur') (cont_val_raw_scalar cur')
               (cont_val_elems cur')
               (uniqueify_gtype_object qsort_arg (cont_val_pairs cur'))
               (next_pair_key cur') (ps_size cur')).
    split.
    + unfold cont_val. simpl. rewrite Hty', Hel'. reflexivity.
    + cbn [value_tokens app push_tokens push_gtype_value_scalar res_bind].
      fold ns. rewrite <- app_assoc. cbn [app]. rewrite Hrun'. reflexivity.
Qed.

End PushValueProofs.

(** X16.  The tokens for a nested array or object, pushed one after the
    other, build that value: the elements of every array in the order
    pushed, the pairs of every object numbered in the order pushed and
    then made unique.  With no container open the last call returns the
    value and leaves no state; inside a container the value is appended
    to it exactly as [WAGT_END_ARRAY] appends a finished container.  This
    holds when no array has more than [GTYPE_MAX_ELEMS] elements and no
    object more than [GTYPE_MAX_PAIRS] pairs.  The three calls by which
    [gtype_value_to_gtype] wraps a scalar return the array of this one
    element marked [raw_scalar]. *)
Theorem push_tokens_build_the_value
  (GTYPE_MAX_ELEMS GTYPE_MAX_PAIRS : Z)
  (qsort_arg :
     (gtype_pair gtype_value -> gtype_pair gtype_value -> option bool -> Z * option bool) ->
     list (gtype_pair gtype_value) -> option bool ->
     list (gtype_pair gtype_value) * option bool)
  (v : gtype_value) (tok : gtype_iterator_token)
  (pstate : list gtype_parse_state) (last : option gtype_value) :
  is_container v = true ->
  within_limits GTYPE_MAX_ELEMS GTYPE_MAX_PAIRS v = true ->
  (exists top,
     cont_val top = built_value qsort_arg v /\
     push_tokens GTYPE_MAX_ELEMS GTYPE_MAX_PAIRS qsort_arg pstate last (value_tokens tok v)
     = pop_to_parent GTYPE_MAX_ELEMS top pstate) /\
  push_tokens GTYPE_MAX_ELEMS GTYPE_MAX_PAIRS qsort_arg [] last (value_tokens tok v)
  = Ok ([], Some (built_value qsort_arg v)) /\
  (forall val,
     0 < GTYPE_MAX_ELEMS ->
     push_tokens GTYPE_MAX_ELEMS GTYPE_MAX_PAIRS qsort_arg [] None
       [(WAGT_BEGIN_ARRAY, Some (GV_array true 1 []));
        (WAGT_ELEM, Some val); (WAGT_END_ARRAY, None)]
     = Ok ([], Some (GV_array true 1 [val]))).
Proof.
  intros Hc Hw.
  assert (Hpush : forall st,
            exists top,
              cont_val top = built_value qsort_arg v /\
              push_tokens GTYPE_MAX_ELEMS GTYPE_MAX_PAIRS qsort_arg st last
                (value_tokens tok v)
              = pop_to_parent GTYPE_MAX_ELEMS top st).
  { intros st.
    destruct (value_pushed_all GTYPE_MAX_ELEMS GTYPE_MAX_PAIRS qsort_arg
                (value_height v) v (le_n _) Hw Hc tok st last [])
      as (top & Htop & Hrun).
    exists top. split; [exact Htop|].
    rewrite app_nil_r in Hrun. rewrite Hrun.
    destruct (pop_to_parent GTYPE_MAX_ELEMS top st) as [[st' r]|m]; reflexivity. }
  split; [apply Hpush|]. split.
  - destruct (Hpush []) as (top & Htop & ->). simpl. by rewrite Htop.
  - intros val Hmax. simpl. unfold append_element. simpl.
    replace (GTYPE_MAX_ELEMS <=? Z.of_nat 0) with false
      by (symmetry; apply Z.leb_gt; lia).
    reflexivity.
Qed.

Lemma push_tokens_build_the_value_witness :
  let v :=
    GV_array false 0
      [GV_scalar AGTV_INTEGER [7];
       GV_object
         [mk_gtype_pair [97] (GV_scalar AGTV_INTEGER [1]) 0;
          mk_gtype_pair [98; 98] (GV_array false 0 []) 0;
          mk_gtype_pair [97] (GV_scalar AGTV_INTEGER [3]) 0]] in
  (exists top,
     cont_val top = built_value example_qsort_arg v /\
     push_tokens 10 10 example_qsort_arg [] None (value_tokens WAGT_ELEM v)
     = pop_to_parent 10 top []) /\
  push_tokens 10 10 example_qsort_arg [] None (value_tokens WAGT_ELEM v)
  = Ok ([], Some (built_value example_qsort_arg v)) /\
  (forall val,
     0 < 10 ->
     push_tokens 10 10 example_qsort_arg [] None
       [(WAGT_BEGIN_ARRAY, Some (GV_array true 1 []));
        (WAGT_ELEM, Some val); (WAGT_END_ARRAY, None)]
     = Ok ([], Some (GV_array true 1 [val]))).
Proof.
  apply (push_tokens_build_the_value 10 10 example_qsort_arg); reflexivity.
Defined.

Example push_tokens_duplicate_key :
  push_tokens 10 10 example_qsort_arg [] None
    [(WAGT_BEGIN_OBJECT, None);
     (WAGT_KEY, Some (GV_scalar AGTV_STRING [97]));
     (WAGT_VALUE, Some (GV_scalar AGTV_INTEGER [1]));
     (WAGT_KEY, Some (GV_scalar AGTV_STRING [97]));
     (WAGT_VALUE, Some (GV_scalar AGTV_INTEGER [3]));
     (WAGT_END_OBJECT, None)]
  = Ok ([], Some (GV_object [mk_gtype_pair [97] (GV_scalar AGTV_INTEGER [3]) 1])) /\
  push_tokens 10 10 example_qsort_arg [] None [(WAGT_ELEM, Some (GV_scalar AGTV_NULL []))]
  = Err "push_gtype_value_scalar: no container" /\
  push_tokens 1 10 example_qsort_arg [] None
    [(WAGT_BEGIN_ARRAY, None);
     (WAGT_ELEM, Some (GV_scalar AGTV_NULL []));
     (WAGT_ELEM, Some (GV_scalar AGTV_NULL []))]
  = Err "number of gtype array elements exceeds the maximum allowed (1)".
Proof. repeat split; vm_compute; reflexivity. Qed.

(** ** age_vle.c: every path within the bounds is returned *)

Section VLE_complete_proofs.
Context {gtype : Type} `{GtypeOps gtype}.
Implicit Types (g : graph_context gtype) (c : path_finding_context gtype).

Lemma add_edges_loop_Ok edges : forall c ve,
  Forall (fun e => is_Some (edge_hashtable (ggctx c) !! e)) edges ->
  exists c', add_edges_loop c ve edges = Ok c'.
Proof.
  induction edges as [|e edges IH]; intros c ve Hall; simpl; [by eexists|].
  apply Forall_cons in Hall as [[ee Hee] Hall].
  unfold get_edge_entry. rewrite Hee.
  destruct (get_edge_state c e) as [visited c1] eqn:Hges.
  apply get_edge_state_spec in Hges as ((Hg & _) & _).
  apply IH.
  destruct (negb visited && check_edge_constraints c1 ee);
    [destruct (decide _)|]; simpl; by rewrite Hg.
Qed.

Lemma add_edges_loop_mem edges : forall c c' ve,
  add_edges_loop c ve edges = Ok c' ->
  exists C, dfs_edge_queue c' = C ++ dfs_edge_queue c /\
    forall x ee,
      x ∈ edges ->
      edge_state_hashtable c !! x <> Some true ->
      edge_hashtable (ggctx c) !! x = Some ee ->
      check_edge_constraints c ee = true ->
      x ∈ C.
Proof.
  induction edges as [|e edges IH]; intros c c' ve Hrun.
  { injection Hrun as <-. exists []. split; [done|]. by intros ? ? ?%not_elem_of_nil. }
  simpl in Hrun.
  destruct (get_edge_entry (ggctx c) e) as [ee0|] eqn:Hee0; [|done].
  destruct (get_edge_state c e) as [visited c1] eqn:Hges.
  apply get_edge_state_spec in Hges as (Hsp & Heq & _ & _ & Htbl & Hvis).
  pose proof Hsp as (Hg & _).
  match type of Hrun with add_edges_loop ?x _ _ = _ => set (c2 := x) in * end.
  destruct (IH c2 c' ve Hrun) as (C & HC & Hmem).
  assert (Hc2 : same_params c1 c2 /\
                (forall y, edge_state_hashtable c2 !! y = edge_state_hashtable c1 !! y) /\
                (dfs_edge_queue c2 = dfs_edge_queue c1 \/
                 dfs_edge_queue c2 = e :: dfs_edge_queue c1) /\
                (negb visited && check_edge_constraints c1 ee0 = true ->
                 dfs_edge_queue c2 = e :: dfs_edge_queue c1)).
  { subst c2. destruct (negb visited && check_edge_constraints c1 ee0);
      [destruct (decide _)|]; simpl; repeat split; auto; try done. }
  destruct Hc2 as (Hsp2 & Htbl2 & Hq2 & Hpush).
  assert (Hrest : forall x ee, x ∈ edges ->
     edge_state_hashtable c !! x <> Some true ->
     edge_hashtable (ggctx c) !! x = Some ee ->
     check_edge_constraints c ee = true ->
     x ∈ C).
  { intros x ee Hx Hnv Hl Hc. apply (Hmem x ee); [done| | |].
    - rewrite Htbl2. intros Hy. by apply Htbl in Hy.
    - destruct Hsp2 as (Hg2 & _). by rewrite Hg2, Hg.
    - rewrite (check_edge_constraints_same_params c c2); [done|].
      by eapply same_params_trans. }
  destruct Hq2 as [Hq2|Hq2].
  - exists C. split; [by rewrite HC, Hq2, Heq|].
    intros x ee Hx Hnv Hl Hc.
    apply elem_of_cons in Hx as [->|Hx]; [|by apply (Hrest x ee)].
    exfalso.
    unfold get_edge_entry in Hee0. rewrite Hl in Hee0. injection Hee0 as ->.
    assert (Hv : visited = false).
    { destruct visited; [|done]. exfalso. apply Hnv. by apply Hvis. }
    rewrite Hv in Hpush. simpl in Hpush.
    rewrite (check_edge_constraints_same_params c c1 _ Hsp) in Hpush.
    specialize (Hpush Hc). rewrite Hpush in Hq2.
    apply (f_equal (@length _)) in Hq2. simpl in Hq2. lia.
  - exists (C ++ [e]). split; [by rewrite HC, Hq2, Heq, <- app_assoc|].
    intros x ee Hx Hnv Hl Hc. apply elem_of_app.
    apply elem_of_cons in Hx as [->|Hx]; [right; by left|left; by apply (Hrest x ee)].
Qed.

Lemma walk_functional g dir s es : forall t t',
  walk g dir s es t -> walk g dir s es t' -> t = t'.
Proof.
  intros t t' Hw. revert t'.
  induction Hw as [s|s e ee es t He Hsrc Hw IH]; intros t' Hw'.
  - by inversion Hw'.
  - inversion Hw' as [|? ? ee' ? ? He' Hsrc' Hw'']; subst.
    rewrite He in He'. injection He' as <-. by apply IH.
Qed.

Lemma graph_adjacent_lookup g x ee :
  graph_adjacent g = true ->
  edge_hashtable g !! x = Some ee ->
  listed_at g (start_vertex_id ee) x edges_out = true /\
  listed_at g (end_vertex_id ee) x edges_in = true.
Proof.
  unfold graph_adjacent. intros Hadj Hl. rewrite forallb_forall in Hadj.
  apply andb_true_iff. apply (Hadj (x, ee)).
  apply list_elem_of_In. by apply elem_of_map_to_list.
Qed.

Lemma graph_adjacent_expansion g dir v x ee :
  graph_adjacent g = true ->
  edge_hashtable g !! x = Some ee ->
  src_ok dir v ee ->
  exists ve, vertex_hashtable g !! v = Some ve /\ x ∈ expansion dir ve.
Proof.
  intros Hadj Hl Hsrc.
  destruct (graph_adjacent_lookup _ _ _ Hadj Hl) as [Hout Hin].
  unfold listed_at in Hout, Hin.
  destruct (vertex_hashtable g !! start_vertex_id ee) as [ve1|] eqn:Hv1; [|done].
  destruct (vertex_hashtable g !! end_vertex_id ee) as [ve2|] eqn:Hv2; [|done].
  apply bool_decide_eq_true in Hout, Hin.
  apply elem_of_app in Hout, Hin.
  unfold expansion, src_ok in *.
  destruct dir; simpl in *;
    try (destruct Hsrc as [<-|<-]; [exists ve1|exists ve2];
         (split; [done|]); rewrite !elem_of_app; tauto);
    subst v;
    first [by (exists ve1; split; [done|]; rewrite !elem_of_app; tauto)
          |by (exists ve2; split; [done|]; rewrite !elem_of_app; tauto)].
Qed.

Lemma graph_adjacent_next g dir v x ee :
  graph_adjacent g = true ->
  edge_hashtable g !! x = Some ee ->
  is_Some (vertex_hashtable g !! next_of dir v ee).
Proof.
  intros Hadj Hl.
  destruct (graph_adjacent_lookup _ _ _ Hadj Hl) as [Hout Hin].
  unfold listed_at in Hout, Hin.
  destruct (vertex_hashtable g !! start_vertex_id ee) as [ve1|] eqn:Hv1; [|done].
  destruct (vertex_hashtable g !! end_vertex_id ee) as [ve2|] eqn:Hv2; [|done].
  unfold next_of. destruct dir; try destruct (_ =? _);
    rewrite ?Hv1, ?Hv2; by eexists.
Qed.

Lemma add_edges_expand g dir c w :
  graph_wf g = true ->
  graph_adjacent g = true ->
  ggctx c = g ->
  edge_direction c = dir ->
  is_Some (vertex_hashtable g !! w) ->
  exists c3 C,
    add_edges c w = Ok c3 /\
    dfs_edge_queue c3 = C ++ dfs_edge_queue c /\
    forall x ee,
      edge_hashtable g !! x = Some ee ->
      src_ok dir w ee ->
      edge_state_hashtable c !! x <> Some true ->
      check_edge_constraints c ee = true ->
      x ∈ C.
Proof.
  intros Hwf Hadj Hg Hdir [ve Hve].
  unfold add_edges, get_vertex_entry. rewrite Hg, Hve, Hdir.
  change ((if decide (dir = CYPHER_REL_DIR_LEFT) then [] else edges_out ve)
          ++ (if decide (dir = CYPHER_REL_DIR_RIGHT) then [] else edges_in ve)
          ++ edges_self ve) with (expansion dir ve).
  destruct (wf_expansion_src_ok _ dir _ _ Hwf Hve) as [_ Hall].
  fold (expansion dir ve) in Hall.
  destruct (add_edges_loop_Ok (expansion dir ve) c ve) as [c3 Hc3].
  { rewrite Hg. eapply Forall_impl; [exact Hall|]. simpl. intros x (ee & -> & _).
    by eexists. }
  destruct (add_edges_loop_mem _ _ _ _ Hc3) as (C & HC & Hmem).
  exists c3, C. split; [exact Hc3|]. split; [exact HC|].
  intros x ee Hl Hsrc Hnv Hc. apply (Hmem x ee); try done; [|by rewrite Hg].
  destruct (graph_adjacent_expansion _ _ _ _ _ Hadj Hl Hsrc) as (ve' & Hve' & Hx).
  rewrite Hve in Hve'. by injection Hve' as <-.
Qed.

Lemma walk_app_inv g dir s a : forall b t,
  walk g dir s (a ++ b) t -> exists m, walk g dir s a m /\ walk g dir m b t.
Proof.
  revert s. induction a as [|e a IH]; intros s b t Hw; simpl in Hw.
  - exists s. split; [constructor|done].
  - inversion Hw as [|? ? ee ? ? He Hsrc Hw']; subst.
    destruct (IH _ _ _ Hw') as (m & Ha & Hb).
    exists m. split; [by econstructor|done].
Qed.

(** *** The stacks and a path still to come *)

Lemma pending_top_on_path (es : list graphid) e p Q :
  pending es (e :: p) (e :: Q) -> pending es p Q.
Proof.
  inversion 1 as [p0 Q1 c Q2 rest HQ1 Hc Hes Hp HQ|e0 p0 C Q0 HC Hpend Hp HQ]; subst.
  - exfalso. destruct Q1 as [|x Q1]; simpl in HQ; injection HQ as -> _.
    + apply Hc. by left.
    + apply Forall_cons in HQ1 as [Hx _]. apply Hx. by left.
  - destruct C as [|x C]; simpl in HQ.
    + by injection HQ as ->.
    + injection HQ as -> _. apply Forall_cons in HC as [Hx _].
      exfalso. apply Hx. by left.
Qed.

Lemma pending_top_new (es : list graphid) top p Q :
  pending es p (top :: Q) ->
  top ∉ p ->
  (exists rest, es = rev p ++ top :: rest) \/ pending es p Q.
Proof.
  inversion 1 as [p0 Q1 c Q2 rest HQ1 Hc Hes Hp HQ|e0 p0 C Q0 HC Hpend Hp HQ];
    subst; intros Hn.
  - destruct Q1 as [|x Q1]; simpl in HQ.
    + injection HQ as -> _. left. by exists rest.
    + injection HQ as -> <-. right.
      apply Forall_cons in HQ1 as [_ HQ1]. by eapply pending_here.
  - destruct C as [|x C]; simpl in HQ.
    + injection HQ as -> _. exfalso. apply Hn. by left.
    + injection HQ as -> <-. right.
      apply Forall_cons in HC as [_ HC]. by apply pending_below.
Qed.

Lemma pending_advance (es : list graphid) top p C Q r0 rest :
  es = rev p ++ top :: r0 :: rest ->
  r0 ∈ C ->
  Forall (fun x => x ∉ top :: p) C ->
  pending es (top :: p) (C ++ top :: Q).
Proof.
  intros Hes Hin HC.
  apply list_elem_of_split in Hin as (Q1 & Q2 & ->).
  rewrite <- app_assoc. simpl.
  apply Forall_app in HC as [HQ1 HC]. apply Forall_cons in HC as [Hr0 _].
  eapply (pending_here es (top :: p) Q1 r0 _ rest); [done|done|].
  simpl. by rewrite <- app_assoc.
Qed.

Lemma pending_nonempty (es : list graphid) p : pending es p [] -> False.
Proof.
  inversion 1 as [p0 Q1 x Q2 rest HQ1 Hx Hes Hp HQ|e0 p0 C Q0 HC Hpend Hp HQ].
  - by destruct Q1.
  - by destruct C.
Qed.

Section Target.
Variables (g : graph_context gtype) (dir : cypher_rel_dir) (s t : graphid).
Variables (c0 : path_finding_context gtype) (es : list graphid).
Hypothesis Hwf : graph_wf g = true.
Hypothesis Hadj : graph_adjacent g = true.
Hypothesis Hwalk : walk g dir s es t.
Hypothesis Hnd : NoDup es.
Hypothesis Hadm : Forall (edge_admitted c0) es.
Hypothesis Hg0 : ggctx c0 = g.
Hypothesis Ht : veid c0 = t.
Hypothesis Hlo : lidx c0 <= Z.of_nat (length es).
Hypothesis Hhi : uidx_infinite c0 = true \/ Z.of_nat (length es) <= uidx c0.

(** The path goes on from the path of the stacks through [top]. *)
Lemma target_next p v Q VQ top rest ee :
  stk g dir s p v Q VQ ->
  es = rev p ++ top :: rest ->
  edge_hashtable g !! top = Some ee ->
  walk g dir (next_of dir v ee) rest t /\
  length es = (length p + 1 + length rest)%nat /\
  forall r0 rest', rest = r0 :: rest' ->
    (r0 ∉ top :: p) /\
    exists ee_r, edge_hashtable g !! r0 = Some ee_r /\
                 src_ok dir (next_of dir v ee) ee_r /\
                 check_edge_constraints c0 ee_r = true.
Proof.
  intros Hstk Hes Hee.
  pose proof (stk_walk _ _ _ _ _ _ _ Hstk) as Hwp.
  pose proof Hwalk as Hw. rewrite Hes in Hw.
  apply walk_app_inv in Hw as (m & Hw1 & Hw2).
  pose proof (walk_functional _ _ _ _ _ _ Hwp Hw1) as <-.
  inversion Hw2 as [|? ? ee' ? ? He' Hsrc' Hw3]; subst.
  rewrite Hee in He'. injection He' as <-.
  split; [exact Hw3|]. split.
  { rewrite length_app, length_rev. simpl. lia. }
  intros r0 rest' ->. split.
  - intros Hin. rewrite NoDup_app in Hnd. destruct Hnd as (_ & Hdisj & Hnd2).
    apply NoDup_cons in Hnd2 as [Htop _].
    apply elem_of_cons in Hin as [->|Hin].
    + apply Htop. by left.
    + apply (Hdisj r0); [by apply list_elem_of_In, in_rev; rewrite rev_involutive; apply list_elem_of_In|]. right. by left.
  - inversion Hw3 as [|? ? ee_r ? ? Her Hsrcr _]; subst.
    exists ee_r. split; [done|]. split; [done|].
    rewrite Forall_forall in Hadm.
    destruct (Hadm r0) as (ee2 & Hl2 & Hc2).
    { rewrite elem_of_app. right. right. by left. }
    rewrite Her in Hl2. by injection Hl2 as <-.
Qed.

(** One iteration of the search loop while the path [es] is still to
    come: the call returns [es], or it returns another path and [es] is
    still to come, or the loop goes on and [es] is still to come. *)
Lemma dfs_find_a_path_between_step_pending c v fuel :
  vle_inv g dir s v c ->
  same_params c0 c ->
  pending es (dfs_path_queue c) (dfs_edge_queue c) ->
  (exists c' v',
     dfs_find_a_path_between (S fuel) c = Some (Ok (true, c')) /\
     vle_inv g dir s v' c' /\ same_params c0 c' /\
     (rev (dfs_path_queue c') = es \/
      (pending es (dfs_path_queue c') (dfs_edge_queue c') /\
       (dfs_measure c' < dfs_measure c)%nat))) \/
  (exists c2 v2,
     dfs_find_a_path_between (S fuel) c = dfs_find_a_path_between fuel c2 /\
     vle_inv g dir s v2 c2 /\ same_params c0 c2 /\
     pending es (dfs_path_queue c2) (dfs_edge_queue c2) /\
     (dfs_measure c2 < dfs_measure c)%nat).
Proof.
  intros Hinv Hsp0 Hpend.
  remember (dfs_find_a_path_between (S fuel) c) as R eqn:Hrun.
  symmetry in Hrun. simpl in Hrun.
  destruct (dfs_edge_queue c) as [|e Q] eqn:HQ.
  { exfalso. by eapply pending_nonempty. }
  destruct (get_edge_state c e) as [visited c1] eqn:Hges.
  apply get_edge_state_spec in Hges as (Hsp & Heq & Hvq & Hpq & Htbl & Hvis).
  destruct Hinv as [Hg Hdir Hs Hstk Hvisited].
  pose proof Hsp as (Hg1 & Hs1 & Hve1 & _ & _ & Hl1 & Hu1 & Hi1 & Hdir1).
  pose proof Hsp0 as (_ & _ & Hve0 & _ & _ & Hl0 & Hu0 & Hi0 & _).
  rewrite HQ in Hstk.
  destruct visited.
  - (* the edge on top is on the path: back up *)
    assert (Hin : e ∈ dfs_path_queue c) by (apply Hvisited, Hvis; done).
    destruct (stk_top_visited _ _ _ _ _ _ _ _ Hstk Hin) as (p' & v0 & Hp & Hnp & Hstk').
    rewrite Hpq, Hp in Hrun. rewrite Z.eqb_refl in Hrun. simpl in Hrun.
    rewrite Hp in Hpend. apply pending_top_on_path in Hpend.
    destruct (stk_top_unvisited _ _ _ _ _ _ _ _ Hstk' Hnp) as (_ & Hnone & Hdirected).
    assert (Hvis' : forall x,
      <[e:=false]> (edge_state_hashtable c1) !! x = Some true <-> x ∈ p').
    { intros x. destruct (decide (x = e)) as [->|Hne].
      - rewrite lookup_insert_eq. split; [done|]. intros Hx. done.
      - rewrite lookup_insert_ne by done. rewrite Htbl, Hvisited, Hp.
        rewrite elem_of_cons. split; [intros [?|?]; done|by right]. }
    right.
    destruct (decide (edge_direction c1 = CYPHER_REL_DIR_NONE)) as [Hd|Hd].
    + rewrite Hdir1, Hdir in Hd. destruct (Hnone Hd) as (VQ' & HVQ & Hstk'').
      rewrite Hvq, HVQ in Hrun.
      match type of Hrun with dfs_find_a_path_between _ ?x = _ =>
        assert (Hinv2 : vle_inv g dir s v0 x)
          by (constructor; simpl; try congruence; done);
        exists x, v0 end.
      split; [done|]. split; [done|]. split; [|split; [done|]].
      * eapply same_params_trans; [exact Hsp0|].
        eapply same_params_trans; [exact Hsp|]. by repeat split.
      * unfold dfs_measure. simpl. rewrite Hg1, HQ, Hp, stack_weight_top_path. lia.
    + rewrite Hdir1, Hdir in Hd. specialize (Hdirected Hd).
      match type of Hrun with dfs_find_a_path_between _ ?x = _ =>
        assert (Hinv2 : vle_inv g dir s v0 x)
          by (constructor; simpl; rewrite ?Hvq; try congruence; done);
        exists x, v0 end.
      split; [done|]. split; [done|]. split; [|split; [done|]].
      * eapply same_params_trans; [exact Hsp0|].
        eapply same_params_trans; [exact Hsp|]. by repeat split.
      * unfold dfs_measure. simpl. rewrite Hg1, HQ, Hp, stack_weight_top_path. lia.
  - (* a new edge: extend the path *)
    assert (Hnin : e ∉ dfs_path_queue c).
    { intros Hin. apply Hvisited, Hvis in Hin. done. }
    destruct (stk_top_unvisited _ _ _ _ _ _ _ _ Hstk Hnin)
      as ((ee & Hee & Hsrc) & Hnone & _).
    pose proof (stk_path_room _ _ _ _ _ _ _ _ _ Hstk Hnin Hee) as Hroom.
    unfold get_edge_entry in Hrun. rewrite Hg1, Hg, Hee in Hrun.
    set (c2 := set_dfs_path_queue (set_visited c1 e true) (e :: dfs_path_queue c1))
      in *.
    set (w := next_of dir v ee).
    assert (Hnext : get_next_vertex c2 ee = Ok w).
    { subst w. rewrite <- Hdir, <- Hdir1.
      destruct (decide (dir = CYPHER_REL_DIR_NONE)) as [Hd|Hd].
      - destruct (Hnone Hd) as (VQ' & HVQ & _).
        apply (get_next_vertex_spec c2 ee v VQ'); simpl.
        + by rewrite Hdir1, Hdir.
        + intros _. by rewrite Hvq.
      - apply (get_next_vertex_spec c2 ee v []); simpl.
        + by rewrite Hdir1, Hdir.
        + rewrite Hdir1, Hdir. done. }
    rewrite Hnext in Hrun.
    assert (Hinv2 : vle_inv g dir s w c2).
    { constructor; simpl; try congruence.
      - rewrite Hpq, Heq, HQ, Hvq.
        pose proof (stk_cons g dir s _ v e Q _ ee [] Hstk Hnin Hee Hsrc
                      (Forall_nil_2 _)) as Hx.
        by rewrite vq_nil in Hx.
      - intros x. rewrite Hpq, elem_of_cons.
        destruct (decide (x = e)) as [->|Hne].
        + rewrite lookup_insert_eq. split; [by left|done].
        + rewrite lookup_insert_ne by done. rewrite Htbl, Hvisited.
          split; [by right|by intros [?|?]]. }
    assert (Hsp2 : same_params c c2).
    { eapply same_params_trans; [exact Hsp|]. by repeat split. }
    assert (Hsp02 : same_params c0 c2) by (by eapply same_params_trans).
    assert (Hm : (dfs_measure c =
                  pending_weight (max_degree g)
                    (size (edge_hashtable g) - length (dfs_path_queue c))
                  + stack_weight (max_degree g) (size (edge_hashtable g))
                      (dfs_path_queue c) Q)%nat).
    { unfold dfs_measure. rewrite Hg, HQ. by apply stack_weight_top_pending. }
    assert (Hm2 : (dfs_measure c2 =
                   S (stack_weight (max_degree g) (size (edge_hashtable g))
                        (dfs_path_queue c) Q))%nat).
    { unfold dfs_measure. simpl. rewrite Hg1, Hg, Hpq, Heq, HQ.
      apply stack_weight_top_path. }
    assert (Hpw : (pending_weight (max_degree g)
                     (size (edge_hashtable g) - length (dfs_path_queue c))
                   = 2 + max_degree g
                         * pending_weight (max_degree g)
                             (size (edge_hashtable g) - S (length (dfs_path_queue c))))%nat).
    { replace (size (edge_hashtable g) - length (dfs_path_queue c))%nat
        with (S (size (edge_hashtable g) - S (length (dfs_path_queue c)))) by lia.
      reflexivity. }
    assert (Hsize : queue_size (e :: dfs_path_queue c1)
                    = Z.of_nat (S (length (dfs_path_queue c)))).
    { unfold queue_size. simpl length. by rewrite Hpq. }
    (* where the path to come stands *)
    assert (Htarget :
      (exists rest, es = rev (dfs_path_queue c) ++ e :: rest /\
         walk g dir w rest t /\
         length es = (length (dfs_path_queue c) + 1 + length rest)%nat /\
         forall r0 rest', rest = r0 :: rest' ->
           (r0 ∉ e :: dfs_path_queue c) /\
           exists ee_r, edge_hashtable g !! r0 = Some ee_r /\
                        src_ok dir w ee_r /\
                        check_edge_constraints c0 ee_r = true) \/
      pending es (dfs_path_queue c) Q).
    { 
      destruct (pending_top_new _ _ _ _ Hpend Hnin) as [[rest Hes]|Hlow]; [left|by right].
      exists rest. split; [exact Hes|]. by eapply target_next. }
    destruct ((w =? veid c1) && negb (uidx_infinite c1)
              && (queue_size (e :: dfs_path_queue c1) >? uidx c1)) eqn:Hover.
    { right. exists c2, w. split; [done|]. split; [done|]. split; [done|].
      split; [|lia].
      simpl. rewrite Hpq, Heq, HQ.
      destruct Htarget as [(rest & Hes & _ & Hlen & _)|Hlow].
      - exfalso. apply andb_prop in Hover as [Hover Hgt].
        apply andb_prop in Hover as [_ Hfin].
        rewrite Hsize in Hgt. rewrite Hi1, Hi0 in Hfin. rewrite Hu1, Hu0 in Hgt.
        destruct Hhi as [Hinf|Hle]; [by rewrite Hinf in Hfin|]. apply Z.gtb_lt in Hgt. lia.
      - by apply (pending_below es e _ [] Q). }
    (* the expansion *)
    set (cond := uidx_infinite c1 || (queue_size (e :: dfs_path_queue c1) <? uidx c1)) in *.
    assert (Hexp : exists c3 C,
      (if cond then add_edges c2 w else Ok c2) = Ok c3 /\
      dfs_edge_queue c3 = C ++ dfs_edge_queue c2 /\
      (cond = false -> c3 = c2 /\ C = []) /\
      (cond = true -> forall x ee_x,
         edge_hashtable g !! x = Some ee_x ->
         src_ok dir w ee_x ->
         x ∉ e :: dfs_path_queue c ->
         check_edge_constraints c0 ee_x = true ->
         x ∈ C)).
    { destruct cond.
      - destruct Hinv2 as [Hg2 Hdir2 Hs2 Hstk2 Hvisited2].
        destruct (add_edges_expand g dir c2 w Hwf Hadj Hg2 Hdir2
                    (graph_adjacent_next _ dir v _ _ Hadj Hee))
          as (c3 & C & Hc3 & HC & Hmem).
        exists c3, C. split; [done|]. split; [done|]. split; [done|].
        intros _ x ee_x Hl Hsrcx Hnx Hcx. apply (Hmem x ee_x); try done.
        + intros Hx. apply Hnx. apply (Hvisited2 x) in Hx. simpl in Hx.
          by rewrite Hpq in Hx.
        + by rewrite (check_edge_constraints_same_params c0 c2).
      - exists c2, []. by repeat split. }
    destruct Hexp as (c3 & C & Hexp & HC & Hnoexp & Hmem).
    rewrite Hexp in Hrun.
    assert (Hc3 : vle_inv g dir s w c3 /\ same_params c2 c3 /\
                  dfs_path_queue c3 = dfs_path_queue c2 /\
                  Forall (fun x => x ∉ e :: dfs_path_queue c) C /\
                  (dfs_measure c3 < dfs_measure c)%nat).
    { destruct cond.
      - destruct Hinv2 as [Hg2 Hdir2 Hs2 Hstk2 Hvisited2].
        pose proof (add_edges_length _ _ _ Hexp) as Hlen.
        apply add_edges_spec in Hexp
          as (C' & HC1 & HC2 & HC3 & HC4 & HC5 & HC6); [|by rewrite Hg2].
        assert (C' = C) as -> by (rewrite HC in HC1; by apply app_inv_tail in HC1).
        pose proof HC4 as (Hg3 & Hs3 & _ & _ & _ & _ & _ & _ & Hdir3).
        assert (HCok : Forall (child_ok g dir w (e :: dfs_path_queue c)) C).
        { eapply Forall_impl; [exact HC6|]. simpl. intros x [Hx1 Hx2].
          split.
          * intros Hx. apply Hx1. apply (Hvisited2 x). simpl. by rewrite Hpq.
          * by rewrite Hg1, Hg, Hdir1, Hdir in Hx2. }
        split; [|split; [done|split; [done|split]]].
        + constructor; try congruence.
          * rewrite HC1, HC2, HC3, Hdir2. simpl. rewrite Hpq, Heq, HQ, Hvq.
            by apply (stk_cons g dir s _ v e Q _ ee C).
          * intros x. rewrite HC5, HC3. apply Hvisited2.
        + eapply Forall_impl; [exact HCok|]. by intros x [Hx _].
        + rewrite HC1, length_app in Hlen.
          unfold dfs_measure at 1. rewrite Hg3, Hg2, HC3, HC1. simpl.
          rewrite Hpq, Heq, HQ.
          rewrite stack_weight_pending, stack_weight_top_path.
          2:{ eapply Forall_impl; [exact HCok|]. by intros x [Hx _]. }
          rewrite Hm, Hpw. rewrite Hg2 in Hlen. nia.
      - destruct (Hnoexp eq_refl) as [-> ->]. split; [done|].
        split; [apply same_params_refl|]. split; [done|]. split; [constructor|lia]. }
    destruct Hc3 as (Hinv3 & Hsp3 & Hpath3 & HCnot & Hm3).
    assert (Hsp03 : same_params c0 c3) by (by eapply same_params_trans).
    (* the path to come after the step *)
    assert (Hafter :
      (rev (dfs_path_queue c3) = es /\
       (w =? veid c1) && (queue_size (e :: dfs_path_queue c1) >=? lidx c1)
       && (uidx_infinite c1 || (queue_size (e :: dfs_path_queue c1) <=? uidx c1)) = true) \/
      pending es (dfs_path_queue c3) (dfs_edge_queue c3)).
    { rewrite Hpath3, HC. simpl. rewrite Hpq, Heq, HQ.
      destruct Htarget as [(rest & Hes & Hwr & Hlen & Hr0)|Hlow].
      - destruct rest as [|r0 rest'].
        + left. split; [by rewrite Hes|].
          assert (w = t) as Hwt by (by inversion Hwr).
          rewrite Hpq in Hsize.
          rewrite Hsize, Hve1, Hve0, Hl1, Hl0, Hi1, Hi0, Hu1, Hu0, Ht, Hwt.
          rewrite Z.eqb_refl. simpl in Hlen.
          replace (Z.of_nat (S (length (dfs_path_queue c)))) with (Z.of_nat (length es))
            by lia.
          replace (Z.of_nat (length es) >=? lidx c0) with true
            by (symmetry; apply Z.geb_le; lia).
          simpl. destruct Hhi as [->|Hle]; [done|].
          replace (Z.of_nat (length es) <=? uidx c0) with true
            by (symmetry; apply Z.leb_le; lia).
          apply orb_true_r.
        + right. destruct (Hr0 r0 rest' eq_refl) as (Hnr & ee_r & Hlr & Hsrcr & Hcr).
          apply (pending_advance es e _ C Q r0 rest'); [done| |done].
          apply (Hmem) with ee_r; try done.
          subst cond. rewrite Hsize, Hi1, Hi0, Hu1, Hu0.
          destruct Hhi as [->|Hle]; [done|].
          simpl in Hlen.
          replace (Z.of_nat (S (length (dfs_path_queue c))) <? uidx c0) with true
            by (symmetry; apply Z.ltb_lt; lia).
          apply orb_true_r.
      - right. by apply pending_below. }
    destruct ((w =? veid c1) && (queue_size (e :: dfs_path_queue c1) >=? lidx c1)
              && (uidx_infinite c1
                  || (queue_size (e :: dfs_path_queue c1) <=? uidx c1))) eqn:Hfound.
    + left. exists c3, w. split; [done|]. split; [done|]. split; [done|].
      destruct Hafter as [[? _]|?]; [by left|by right].
    + right. exists c3, w. split; [done|]. split; [done|]. split; [done|].
      destruct Hafter as [[_ ?]|?]; [done|by split].
Qed.

(** A call of the search with [es] still to come returns a path: [es],
    or another path after which [es] is still to come. *)
Lemma dfs_find_a_path_between_pending fuel : forall c v,
  vle_inv g dir s v c ->
  same_params c0 c ->
  pending es (dfs_path_queue c) (dfs_edge_queue c) ->
  (dfs_measure c < fuel)%nat ->
  exists c' v',
    dfs_find_a_path_between fuel c = Some (Ok (true, c')) /\
    vle_inv g dir s v' c' /\ same_params c0 c' /\
    (rev (dfs_path_queue c') = es \/
     (pending es (dfs_path_queue c') (dfs_edge_queue c') /\
      (dfs_measure c' < dfs_measure c)%nat)).
Proof.
  induction fuel as [|fuel IH]; intros c v Hinv Hsp Hpend Hm; [lia|].
  destruct (dfs_find_a_path_between_step_pending c v fuel Hinv Hsp Hpend)
    as [(c' & v' & Hrun & Hinv' & Hsp' & Hres)
       |(c2 & v2 & Hrun & Hinv2 & Hsp2 & Hpend2 & Hm2)].
  - by exists c', v'.
  - destruct (IH c2 v2 Hinv2 Hsp2 Hpend2) as (c' & v' & Hrun' & Hinv' & Hsp' & Hres);
      [lia|].
    exists c', v'. rewrite Hrun. split; [done|]. split; [done|]. split; [done|].
    destruct Hres as [?|[? ?]]; [by left|right; split; [done|lia]].
Qed.

(** The calls go on until one of them returns [es]. *)
Lemma gtype_vle_pending n : forall c v,
  (dfs_measure c < n)%nat ->
  vle_reachable c0 c ->
  vle_inv g dir s v c ->
  same_params c0 c ->
  pending es (dfs_path_queue c) (dfs_edge_queue c) ->
  exists c1 vpc c',
    vle_reachable c0 c1 /\
    gtype_vle (S (dfs_measure c1)) c1 = Some (Ok (Some vpc, c')) /\
    container_edges vpc = es.
Proof.
  induction n as [|n IH]; intros c v Hm Hreach Hinv Hsp Hpend; [lia|].
  destruct (dfs_find_a_path_between_pending (S (dfs_measure c)) c v Hinv Hsp Hpend)
    as (c' & v' & Hrun & Hinv' & Hsp' & Hres); [lia|].
  pose proof Hinv' as [Hg' Hdir' Hs' Hstk' Hvis'].
  pose proof (stk_walk _ _ _ _ _ _ _ Hstk') as Hw.
  destruct (fill_interior_vertices_walk _ _ _ _ _ Hw) as (r & Hr & Hce & _ & _).
  assert (Hcall : gtype_vle (S (dfs_measure c)) c = Some (Ok (Some (s :: r), c'))).
  { unfold gtype_vle. rewrite Hrun. unfold build_path_container.
    by rewrite Hg', Hs', Hr. }
  destruct Hres as [Hes|[Hpend' Hm']].
  - exists c, (s :: r), c'. split; [done|]. split; [done|]. by rewrite Hce.
  - apply (IH c' v'); try done; [lia|]. by eapply vle_reach_next.
Qed.

End Target.

Lemma walk_end_vertex g dir s es t :
  graph_adjacent g = true ->
  walk g dir s es t ->
  es <> [] ->
  is_Some (vertex_hashtable g !! t).
Proof.
  intros Hadj. induction 1 as [s|s e ee es t He Hsrc Hw IH]; [done|]. intros _.
  destruct es as [|e2 es]; [|by apply IH].
  inversion Hw; subst. by eapply graph_adjacent_next.
Qed.

(** The edge stack that the first call starts from holds every admitted
    edge that leaves the start vertex. *)
Lemma load_initial_dfs_queues_mem g dir ci c0 :
  graph_wf g = true ->
  graph_adjacent g = true ->
  load_initial_dfs_queues ci = Ok c0 ->
  ggctx ci = g ->
  edge_direction ci = dir ->
  edge_state_hashtable ci = ∅ ->
  is_Some (vertex_hashtable g !! vsid ci) ->
  is_Some (vertex_hashtable g !! veid ci) ->
  forall x ee,
    edge_hashtable g !! x = Some ee ->
    src_ok dir (vsid ci) ee ->
    check_edge_constraints c0 ee = true ->
    x ∈ dfs_edge_queue c0.
Proof.
  intros Hwf Hadj Hrun Hg Hdir Hst Hs Ht x ee Hl Hsrc Hc.
  unfold load_initial_dfs_queues, do_vsid_and_veid_exist, get_vertex_entry in Hrun.
  rewrite Hg in Hrun. rewrite !bool_decide_eq_true_2 in Hrun by done.
  simpl in Hrun.
  destruct (add_edges_expand g dir ci (vsid ci) Hwf Hadj Hg Hdir Hs)
    as (c3 & C & Hc3 & HC & Hmem).
  rewrite Hc3 in Hrun. injection Hrun as ->.
  rewrite HC. apply elem_of_app. left. apply (Hmem x ee); try done.
  - rewrite Hst, lookup_empty. done.
  - apply add_edges_spec in Hc3 as (_ & _ & _ & _ & Hsp & _); [|by rewrite Hg].
    by rewrite <- (check_edge_constraints_same_params ci c0).
Qed.

Lemma build_vle_context_pending g s e arg3 arg4 dir lab props c0 es :
  graph_wf g = true ->
  graph_adjacent g = true ->
  build_vle_context g s e arg3 arg4 dir lab props = Ok c0 ->
  es <> [] ->
  walk g dir s es e ->
  Forall (edge_admitted c0) es ->
  pending es (dfs_path_queue c0) (dfs_edge_queue c0).
Proof.
  intros Hwf Hadj Hctx Hne Hwalk Hadm.
  assert (Hp0 : dfs_path_queue c0 = []).
  { unfold build_vle_context, load_initial_dfs_queues in Hctx.
    destruct arg4; simpl in Hctx;
      (destruct (negb _) in Hctx;
       [by injection Hctx as <-
       |apply add_edges_spec in Hctx as (_ & _ & _ & -> & _); done]). }
  pose proof (walk_end_vertex _ _ _ _ _ Hadj Hwalk Hne) as Hve.
  destruct es as [|e1 rest]; [done|].
  inversion Hwalk as [|? ? ee1 ? ? He1 Hsrc1 _]; subst.
  destruct (build_vle_context_inv _ _ _ _ _ _ _ _ _ Hwf Hctx)
    as ([Hg0 _ _ _ _] & _).
  destruct (graph_adjacent_expansion _ _ _ _ _ Hadj He1 Hsrc1) as (vs & Hvs & _).
  apply Forall_cons in Hadm as [(ee' & Hl' & Hc') _].
  rewrite Hg0, He1 in Hl'. injection Hl' as <-.
  assert (Hin : e1 ∈ dfs_edge_queue c0).
  { unfold build_vle_context in Hctx.
    destruct arg4; simpl in Hctx;
      (eapply (load_initial_dfs_queues_mem _ dir _ c0 Hwf Hadj Hctx);
       simpl; eauto). }
  apply list_elem_of_split in Hin as (Q1 & Q2 & ->). rewrite Hp0.
  apply (pending_here _ [] Q1 e1 Q2 rest); [|apply not_elem_of_nil|done].
  apply Forall_forall. intros ? _. apply not_elem_of_nil.
Qed.

End VLE_complete_proofs.

(** X17.  On a well-formed graph index that lists every edge at its two
    vertices, the calls of [gtype_vle] return every path: for each
    sequence of at least one edge that leads from the start vertex to the
    end vertex in the direction of the traversal, repeats no edge, has
    only edges that pass the label and property constraints and has a
    length within the bounds, some call of the sequence of calls returns
    the path container with exactly these edges. *)
Theorem gtype_vle_returns_every_path
  {gtype : Type} `{GtypeOps gtype}
  (g : graph_context gtype) (s e : graphid) (arg3 arg4 : option Z)
  (dir : cypher_rel_dir) (lab : option string) (props : option gtype)
  (c0 : path_finding_context gtype) (es : list graphid) :
  graph_wf g = true ->
  graph_adjacent g = true ->
  build_vle_context g s e arg3 arg4 dir lab props = Ok c0 ->
  es <> [] ->
  walk g dir s es e ->
  NoDup es ->
  Forall (edge_admitted c0) es ->
  default 1 arg3 <= Z.of_nat (length es) ->
  match arg4 with Some hi => Z.of_nat (length es) <= hi | None => True end ->
  exists (c1 : path_finding_context gtype) (vpc : list graphid)
         (c' : path_finding_context gtype),
    vle_reachable c0 c1 /\
    gtype_vle (S (dfs_measure c1)) c1 = Some (Ok (Some vpc, c')) /\
    container_edges vpc = es.
Proof.
  intros Hwf Hadj Hctx Hne Hwalk Hnd Hadm Hlo Hhi.
  destruct (build_vle_context_inv _ _ _ _ _ _ _ _ _ Hwf Hctx)
    as (Hinv0 & Hve & Hl & Hinf & Hu).
  pose proof (build_vle_context_pending _ _ _ _ _ _ _ _ _ _ Hwf Hadj Hctx Hne Hwalk Hadm)
    as Hpend.
  pose proof Hinv0 as [Hg0 _ _ _ _].
  eapply (gtype_vle_pending g dir s e c0 es Hwf Hadj Hwalk Hnd Hadm Hg0 Hve)
    with (n := S (dfs_measure c0)) (c := c0) (v := s).
  - by rewrite Hl.
  - destruct arg4 as [hi|].
    + right. by rewrite (Hu hi eq_refl).
    + left. by apply Hinf.
  - lia.
  - apply vle_reach_first.
  - exact Hinv0.
  - apply same_params_refl.
  - exact Hpend.
Qed.

Lemma gtype_vle_returns_every_path_witness :
  exists c0 c1 vpc c',
    build_vle_context fixture_graph 1 5 (Some 3) (Some 3)
      CYPHER_REL_DIR_RIGHT None None = Ok c0 /\
    vle_reachable c0 c1 /\
    gtype_vle (S (dfs_measure c1)) c1 = Some (Ok (Some vpc, c')) /\
    container_edges vpc = [107; 102; 110].
Proof.
  assert (Hc0 : exists c0, build_vle_context fixture_graph 1 5 (Some 3) (Some 3)
                             CYPHER_REL_DIR_RIGHT None None = Ok c0).
  { eexists. vm_compute. reflexivity. }
  destruct Hc0 as [c0 Hc0]. exists c0.
  destruct (gtype_vle_returns_every_path fixture_graph 1 5 (Some 3) (Some 3)
              CYPHER_REL_DIR_RIGHT None None c0 [107; 102; 110])
    as (c1 & vpc & c' & Hreach & Hcall & Hce).
  - vm_compute. reflexivity.
  - vm_compute. reflexivity.
  - exact Hc0.
  - done.
  - repeat (eapply walk_cons; [vm_compute; reflexivity|vm_compute; reflexivity|]).
    apply walk_nil.
  - apply NoDup_ListNoDup. repeat constructor; simpl; lia.
  - injection Hc0 as <-.
    repeat (apply Forall_cons; split; [eexists; split; vm_compute; reflexivity|]).
    apply Forall_nil_2.
  - simpl. lia.
  - simpl. lia.
  - by exists c1, vpc, c'.
Defined.
